(** * FlappyBingus: deterministic simulation and replay

    A shallow embedding of the simulation core of the game
    (public/js/util.js, public/js/game.js, public/js/main.js, with
    public/js/keybinds.js) and the
    properties of its seeded random source, random tape, skills, scoring,
    game-over state and replay driver.

    Conventions.
    - A JavaScript number is modelled as a rational ([Q]): every finite
      double is a rational, comparisons are exact, and the rounding of
      [+ - * /] is not modelled.  So no sum absorbs a small term, no
      result overflows to [Infinity] and none is [NaN]; a statement whose
      truth for doubles depends on that carries the bounds it needs as
      hypotheses.  The 32-bit integer operations of the
      generator ([^], [|], [<<], [>>>], [Math.imul]) are modelled on [Z]
      with their wrap-around written out.
    - [Math.exp], [Math.cos], [Math.sin] and [Math.hypot] are
      implementation-approximated in ECMAScript; they are fields of an
      [Engine] over which the development is parametric.  Their results
      are rationals: [Math.exp] of a large argument is a number here, not
      [Infinity].
    - Every call of the swappable random source [_rand01] is a [Draw] node
      of a program tree ([Prog]); a direct call of [Math.random] is a
      [Noise] node.  A tree is run against a [World] that holds the
      installed source and the tape arrays. *)

From Stdlib Require Import ZArith QArith Qround Qabs Qminmax Lqa Lia List Bool String Ascii.
From Stdlib Require DecimalString.
Import ListNotations.

Set Implicit Arguments.

(* ================================================================== *)
(** ** 32-bit integer operations of JavaScript *)
(* ================================================================== *)

Module Int32.
Local Open Scope Z_scope.

Definition two32 : Z := 4294967296.
Definition two31 : Z := 2147483648.

(** [ToUint32] and [ToInt32] of an integral number. *)
Definition toUint32 (z : Z) : Z := z mod two32.
Definition toInt32 (z : Z) : Z :=
  let u := z mod two32 in if u <? two31 then u else u - two32.

(** [a ^ b], [a | b], [a << n], [a >>> n], [Math.imul(a, b)]. *)
Definition xor (a b : Z) : Z := toInt32 (Z.lxor (toInt32 a) (toInt32 b)).
Definition or (a b : Z) : Z := toInt32 (Z.lor (toInt32 a) (toInt32 b)).
Definition shl (a n : Z) : Z := toInt32 (Z.shiftl (toInt32 a) (n mod 32)).
Definition ushr (a n : Z) : Z := Z.shiftr (toUint32 a) (n mod 32).
Definition imul (a b : Z) : Z := toInt32 (toInt32 a * toInt32 b).

(** Addition of two integral doubles: exact below 2^53, otherwise rounded
    to the nearest double, ties to even.  Arguments are non-negative
    wherever the generator uses it. *)
Definition roundDouble (z : Z) : Z :=
  if z <? 2 ^ 53 then z
  else
    let e := Z.log2 z - 52 in
    let q := Z.shiftr z e in
    let r := z - Z.shiftl q e in
    let half := Z.shiftl 1 (e - 1) in
    let up := Z.shiftl (q + 1) e in
    let down := Z.shiftl q e in
    if r <? half then down
    else if half <? r then up
    else if Z.even q then down else up.

Definition dadd (a b : Z) : Z := roundDouble (a + b).

End Int32.

(* ================================================================== *)
(** ** util.js: the seeded generator *)
(* ================================================================== *)

Module Rng.
Import Int32.
Local Open Scope Z_scope.

(** A seed string is its sequence of UTF-16 code units ([charCodeAt]).
    [codeUnits] gives them for a literal of ASCII characters, the only
    use made of it; of another character it would give the bytes of its
    UTF-8 encoding. *)
Definition Seed := list Z.

Definition codeUnits (s : string) : Seed :=
  List.map (fun c => Z.of_nat (nat_of_ascii c)) (list_ascii_of_string s).

(** [xmur3(str)]: the loop over the code units ... *)
Definition xmur3_mix (h : Z) (c : Z) : Z :=
  let h1 := imul (xor h c) 3432918353 in
  or (shl h1 13) (ushr h1 19).

Definition xmur3_init (str : Seed) : Z :=
  List.fold_left xmur3_mix str (xor 1779033703 (Z.of_nat (List.length str))).

(** ... and one call of the closure it returns: the new [h] and the result. *)
Definition xmur3_next (h : Z) : Z * Z :=
  let h1 := imul (xor h (ushr h 16)) 2246822507 in
  let h2 := imul (xor h1 (ushr h1 13)) 3266489909 in
  let h3 := xor h2 (ushr h2 16) in
  (h3, toUint32 h3).

(** [mulberry32(a)]: one call of the closure; the closed-over [a] is a
    double that is never reduced, the returned value is a 32-bit unsigned
    integer divided by 2^32. *)
Definition mulberry32_bits (a : Z) : Z * Z :=
  let a' := dadd a 1831565813 (* 0x6D2B79F5 *) in
  let t := a' in
  let t := imul (xor t (ushr t 15)) (or t 1) in
  let t := xor t (toInt32 t + imul (xor t (ushr t 7)) (or t 61)) in
  (a', toUint32 (xor t (ushr t 14))).

Definition mulberry32 (a : Z) : Z * Q :=
  let '(a', n) := mulberry32_bits a in (a', Qmake n 4294967296).

(** [createSeededRand(seedStr)]: the initial state of the closure. *)
Definition createSeededRand (seedStr : Seed) : Z :=
  snd (xmur3_next (xmur3_init seedStr)).

(** The values of [n] successive calls of a generator in state [a]. *)
Fixpoint callSeq (a : Z) (n : nat) : list Q :=
  match n with
  | O => []
  | S k => let '(a', v) := mulberry32 a in v :: callSeq a' k
  end.

(** The state of a generator after [n] calls. *)
Fixpoint stateAfter (a : Z) (n : nat) : Z :=
  match n with
  | O => a
  | S k => stateAfter (fst (mulberry32 a)) k
  end.

(** Two generator closures called in an arbitrary interleaving: [true]
    calls the first, [false] the second; each has its own [a]. *)
Fixpoint interleave (sched : list bool) (a1 a2 : Z) : list Q * list Q :=
  match sched with
  | [] => ([], [])
  | true :: rest =>
      let '(a1', v) := mulberry32 a1 in
      let '(o1, o2) := interleave rest a1' a2 in (v :: o1, o2)
  | false :: rest =>
      let '(a2', v) := mulberry32 a2 in
      let '(o1, o2) := interleave rest a1 a2' in (o1, v :: o2)
  end.

End Rng.

(* ================================================================== *)
(** ** Program trees and the swappable random source *)
(* ================================================================== *)

Module Sim.
Local Open Scope Q_scope.

(** A computation that may call the current random source ([Draw]), call
    [Math.random] directly ([Noise]) or loop for ever ([Spin]). *)
Inductive Prog (A : Type) : Type :=
| Ret (a : A)
| Draw (k : Q -> Prog A)
| Noise (k : Q -> Prog A)
| Spin.

Arguments Ret {A} a.
Arguments Draw {A} k.
Arguments Noise {A} k.
Arguments Spin {A}.

Fixpoint bind {A B} (p : Prog A) (f : A -> Prog B) : Prog B :=
  match p with
  | Ret a => f a
  | Draw k => Draw (fun u => bind (k u) f)
  | Noise k => Noise (fun u => bind (k u) f)
  | Spin => Spin
  end.

(** The closures [setRandSource] can install (util.js, main.js).  A tape
    is a JavaScript array shared by reference: the recorder appends to the
    array object it was given, the player reads the array object it was
    given; arrays live in [tapes] and are named by their index. *)
Inductive RandSource : Type :=
| SrcMath                               (* () => Math.random() *)
| SrcSeeded (a : Z)                     (* createSeededRand(seed) *)
| SrcRecorder (a : Z) (tapeOut : nat) (count : nat)
| SrcPlayer (tapeIn : nat) (i : nat).

Record World : Type := mkWorld {
  tapes : list (list Q);
  source : RandSource;
  mathRandom : nat -> Q;        (* the values Math.random will return *)
  mathCalls : nat
}.

Definition setRandSource (s : RandSource) (w : World) : World :=
  mkWorld (tapes w) s (mathRandom w) (mathCalls w).

(** [[]] evaluated as a new array object. *)
Definition newTape (w : World) : nat * World :=
  (List.length (tapes w),
   mkWorld (tapes w ++ [[]]) (source w) (mathRandom w) (mathCalls w)).

Definition tapeAt (w : World) (r : nat) : list Q := nth r (tapes w) [].

Fixpoint pushAt (r : nat) (v : Q) (ts : list (list Q)) : list (list Q) :=
  match ts, r with
  | [], _ => []
  | t :: rest, O => (t ++ [v]) :: rest
  | t :: rest, S r' => t :: pushAt r' v rest
  end.

Inductive Error : Type :=
| TapeUnderrun (index len : nat)    (* Error("RNG tape underrun at index ...") *)
| TypeError.                        (* a property of null is read *)

Inductive Outcome (A : Type) : Type :=
| Done (a : A) (w : World)
| Thrown (e : Error) (w : World)
| Diverges.

Arguments Done {A} a w.
Arguments Thrown {A} e w.
Arguments Diverges {A}.

Definition mathRandomCall (w : World) : Q * World :=
  (mathRandom w (mathCalls w),
   mkWorld (tapes w) (source w) (mathRandom w) (S (mathCalls w))).

(** One call [_rand01()] of the installed source. *)
Definition callSource (w : World) : Outcome Q :=
  match source w with
  | SrcMath => let '(v, w') := mathRandomCall w in Done v w'
  | SrcSeeded a =>
      let '(a', v) := Rng.mulberry32 a in
      Done v (setRandSource (SrcSeeded a') w)
  | SrcRecorder a r count =>
      let '(a', v) := Rng.mulberry32 a in
      Done v (mkWorld (pushAt r v (tapes w)) (SrcRecorder a' r (S count))
                      (mathRandom w) (mathCalls w))
  | SrcPlayer r i =>
      if (List.length (tapeAt w r) <=? i)%nat
      then Thrown (TapeUnderrun i (List.length (tapeAt w r))) w
      else Done (nth i (tapeAt w r) 0) (setRandSource (SrcPlayer r (S i)) w)
  end.

Fixpoint run {A} (p : Prog A) (w : World) : Outcome A :=
  match p with
  | Ret a => Done a w
  | Draw k =>
      match callSource w with
      | Done v w' => run (k v) w'
      | Thrown e w' => Thrown e w'
      | Diverges => Diverges
      end
  | Noise k => let '(v, w') := mathRandomCall w in run (k v) w'
  | Spin => Diverges
  end.

(** [createTapeRandRecorder(seedStr, tapeOut)] and
    [createTapeRandPlayer(tapeIn)]. *)
Definition createTapeRandRecorder (seedStr : Rng.Seed) (tapeOut : nat) : RandSource :=
  SrcRecorder (Rng.createSeededRand seedStr) tapeOut 0.

Definition createTapeRandPlayer (tapeIn : nat) : RandSource := SrcPlayer tapeIn 0.

Definition createSeededRand (seedStr : Rng.Seed) : RandSource :=
  SrcSeeded (Rng.createSeededRand seedStr).

(** [n] successive calls of the installed source, values in call order. *)
Fixpoint drawN (n : nat) : Prog (list Q) :=
  match n with
  | O => Ret []
  | S k => Draw (fun v => bind (drawN k) (fun vs => Ret (v :: vs)))
  end.

(** [rand(a, b)] of util.js. *)
Definition rand (a b : Q) : Prog Q := Draw (fun u => Ret (a + (b - a) * u)).

End Sim.

(* ================================================================== *)
(** ** util.js: numeric helpers *)
(* ================================================================== *)

Module Util.
Local Open Scope Q_scope.

Definition leb (a b : Q) : bool := Qle_bool a b.
Definition ltb (a b : Q) : bool := negb (Qle_bool b a).
Definition eqb (a b : Q) : bool := Qeq_bool a b.

(** [Number(x) || d] on a number: [d] replaces zero. *)
Definition orElse (x d : Q) : Q := if eqb x 0 then d else x.

(** [Math.floor], [Math.round] (ties upwards), [x | 0], [Math.sign],
    and [a % b] of two numbers ([b] non-zero). *)
Definition floor (x : Q) : Q := inject_Z (Qfloor x).
Definition round (x : Q) : Q := inject_Z (Qfloor (x + 0.5)).
Definition truncZ (x : Q) : Z := Z.quot (Qnum x) (Zpos (Qden x)).
Definition toInt (x : Q) : Z := Int32.toInt32 (truncZ x).
Definition sign (x : Q) : Q := if ltb 0 x then 1 else if ltb x 0 then -1 else 0.
Definition rem (a b : Q) : Q := a - b * inject_Z (truncZ (a / b)).

Definition PI : Q := 884279719003555 # 281474976710656.

Definition clamp (v a b : Q) : Q := Qmax a (Qmin b v).
Definition lerp (a b t : Q) : Q := a + (b - a) * t.

Definition approach (cur tgt md : Q) : Q :=
  let d := tgt - cur in
  if leb (Qabs d) md then tgt else cur + sign d * md.

(** The functions of [Math] whose results the language leaves to the
    implementation.  The results are rationals: overflow to [Infinity]
    is not modelled. *)
Record Engine : Type := mkEngine {
  m_exp : Q -> Q;
  m_cos : Q -> Q;
  m_sin : Q -> Q;
  m_hypot : Q -> Q -> Q
}.

Record Norm : Type := mkNorm { n_x : Q; n_y : Q; n_len : Q }.

Definition norm2 (E : Engine) (x y : Q) : Norm :=
  let l := m_hypot E x y in
  if ltb 1e-9 l then mkNorm (x / l) (y / l) l else mkNorm 0 0 0.

Definition circleRect (cx cy r rx ry rw rh : Q) : bool :=
  let qx := clamp cx rx (rx + rw) in
  let qy := clamp cy ry (ry + rh) in
  let dx := cx - qx in
  let dy := cy - qy in
  leb (dx * dx + dy * dy) (r * r).

Definition circleCircle (ax ay ar bx by' br : Q) : bool :=
  let dx := ax - bx in
  let dy := ay - by' in
  let rr := ar + br in
  leb (dx * dx + dy * dy) (rr * rr).

End Util.


(* ================================================================== *)
(** ** input.js: the input object *)
(* ================================================================== *)

Module Input.
Local Open Scope Q_scope.

Record Cursor : Type := mkCursor { cur_x : Q; cur_y : Q; cur_has : bool }.
Record Move : Type := mkMove { dx : Q; dy : Q }.

(** The entries of [this.keys] that [getMove] reads. *)
Record Keys : Type := mkKeys { KeyW : bool; KeyS : bool; KeyA : bool; KeyD : bool }.

Definition noKeys : Keys := mkKeys false false false false.

(** An object with a [getMove] method and a [cursor]: an instance of the
    class [Input], or the object literal [replayInput] of main.js. *)
Inductive InputObj : Type :=
| RealInput (keys : Keys) (cursor : Cursor)
| ReplayInput (_move : Move) (cursor : Cursor).

Definition keysMove (k : Keys) : Move :=
  let dy := 0 in
  let dy := if KeyW k then dy - 1 else dy in
  let dy := if KeyS k then dy + 1 else dy in
  let dx := 0 in
  let dx := if KeyA k then dx - 1 else dx in
  let dx := if KeyD k then dx + 1 else dx in
  mkMove dx dy.

Definition getMove (i : InputObj) : Move :=
  match i with
  | RealInput k _ => keysMove k
  | ReplayInput m _ => m
  end.

Definition cursor (i : InputObj) : Cursor :=
  match i with
  | RealInput _ c => c
  | ReplayInput _ c => c
  end.

Definition setCursor (c : Cursor) (i : InputObj) : InputObj :=
  match i with
  | RealInput k _ => RealInput k c
  | ReplayInput m _ => ReplayInput m c
  end.

End Input.
(* ================================================================== *)
(** ** game.js: entities, configuration and the [Game] object *)
(* ================================================================== *)

Module Game.
Import Util Sim Input.
Local Open Scope Q_scope.
Local Open Scope string_scope.

Inductive State : Type := MENU | PLAY | OVER.

Definition State_eqb (a b : State) : bool :=
  match a, b with
  | MENU, MENU | PLAY, PLAY | OVER, OVER => true
  | _, _ => false
  end.

(** *** Entities *)

Record Pipe : Type := mkPipe {
  pipe_x : Q; pipe_y : Q; pipe_w : Q; pipe_h : Q;
  pipe_vx : Q; pipe_vy : Q;
  pipe_entered : bool; pipe_scored : bool
}.

Definition newPipe (x y w h vx vy : Q) : Pipe := mkPipe x y w h vx vy false false.
Definition pipe_cx (p : Pipe) : Q := pipe_x p + pipe_w p * 0.5.
Definition pipe_cy (p : Pipe) : Q := pipe_y p + pipe_h p * 0.5.

Definition Pipe_update (dt mul W H : Q) (p : Pipe) : Pipe :=
  let x := pipe_x p + pipe_vx p * dt * mul in
  let y := pipe_y p + pipe_vy p * dt * mul in
  let entered :=
    if pipe_entered p then true
    else leb 0 (x + pipe_w p) && leb x W && leb 0 (y + pipe_h p) && leb y H in
  mkPipe x y (pipe_w p) (pipe_h p) (pipe_vx p) (pipe_vy p) entered (pipe_scored p).

Definition Pipe_off (W H m : Q) (p : Pipe) : bool :=
  ltb (W + m) (pipe_x p) || ltb (pipe_x p + pipe_w p) (- m)
  || ltb (H + m) (pipe_y p) || ltb (pipe_y p + pipe_h p) (- m).

Inductive Axis : Type := AxisX | AxisY.

Record Gate : Type := mkGate {
  gate_axis : Axis; gate_pos : Q; gate_prev : Q; gate_v : Q;
  gate_gapCenter : Q; gate_gapHalf : Q; gate_thick : Q;
  gate_entered : bool; gate_cleared : bool
}.

Definition newGate (axis : Axis) (pos v gapCenter gapHalf thick : Q) : Gate :=
  mkGate axis pos pos v gapCenter gapHalf thick false false.

Definition Gate_update (dt W H : Q) (g : Gate) : Gate :=
  let prev := gate_pos g in
  let pos := gate_pos g + gate_v g * dt in
  let lim := match gate_axis g with AxisX => W | AxisY => H end in
  let entered :=
    if gate_entered g then true
    else leb 0 (pos + gate_thick g * 0.5) && leb (pos - gate_thick g * 0.5) lim in
  mkGate (gate_axis g) pos prev (gate_v g) (gate_gapCenter g) (gate_gapHalf g)
         (gate_thick g) entered (gate_cleared g).

Definition Gate_crossed (playerAxis : Q) (g : Gate) : bool :=
  if gate_cleared g || negb (gate_entered g) then false
  else if ltb 0 (gate_v g) then ltb (gate_prev g) playerAxis && leb playerAxis (gate_pos g)
  else if ltb (gate_v g) 0 then ltb playerAxis (gate_prev g) && leb (gate_pos g) playerAxis
  else false.

Definition Gate_off (W H m : Q) (g : Gate) : bool :=
  match gate_axis g with
  | AxisX => ltb (gate_pos g) (- m) || ltb (W + m) (gate_pos g)
  | AxisY => ltb (gate_pos g) (- m) || ltb (H + m) (gate_pos g)
  end.

Definition set_gate_cleared (v : bool) (g : Gate) : Gate :=
  mkGate (gate_axis g) (gate_pos g) (gate_prev g) (gate_v g) (gate_gapCenter g)
         (gate_gapHalf g) (gate_thick g) (gate_entered g) v.

Record Orb : Type := mkOrb {
  orb_x : Q; orb_y : Q; orb_vx : Q; orb_vy : Q;
  orb_r : Q; orb_life : Q; orb_max : Q; orb_ph : Q
}.

(** [new Orb(...)]: the constructor draws the phase. *)
Definition newOrb (x y vx vy r life : Q) : Prog Orb :=
  bind (rand 0 (PI * 2)) (fun ph => Ret (mkOrb x y vx vy r life life ph)).

Definition Orb_update (dt W H : Q) (o : Orb) : Orb :=
  let life := orb_life o - dt in
  let ph := orb_ph o + dt * 2.2 in
  let x := orb_x o + orb_vx o * dt in
  let y := orb_y o + orb_vy o * dt in
  let pad := orb_r o + 4 in
  let vx := orb_vx o in
  let vy := orb_vy o in
  let '(x, vx) := if ltb x pad then (pad, Qabs vx) else (x, vx) in
  let '(x, vx) := if ltb (W - pad) x then (W - pad, - Qabs vx) else (x, vx) in
  let '(y, vy) := if ltb y pad then (pad, Qabs vy) else (y, vy) in
  let '(y, vy) := if ltb (H - pad) y then (H - pad, - Qabs vy) else (y, vy) in
  mkOrb x y vx vy (orb_r o) life (orb_max o) ph.

Definition Orb_dead (o : Orb) : bool := leb (orb_life o) 0.

Inductive Color : Type :=
| Css (s : string)
| Hsla (h s l a : Q).

Definition hsla (h s l a : Q) : Color :=
  Hsla (rem (rem h 360 + 360) 360) (clamp s 0 100) (clamp l 0 100) (clamp a 0 1).

Record Part : Type := mkPart {
  part_x : Q; part_y : Q; part_vx : Q; part_vy : Q;
  part_life : Q; part_max : Q; part_size : Q;
  part_color : Color; part_add : bool; part_drag : Q
}.

Definition newPart (x y vx vy life size : Q) (color : Color) (add : bool) : Part :=
  mkPart x y vx vy life life size color add 0.

Definition set_part_drag (d : Q) (p : Part) : Part :=
  mkPart (part_x p) (part_y p) (part_vx p) (part_vy p) (part_life p) (part_max p)
         (part_size p) (part_color p) (part_add p) d.

Definition Part_update (E : Engine) (dt : Q) (p : Part) : Part :=
  let life := part_life p - dt in
  if leb life 0 then
    mkPart (part_x p) (part_y p) (part_vx p) (part_vy p) life (part_max p)
           (part_size p) (part_color p) (part_add p) (part_drag p)
  else
    let '(vx, vy) :=
      if ltb 0 (part_drag p)
      then let d := m_exp E (- part_drag p * dt) in (part_vx p * d, part_vy p * d)
      else (part_vx p, part_vy p) in
    mkPart (part_x p + vx * dt) (part_y p + vy * dt) vx vy life (part_max p)
           (part_size p) (part_color p) (part_add p) (part_drag p).

(** The text of a [FloatText]: a literal or the template [`+${n}`]. *)
Inductive Txt : Type :=
| Lit (s : string)
| Plus (n : Q).

Record FloatText : Type := mkFloatText {
  ft_txt : Txt; ft_x : Q; ft_y : Q; ft_vx : Q; ft_vy : Q;
  ft_life : Q; ft_max : Q; ft_color : Color; ft_size : Q
}.

(** [new FloatText(txt, x, y, color)]: the constructor draws the velocity. *)
Definition newFloatText (txt : Txt) (x y : Q) (color : Color) : Prog FloatText :=
  bind (rand (-18) 18) (fun vx =>
  bind (rand (-90) (-55)) (fun vy =>
  Ret (mkFloatText txt x y vx vy 0.9 0.9 color 18))).

Definition FloatText_update (E : Engine) (dt : Q) (t : FloatText) : FloatText :=
  let life := ft_life t - dt in
  if leb life 0 then
    mkFloatText (ft_txt t) (ft_x t) (ft_y t) (ft_vx t) (ft_vy t) life (ft_max t)
                (ft_color t) (ft_size t)
  else
    let x := ft_x t + ft_vx t * dt in
    let y := ft_y t + ft_vy t * dt in
    let d := m_exp E (- 2.7 * dt) in
    mkFloatText (ft_txt t) x y (ft_vx t * d) (ft_vy t * d) life (ft_max t)
                (ft_color t) (ft_size t).

Record SlowField : Type := mkSlowField {
  sf_x : Q; sf_y : Q; sf_r : Q; sf_fac : Q; sf_t : Q; sf_tm : Q
}.

(** A background dot. *)
Record Dot : Type := mkDot { dot_x : Q; dot_y : Q; dot_r : Q; dot_s : Q }.

(** *** config.js: the shape of [DEFAULT_CONFIG], which [mergeKnown] keeps *)

Record PlayerCfg : Type := mkPlayerCfg {
  maxSpeed : Q; accel : Q; friction : Q;
  sizeScale : Q; sizeMin : Q; sizeMax : Q; radiusScale : Q
}.

Record PipesCfg : Type := mkPipesCfg {
  timeToMax : Q; scoreToMax : Q; mixTime : Q; mixScore : Q;
  si_start : Q; si_end : Q; si_min : Q; si_max : Q;
  speed_start : Q; speed_end : Q;
  th_scale : Q; th_min : Q; th_max : Q;
  gap_startScale : Q; gap_endScale : Q; gap_min : Q; gap_max : Q;
  startCadence : Q; endCadence : Q; jitterMin : Q; jitterMax : Q;
  wall0 : Q; wall1 : Q; aimed0 : Q; aimed1 : Q
}.

Record SkillsCfg : Type := mkSkillsCfg {
  dash_cooldown : Q; dash_duration : Q; dash_speed : Q;
  phase_cooldown : Q; phase_duration : Q;
  tp_cooldown : Q; tp_range : Q; tp_effectDuration : Q; tp_burstParticles : Q;
  sf_cooldown : Q; sf_duration : Q; sf_radius : Q; sf_slowFactor : Q
}.

Record OrbsCfg : Type := mkOrbsCfg {
  orbs_enabled : bool; intervalMin : Q; intervalMax : Q; maxOnScreen : Q;
  lifetime : Q; orb_radius : Q; driftSpeedMin : Q; driftSpeedMax : Q;
  safeDistance : Q
}.

Record ScoringCfg : Type := mkScoringCfg {
  pipeDodge : Q; orbBase : Q; orbComboBonus : Q; orbComboMax : Q;
  perfect_enabled : bool; perfect_bonus : Q; windowScale : Q; flashDuration : Q
}.

Record UiCfg : Type := mkUiCfg { glowAt : Q; sparkleAt : Q; sparkleRate : Q }.

Record Config : Type := mkConfig {
  c_player : PlayerCfg;
  c_pipes : PipesCfg;
  c_skills : SkillsCfg;
  c_orbs : OrbsCfg;
  c_scoring : ScoringCfg;
  c_ui : UiCfg
}.

Definition DEFAULT_CONFIG : Config :=
  mkConfig
    (mkPlayerCfg 420 2600 16 0.055 28 54 0.38)
    (mkPipesCfg 38 120 0.55 0.45
                0.78 0.23 0.18 0.90
                240 560
                0.055 28 64
                0.30 0.20 88 190
                3.8 2.3 0.2 0.7
                0.18 0.30 0.26 0.40)
    (mkSkillsCfg 1.15 0.18 900
                 1.75 0.40
                 2.10 170 0.35 34
                 4.50 1.80 210 0.58)
    (mkOrbsCfg true 0.95 1.65 6 10.0 12 10 45 120)
    (mkScoringCfg 1 5 1 30 true 10 0.075 0.55)
    (mkUiCfg 8 12 28).

(** *** The game object *)

(** [this.player]. *)
Record Player : Type := mkPlayer {
  p_x : Q;
  p_y : Q;
  p_vx : Q;
  p_vy : Q;
  p_w : Q;
  p_h : Q;
  p_r : Q;
  lastX : Q;
  lastY : Q;
  invT : Q;
  dashT : Q;
  dashVX : Q;
  dashVY : Q
}.

Definition set_p_x (v : Q) (x : Player) : Player :=
  mkPlayer v (p_y x) (p_vx x) (p_vy x) (p_w x) (p_h x) (p_r x) (lastX x)
    (lastY x) (invT x) (dashT x) (dashVX x) (dashVY x).
Definition set_p_y (v : Q) (x : Player) : Player :=
  mkPlayer (p_x x) v (p_vx x) (p_vy x) (p_w x) (p_h x) (p_r x) (lastX x)
    (lastY x) (invT x) (dashT x) (dashVX x) (dashVY x).
Definition set_p_vx (v : Q) (x : Player) : Player :=
  mkPlayer (p_x x) (p_y x) v (p_vy x) (p_w x) (p_h x) (p_r x) (lastX x)
    (lastY x) (invT x) (dashT x) (dashVX x) (dashVY x).
Definition set_p_vy (v : Q) (x : Player) : Player :=
  mkPlayer (p_x x) (p_y x) (p_vx x) v (p_w x) (p_h x) (p_r x) (lastX x)
    (lastY x) (invT x) (dashT x) (dashVX x) (dashVY x).
Definition set_lastX (v : Q) (x : Player) : Player :=
  mkPlayer (p_x x) (p_y x) (p_vx x) (p_vy x) (p_w x) (p_h x) (p_r x) v
    (lastY x) (invT x) (dashT x) (dashVX x) (dashVY x).
Definition set_lastY (v : Q) (x : Player) : Player :=
  mkPlayer (p_x x) (p_y x) (p_vx x) (p_vy x) (p_w x) (p_h x) (p_r x)
    (lastX x) v (invT x) (dashT x) (dashVX x) (dashVY x).
Definition set_invT (v : Q) (x : Player) : Player :=
  mkPlayer (p_x x) (p_y x) (p_vx x) (p_vy x) (p_w x) (p_h x) (p_r x)
    (lastX x) (lastY x) v (dashT x) (dashVX x) (dashVY x).
Definition set_dashT (v : Q) (x : Player) : Player :=
  mkPlayer (p_x x) (p_y x) (p_vx x) (p_vy x) (p_w x) (p_h x) (p_r x)
    (lastX x) (lastY x) (invT x) v (dashVX x) (dashVY x).
Definition set_dashVX (v : Q) (x : Player) : Player :=
  mkPlayer (p_x x) (p_y x) (p_vx x) (p_vy x) (p_w x) (p_h x) (p_r x)
    (lastX x) (lastY x) (invT x) (dashT x) v (dashVY x).
Definition set_dashVY (v : Q) (x : Player) : Player :=
  mkPlayer (p_x x) (p_y x) (p_vx x) (p_vy x) (p_w x) (p_h x) (p_r x)
    (lastX x) (lastY x) (invT x) (dashT x) (dashVX x) v.

(** [this.cds]. *)
Record Cooldowns : Type := mkCooldowns {
  cd_dash : Q;
  cd_phase : Q;
  cd_teleport : Q;
  cd_slowField : Q
}.

Definition set_cd_dash (v : Q) (x : Cooldowns) : Cooldowns :=
  mkCooldowns v (cd_phase x) (cd_teleport x) (cd_slowField x).
Definition set_cd_phase (v : Q) (x : Cooldowns) : Cooldowns :=
  mkCooldowns (cd_dash x) v (cd_teleport x) (cd_slowField x).
Definition set_cd_teleport (v : Q) (x : Cooldowns) : Cooldowns :=
  mkCooldowns (cd_dash x) (cd_phase x) v (cd_slowField x).
Definition set_cd_slowField (v : Q) (x : Cooldowns) : Cooldowns :=
  mkCooldowns (cd_dash x) (cd_phase x) (cd_teleport x) v.

(** The fields of a [Game] object.  [canvasW] and [canvasH] are
    [this.canvas.width] and [this.canvas.height].  [this.input],
    [this.getTrailId] and [this.onGameOver] refer to objects and closures of
    main.js: the methods below take the input object and the trail id as
    arguments and return the call of [onGameOver] as a result. *)
Record Game : Type := mkGame {
  state : State;
  W : Q;
  H : Q;
  canvasW : Q;
  canvasH : Q;
  bgDots : list Dot;
  player : Player;
  pipes : list Pipe;
  gates : list Gate;
  orbs : list Orb;
  parts : list Part;
  floats : list FloatText;
  score : Q;
  timeAlive : Q;
  pipeT : Q;
  specialT : Q;
  orbT : Q;
  combo : Q;
  comboBreakFlash : Q;
  comboSparkAcc : Q;
  perfectT : Q;
  perfectMax : Q;
  slowField : option SlowField;
  cds : Cooldowns;
  trailAcc : Q;
  trailHue : Q;
  audioEnabled : bool;
  cfg : Config
}.

Definition set_state (v : State) (x : Game) : Game :=
  mkGame v (W x) (H x) (canvasW x) (canvasH x) (bgDots x) (player x)
    (pipes x) (gates x) (orbs x) (parts x) (floats x) (score x)
    (timeAlive x) (pipeT x) (specialT x) (orbT x) (combo x)
    (comboBreakFlash x) (comboSparkAcc x) (perfectT x) (perfectMax x)
    (slowField x) (cds x) (trailAcc x) (trailHue x) (audioEnabled x) (cfg x).
Definition set_bgDots (v : list Dot) (x : Game) : Game :=
  mkGame (state x) (W x) (H x) (canvasW x) (canvasH x) v (player x)
    (pipes x) (gates x) (orbs x) (parts x) (floats x) (score x)
    (timeAlive x) (pipeT x) (specialT x) (orbT x) (combo x)
    (comboBreakFlash x) (comboSparkAcc x) (perfectT x) (perfectMax x)
    (slowField x) (cds x) (trailAcc x) (trailHue x) (audioEnabled x) (cfg x).
Definition set_player (v : Player) (x : Game) : Game :=
  mkGame (state x) (W x) (H x) (canvasW x) (canvasH x) (bgDots x) v
    (pipes x) (gates x) (orbs x) (parts x) (floats x) (score x)
    (timeAlive x) (pipeT x) (specialT x) (orbT x) (combo x)
    (comboBreakFlash x) (comboSparkAcc x) (perfectT x) (perfectMax x)
    (slowField x) (cds x) (trailAcc x) (trailHue x) (audioEnabled x) (cfg x).
Definition set_pipes (v : list Pipe) (x : Game) : Game :=
  mkGame (state x) (W x) (H x) (canvasW x) (canvasH x) (bgDots x) (player x)
    v (gates x) (orbs x) (parts x) (floats x) (score x) (timeAlive x)
    (pipeT x) (specialT x) (orbT x) (combo x) (comboBreakFlash x)
    (comboSparkAcc x) (perfectT x) (perfectMax x) (slowField x) (cds x)
    (trailAcc x) (trailHue x) (audioEnabled x) (cfg x).
Definition set_gates (v : list Gate) (x : Game) : Game :=
  mkGame (state x) (W x) (H x) (canvasW x) (canvasH x) (bgDots x) (player x)
    (pipes x) v (orbs x) (parts x) (floats x) (score x) (timeAlive x)
    (pipeT x) (specialT x) (orbT x) (combo x) (comboBreakFlash x)
    (comboSparkAcc x) (perfectT x) (perfectMax x) (slowField x) (cds x)
    (trailAcc x) (trailHue x) (audioEnabled x) (cfg x).
Definition set_orbs (v : list Orb) (x : Game) : Game :=
  mkGame (state x) (W x) (H x) (canvasW x) (canvasH x) (bgDots x) (player x)
    (pipes x) (gates x) v (parts x) (floats x) (score x) (timeAlive x)
    (pipeT x) (specialT x) (orbT x) (combo x) (comboBreakFlash x)
    (comboSparkAcc x) (perfectT x) (perfectMax x) (slowField x) (cds x)
    (trailAcc x) (trailHue x) (audioEnabled x) (cfg x).
Definition set_parts (v : list Part) (x : Game) : Game :=
  mkGame (state x) (W x) (H x) (canvasW x) (canvasH x) (bgDots x) (player x)
    (pipes x) (gates x) (orbs x) v (floats x) (score x) (timeAlive x)
    (pipeT x) (specialT x) (orbT x) (combo x) (comboBreakFlash x)
    (comboSparkAcc x) (perfectT x) (perfectMax x) (slowField x) (cds x)
    (trailAcc x) (trailHue x) (audioEnabled x) (cfg x).
Definition set_floats (v : list FloatText) (x : Game) : Game :=
  mkGame (state x) (W x) (H x) (canvasW x) (canvasH x) (bgDots x) (player x)
    (pipes x) (gates x) (orbs x) (parts x) v (score x) (timeAlive x)
    (pipeT x) (specialT x) (orbT x) (combo x) (comboBreakFlash x)
    (comboSparkAcc x) (perfectT x) (perfectMax x) (slowField x) (cds x)
    (trailAcc x) (trailHue x) (audioEnabled x) (cfg x).
Definition set_score (v : Q) (x : Game) : Game :=
  mkGame (state x) (W x) (H x) (canvasW x) (canvasH x) (bgDots x) (player x)
    (pipes x) (gates x) (orbs x) (parts x) (floats x) v (timeAlive x)
    (pipeT x) (specialT x) (orbT x) (combo x) (comboBreakFlash x)
    (comboSparkAcc x) (perfectT x) (perfectMax x) (slowField x) (cds x)
    (trailAcc x) (trailHue x) (audioEnabled x) (cfg x).
Definition set_timeAlive (v : Q) (x : Game) : Game :=
  mkGame (state x) (W x) (H x) (canvasW x) (canvasH x) (bgDots x) (player x)
    (pipes x) (gates x) (orbs x) (parts x) (floats x) (score x) v (pipeT x)
    (specialT x) (orbT x) (combo x) (comboBreakFlash x) (comboSparkAcc x)
    (perfectT x) (perfectMax x) (slowField x) (cds x) (trailAcc x)
    (trailHue x) (audioEnabled x) (cfg x).
Definition set_pipeT (v : Q) (x : Game) : Game :=
  mkGame (state x) (W x) (H x) (canvasW x) (canvasH x) (bgDots x) (player x)
    (pipes x) (gates x) (orbs x) (parts x) (floats x) (score x)
    (timeAlive x) v (specialT x) (orbT x) (combo x) (comboBreakFlash x)
    (comboSparkAcc x) (perfectT x) (perfectMax x) (slowField x) (cds x)
    (trailAcc x) (trailHue x) (audioEnabled x) (cfg x).
Definition set_specialT (v : Q) (x : Game) : Game :=
  mkGame (state x) (W x) (H x) (canvasW x) (canvasH x) (bgDots x) (player x)
    (pipes x) (gates x) (orbs x) (parts x) (floats x) (score x)
    (timeAlive x) (pipeT x) v (orbT x) (combo x) (comboBreakFlash x)
    (comboSparkAcc x) (perfectT x) (perfectMax x) (slowField x) (cds x)
    (trailAcc x) (trailHue x) (audioEnabled x) (cfg x).
Definition set_orbT (v : Q) (x : Game) : Game :=
  mkGame (state x) (W x) (H x) (canvasW x) (canvasH x) (bgDots x) (player x)
    (pipes x) (gates x) (orbs x) (parts x) (floats x) (score x)
    (timeAlive x) (pipeT x) (specialT x) v (combo x) (comboBreakFlash x)
    (comboSparkAcc x) (perfectT x) (perfectMax x) (slowField x) (cds x)
    (trailAcc x) (trailHue x) (audioEnabled x) (cfg x).
Definition set_combo (v : Q) (x : Game) : Game :=
  mkGame (state x) (W x) (H x) (canvasW x) (canvasH x) (bgDots x) (player x)
    (pipes x) (gates x) (orbs x) (parts x) (floats x) (score x)
    (timeAlive x) (pipeT x) (specialT x) (orbT x) v (comboBreakFlash x)
    (comboSparkAcc x) (perfectT x) (perfectMax x) (slowField x) (cds x)
    (trailAcc x) (trailHue x) (audioEnabled x) (cfg x).
Definition set_comboBreakFlash (v : Q) (x : Game) : Game :=
  mkGame (state x) (W x) (H x) (canvasW x) (canvasH x) (bgDots x) (player x)
    (pipes x) (gates x) (orbs x) (parts x) (floats x) (score x)
    (timeAlive x) (pipeT x) (specialT x) (orbT x) (combo x) v
    (comboSparkAcc x) (perfectT x) (perfectMax x) (slowField x) (cds x)
    (trailAcc x) (trailHue x) (audioEnabled x) (cfg x).
Definition set_comboSparkAcc (v : Q) (x : Game) : Game :=
  mkGame (state x) (W x) (H x) (canvasW x) (canvasH x) (bgDots x) (player x)
    (pipes x) (gates x) (orbs x) (parts x) (floats x) (score x)
    (timeAlive x) (pipeT x) (specialT x) (orbT x) (combo x)
    (comboBreakFlash x) v (perfectT x) (perfectMax x) (slowField x) (cds x)
    (trailAcc x) (trailHue x) (audioEnabled x) (cfg x).
Definition set_perfectT (v : Q) (x : Game) : Game :=
  mkGame (state x) (W x) (H x) (canvasW x) (canvasH x) (bgDots x) (player x)
    (pipes x) (gates x) (orbs x) (parts x) (floats x) (score x)
    (timeAlive x) (pipeT x) (specialT x) (orbT x) (combo x)
    (comboBreakFlash x) (comboSparkAcc x) v (perfectMax x) (slowField x)
    (cds x) (trailAcc x) (trailHue x) (audioEnabled x) (cfg x).
Definition set_perfectMax (v : Q) (x : Game) : Game :=
  mkGame (state x) (W x) (H x) (canvasW x) (canvasH x) (bgDots x) (player x)
    (pipes x) (gates x) (orbs x) (parts x) (floats x) (score x)
    (timeAlive x) (pipeT x) (specialT x) (orbT x) (combo x)
    (comboBreakFlash x) (comboSparkAcc x) (perfectT x) v (slowField x)
    (cds x) (trailAcc x) (trailHue x) (audioEnabled x) (cfg x).
Definition set_slowField (v : option SlowField) (x : Game) : Game :=
  mkGame (state x) (W x) (H x) (canvasW x) (canvasH x) (bgDots x) (player x)
    (pipes x) (gates x) (orbs x) (parts x) (floats x) (score x)
    (timeAlive x) (pipeT x) (specialT x) (orbT x) (combo x)
    (comboBreakFlash x) (comboSparkAcc x) (perfectT x) (perfectMax x) v
    (cds x) (trailAcc x) (trailHue x) (audioEnabled x) (cfg x).
Definition set_cds (v : Cooldowns) (x : Game) : Game :=
  mkGame (state x) (W x) (H x) (canvasW x) (canvasH x) (bgDots x) (player x)
    (pipes x) (gates x) (orbs x) (parts x) (floats x) (score x)
    (timeAlive x) (pipeT x) (specialT x) (orbT x) (combo x)
    (comboBreakFlash x) (comboSparkAcc x) (perfectT x) (perfectMax x)
    (slowField x) v (trailAcc x) (trailHue x) (audioEnabled x) (cfg x).
Definition set_trailAcc (v : Q) (x : Game) : Game :=
  mkGame (state x) (W x) (H x) (canvasW x) (canvasH x) (bgDots x) (player x)
    (pipes x) (gates x) (orbs x) (parts x) (floats x) (score x)
    (timeAlive x) (pipeT x) (specialT x) (orbT x) (combo x)
    (comboBreakFlash x) (comboSparkAcc x) (perfectT x) (perfectMax x)
    (slowField x) (cds x) v (trailHue x) (audioEnabled x) (cfg x).
Definition set_trailHue (v : Q) (x : Game) : Game :=
  mkGame (state x) (W x) (H x) (canvasW x) (canvasH x) (bgDots x) (player x)
    (pipes x) (gates x) (orbs x) (parts x) (floats x) (score x)
    (timeAlive x) (pipeT x) (specialT x) (orbT x) (combo x)
    (comboBreakFlash x) (comboSparkAcc x) (perfectT x) (perfectMax x)
    (slowField x) (cds x) (trailAcc x) v (audioEnabled x) (cfg x).

(** *** Methods: state passing over program trees *)

Definition GameM (A : Type) : Type := Game -> Prog (A * Game).

Definition ret {A} (a : A) : GameM A := fun g => Ret (a, g).

Definition bindG {A B} (m : GameM A) (f : A -> GameM B) : GameM B :=
  fun g => bind (m g) (fun r => f (fst r) (snd r)).

Definition lift {A} (p : Prog A) : GameM A :=
  fun g => bind p (fun a => Ret (a, g)).

Definition get : GameM Game := fun g => Ret (g, g).
Definition modify (f : Game -> Game) : GameM unit := fun g => Ret (tt, f g).
Definition randG (a b : Q) : GameM Q := lift (rand a b).
Definition spin {A} : GameM A := fun _ => Spin.

Notation "x <- m ;; k" := (bindG m (fun x => k))
  (at level 61, m at next level, right associativity).
Notation "m ;; k" := (bindG m (fun _ => k))
  (at level 61, right associativity).

(** [for (let i = 0; i < n; i++) body(i)]. *)
Fixpoint forFrom (i : nat) (n : nat) (body : nat -> GameM unit) : GameM unit :=
  match n with
  | O => ret tt
  | S k => body i ;; forFrom (S i) k body
  end.

Definition forN (n : Z) (body : nat -> GameM unit) : GameM unit :=
  forFrom 0 (Z.to_nat n) body.

Definition pushPipe (p : Pipe) : GameM unit := modify (fun g => set_pipes (pipes g ++ [p]) g).
Definition pushGate (x : Gate) : GameM unit := modify (fun g => set_gates (gates g ++ [x]) g).
Definition pushOrb (o : Orb) : GameM unit := modify (fun g => set_orbs (orbs g ++ [o]) g).
Definition pushPart (p : Part) : GameM unit := modify (fun g => set_parts (parts g ++ [p]) g).
Definition pushFloat (t : FloatText) : GameM unit :=
  modify (fun g => set_floats (floats g ++ [t]) g).

Section Methods.
Variable E : Engine.

Definition noCooldowns : Cooldowns := mkCooldowns 0 0 0 0.

Definition _resetPlayer (g : Game) : Game :=
  let p := player g in
  set_player
    (mkPlayer (W g * 0.5) (H g * 0.5) 0 0 (p_w p) (p_h p) (p_r p)
              0 (-1) 0 0 (dashVX p) (dashVY p)) g.

Definition _resetRun (clearScore : bool) : GameM unit :=
  modify (fun g =>
    let g := set_pipes [] g in
    let g := set_gates [] g in
    let g := set_orbs [] g in
    let g := set_parts [] g in
    let g := set_floats [] g in
    let g := if clearScore then set_score 0 g else g in
    let g := set_timeAlive 0 g in
    let g := set_pipeT 0 g in
    set_specialT 1.6 g) ;;
  g <- get ;;
  t <- randG (intervalMin (c_orbs (cfg g))) (intervalMax (c_orbs (cfg g))) ;;
  modify (fun g =>
    let g := set_orbT t g in
    let g := set_combo 0 g in
    let g := set_comboBreakFlash 0 g in
    let g := set_comboSparkAcc 0 g in
    let g := set_perfectT 0 g in
    let g := set_perfectMax 0 g in
    let g := set_slowField None g in
    let g := set_cds noCooldowns g in
    let g := set_trailAcc 0 g in
    let g := set_trailHue 0 g in
    _resetPlayer g).

Definition setStateMenu : GameM unit :=
  modify (set_state MENU) ;; _resetRun false.

Definition startRun : GameM unit :=
  modify (set_state PLAY) ;; _resetRun true.

Definition restartRun : GameM unit := startRun.

Definition _margin (g : Game) : Q := clamp (Qmin (W g) (H g) * 0.25) 110 240.

Definition _difficulty01 (g : Game) : Q :=
  let t := timeAlive g in
  let s := score g in
  let c := c_pipes (cfg g) in
  let tc := Qmax 1e-3 (orElse (timeToMax c) 38) in
  let sc := Qmax 1e-3 (orElse (scoreToMax c) 120) in
  let mt := clamp (orElse (mixTime c) 0.55) 0 1 in
  let ms := clamp (orElse (mixScore c) 0.45) 0 1 in
  let dT := 1 - m_exp E (- (t / tc)) in
  let dS := 1 - m_exp E (- (s / sc)) in
  clamp (mt * dT + ms * dS) 0 1.

Definition _spawnInterval (g : Game) : Q :=
  let d := _difficulty01 g in
  let c := c_pipes (cfg g) in
  clamp (lerp (si_start c) (si_end c) d) (si_min c) (si_max c).

Definition _pipeSpeed (g : Game) : Q :=
  let d := _difficulty01 g in
  lerp (speed_start (c_pipes (cfg g))) (speed_end (c_pipes (cfg g))) d.

Definition _thickness (g : Game) : Q :=
  let base := Qmin (W g) (H g) in
  let c := c_pipes (cfg g) in
  clamp (base * th_scale c) (th_min c) (th_max c).

Definition _gapSize (g : Game) : Q :=
  let d := _difficulty01 g in
  let base := Qmin (W g) (H g) in
  let c := c_pipes (cfg g) in
  clamp (lerp (base * gap_startScale c) (base * gap_endScale c) d) (gap_min c) (gap_max c).

(** The argument object of [_spawnSinglePipe] and [_spawnWall]: an absent
    property is [None]. *)
Record SpawnOpts : Type := mkSpawnOpts {
  o_side : option Z;
  o_speed : option Q;
  o_gap : option Q;
  o_aimAtPlayer : bool;
  o_spreadRad : option Q
}.

Definition orDraw (o : option Q) (m : GameM Q) : GameM Q :=
  match o with Some v => ret v | None => m end.

(** [(rand(0, 4)) | 0]. *)
Definition randSide : GameM Z := r <- randG 0 4 ;; ret (toInt r).

Definition sideOr (o : option Z) : GameM Z :=
  match o with Some s => ret s | None => randSide end.

Definition _spawnSinglePipe (opts : SpawnOpts) : GameM unit :=
  g <- get ;;
  let th := _thickness g in
  u <- randG 3.0 6.5 ;;
  let len := clamp (th * u) (th * 2.6) (Qmax (W g) (H g) * 0.55) in
  let spd := match o_speed opts with Some s => s | None => _pipeSpeed g end in
  side <- sideOr (o_side opts) ;;
  geo <-
    (if (side =? 0)%Z then
       let pw := th in let ph := len in
       y <- randG (- ph * 0.15) (H g - ph * 0.85) ;;
       vy <- randG (- spd * 0.28) (spd * 0.28) ;;
       ret (- pw - 12, y, spd, vy, pw, ph)
     else if (side =? 1)%Z then
       let pw := th in let ph := len in
       y <- randG (- ph * 0.15) (H g - ph * 0.85) ;;
       vy <- randG (- spd * 0.28) (spd * 0.28) ;;
       ret (W g + 12, y, - spd, vy, pw, ph)
     else if (side =? 2)%Z then
       let pw := len in let ph := th in
       x <- randG (- pw * 0.15) (W g - pw * 0.85) ;;
       vx <- randG (- spd * 0.28) (spd * 0.28) ;;
       ret (x, - ph - 12, vx, spd, pw, ph)
     else if (side =? 3)%Z then
       let pw := len in let ph := th in
       x <- randG (- pw * 0.15) (W g - pw * 0.85) ;;
       vx <- randG (- spd * 0.28) (spd * 0.28) ;;
       ret (x, H g + 12, vx, - spd, pw, ph)
     else ret (0, 0, 0, 0, 0, 0)) ;;
  let '(x, y, vx, vy, pw, ph) := geo in
  if o_aimAtPlayer opts then
    let px := p_x (player g) in
    let py := p_y (player g) in
    cx <- (if (side =? 0)%Z then ret (- th * 0.5)
           else if (side =? 1)%Z then ret (W g + th * 0.5)
           else randG 0 (W g)) ;;
    cy <- (if (side =? 2)%Z then ret (- th * 0.5)
           else if (side =? 3)%Z then ret (H g + th * 0.5)
           else randG 0 (H g)) ;;
    let d0 := norm2 E (px - cx) (py - cy) in
    spread <- orDraw (o_spreadRad opts) (randG (-0.22) 0.22) ;;
    let cs := m_cos E spread in
    let sn := m_sin E spread in
    let ux := n_x d0 * cs - n_y d0 * sn in
    let uy := n_x d0 * sn + n_y d0 * cs in
    let vx := ux * spd in
    let vy := uy * spd in
    let '(x, y) :=
      if (side =? 0)%Z then (- pw - 14, clamp (cy - ph * 0.5) (- ph) (H g + ph))
      else if (side =? 1)%Z then (W g + 14, clamp (cy - ph * 0.5) (- ph) (H g + ph))
      else if (side =? 2)%Z then (clamp (cx - pw * 0.5) (- pw) (W g + pw), - ph - 14)
      else if (side =? 3)%Z then (clamp (cx - pw * 0.5) (- pw) (W g + pw), H g + 14)
      else (x, y) in
    pushPipe (newPipe x y pw ph vx vy)
  else
    pushPipe (newPipe x y pw ph vx vy).

Definition _spawnWall (opts : SpawnOpts) : GameM unit :=
  g <- get ;;
  let th := _thickness g in
  let spd := match o_speed opts with Some s => s | None => _pipeSpeed g * 0.95 end in
  let gap := match o_gap opts with Some s => s | None => _gapSize g end in
  side <- sideOr (o_side opts) ;;
  let pad := Qmax 18 (p_r (player g) * 1.1) in
  if ((side =? 0) || (side =? 1))%Z then
    gc <- randG (pad + gap * 0.5) (H g - (pad + gap * 0.5)) ;;
    let top := gc - gap * 0.5 in
    let bot := gc + gap * 0.5 in
    let topLen := clamp top 10 (H g) in
    let botLen := clamp (H g - bot) 10 (H g) in
    let sx := if (side =? 0)%Z then - th - 16 else W g + 16 in
    let vx := if (side =? 0)%Z then spd else - spd in
    (if ltb 10 topLen then pushPipe (newPipe sx 0 th topLen vx 0) else ret tt) ;;
    (if ltb 10 botLen then pushPipe (newPipe sx bot th botLen vx 0) else ret tt) ;;
    pushGate (newGate AxisX (sx + th * 0.5) vx gc (gap * 0.5) th)
  else
    gc <- randG (pad + gap * 0.5) (W g - (pad + gap * 0.5)) ;;
    let left := gc - gap * 0.5 in
    let right := gc + gap * 0.5 in
    let leftLen := clamp left 10 (W g) in
    let rightLen := clamp (W g - right) 10 (W g) in
    let sy := if (side =? 2)%Z then - th - 16 else H g + 16 in
    let vy := if (side =? 2)%Z then spd else - spd in
    (if ltb 10 leftLen then pushPipe (newPipe 0 sy leftLen th 0 vy) else ret tt) ;;
    (if ltb 10 rightLen then pushPipe (newPipe right sy rightLen th 0 vy) else ret tt) ;;
    pushGate (newGate AxisY (sy + th * 0.5) vy gc (gap * 0.5) th).

Definition _spawnBurst : GameM unit :=
  g <- get ;;
  let d := _difficulty01 g in
  side <- randSide ;;
  let count := Qfloor (lerp 5 8 d) in
  let spd := _pipeSpeed g * lerp 0.92 1.12 d in
  let arc := lerp 0.65 0.95 d in
  forN count (fun i =>
    let t := if (count =? 1)%Z then 0.5
             else inject_Z (Z.of_nat i) / inject_Z (count - 1) in
    let spread := (t - 0.5) * arc in
    _spawnSinglePipe (mkSpawnOpts (Some side) (Some spd) None true (Some spread))).

Definition _spawnCrossfire : GameM unit :=
  g <- get ;;
  let d := _difficulty01 g in
  let spd := _pipeSpeed g * lerp 0.95 1.10 d in
  s0 <- randG (-0.1) 0.1 ;;
  _spawnSinglePipe (mkSpawnOpts (Some 0%Z) (Some spd) None true (Some s0)) ;;
  s1 <- randG (-0.1) 0.1 ;;
  _spawnSinglePipe (mkSpawnOpts (Some 1%Z) (Some spd) None true (Some s1)) ;;
  s2 <- randG (-0.1) 0.1 ;;
  _spawnSinglePipe (mkSpawnOpts (Some 2%Z) (Some spd) None true (Some s2)) ;;
  s3 <- randG (-0.1) 0.1 ;;
  _spawnSinglePipe (mkSpawnOpts (Some 3%Z) (Some spd) None true (Some s3)).

(** The placement loop of [_spawnOrb]: up to [n] tries, the first point far
    enough from the player wins, the centre of the field is the fallback. *)
Fixpoint orbSpot (n : nat) (r safe : Q) (fallback : Q * Q) : GameM (Q * Q) :=
  match n with
  | O => ret fallback
  | S k =>
      g <- get ;;
      px <- randG (r + 10) (W g - r - 10) ;;
      py <- randG (r + 10) (H g - r - 10) ;;
      if leb (p_r (player g) + r + safe)
             (m_hypot E (px - p_x (player g)) (py - p_y (player g)))
      then ret (px, py)
      else orbSpot k r safe fallback
  end.

Definition _spawnOrb : GameM unit :=
  g <- get ;;
  let o := c_orbs (cfg g) in
  if negb (orbs_enabled o) then ret tt
  else if leb (maxOnScreen o) (inject_Z (Z.of_nat (List.length (orbs g)))) then ret tt
  else
    let r := clamp (orElse (orb_radius o) 12) 6 40 in
    let life := clamp (orElse (lifetime o) 10) 1 60 in
    let safe := clamp (orElse (safeDistance o) 120) 0 800 in
    xy <- orbSpot 18 r safe (W g * 0.5, H g * 0.5) ;;
    sp <- randG (driftSpeedMin o) (driftSpeedMax o) ;;
    a <- randG 0 (PI * 2) ;;
    ob <- lift (newOrb (fst xy) (snd xy) (m_cos E a * sp) (m_sin E a * sp) r life) ;;
    pushOrb ob.

Definition _orbPoints (g : Game) (comboNow : Q) : Q :=
  let base := Qmax 0 (orElse (orbBase (c_scoring (cfg g))) 0) in
  let bonus := Qmax 0 (orElse (orbComboBonus (c_scoring (cfg g))) 0) in
  round (base + bonus * Qmax 0 (comboNow - 1)).

Definition _breakCombo (x y : Q) : GameM unit :=
  g <- get ;;
  (if ltb 0 (combo g)
   then t <- lift (newFloatText (Lit "COMBO BROKE") x y (Css "rgba(255,90,90,.95)")) ;;
        pushFloat t
   else ret tt) ;;
  modify (fun g => set_comboBreakFlash 0.35 (set_combo 0 g)).

Definition _tickCooldowns (dt : Q) (g : Game) : Game :=
  let c := cds g in
  set_cds (mkCooldowns (Qmax 0 (cd_dash c - dt)) (Qmax 0 (cd_phase c - dt))
                       (Qmax 0 (cd_teleport c - dt)) (Qmax 0 (cd_slowField c - dt))) g.

(** *** Skills *)

Definition hasSkill (name : string) : bool :=
  (name =? "dash") || (name =? "phase") || (name =? "teleport") || (name =? "slowField").

(** [this.cds[name]] for a name that [this.cfg.skills] has. *)
Definition cdOf (name : string) (c : Cooldowns) : Q :=
  if name =? "dash" then cd_dash c
  else if name =? "phase" then cd_phase c
  else if name =? "teleport" then cd_teleport c
  else cd_slowField c.

Definition white80 : Color := Css "rgba(255,255,255,.80)".

Definition dashParticle (i : nat) : GameM unit :=
  a <- randG 0 (PI * 2) ;;
  sp <- randG 40 260 ;;
  g <- get ;;
  let p := player g in
  let vx := m_cos E a * sp - dashVX p * 220 in
  let vy := m_sin E a * sp - dashVY p * 220 in
  life <- randG 0.18 0.34 ;;
  size <- randG 1.0 2.2 ;;
  pushPart (set_part_drag 9.5 (newPart (p_x p) (p_y p) vx vy life size white80 true)).

Definition useDash (inp : InputObj) : GameM unit :=
  modify (fun g =>
    let d := c_skills (cfg g) in
    let p := player g in
    let dur := clamp (orElse (dash_duration d) 0) 0 1.2 in
    let mv := getMove inp in
    let n := norm2 E (dx mv) (dy mv) in
    let ddx := if ltb 0 (n_len n) then n_x n else lastX p in
    let ddy := if ltb 0 (n_len n) then n_y n else lastY p in
    let nn := norm2 E ddx ddy in
    let p := set_dashVX (if ltb 0 (n_len nn) then n_x nn else 0) p in
    let p := set_dashVY (if ltb 0 (n_len nn) then n_y nn else -1) p in
    let p := set_dashT dur p in
    let g := set_player p g in
    set_cds (set_cd_dash (Qmax 0 (orElse (dash_cooldown d) 0)) (cds g)) g) ;;
  forN 18 dashParticle.

Definition usePhase : GameM unit :=
  modify (fun g =>
    let ph := c_skills (cfg g) in
    let p := player g in
    let dur := clamp (orElse (phase_duration ph) 0) 0 2.0 in
    let g := set_player (set_invT (Qmax (invT p) dur) p) g in
    set_cds (set_cd_phase (Qmax 0 (orElse (phase_cooldown ph) 0)) (cds g)) g) ;;
  g <- get ;;
  let p := player g in
  t <- lift (newFloatText (Lit "PHASE") (p_x p) (p_y p - p_r p * 1.6)
                          (Css "rgba(160,220,255,.95)")) ;;
  pushFloat t.

Definition burstPair (ox oy nx ny : Q) (i : nat) : GameM unit :=
  a0 <- randG 0 (PI * 2) ;;
  sp0 <- randG 80 420 ;;
  life0 <- randG 0.22 0.50 ;;
  size0 <- randG 1.0 2.2 ;;
  pushPart (set_part_drag 7.5
    (newPart ox oy (m_cos E a0 * sp0) (m_sin E a0 * sp0) life0 size0
             (Css "rgba(210,170,255,.92)") true)) ;;
  a1 <- randG 0 (PI * 2) ;;
  sp1 <- randG 80 420 ;;
  life1 <- randG 0.22 0.55 ;;
  size1 <- randG 1.0 2.4 ;;
  pushPart (set_part_drag 7.0
    (newPart nx ny (m_cos E a1 * sp1) (m_sin E a1 * sp1) life1 size1
             (Css "rgba(255,255,255,.82)") true)).

Definition arrivalParticle (nx ny ed : Q) (i : nat) : GameM unit :=
  a <- randG 0 (PI * 2) ;;
  sp <- randG 40 160 ;;
  size <- randG 0.9 1.7 ;;
  pushPart (set_part_drag 10
    (newPart nx ny (m_cos E a * sp) (m_sin E a * sp) ed size
             (Css "rgba(255,255,255,.45)") true)).

(** The teleport branch; the result tells whether it left [_useSkill] by
    its [return]. *)
Definition useTeleport (inp : InputObj) : GameM bool :=
  g <- get ;;
  let t := c_skills (cfg g) in
  let p := player g in
  let ed := clamp (orElse (tp_effectDuration t) 0.35) 0.1 1.2 in
  let burst := Qfloor (clamp (orElse (tp_burstParticles t) 0) 0 240) in
  let cur := cursor inp in
  if negb (cur_has cur) then ret true
  else
    let pad := p_r p + 2 in
    let ox := p_x p in
    let oy := p_y p in
    let cw := orElse (canvasW g) (W g) in
    let ch := orElse (canvasH g) (H g) in
    let sx := if ltb 0 cw then W g / cw else 1 in
    let sy := if ltb 0 ch then H g / ch else 1 in
    let tx := cur_x cur * sx in
    let ty := cur_y cur * sy in
    let nx := clamp tx pad (W g - pad) in
    let ny := clamp ty pad (H g - pad) in
    forN burst (burstPair ox oy nx ny) ;;
    modify (fun g =>
      let p := player g in
      let p := set_p_y ny (set_p_x nx p) in
      let p := set_p_vy (p_vy p * 0.25) (set_p_vx (p_vx p * 0.25) p) in
      let g := set_player p g in
      set_cds (set_cd_teleport (Qmax 0 (orElse (tp_cooldown t) 0)) (cds g)) g) ;;
    g <- get ;;
    let p := player g in
    ft <- lift (newFloatText (Lit "TELEPORT") (p_x p) (p_y p - p_r p * 1.7)
                             (Css "rgba(230,200,255,.95)")) ;;
    pushFloat ft ;;
    forN 26 (arrivalParticle nx ny ed) ;;
    ret false.

Definition useSlowField : GameM unit :=
  modify (fun g =>
    let s := c_skills (cfg g) in
    let p := player g in
    let dur := clamp (orElse (sf_duration s) 0) 0 8.0 in
    let rad := clamp (orElse (sf_radius s) 0) 40 900 in
    let fac := clamp (orElse (sf_slowFactor s) 0.6) 0.10 1.0 in
    let g := set_slowField (Some (mkSlowField (p_x p) (p_y p) rad fac dur dur)) g in
    set_cds (set_cd_slowField (Qmax 0 (orElse (sf_cooldown s) 0)) (cds g)) g) ;;
  g <- get ;;
  let p := player g in
  t <- lift (newFloatText (Lit "SLOW FIELD") (p_x p) (p_y p - p_r p * 1.8)
                          (Css "rgba(120,210,255,.95)")) ;;
  pushFloat t.

Definition _useSkill (inp : InputObj) (name : string) : GameM unit :=
  if negb (hasSkill name) then ret tt
  else
    g <- get ;;
    if ltb 0 (cdOf name (cds g)) then ret tt
    else
      (if name =? "dash" then useDash inp else ret tt) ;;
      (if name =? "phase" then usePhase else ret tt) ;;
      returned <- (if name =? "teleport" then useTeleport inp else ret false) ;;
      if returned then ret tt
      else if name =? "slowField" then useSlowField else ret tt.

Definition handleAction (inp : InputObj) (actionId : string) : GameM unit :=
  g <- get ;;
  if negb (State_eqb (state g) PLAY) then ret tt
  else _useSkill inp actionId.

(** *** The player *)

(** [_updatePlayer(dt)] in its four steps: the invulnerability and dash
    timers, the last direction, the velocity, the move and its clamp. *)
Definition playerTimers (dt : Q) (p : Player) : Player :=
  let p := if ltb 0 (invT p) then set_invT (Qmax 0 (invT p - dt)) p else p in
  if ltb 0 (dashT p) then set_dashT (Qmax 0 (dashT p - dt)) p else p.

Definition rememberDirection (n : Norm) (p : Player) : Player :=
  if ltb 0 (n_len n) then set_lastY (n_y n) (set_lastX (n_x n) p) else p.

Definition steer (c : Config) (n : Norm) (dt : Q) (p : Player) : Player :=
  if ltb 0 (dashT p) then
    let p := if ltb 0 (n_len n)
             then set_dashVY (n_y n) (set_dashVX (n_x n) p) else p in
    let dashSpeed := Qmax 0 (orElse (dash_speed (c_skills c)) 0) in
    set_p_vy (dashVY p * dashSpeed) (set_p_vx (dashVX p * dashSpeed) p)
  else
    let maxS := orElse (maxSpeed (c_player c)) 0 in
    let acc := orElse (accel (c_player c)) 0 in
    let fr := orElse (friction (c_player c)) 0 in
    let tvx := n_x n * maxS in
    let tvy := n_y n * maxS in
    let p := set_p_vx (approach (p_vx p) tvx (acc * dt)) p in
    let p := set_p_vy (approach (p_vy p) tvy (acc * dt)) p in
    if eqb (n_len n) 0 then
      let damp := m_exp E (- fr * dt) in
      set_p_vy (p_vy p * damp) (set_p_vx (p_vx p * damp) p)
    else p.

Definition moveAndClamp (dt W H : Q) (p : Player) : Player :=
  let p := set_p_x (p_x p + p_vx p * dt) p in
  let p := set_p_y (p_y p + p_vy p * dt) p in
  let pad := p_r p + 2 in
  let p := set_p_x (clamp (p_x p) pad (W - pad)) p in
  set_p_y (clamp (p_y p) pad (H - pad)) p.

Definition _updatePlayer (inp : InputObj) (dt : Q) (g : Game) : Game :=
  let mv := getMove inp in
  let n := norm2 E (dx mv) (dy mv) in
  set_player
    (moveAndClamp dt (W g) (H g)
       (steer (cfg g) n dt (rememberDirection n (playerTimers dt (player g))))) g.

(** *** The trail *)

Record TrailStyle : Type := mkTrailStyle {
  ts_rate : Q; ts_life0 : Q; ts_life1 : Q; ts_size0 : Q; ts_size1 : Q;
  ts_speed0 : Q; ts_speed1 : Q; ts_drag : Q; ts_add : bool
}.

Definition _trailStyle (id : string) : TrailStyle :=
  if id =? "rainbow" then mkTrailStyle 95 0.18 0.34 7 10 35 170 10.5 true
  else if id =? "gothic" then mkTrailStyle 78 0.20 0.40 7 10 30 150 9.5 true
  else mkTrailStyle 55 0.18 0.32 0.8 2.0 25 120 11.5 true.

Definition trailParticle (id : string) (st : TrailStyle) (backX backY bx by' : Q)
    (i : nat) : GameM unit :=
  g <- get ;;
  let p := player g in
  jitter <- randG 0 (PI * 2) ;;
  jr <- randG 0 (p_r p * 0.35) ;;
  let jx := m_cos E jitter * jr in
  jr' <- randG 0 (p_r p * 0.35) ;;
  let jy := m_sin E jitter * jr' in
  sp <- randG (ts_speed0 st) (ts_speed1 st) ;;
  a <- randG 0 (PI * 2) ;;
  let vx := backX * sp + m_cos E a * sp * 0.55 in
  let vy := backY * sp + m_sin E a * sp * 0.55 in
  life <- randG (ts_life0 st) (ts_life1 st) ;;
  size <- randG (ts_size0 st) (ts_size1 st) ;;
  color <-
    (if id =? "rainbow" then
       ret (hsla (rem (trailHue g + inject_Z (Z.of_nat i) * 11) 360) 100 70 0.85)
     else if id =? "gothic" then
       r <- randG 0 1 ;;
       ret (if ltb r 0.16 then Css "rgba(0,0,0,.55)" else Css "rgba(170,90,255,.72)")
     else ret (Css "rgba(140,220,255,.62)")) ;;
  pushPart (set_part_drag (ts_drag st)
    (newPart (bx + jx) (by' + jy) vx vy life size color (ts_add st))).

Definition _emitTrail (id : string) (dt : Q) : GameM unit :=
  let st := _trailStyle id in
  modify (fun g =>
    let g := set_trailHue (rem (trailHue g + dt * 220) 360) g in
    set_trailAcc (trailAcc g + dt * ts_rate st) g) ;;
  g <- get ;;
  let n := toInt (trailAcc g) in
  modify (fun g => set_trailAcc (trailAcc g - inject_Z n) g) ;;
  let p := player g in
  let v := norm2 E (p_vx p) (p_vy p) in
  let backX := if ltb 12 (n_len v) then - n_x v else - lastX p in
  let backY := if ltb 12 (n_len v) then - n_y v else - lastY p in
  let bx := p_x p + backX * p_r p * 0.95 in
  let by' := p_y p + backY * p_r p * 0.95 in
  forN n (trailParticle id st backX backY bx by').

Record SkillUI : Type := mkSkillUI {
  ui_x0 : Q; ui_y0 : Q; ui_size : Q; ui_gap : Q; ui_totalW : Q;
  barX : Q; barY : Q; barW : Q; barH : Q
}.

Definition _skillUI (g : Game) : SkillUI :=
  let base := Qmin (W g) (H g) in
  let size := clamp (base * 0.070) 46 64 in
  let gap := round (size * 0.14) in
  let pad := 16 in
  let x0 := pad in
  let y0 := H g - pad - size in
  let totalW := 4 * size + 3 * gap in
  let bh := 10 in
  mkSkillUI x0 y0 size gap totalW x0 (y0 - 16 - bh) totalW bh.

(** *** One simulation step *)

Definition noise : GameM Q := fun g => Noise (fun u => Ret (u, g)).

(** The background dots drift; a dot that leaves the bottom re-enters at a
    column given by [Math.random]. *)
Fixpoint driftDots (dt W H : Q) (ds : list Dot) : Prog (list Dot) :=
  match ds with
  | [] => Ret []
  | d :: rest =>
      let y := dot_y d + dot_s d * dt in
      if ltb (H + 10) y then
        Noise (fun u =>
          bind (driftDots dt W H rest) (fun rest' =>
          Ret (mkDot (u * W) (-10) (dot_r d) (dot_s d) :: rest')))
      else
        bind (driftDots dt W H rest) (fun rest' =>
        Ret (mkDot (dot_x d) y (dot_r d) (dot_s d) :: rest'))
  end.

Definition bgDrift (dt : Q) : GameM unit :=
  fun g => bind (driftDots dt (W g) (H g) (bgDots g))
                (fun ds => Ret (tt, set_bgDots ds g)).

Definition tickTimers (dt : Q) (g : Game) : Game :=
  let g := set_timeAlive (timeAlive g + dt) g in
  let g := _tickCooldowns dt g in
  let g := if ltb 0 (comboBreakFlash g)
           then set_comboBreakFlash (Qmax 0 (comboBreakFlash g - dt)) g else g in
  let g := if ltb 0 (perfectT g)
           then set_perfectT (Qmax 0 (perfectT g - dt)) g else g in
  match slowField g with
  | Some s =>
      let t := Qmax 0 (sf_t s - dt) in
      if leb t 0 then set_slowField None g
      else set_slowField
             (Some (mkSlowField (sf_x s) (sf_y s) (sf_r s) (sf_fac s) t (sf_tm s))) g
  | None => g
  end.

Definition sparkleParticle (ui : SkillUI) (i : nat) : GameM unit :=
  px <- randG (barX ui) (barX ui + barW ui) ;;
  py <- randG (barY ui - 8) (barY ui + barH ui + 8) ;;
  a <- randG 0 (PI * 2) ;;
  sp <- randG 20 90 ;;
  life <- randG 0.18 0.35 ;;
  size <- randG 0.9 1.7 ;;
  pushPart (set_part_drag 10.5
    (newPart px py (m_cos E a * sp) (m_sin E a * sp) life size
             (Css "rgba(255,255,255,.7)") true)).

Definition comboSparkles (dt : Q) : GameM unit :=
  g <- get ;;
  let sparkleAt' := orElse (sparkleAt (c_ui (cfg g))) 9999 in
  if leb sparkleAt' (combo g) then
    let rate := Qmax 0 (orElse (sparkleRate (c_ui (cfg g))) 0) in
    let acc := comboSparkAcc g + dt * rate in
    let n := toInt acc in
    modify (set_comboSparkAcc (acc - inject_Z n)) ;;
    forN n (sparkleParticle (_skillUI g))
  else modify (set_comboSparkAcc 0).

(** The body of the spawn loop after [pipeT] has been advanced. *)
Definition spawnPattern : GameM unit :=
  g <- get ;;
  let d := _difficulty01 g in
  r <- randG 0 1 ;;
  let c := c_pipes (cfg g) in
  let wallChance := lerp (wall0 c) (wall1 c) d in
  let aimedChance := lerp (aimed0 c) (aimed1 c) d in
  if ltb r wallChance then
    s <- randSide ;;
    _spawnWall (mkSpawnOpts (Some s) (Some (_pipeSpeed g * 0.95)) (Some (_gapSize g)) false None)
  else if ltb r (wallChance + aimedChance) then
    s <- randSide ;;
    _spawnSinglePipe (mkSpawnOpts (Some s) (Some (_pipeSpeed g)) None true None)
  else
    s <- randSide ;;
    _spawnSinglePipe (mkSpawnOpts (Some s) (Some (_pipeSpeed g)) None false None).

(** [while (this.pipeT <= 0) { ... }] with a bound on the iterations; the
    loop that exhausts the bound is the loop that never ends.  The timer
    is a rational and the addition exact: an interval too small to change
    a double timer is not modelled. *)
Fixpoint spawnLoop (fuel : nat) : GameM unit :=
  fun g =>
    if leb (pipeT g) 0 then
      match fuel with
      | O => Spin
      | S k =>
          (modify (fun g => set_pipeT (pipeT g + _spawnInterval g) g) ;;
           spawnPattern ;;
           spawnLoop k) g
      end
    else Ret (tt, g).

(** The iterations the loop needs: the interval is the same at every
    iteration, the timer grows by it until it is positive. *)
Definition spawnFuel (g : Game) : nat :=
  let c := _spawnInterval g in
  if ltb 0 c then Z.to_nat (Qfloor (- pipeT g / c) + 1) else O.

Definition spawnPipes (dt : Q) : GameM unit :=
  modify (fun g => set_pipeT (pipeT g - dt) g) ;;
  g <- get ;;
  spawnLoop (spawnFuel g).

Definition specialPatterns (dt : Q) : GameM unit :=
  modify (fun g => set_specialT (specialT g - dt) g) ;;
  g <- get ;;
  if leb (specialT g) 0 then
    r <- randG 0 1 ;;
    (if ltb r 0.48 then _spawnBurst
     else if ltb r 0.78 then _spawnCrossfire
     else
       s <- randSide ;;
       g <- get ;;
       _spawnWall (mkSpawnOpts (Some s) (Some (_pipeSpeed g * 1.05)) (Some (_gapSize g))
                               false None)) ;;
    g <- get ;;
    let d := _difficulty01 g in
    let sp := c_pipes (cfg g) in
    j <- randG (jitterMin sp) (jitterMax sp) ;;
    modify (set_specialT (lerp (startCadence sp) (endCadence sp) d + j))
  else ret tt.

Definition spawnOrbs (dt : Q) : GameM unit :=
  g <- get ;;
  let o := c_orbs (cfg g) in
  if orbs_enabled o then
    modify (fun g => set_orbT (orbT g - dt) g) ;;
    g <- get ;;
    if leb (orbT g) 0 then
      _spawnOrb ;;
      let a := Qmin (intervalMin o) (intervalMax o) in
      let b := Qmax (intervalMin o) (intervalMax o) in
      t <- randG a b ;;
      modify (set_orbT t)
    else ret tt
  else ret tt.

Definition perfectParticle (i : nat) : GameM unit :=
  a <- randG 0 (PI * 2) ;;
  sp <- randG 60 320 ;;
  g <- get ;;
  let p := player g in
  life <- randG 0.20 0.45 ;;
  size <- randG 1.0 2.2 ;;
  pushPart (set_part_drag 8.5
    (newPart (p_x p) (p_y p) (m_cos E a * sp) (m_sin E a * sp) life size
             (Css "rgba(255,255,255,.85)") true)).

(** The body of the PERFECT loop for one gate; the result is the gate
    after the body. *)
Definition perfectGate (bonus wS : Q) (gt : Gate) : GameM Gate :=
  if gate_cleared gt then ret gt
  else
    g <- get ;;
    let p := player g in
    let pAxis := match gate_axis gt with AxisX => p_x p | AxisY => p_y p end in
    if Gate_crossed pAxis gt then
      let perp := match gate_axis gt with AxisX => p_y p | AxisY => p_x p end in
      let dist := Qabs (perp - gate_gapCenter gt) in
      let thresh := Qmax 3 (gate_gapHalf gt * wS) * 1.10 in
      (if leb dist thresh then
         let fd := clamp (orElse (flashDuration (c_scoring (cfg g))) 0.55) 0.15 2.0 in
         modify (fun g =>
           set_perfectMax fd (set_perfectT fd (set_score (score g + bonus) g))) ;;
         t <- lift (newFloatText (Plus bonus) (p_x p) (p_y p - p_r p * 2.0)
                                 (Css "rgba(255,255,255,.95)")) ;;
         pushFloat t ;;
         forN 28 perfectParticle
       else ret tt) ;;
      ret (set_gate_cleared true gt)
    else ret gt.

Fixpoint perfectLoop (bonus wS : Q) (todo : list Gate) : GameM (list Gate) :=
  match todo with
  | [] => ret []
  | gt :: rest =>
      gt' <- perfectGate bonus wS gt ;;
      rest' <- perfectLoop bonus wS rest ;;
      ret (gt' :: rest')
  end.

Definition gatesAndPerfect (dt : Q) : GameM unit :=
  modify (fun g => set_gates (List.map (Gate_update dt (W g) (H g)) (gates g)) g) ;;
  g <- get ;;
  if perfect_enabled (c_scoring (cfg g)) then
    let bonus := Qmax 0 (orElse (perfect_bonus (c_scoring (cfg g))) 0) in
    let wS := clamp (orElse (windowScale (c_scoring (cfg g))) 0.075) 0 1 in
    gs <- perfectLoop bonus wS (gates g) ;;
    modify (set_gates gs)
  else ret tt.

Definition pipeMul (sf : option SlowField) (p : Pipe) : Q :=
  match sf with
  | Some s =>
      let ddx := pipe_cx p - sf_x s in
      let ddy := pipe_cy p - sf_y s in
      if leb (ddx * ddx + ddy * ddy) (sf_r s * sf_r s) then sf_fac s else 1
  | None => 1
  end.

Definition movePipes (dt : Q) (g : Game) : Game :=
  set_pipes
    (List.map (fun p => Pipe_update dt (pipeMul (slowField g) p) (W g) (H g) p) (pipes g)) g.

(** Orbs move; the dead ones are spliced out and break the combo. *)
Definition orbsExpire (dt : Q) : GameM unit :=
  g <- get ;;
  let moved := List.map (Orb_update dt (W g) (H g)) (orbs g) in
  let expired := List.existsb Orb_dead moved in
  modify (set_orbs (List.filter (fun o => negb (Orb_dead o)) moved)) ;;
  if expired then
    let ui := _skillUI g in
    _breakCombo (barX ui + barW ui * 0.5) (barY ui - 10)
  else ret tt.

Definition pickupParticle (ob : Orb) (i : nat) : GameM unit :=
  a <- randG 0 (PI * 2) ;;
  sp <- randG 40 240 ;;
  life <- randG 0.18 0.38 ;;
  size <- randG 1.0 2.0 ;;
  pushPart (set_part_drag 10
    (newPart (orb_x ob) (orb_y ob) (m_cos E a * sp) (m_sin E a * sp) life size
             (Css "rgba(255,255,255,.7)") true)).

(** What the pickup loop does for an orb the player touches. *)
Definition collectOrb (ob : Orb) : GameM unit :=
  modify (fun g =>
    let maxC := Qmax 1 (orElse (orbComboMax (c_scoring (cfg g))) 30) in
    set_combo (Qmin maxC (combo g + 1)) g) ;;
  g <- get ;;
  let pts := _orbPoints g (combo g) in
  modify (fun g => set_score (score g + pts) g) ;;
  let col := if leb (orElse (glowAt (c_ui (cfg g))) 9999) (combo g)
             then Css "rgba(255,255,255,.98)" else Css "rgba(120,210,255,.95)" in
  t <- lift (newFloatText (Plus pts) (orb_x ob) (orb_y ob) col) ;;
  pushFloat t ;;
  forN 18 (pickupParticle ob).

(** The pickup loop runs from the last orb to the first: [revOrbs] is the
    list reversed, the result is the orbs that stay, reversed. *)
Fixpoint pickupLoop (revOrbs : list Orb) : GameM (list Orb) :=
  match revOrbs with
  | [] => ret []
  | ob :: rest =>
      g <- get ;;
      let p := player g in
      if circleCircle (p_x p) (p_y p) (p_r p) (orb_x ob) (orb_y ob) (orb_r ob) then
        collectOrb ob ;; pickupLoop rest
      else
        kept <- pickupLoop rest ;; ret (ob :: kept)
  end.

Definition orbPickup : GameM unit :=
  g <- get ;;
  kept <- pickupLoop (List.rev (orbs g)) ;;
  modify (set_orbs (List.rev kept)).

(** Everything [update] does in the PLAY state before the collision check. *)
Definition advance (inp : InputObj) (trailId : string) (dt : Q) : GameM unit :=
  modify (tickTimers dt) ;;
  modify (_updatePlayer inp dt) ;;
  _emitTrail trailId dt ;;
  comboSparkles dt ;;
  spawnPipes dt ;;
  specialPatterns dt ;;
  spawnOrbs dt ;;
  gatesAndPerfect dt ;;
  modify (movePipes dt) ;;
  orbsExpire dt ;;
  orbPickup.

Definition hitsPipe (g : Game) (p : Pipe) : bool :=
  circleRect (p_x (player g)) (p_y (player g)) (p_r (player g))
             (pipe_x p) (pipe_y p) (pipe_w p) (pipe_h p).

(** The collision check fires. *)
Definition collides (g : Game) : bool :=
  leb (invT (player g)) 0 && List.existsb (hitsPipe g) (pipes g).

(** Pipe removal runs from the last pipe to the first: [revPipes] is the
    list reversed; the result is the pipes that stay, reversed, and the
    score. *)
Fixpoint sweepPipes (W H m dodge : Q) (revPipes : list Pipe) (sc : Q) : list Pipe * Q :=
  match revPipes with
  | [] => ([], sc)
  | p :: rest =>
      if Pipe_off W H m p then
        sweepPipes W H m dodge rest (if pipe_scored p then sc else sc + dodge)
      else
        let '(kept, sc') := sweepPipes W H m dodge rest sc in (p :: kept, sc')
  end.

Definition removeOffField (g : Game) : Game :=
  let m := _margin g in
  let dodge := Qmax 0 (orElse (pipeDodge (c_scoring (cfg g))) 0) in
  let '(kept, sc) := sweepPipes (W g) (H g) m dodge (List.rev (pipes g)) (score g) in
  let g := set_score sc (set_pipes (List.rev kept) g) in
  set_gates (List.filter (fun x => negb (Gate_off (W g) (H g) m x)) (gates g)) g.

Definition updateFx (dt : Q) (g : Game) : Game :=
  let ps := List.map (Part_update E dt) (parts g) in
  let fs := List.map (FloatText_update E dt) (floats g) in
  let g := set_parts (List.filter (fun p => negb (leb (part_life p) 0)) ps) g in
  set_floats (List.filter (fun t => negb (leb (ft_life t) 0)) fs) g.

(** [if (a.length > cap) a.splice(0, a.length - cap)]. *)
Definition capList {A} (cap : nat) (l : list A) : list A :=
  if (cap <? List.length l)%nat then List.skipn (List.length l - cap) l else l.

Definition applyCaps (g : Game) : Game :=
  let g := set_pipes (capList 280 (pipes g)) g in
  let g := set_parts (capList 1100 (parts g)) g in
  set_floats (capList 80 (floats g)) g.

(** Everything [update] does after a collision check that did not fire. *)
Definition finish (dt : Q) (g : Game) : Game :=
  applyCaps (updateFx dt (removeOffField g)).

(** [update(dt)]; the result is the argument of the call of
    [this.onGameOver], if it was called. *)
Definition update (inp : InputObj) (trailId : string) (dt : Q) : GameM (option Z) :=
  g <- get ;;
  if State_eqb (state g) OVER then ret None
  else
    bgDrift dt ;;
    g <- get ;;
    if negb (State_eqb (state g) PLAY) then ret None
    else
      advance inp trailId dt ;;
      g <- get ;;
      if collides g then
        modify (set_state OVER) ;;
        ret (Some (toInt (score g)))
      else
        modify (finish dt) ;;
        ret None.

End Methods.

End Game.

(* ================================================================== *)
(** ** main.js: the fixed-step loop, run capture and replay *)
(* ================================================================== *)

Module Main.
Import Util Sim Input Game.
Local Open Scope Q_scope.
Local Open Scope string_scope.

Definition SIM_DT : Q := 1 / 120.
Definition MAX_FRAME : Q := 1 / 20.

Record Action : Type := mkAction { a_id : string; a_cursor : Cursor }.

Record Tick : Type := mkTick {
  t_move : Move;
  t_cursor : Cursor;
  t_actions : list Action
}.

(** [activeRun]; [rngTape] names the array the recorder appends to. *)
Record Run : Type := mkRun {
  seed : Rng.Seed;
  ticks : list Tick;
  pendingActions : list Action;
  ended : bool;
  rngTape : nat
}.

(** The module state of main.js.  [keys] and [cursor] are the fields of
    the one [Input] instance, to which [game.input] refers outside a
    replay; [trailId] is what [getTrailId()] returns.  No function of
    this module writes [trailId] or the size of the field: the choice of
    a trail and the resize of the window are changes of the state from
    outside, between a session and a replay. *)
Record Main : Type := mkMain {
  game : Game;
  world : World;
  keys : Keys;
  cursor : Cursor;
  activeRun : option Run;
  acc : Q;
  lastTs : Q;
  replayDriving : bool;
  trailId : string
}.

Definition set_game (v : Game) (m : Main) : Main :=
  mkMain v (world m) (keys m) (cursor m) (activeRun m) (acc m) (lastTs m)
         (replayDriving m) (trailId m).
Definition set_world (v : World) (m : Main) : Main :=
  mkMain (game m) v (keys m) (cursor m) (activeRun m) (acc m) (lastTs m)
         (replayDriving m) (trailId m).
Definition set_keys (v : Keys) (m : Main) : Main :=
  mkMain (game m) (world m) v (cursor m) (activeRun m) (acc m) (lastTs m)
         (replayDriving m) (trailId m).
Definition set_cursor (v : Cursor) (m : Main) : Main :=
  mkMain (game m) (world m) (keys m) v (activeRun m) (acc m) (lastTs m)
         (replayDriving m) (trailId m).
Definition set_activeRun (v : option Run) (m : Main) : Main :=
  mkMain (game m) (world m) (keys m) (cursor m) v (acc m) (lastTs m)
         (replayDriving m) (trailId m).
Definition set_acc (v : Q) (m : Main) : Main :=
  mkMain (game m) (world m) (keys m) (cursor m) (activeRun m) v (lastTs m)
         (replayDriving m) (trailId m).
Definition set_lastTs (v : Q) (m : Main) : Main :=
  mkMain (game m) (world m) (keys m) (cursor m) (activeRun m) (acc m) v
         (replayDriving m) (trailId m).
Definition set_replayDriving (v : bool) (m : Main) : Main :=
  mkMain (game m) (world m) (keys m) (cursor m) (activeRun m) (acc m) (lastTs m)
         v (trailId m).

Definition theInput (m : Main) : InputObj := RealInput (keys m) (cursor m).

Inductive Result (A : Type) : Type :=
| Ok (a : A)
| Throws (e : Error)
| Hangs.

Arguments Ok {A} a.
Arguments Throws {A} e.
Arguments Hangs {A}.

Definition andThen {A B} (r : Result A) (f : A -> Result B) : Result B :=
  match r with
  | Ok a => f a
  | Throws e => Throws e
  | Hangs => Hangs
  end.

Section Driver.
Variable E : Engine.

(** A method call on [game] with the installed random source. *)
Definition call {A} (p : GameM A) (m : Main) : Result (A * Main) :=
  match run (p (game m)) (world m) with
  | Done r w => Ok (fst r, set_world w (set_game (snd r) m))
  | Thrown e _ => Throws e
  | Diverges => Hangs
  end.

(** [onGameOver(finalScore)], as far as the run is concerned, for a guest.
    For a signed-in user the code sets [ended] only after the score has
    been submitted ([await apiSubmitScore]), some frames later. *)
Definition onGameOver (m : Main) : Main :=
  match activeRun m with
  | Some r => set_activeRun
                (Some (mkRun (seed r) (ticks r) (pendingActions r) true (rngTape r))) m
  | None => m
  end.

(** [game.update(SIM_DT)] with the callback it may call. *)
Definition stepGame (inp : InputObj) (m : Main) : Result Main :=
  andThen (call (update E inp (trailId m) SIM_DT) m) (fun r =>
    match fst r with
    | Some _ => Ok (onGameOver (snd r))
    | None => Ok (snd r)
    end).

(** *** Input events between two frames *)

(** The events that reach a run: the movement keys, the pointer and the
    skill actions.  Not among them: the keys Enter, Escape and R and the
    buttons, which start a run or lead to the menu ([startGame] and
    [setStateMenu] are modelled as functions, not as events), the resize
    of the window and the choice of a trail. *)

Inductive Code : Type := CodeW | CodeS | CodeA | CodeD.

Inductive Event : Type :=
| EvKey (c : Code) (down : bool)      (* keydown, keyup *)
| EvPointer (x y : Q)                 (* updateCursor *)
| EvAction (actionId : string).       (* the onAction callback *)

Definition setKey (c : Code) (down : bool) (k : Keys) : Keys :=
  match c with
  | CodeW => mkKeys down (KeyS k) (KeyA k) (KeyD k)
  | CodeS => mkKeys (KeyW k) down (KeyA k) (KeyD k)
  | CodeA => mkKeys (KeyW k) (KeyS k) down (KeyD k)
  | CodeD => mkKeys (KeyW k) (KeyS k) (KeyA k) down
  end.

(** The callback given to [new Input(...)]: the action is queued, not
    applied. *)
Definition onAction (actionId : string) (m : Main) : Main :=
  match activeRun m with
  | Some r =>
      if State_eqb (state (game m)) PLAY then
        set_activeRun
          (Some (mkRun (seed r) (ticks r)
                       ((pendingActions r ++ [mkAction actionId (cursor m)])%list)
                       (ended r) (rngTape r))) m
      else m
  | None => m
  end.

Definition handleEvent (e : Event) (m : Main) : Main :=
  match e with
  | EvKey c down => set_keys (setKey c down (keys m)) m
  | EvPointer x y => set_cursor (mkCursor x y true) m
  | EvAction a => onAction a m
  end.

(** *** startGame *)

Definition startGame (seedStr : Rng.Seed) (m : Main) : Result Main :=
  let m := set_keys noKeys m in
  let '(tape, w) := newTape (world m) in
  let m := set_activeRun (Some (mkRun seedStr [] [] false tape)) m in
  let m := set_world (setRandSource (createTapeRandRecorder seedStr tape) w) m in
  let m := set_acc 0 m in
  andThen (call startRun m) (fun r => Ok (snd r)).

(** *** frame *)

(** The actions of a tick applied to the live game: the cursor of the
    input object is set to the cursor stored with the action. *)
Fixpoint applyActionsLive (actions : list Action) (m : Main) : Result Main :=
  match actions with
  | [] => Ok m
  | a :: rest =>
      let m := set_cursor (mkCursor (cur_x (a_cursor a)) (cur_y (a_cursor a))
                                    (cur_has (a_cursor a))) m in
      andThen (call (handleAction E (theInput m) (a_id a)) m) (fun r =>
      applyActionsLive rest (snd r))
  end.

(** The body of the [while (acc >= SIM_DT)] loop.  The result tells
    whether the loop is left by [break], and holds the game after the step
    if the tick was recorded. *)
Definition liveTick (m : Main) : Result (Main * bool * list Game) :=
  let snapMove := getMove (theInput m) in
  let snapCursor := mkCursor (cur_x (cursor m)) (cur_y (cursor m)) (cur_has (cursor m)) in
  let playing := State_eqb (state (game m)) PLAY in
  let '(actions, recorded, m) :=
    match activeRun m with
    | Some r =>
        if playing then
          (pendingActions r, true,
           set_activeRun
             (Some (mkRun (seed r)
                          ((ticks r ++ [mkTick snapMove snapCursor (pendingActions r)])%list)
                          [] (ended r) (rngTape r))) m)
        else ([], false, m)
    | None => ([], false, m)
    end in
  andThen (if playing then applyActionsLive actions m else Ok m) (fun m =>
  andThen (stepGame (theInput m) m) (fun m =>
  let m := set_acc (acc m - SIM_DT) m in
  let snap := if recorded then [game m] else [] in
  if State_eqb (state (game m)) OVER then
    let m := match activeRun m with
             | Some r => set_activeRun
                           (Some (mkRun (seed r) (ticks r) [] (ended r) (rngTape r))) m
             | None => m
             end in
    Ok (m, true, snap)
  else Ok (m, false, snap))).

(** [while (acc >= SIM_DT) { ... }]: [n] bounds the iterations. *)
Fixpoint tickLoop (n : nat) (m : Main) : Result (Main * list Game) :=
  match n with
  | O => Ok (m, [])
  | S k =>
      if leb SIM_DT (acc m) then
        andThen (liveTick m) (fun r =>
          let '(m', stop, snap) := r in
          if stop then Ok (m', snap)
          else andThen (tickLoop k m') (fun r' => Ok (fst r', (snap ++ snd r')%list)))
      else Ok (m, [])
  end.

(** The whole ticks the accumulator holds. *)
Definition ticksDue (m : Main) : nat := Z.to_nat (Qfloor (acc m / SIM_DT)).

(** [frame(ts)]; the second result lists the game after each recorded
    tick of this frame.  Times are rationals, [SIM_DT] is 1/120 and
    [MAX_FRAME] 1/20 exactly; as doubles the first is a little less and
    the second a little more. *)
Definition frame (ts : Q) (m : Main) : Result (Main * list Game) :=
  let dt := (ts - lastTs m) / 1000 in
  let m := set_lastTs ts m in
  let dt := clamp dt 0 MAX_FRAME in
  if negb (replayDriving m) then
    let m := set_acc (acc m + dt) m in
    tickLoop (ticksDue m) m
  else Ok (m, []).

(** *** playReplay *)

(** The actions of a stored tick applied during playback. *)
Fixpoint applyActionsReplay (actions : list Action) (inp : InputObj) (m : Main)
    : Result (InputObj * Main) :=
  match actions with
  | [] => Ok (inp, m)
  | a :: rest =>
      let inp := setCursor (mkCursor (cur_x (a_cursor a)) (cur_y (a_cursor a))
                                     (cur_has (a_cursor a))) inp in
      andThen (call (handleAction E inp (a_id a)) m) (fun r =>
      applyActionsReplay rest inp (snd r))
  end.

(** The loop over the stored ticks; [inp] is [replayInput]. *)
Fixpoint replayLoop (tks : list Tick) (inp : InputObj) (m : Main)
    : Result (Main * list Game) :=
  match tks with
  | [] => Ok (m, [])
  | tk :: rest =>
      let inp := ReplayInput (t_move tk)
                   (mkCursor (cur_x (t_cursor tk)) (cur_y (t_cursor tk))
                             (cur_has (t_cursor tk))) in
      andThen (applyActionsReplay (t_actions tk) inp m) (fun r =>
      let '(inp, m) := r in
      andThen (stepGame inp m) (fun m =>
      if State_eqb (state (game m)) OVER then Ok (m, [game m])
      else andThen (replayLoop rest inp m) (fun r' => Ok (fst r', game m :: snd r'))))
  end.

(** [playReplay()]; the second result is [None] when no replay is
    available, else the game after each replayed tick.  The [finally]
    clause resets [replayDriving] also when the body throws; a thrown
    error carries no state.  The playback is one step here: the code
    awaits an animation frame after every tick, and the frames and
    events in between, which do not step the simulation while
    [replayDriving] is set, are left out. *)
Definition playReplay (m : Main) : Result (Main * option (list Game)) :=
  match activeRun m with
  | None => Throws TypeError
  | Some r =>
      let m := set_world (setRandSource (createTapeRandPlayer (rngTape r)) (world m)) m in
      if negb (ended r) || (List.length (ticks r) =? 0)%nat then Ok (m, None)
      else
        let m := set_replayDriving true m in
        let m := set_world (setRandSource (createSeededRand (seed r)) (world m)) m in
        let replayInput := ReplayInput (mkMove 0 0) (mkCursor 0 0 false) in
        let m := set_acc 0 m in
        let m := set_keys noKeys m in
        andThen (call startRun m) (fun r0 =>
        andThen (replayLoop (ticks r) replayInput (snd r0)) (fun r1 =>
        Ok (set_replayDriving false (fst r1), Some (snd r1))))
  end.

(** *** A live session: events and frames after [startGame] *)

Inductive Step : Type :=
| Input (e : Event)
| Frame (ts : Q).

Fixpoint session (steps : list Step) (m : Main) : Result (Main * list Game) :=
  match steps with
  | [] => Ok (m, [])
  | Input e :: rest => session rest (handleEvent e m)
  | Frame ts :: rest =>
      andThen (frame ts m) (fun r =>
      andThen (session rest (fst r)) (fun r' => Ok (fst r', (snd r ++ snd r')%list)))
  end.

End Driver.

End Main.

(* ================================================================== *)
(** ** A reference engine and reference states, for concrete runs *)
(* ================================================================== *)

Module Ref.
Import Util Sim Input Game Main.
Local Open Scope Q_scope.
Local Open Scope string_scope.

(** Fixed-point arithmetic: values are cut to multiples of 2^-40. *)
Definition grid (x : Q) : Q := Qmake (Qfloor (x * 1099511627776)) 1099511627776.

(** A power series by Horner's rule:
    [1 + c(1) (1 + c(2) (1 + ... (1 + c(n))))], from the inside out. *)
Fixpoint horner (n : nat) (c : nat -> Q) (acc : Q) : Q :=
  match n with
  | O => acc
  | S k => horner k c (grid (1 + c n * acc))
  end.

Definition qnat (n : nat) : Q := inject_Z (Z.of_nat n).

Definition ref_exp (x : Q) : Q :=
  let x := grid x in
  horner 48 (fun k => x / qnat k) 1.

(** The argument brought into [-PI, PI]. *)
Definition wrapAngle (x : Q) : Q :=
  grid (x - 2 * PI * inject_Z (Qfloor ((x + PI) / (2 * PI)))).

Definition ref_cos (x : Q) : Q :=
  let y := wrapAngle x in
  let y2 := grid (y * y) in
  horner 14 (fun k => - y2 / (qnat (2 * k - 1) * qnat (2 * k))) 1.

Definition ref_sin (x : Q) : Q :=
  let y := wrapAngle x in
  let y2 := grid (y * y) in
  grid (y * horner 14 (fun k => - y2 / (qnat (2 * k) * qnat (2 * k + 1))) 1).

(** Exact on an axis, else the square root cut to a multiple of 2^-30. *)
Definition ref_hypot (x y : Q) : Q :=
  if eqb x 0 then Qabs y
  else if eqb y 0 then Qabs x
  else
    let s := Qred (x * x + y * y) in
    let n := Qnum s in
    let d := Zpos (Qden s) in
    Qred (inject_Z (Z.sqrt (n * d * 1152921504606846976)) / inject_Z (d * 1073741824)).

Definition refMath : Engine := mkEngine ref_exp ref_cos ref_sin ref_hypot.

(** A game as its constructor and [resizeToWindow] leave it in a window of
    [w] by [h] pixels at device pixel ratio 1, with a square player image
    and the default configuration. *)
Definition newGame (w h : Q) : Game.Game :=
  let target := clamp (Qmin w h * 0.055) 28 54 in
  mkGame MENU w h w h []
         (mkPlayer 0 0 0 0 target target (target * 0.38) 0 (-1) 0 0 0 0)
         [] [] [] [] [] 0 0 0 1.6 1.0 0 0 0 0 0 None noCooldowns 0 0 true
         DEFAULT_CONFIG.

(** A game in the PLAY state, the player at rest in the centre of a field
    of 800 by 600, and the same with the dash cooling down. *)
Definition readyGame : Game.Game := set_state PLAY (_resetPlayer (newGame 800 600)).

Definition coolingGame : Game.Game := set_cds (mkCooldowns 0.5 0 0 0) readyGame.

Definition idleInput : InputObj := RealInput noKeys (mkCursor 0 0 false).

(** The same with a pipe at rest over the centre of the field. *)
Definition hitGame : Game.Game :=
  set_pipes [mkPipe 380 0 40 600 0 0 true false] readyGame.

(** A game in the PLAY state in a field of 20 by 20: the player's radius
    is 10.64, the inset field is empty. *)
Definition tinyGame : Game.Game := set_state PLAY (_resetPlayer (newGame 20 20)).

(** Inputs with the key D, and with the key W, held down. *)
Definition rightInput : InputObj :=
  RealInput (mkKeys false false false true) (mkCursor 0 0 false).
Definition upInput : InputObj :=
  RealInput (mkKeys true false false false) (mkCursor 0 0 false).

(** A crowded field: the player is invulnerable for a second, the oldest
    pipe lies over the player, 280 younger pipes rest in a corner. *)
Definition hitPipe : Pipe := mkPipe 380 0 40 600 0 0 true false.
Definition farPipe : Pipe := mkPipe 10 10 5 5 0 0 true false.

Definition crowdedGame : Game.Game :=
  set_player (set_invT 1 (player readyGame))
    (set_pipes (hitPipe :: List.repeat farPipe 280) readyGame).

Definition newWorld : World := mkWorld [] SrcMath (fun _ => 0.5) 0.

(** A world whose source is the generator of the seed "x". *)
Definition seededWorld : World :=
  setRandSource (Sim.createSeededRand (Rng.codeUnits "x")) newWorld.

Definition newMain (w h : Q) : Main.Main :=
  mkMain (newGame w h) newWorld noKeys (mkCursor 0 0 false) None 0 0 false "classic".

(** The default configuration with pipes of 2400 pixels a second, and the
    module state before the first run in a window of 60 by 60 pixels with
    that configuration and the trail [tid] selected. *)
Definition fastConfig : Config :=
  mkConfig (c_player DEFAULT_CONFIG)
    (mkPipesCfg 38 120 0.55 0.45
                0.78 0.23 0.18 0.90
                2400 2400
                0.055 28 64
                0.30 0.20 88 190
                3.8 2.3 0.2 0.7
                0.18 0.30 0.26 0.40)
    (c_skills DEFAULT_CONFIG) (c_orbs DEFAULT_CONFIG) (c_scoring DEFAULT_CONFIG)
    (c_ui DEFAULT_CONFIG).

Definition fastMain (tid : string) : Main.Main :=
  mkMain (mkGame MENU 60 60 60 60 []
                 (mkPlayer 0 0 0 0 28 28 (28 * 0.38) 0 (-1) 0 0 0 0)
                 [] [] [] [] [] 0 0 0 1.6 1.0 0 0 0 0 0 None noCooldowns 0 0 true
                 fastConfig)
         newWorld noKeys (mkCursor 0 0 false) None 0 0 false tid.

(** A captured run: [startGame] with the seed "x", the key D pressed, a
    dash, and a frame of two ticks, at the end of which the player is
    hit. *)
Definition capturedStart : Main.Main := Eval vm_compute in
    match startGame (Rng.codeUnits "x") (fastMain "classic") with
    | Ok m => m
    | _ => fastMain "classic"
    end.

Definition capturedSteps : list Step :=
  [Input (EvKey CodeD true); Input (EvAction "dash"); Frame 20].

Definition capturedEnd : Main.Main := Eval vm_compute in
    match session refMath capturedSteps capturedStart with
    | Ok r => fst r
    | _ => capturedStart
    end.

Definition capturedTrace : list Game.Game := Eval vm_compute in
    match session refMath capturedSteps capturedStart with
    | Ok r => snd r
    | _ => []
    end.

Definition capturedRun : Run := Eval vm_compute in
    match activeRun capturedEnd with
    | Some r => r
    | None => mkRun [] [] [] false 0
    end.

(** The default configuration with a spawn interval of 6 ms and pipes of
    2400 pixels a second, and the module state before the first run in a
    window of 160 by 160 pixels with that configuration and the trail
    [tid] selected. *)
Definition busyConfig : Config :=
  mkConfig (c_player DEFAULT_CONFIG)
    (mkPipesCfg 38 120 0.55 0.45
                0.006 0.006 0.006 0.006
                2400 2400
                0.055 28 64
                0.30 0.20 88 190
                3.8 2.3 0.2 0.7
                0.18 0.30 0.26 0.40)
    (c_skills DEFAULT_CONFIG) (c_orbs DEFAULT_CONFIG) (c_scoring DEFAULT_CONFIG)
    (c_ui DEFAULT_CONFIG).

Definition busyMain (tid : string) : Main.Main :=
  mkMain (mkGame MENU 160 160 160 160 []
                 (mkPlayer 0 0 0 0 28 28 (28 * 0.38) 0 (-1) 0 0 0 0)
                 [] [] [] [] [] 0 0 0 1.6 1.0 0 0 0 0 0 None noCooldowns 0 0 true
                 busyConfig)
         newWorld noKeys (mkCursor 0 0 false) None 0 0 false tid.

(** The game of [readyGame] with [scoring.orbBase] at -4 in its
    configuration (bonus 1, combo cap 30), and an orb over the player. *)
Definition debtConfig : Config :=
  mkConfig (c_player DEFAULT_CONFIG) (c_pipes DEFAULT_CONFIG) (c_skills DEFAULT_CONFIG)
    (c_orbs DEFAULT_CONFIG) (mkScoringCfg 1 (-4) 1 30 true 10 0.075 0.55)
    (c_ui DEFAULT_CONFIG).

Definition debtGame : Game.Game :=
  mkGame PLAY 800 600 800 600 [] (player readyGame)
         [] [] [] [] [] 0 0 0 1.6 1.0 0 0 0 0 0 None noCooldowns 0 0 true
         debtConfig.

Definition centreOrb : Orb := mkOrb 400 300 0 0 12 10 10 0.

(** The module state with another trail selected. *)
Definition pickTrail (tid : string) (m : Main.Main) : Main.Main :=
  mkMain (Main.game m) (world m) (keys m) (Main.cursor m) (activeRun m) (acc m) (lastTs m)
         (replayDriving m) tid.

End Ref.

(* ================================================================== *)
(** ** util.js: escapeHtml *)
(* ================================================================== *)

(** A string is the list of its UTF-16 code units, as [Rng.codeUnits]
    gives them. *)
Module Html.
Import Rng.
Local Open Scope string_scope.
Local Open Scope Z_scope.

Definition Str : Type := list Z.

Definition AMP : Z := 38.     (* & *)
Definition LT : Z := 60.      (* < *)
Definition GT : Z := 62.      (* > *)
Definition QUOT : Z := 34.    (* the double quote *)
Definition APOS : Z := 39.    (* ' *)

(** [s.replaceAll(c, by)] for a pattern [c] of one code unit: the
    occurrences are replaced from left to right, what is put in is not
    searched again. *)
Fixpoint replaceAll (c : Z) (by' : Str) (s : Str) : Str :=
  match s with
  | [] => []
  | a :: rest =>
      if (a =? c) then (by' ++ replaceAll c by' rest)%list
      else a :: replaceAll c by' rest
  end.

Definition escapeHtml (s : Str) : Str :=
  replaceAll APOS (codeUnits "&#39;")
    (replaceAll QUOT (codeUnits "&quot;")
       (replaceAll GT (codeUnits "&gt;")
          (replaceAll LT (codeUnits "&lt;")
             (replaceAll AMP (codeUnits "&amp;") s)))).

End Html.

(* ================================================================== *)
(** ** keybinds.js *)
(* ================================================================== *)

Module Keybinds.
Import Rng Html.
Local Open Scope string_scope.
Local Open Scope Z_scope.

(** A bind as [keyEventToBind] and [pointerEventToBind] make it:
    [{ type: "key", code }] with the code of a keyboard event, or
    [{ type: "mouse", button }] with the button of a pointer event, an
    integer. *)
Inductive Bind : Type :=
| KeyBind (code : Str)
| MouseBind (button : Z).

(** The binds of the actions: an object, its keys in the order they were
    added; [None] is a key whose value is [undefined]. *)
Definition Binds : Type := list (string * option Bind).

Definition ACTIONS : list (string * string) :=
  [("dash", "Dash"); ("phase", "Invulnerability"); ("teleport", "Teleport");
   ("slowField", "Slow Field")].

Definition DEFAULT_KEYBINDS : Binds :=
  [("dash", Some (KeyBind (codeUnits "Space")));
   ("phase", Some (KeyBind (codeUnits "KeyQ")));
   ("teleport", Some (MouseBind 0));
   ("slowField", Some (KeyBind (codeUnits "KeyE")))].

(** The code units [String.prototype.trim] strips: white space and line
    terminators. *)
Definition isWhiteSpace (c : Z) : bool :=
  (c =? 9) || (c =? 10) || (c =? 11) || (c =? 12) || (c =? 13) || (c =? 32)
  || (c =? 160) || (c =? 5760) || ((8192 <=? c) && (c <=? 8202))
  || (c =? 8232) || (c =? 8233) || (c =? 8239) || (c =? 8287) || (c =? 12288)
  || (c =? 65279).

Fixpoint trimStart (s : Str) : Str :=
  match s with
  | [] => []
  | c :: rest => if isWhiteSpace c then trimStart rest else s
  end.

Definition trim (s : Str) : Str := List.rev (trimStart (List.rev (trimStart s))).

(** [/^[A-Za-z0-9]+$/.test(code)]. *)
Definition isAlnum (c : Z) : bool :=
  ((65 <=? c) && (c <=? 90)) || ((97 <=? c) && (c <=? 122)) || ((48 <=? c) && (c <=? 57)).

Definition alnumOnly (s : Str) : bool :=
  negb (List.length s =? 0)%nat && List.forallb isAlnum s.

Definition normalizeBind (b : Bind) : option Bind :=
  match b with
  | KeyBind code =>
      let code := trim code in
      if (List.length code =? 0)%nat || (32 <? List.length code)%nat then None
      else if negb (alnumOnly code) then None
      else Some (KeyBind code)
  | MouseBind btn =>
      if (btn <? 0) || (2 <? btn) then None else Some (MouseBind btn)
  end.

(** The decimal digits of an integer, as a template literal prints
    them. *)
Definition decimal (n : Z) : Str :=
  codeUnits (DecimalString.NilZero.string_of_int (Z.to_int n)).

Definition bindToken (b : option Bind) : Str :=
  match b with
  | None => []
  | Some (KeyBind code) => (codeUnits "k:" ++ code)%list
  | Some (MouseBind button) => (codeUnits "m:" ++ decimal button)%list
  end.

Definition Str_eqb (a b : Str) : bool :=
  if list_eq_dec Z.eq_dec a b then true else false.

Definition bindEquals (a b : option Bind) : bool := Str_eqb (bindToken a) (bindToken b).

(** [JSON.parse(JSON.stringify(binds))]: the keys whose value is
    [undefined] are left out. *)
Definition cloneBinds (binds : Binds) : Binds :=
  List.filter (fun kv => match snd kv with Some _ => true | None => false end) binds.

(** [o[k]] for a key of [o], and for a name that is no key of [o] and
    that [Object.prototype] does not define either: [undefined].  The
    names an object inherits are listed in [inheritedNames]; for them
    [o[k]] is the inherited value, which [lookup] does not give. *)
Definition inheritedNames : list string :=
  ["constructor"; "__proto__"; "__defineGetter__"; "__defineSetter__";
   "__lookupGetter__"; "__lookupSetter__"; "hasOwnProperty"; "isPrototypeOf";
   "propertyIsEnumerable"; "toLocaleString"; "toString"; "valueOf"].

Fixpoint lookup (k : string) (o : Binds) : option Bind :=
  match o with
  | [] => None
  | (k', v) :: rest => if (k' =? k)%string then v else lookup k rest
  end.

(** [o[k] = v]: a new key goes to the end. *)
Fixpoint assign (k : string) (v : option Bind) (o : Binds) : Binds :=
  match o with
  | [] => [(k, v)]
  | (k', v') :: rest =>
      if (k' =? k)%string then (k', v) :: rest else (k', v') :: assign k v rest
  end.

Record Rebound : Type := mkRebound {
  rb_binds : Binds;
  rb_changed : bool;
  rb_swappedWith : option string
}.

Definition applyRebindWithSwap (binds : Binds) (actionId : string) (newBind : Bind)
    : Rebound :=
  match normalizeBind newBind with
  | None => mkRebound binds false None
  | Some nb =>
      let out := cloneBinds binds in
      let actions := List.map fst out in
      let targetToken := bindToken (Some nb) in
      let other :=
        List.find (fun a => negb (a =? actionId)%string
                            && Str_eqb (bindToken (lookup a out)) targetToken) actions in
      let prev := lookup actionId out in
      let out := assign actionId (Some nb) out in
      let out := match other with
                 | Some a => if (a =? EmptyString)%string then out else assign a prev out
                 | None => out
                 end in
      mkRebound out true other
  end.

End Keybinds.

(* ================================================================== *)
(** ** main.js: the trails a score unlocks *)
(* ================================================================== *)

Module Trails.
Import Util.
Local Open Scope Q_scope.
Local Open Scope string_scope.

Record Trail : Type := mkTrail { trail_id : string; trail_name : string; minScore : Q }.

(** [net.trails] before the server has answered. *)
Definition defaultTrails : list Trail :=
  [mkTrail "classic" "Classic" 0; mkTrail "rainbow" "Rainbow" 100;
   mkTrail "gothic" "Gothic" 150].

(** [getUnlockedTrails(bestScore)] with [net.trails] as [trails]. *)
Definition getUnlockedTrails (trails : list Trail) (bestScore : Q) : list string :=
  let s := toInt bestScore in
  List.map trail_id (List.filter (fun t => leb (minScore t) (inject_Z s)) trails).

End Trails.

(* ================================================================== *)
(** * Properties *)
(* ================================================================== *)

Unset Implicit Arguments.

(** ** Integers and numeric helpers *)

Module Int32Facts.
Import Int32.
Local Open Scope Z_scope.

Lemma toUint32_range z : 0 <= toUint32 z < two32.
Proof. unfold toUint32. apply Z.mod_pos_bound. reflexivity. Qed.

Lemma toInt32_range z : - two31 <= toInt32 z < two31.
Proof.
  unfold toInt32.
  pose proof (Z.mod_pos_bound z two32 eq_refl) as Hm.
  destruct (Z.ltb_spec (z mod two32) two31); unfold two32, two31 in *; lia.
Qed.

Lemma ushr_nonneg a n : 0 <= ushr a n.
Proof.
  unfold ushr. apply Z.shiftr_nonneg. apply toUint32_range.
Qed.

End Int32Facts.

Module UtilFacts.
Import Util.
Local Open Scope Q_scope.

Lemma leb_le a b : leb a b = true <-> a <= b.
Proof. apply Qle_bool_iff. Qed.

Lemma ltb_lt a b : ltb a b = true <-> a < b.
Proof.
  unfold ltb. rewrite negb_true_iff. split; intro Hc.
  - apply Qnot_le_lt. intro Hle. apply Qle_bool_iff in Hle. congruence.
  - destruct (Qle_bool b a) eqn:Hb; [|reflexivity].
    apply Qle_bool_iff in Hb. exfalso. apply (Qlt_not_le _ _ Hc Hb).
Qed.

Lemma ltb_ge a b : ltb a b = false <-> b <= a.
Proof.
  unfold ltb. rewrite negb_false_iff. apply Qle_bool_iff.
Qed.

Lemma leb_gt a b : leb a b = false <-> b < a.
Proof.
  unfold leb. split; intro Hc.
  - apply Qnot_le_lt. intro Hle. apply Qle_bool_iff in Hle. congruence.
  - destruct (Qle_bool a b) eqn:Hb; [|reflexivity].
    apply Qle_bool_iff in Hb. exfalso. apply (Qlt_not_le _ _ Hc Hb).
Qed.

Lemma clamp_lower v a b : a <= clamp v a b.
Proof. unfold clamp. apply Q.le_max_l. Qed.

Lemma clamp_upper v a b : a <= b -> clamp v a b <= b.
Proof.
  intro Hab. unfold clamp. apply Q.max_lub; [exact Hab | apply Q.le_min_l].
Qed.

Lemma clamp_small_range v a b : b < a -> clamp v a b == a.
Proof.
  intro Hba. unfold clamp. apply Q.max_l.
  apply Qle_trans with b; [apply Q.le_min_l | apply Qlt_le_weak; exact Hba].
Qed.

End UtilFacts.

(** ** The seeded generator *)

Module RngFacts.
Import Int32 Int32Facts Rng.

#[local] Arguments mulberry32 : simpl never.

Lemma mulberry32_range a : (0 <= snd (mulberry32 a) < 1)%Q.
Proof.
  unfold mulberry32. destruct (mulberry32_bits a) as [a' n] eqn:Hb. cbn [snd].
  assert (Hn : (0 <= n < two32)%Z).
  { unfold mulberry32_bits in Hb. inversion Hb; subst. apply toUint32_range. }
  unfold two32 in Hn. unfold Qle, Qlt. simpl. lia.
Qed.

Lemma callSeq_S a k :
  callSeq a (S k) = snd (mulberry32 a) :: callSeq (fst (mulberry32 a)) k.
Proof. cbn [callSeq]. destruct (mulberry32 a). reflexivity. Qed.

Lemma callSeq_nth a : forall n i,
  (i < n)%nat ->
  nth_error (callSeq a n) i = Some (snd (mulberry32 (stateAfter a i))).
Proof.
  intros n. revert a. induction n as [|n IH]; intros a i Hi; [lia|].
  rewrite callSeq_S. destruct i as [|i]; cbn [nth_error stateAfter].
  - reflexivity.
  - apply IH. lia.
Qed.

Lemma callSeq_length a : forall n, List.length (callSeq a n) = n.
Proof.
  intros n. revert a. induction n as [|n IH]; intros a; [reflexivity|].
  rewrite callSeq_S. cbn [List.length]. now rewrite IH.
Qed.

Lemma callSeq_range a : forall n v, In v (callSeq a n) -> (0 <= v < 1)%Q.
Proof.
  intros n. revert a. induction n as [|n IH]; intros a v Hin; [contradiction|].
  rewrite callSeq_S in Hin. destruct Hin as [<- | Hin].
  - apply mulberry32_range.
  - eapply IH; eassumption.
Qed.

(** An interleaving gives each closure its own call sequence. *)
Lemma interleave_callSeq : forall sched a1 a2,
  interleave sched a1 a2 =
  (callSeq a1 (count_occ bool_dec sched true), callSeq a2 (count_occ bool_dec sched false)).
Proof.
  induction sched as [|b rest IH]; intros a1 a2; [reflexivity|].
  destruct b; cbn [interleave count_occ].
  - destruct (bool_dec true true) as [_|Hn]; [|congruence].
    destruct (bool_dec true false) as [Hn|_]; [congruence|].
    rewrite callSeq_S. destruct (mulberry32 a1) as [a1' v]. rewrite IH. reflexivity.
  - destruct (bool_dec false true) as [Hn|_]; [congruence|].
    destruct (bool_dec false false) as [_|Hn]; [|congruence].
    rewrite callSeq_S. destruct (mulberry32 a2) as [a2' v]. rewrite IH. reflexivity.
Qed.

(** C4.  Two generators made by [createSeededRand] from the same seed
    string and called in any interleaving return the same value at every
    call index, and every value either of them returns is at least 0 and
    less than 1. *)
Theorem seeded_generators_agree_and_stay_in_unit_interval :
  forall (seedStr : Seed) (sched : list bool),
    let outs := interleave sched (createSeededRand seedStr) (createSeededRand seedStr) in
    (forall i v1 v2,
        nth_error (fst outs) i = Some v1 ->
        nth_error (snd outs) i = Some v2 -> v1 = v2)
    /\ (forall v, In v (fst outs) \/ In v (snd outs) -> (0 <= v < 1)%Q).
Proof.
  intros seedStr sched outs. subst outs. rewrite interleave_callSeq.
  cbn [fst snd]. split.
  - intros i v1 v2 H1 H2.
    assert (Hi1 : (i < count_occ bool_dec sched true)%nat).
    { rewrite <- (callSeq_length (createSeededRand seedStr)).
      apply nth_error_Some. congruence. }
    assert (Hi2 : (i < count_occ bool_dec sched false)%nat).
    { rewrite <- (callSeq_length (createSeededRand seedStr)).
      apply nth_error_Some. congruence. }
    rewrite callSeq_nth in H1 by exact Hi1.
    rewrite callSeq_nth in H2 by exact Hi2. congruence.
  - intros v [Hin | Hin]; eapply callSeq_range; eassumption.
Qed.

Lemma seeded_generators_agree_witness :
  exists v1 v2,
    nth_error (fst (interleave [true; false; false; true]
                      (createSeededRand (codeUnits "abc"))
                      (createSeededRand (codeUnits "abc")))) 1 = Some v1
    /\ nth_error (snd (interleave [true; false; false; true]
                      (createSeededRand (codeUnits "abc"))
                      (createSeededRand (codeUnits "abc")))) 1 = Some v2
    /\ v1 = v2 /\ (0 <= v1 < 1)%Q.
Proof.
  destruct (seeded_generators_agree_and_stay_in_unit_interval
              (codeUnits "abc") [true; false; false; true]) as [Hsame Hrange].
  eexists. eexists.
  split; [vm_compute; reflexivity|]. split; [vm_compute; reflexivity|]. split.
  - eapply (Hsame 1%nat); vm_compute; reflexivity.
  - apply Hrange. left. vm_compute. right. left. reflexivity.
Defined.

End RngFacts.

(** ** Program trees, sources and tapes *)

Module SimFacts.
Import Rng RngFacts Sim.

#[local] Arguments mulberry32 : simpl never.

Lemma run_bind {A B} (p : Prog A) (f : A -> Prog B) : forall w,
  run (bind p f) w =
  match run p w with
  | Done a w' => run (f a) w'
  | Thrown e w' => Thrown e w'
  | Diverges => Diverges
  end.
Proof.
  induction p as [a | k IH | k IH | ]; intros w; cbn [bind run].
  - reflexivity.
  - destruct (callSource w) as [v w' | e w' | ]; [apply IH | reflexivity | reflexivity].
  - destruct (mathRandomCall w) as [v w']. apply IH.
  - reflexivity.
Qed.

Lemma pushAt_length r v : forall ts, List.length (pushAt r v ts) = List.length ts.
Proof.
  induction r as [|r IH]; intros [|t ts]; cbn [pushAt List.length]; try reflexivity.
  now rewrite IH.
Qed.

Lemma pushAt_same r v : forall ts,
  (r < List.length ts)%nat -> nth r (pushAt r v ts) [] = nth r ts [] ++ [v].
Proof.
  induction r as [|r IH]; intros [|t ts] Hr; cbn [pushAt List.length nth] in *; try lia.
  - reflexivity.
  - apply IH. lia.
Qed.

(** What [n] calls of a recorder do: the values of the wrapped generator
    are returned and appended, in call order, to the recorder's array. *)
Lemma recorder_calls : forall n w a r c,
  source w = SrcRecorder a r c ->
  (r < List.length (tapes w))%nat ->
  exists w',
    run (drawN n) w = Done (callSeq a n) w'
    /\ source w' = SrcRecorder (stateAfter a n) r (c + n)
    /\ tapeAt w' r = tapeAt w r ++ callSeq a n
    /\ List.length (tapes w') = List.length (tapes w).
Proof.
  induction n as [|n IH]; intros w a r c Hs Hr.
  - exists w. cbn [drawN run callSeq stateAfter]. rewrite Nat.add_0_r, app_nil_r. auto.
  - cbn [drawN run]. unfold callSource. rewrite Hs.
    rewrite callSeq_S. cbn [stateAfter].
    destruct (mulberry32 a) as [a' v] eqn:Hm. cbn [fst snd].
    set (w1 := mkWorld (pushAt r v (tapes w)) (SrcRecorder a' r (S c))
                       (mathRandom w) (mathCalls w)).
    destruct (IH w1 a' r (S c) eq_refl) as (w' & Hrun & Hsrc & Htape & Hlen).
    { subst w1. cbn [tapes]. now rewrite pushAt_length. }
    exists w'. rewrite run_bind, Hrun. cbn [run]. repeat split.
    + rewrite Hsrc. f_equal. lia.
    + rewrite Htape. subst w1. unfold tapeAt at 1. cbn [tapes].
      rewrite pushAt_same by exact Hr. rewrite <- app_assoc. reflexivity.
    + rewrite Hlen. subst w1. cbn [tapes]. apply pushAt_length.
Qed.

Lemma skipn_cons_nth {A} (d : A) : forall i (l : list A),
  (i < List.length l)%nat -> skipn i l = nth i l d :: skipn (S i) l.
Proof.
  induction i as [|i IH]; intros [|x l] Hi; cbn [List.length] in Hi; try lia.
  - reflexivity.
  - cbn [skipn nth]. rewrite (IH l) by lia. reflexivity.
Qed.

(** What [n] calls of a player do while the tape lasts. *)
Lemma player_calls : forall n w r i,
  source w = SrcPlayer r i ->
  (i + n <= List.length (tapeAt w r))%nat ->
  run (drawN n) w =
  Done (firstn n (skipn i (tapeAt w r))) (setRandSource (SrcPlayer r (i + n)) w).
Proof.
  induction n as [|n IH]; intros w r i Hs Hlen.
  - cbn [drawN run firstn]. rewrite Nat.add_0_r. destruct w; cbn in *; subst; reflexivity.
  - cbn [drawN run]. unfold callSource. rewrite Hs.
    destruct (Nat.leb_spec (List.length (tapeAt w r)) i) as [Hle|Hlt]; [lia|].
    rewrite run_bind.
    rewrite (IH (setRandSource (SrcPlayer r (S i)) w) r (S i)); cbn [source setRandSource tapes];
      [| reflexivity | unfold tapeAt, setRandSource in *; cbn [tapes] in *; lia].
    cbn [run]. unfold tapeAt, setRandSource. cbn [tapes source mathRandom mathCalls].
    f_equal.
    + unfold tapeAt in Hlt.
      rewrite (skipn_cons_nth 0 i (nth r (tapes w) []) Hlt). reflexivity.
    + f_equal. f_equal. lia.
Qed.

(** A player called once more than its tape has entries throws. *)
Lemma player_underrun : forall w r i,
  source w = SrcPlayer r i ->
  (List.length (tapeAt w r) <= i)%nat ->
  callSource w = Thrown (TapeUnderrun i (List.length (tapeAt w r))) w.
Proof.
  intros w r i Hs Hlen. unfold callSource. rewrite Hs.
  destruct (Nat.leb_spec (List.length (tapeAt w r)) i); [reflexivity | lia].
Qed.

Lemma newTape_fresh w :
  (fst (newTape w) < List.length (tapes (snd (newTape w))))%nat
  /\ tapeAt (snd (newTape w)) (fst (newTape w)) = [].
Proof.
  unfold newTape, tapeAt. cbn [fst snd tapes]. rewrite length_app. cbn [List.length]. split; [lia|].
  rewrite app_nth2 by lia. rewrite Nat.sub_diag. reflexivity.
Qed.

(** C3.  A recorder made for a seed and a new tape array is called [n]
    times; a player made from that tape then returns, over its first [n]
    calls, the very values the recorder returned, in the same order.  The
    tape holds exactly those values, and the call after the last one
    throws the tape-underrun error. *)
Theorem tape_roundtrip :
  forall (seedStr : Seed) (n : nat) (w0 : World),
    let tape := fst (newTape w0) in
    let w1 := setRandSource (createTapeRandRecorder seedStr tape) (snd (newTape w0)) in
    exists recorded w2 w3,
      run (drawN n) w1 = Done recorded w2
      /\ List.length recorded = n
      /\ tapeAt w2 tape = recorded
      /\ run (drawN n) (setRandSource (createTapeRandPlayer tape) w2) = Done recorded w3
      /\ callSource w3 = Thrown (TapeUnderrun n n) w3.
Proof.
  intros seedStr n w0 tape w1.
  destruct (newTape_fresh w0) as [Hfresh Hempty]. fold tape in Hfresh, Hempty.
  destruct (recorder_calls n w1 (Rng.createSeededRand seedStr) tape 0) as
      (w2 & Hrun & Hsrc & Htape & Hlen).
  { reflexivity. }
  { subst w1. unfold setRandSource. cbn [tapes]. exact Hfresh. }
  assert (Ht1 : tapeAt w1 tape = []).
  { subst w1. unfold tapeAt, setRandSource in *. cbn [tapes]. exact Hempty. }
  rewrite Ht1 in Htape. cbn [app] in Htape.
  pose (wp := setRandSource (createTapeRandPlayer tape) w2).
  assert (Htp : tapeAt wp tape = callSeq (Rng.createSeededRand seedStr) n).
  { unfold wp, tapeAt, setRandSource in *. cbn [tapes]. exact Htape. }
  assert (Hplay : run (drawN n) wp =
                  Done (callSeq (Rng.createSeededRand seedStr) n)
                       (setRandSource (SrcPlayer tape (0 + n)) wp)).
  { rewrite (player_calls n wp tape 0 eq_refl).
    - rewrite Htp. cbn [skipn]. rewrite firstn_all2; [reflexivity|].
      rewrite callSeq_length. lia.
    - rewrite Htp, callSeq_length. lia. }
  exists (callSeq (Rng.createSeededRand seedStr) n), w2,
         (setRandSource (SrcPlayer tape (0 + n)) wp).
  split; [exact Hrun|]. split; [apply callSeq_length|]. split; [exact Htape|].
  split; [exact Hplay|].
  assert (Htp' : tapeAt (setRandSource (SrcPlayer tape (0 + n)) wp) tape
                 = callSeq (Rng.createSeededRand seedStr) n).
  { unfold tapeAt, setRandSource in *. cbn [tapes]. exact Htp. }
  rewrite (player_underrun (setRandSource (SrcPlayer tape (0 + n)) wp) tape (0 + n) eq_refl).
  - rewrite Htp', callSeq_length. reflexivity.
  - rewrite Htp', callSeq_length. lia.
Qed.

End SimFacts.

(** ** What a computation can return *)

Module TreeFacts.
Import Util Sim Input Game.

(** [Holds spinOk P p]: every value [p] can return satisfies [P]; with
    [spinOk = false], moreover, [p] never loops. *)
Inductive Holds {A : Type} (spinOk : bool) (P : A -> Prop) : Prog A -> Prop :=
| Holds_ret : forall a, P a -> Holds spinOk P (Ret a)
| Holds_draw : forall k, (forall u, Holds spinOk P (k u)) -> Holds spinOk P (Draw k)
| Holds_noise : forall k, (forall u, Holds spinOk P (k u)) -> Holds spinOk P (Noise k)
| Holds_spin : spinOk = true -> Holds spinOk P Spin.

Abbreviation Post := (Holds false).
Abbreviation Leaves := (Holds true).

Lemma Holds_weaken {A} s (P Q : A -> Prop) p :
  (forall a, P a -> Q a) -> Holds s P p -> Holds s Q p.
Proof.
  intros HPQ H. induction H; [apply Holds_ret | apply Holds_draw | apply Holds_noise
                             | apply Holds_spin]; auto.
Qed.

Lemma Holds_bind {A B} s (P : B -> Prop) (p : Prog A) (f : A -> Prog B) :
  Holds s (fun a => Holds s P (f a)) p -> Holds s P (bind p f).
Proof.
  intros H. induction H; cbn [bind];
    [assumption | apply Holds_draw | apply Holds_noise | apply Holds_spin]; auto.
Qed.

Lemma Holds_bind_assoc {A B C} s (P : C -> Prop) (p : Prog A) (f : A -> Prog B)
    (k : B -> Prog C) :
  Holds s P (bind p (fun a => bind (f a) k)) -> Holds s P (bind (bind p f) k).
Proof.
  induction p as [a | c IH | c IH | ]; cbn [bind]; intros H.
  - exact H.
  - inversion H; subst. apply Holds_draw. intros u. apply IH. auto.
  - inversion H; subst. apply Holds_noise. intros u. apply IH. auto.
  - exact H.
Qed.

Lemma Post_Leaves {A} (P : A -> Prop) p : Post P p -> Leaves P p.
Proof.
  intros H. induction H; [apply Holds_ret | apply Holds_draw | apply Holds_noise
                         | discriminate]; auto.
Qed.

Lemma Holds_and {A} s (P Q : A -> Prop) p :
  Holds s P p -> Holds s Q p -> Holds s (fun a => P a /\ Q a) p.
Proof.
  intros HP. induction HP as [a Ha | k Hk IH | k Hk IH | Hs]; intros HQ; inversion HQ; subst.
  - apply Holds_ret. auto.
  - apply Holds_draw. intros u. apply IH.
    match goal with H : forall u, Holds _ Q _ |- _ => apply H end.
  - apply Holds_noise. intros u. apply IH.
    match goal with H : forall u, Holds _ Q _ |- _ => apply H end.
  - apply Holds_spin. assumption.
Qed.

(** A run that returns, returns a value the tree can return. *)
Lemma Holds_run {A} s (P : A -> Prop) (p : Prog A) :
  Holds s P p -> forall w a w', run p w = Done a w' -> P a.
Proof.
  intros H. induction H as [a Ha | k Hk IH | k Hk IH | Hs]; intros w a' w' Hrun;
    cbn [run] in Hrun.
  - inversion Hrun; subst. exact Ha.
  - destruct (callSource w) as [v w1 | e w1 | ]; try discriminate. eapply IH; eassumption.
  - destruct (mathRandomCall w) as [v w1]. eapply IH; eassumption.
  - discriminate.
Qed.

(** Sources that cannot throw: all but the tape player. *)
Definition neverThrows (s : RandSource) : Prop :=
  match s with SrcPlayer _ _ => False | _ => True end.

Lemma callSource_neverThrows w :
  neverThrows (source w) ->
  exists v w', callSource w = Done v w' /\ neverThrows (source w').
Proof.
  unfold callSource. destruct (source w) as [ | a | a r c | r i] eqn:Hs; intros Hn.
  - unfold mathRandomCall. eexists. eexists. split; [reflexivity|]. cbn [source]. now rewrite Hs.
  - destruct (Rng.mulberry32 a) as [a' v]. eexists. eexists. split; [reflexivity|]. exact I.
  - destruct (Rng.mulberry32 a) as [a' v]. eexists. eexists. split; [reflexivity|]. exact I.
  - contradiction.
Qed.

(** With such a source a computation that never loops returns. *)
Lemma Post_run {A} (P : A -> Prop) (p : Prog A) :
  Post P p -> forall w, neverThrows (source w) ->
  exists a w', run p w = Done a w' /\ P a /\ neverThrows (source w').
Proof.
  intros H. induction H as [a Ha | k Hk IH | k Hk IH | Hs]; intros w Hn; cbn [run].
  - exists a, w. auto.
  - destruct (callSource_neverThrows w Hn) as (v & w1 & Hc & Hn1). rewrite Hc.
    apply IH. exact Hn1.
  - unfold mathRandomCall. apply IH. cbn [source]. exact Hn.
  - discriminate.
Qed.

Lemma Holds_bindG_assoc {A B C} s (P : C * Game -> Prop) (m : GameM A)
    (f : A -> GameM B) (k : B -> GameM C) g :
  Holds s P (bindG m (fun a => bindG (f a) k) g) -> Holds s P (bindG (bindG m f) k g).
Proof. unfold bindG. apply Holds_bind_assoc. Qed.

(** *** Fields a method leaves alone *)

(** [Keeps s proj m]: whatever [m] returns, the part [proj] of the game is
    what it was. *)
Definition Keeps {A T : Type} (s : bool) (proj : Game -> T) (m : GameM A) : Prop :=
  forall g, Holds s (fun r => proj (snd r) = proj g) (m g).

Section KeepsRules.
Context {T : Type} (s : bool) (proj : Game -> T).

Lemma keeps_ret {A} (a : A) : Keeps s proj (ret a).
Proof. intros g. apply Holds_ret. reflexivity. Qed.

Lemma keeps_get : Keeps s proj get.
Proof. intros g. apply Holds_ret. reflexivity. Qed.

Lemma keeps_modify f : (forall g, proj (f g) = proj g) -> Keeps s proj (modify f).
Proof. intros Hf g. apply Holds_ret. apply Hf. Qed.

Lemma keeps_bind {A B} (m : GameM A) (f : A -> GameM B) :
  Keeps s proj m -> (forall a, Keeps s proj (f a)) -> Keeps s proj (bindG m f).
Proof.
  intros Hm Hf g. unfold bindG. apply Holds_bind.
  eapply Holds_weaken; [|apply Hm]. intros [a g'] Hg'. cbn [fst snd] in *.
  eapply Holds_weaken; [|apply Hf]. intros r Hr. cbn beta in Hr. congruence.
Qed.

Lemma keeps_lift {A} (p : Prog A) : Holds s (fun _ => True) p -> Keeps s proj (lift p).
Proof.
  intros Hp g. unfold lift. apply Holds_bind.
  eapply Holds_weaken; [|exact Hp]. intros a _. apply Holds_ret. reflexivity.
Qed.

Lemma keeps_randG a b : Keeps s proj (randG a b).
Proof.
  intros g. unfold randG, lift, rand. cbn [bind]. apply Holds_draw. intros u.
  apply Holds_ret. reflexivity.
Qed.

Lemma keeps_noise : Keeps s proj noise.
Proof. intros g. apply Holds_noise. intros u. apply Holds_ret. reflexivity. Qed.

Lemma keeps_forFrom body : (forall i, Keeps s proj (body i)) ->
  forall n i, Keeps s proj (forFrom i n body).
Proof.
  intros Hb. induction n as [|n IH]; intros i; cbn [forFrom].
  - apply keeps_ret.
  - apply keeps_bind; [apply Hb | intros _; apply IH].
Qed.

Lemma keeps_forN n body : (forall i, Keeps s proj (body i)) -> Keeps s proj (forN n body).
Proof. intros Hb. apply keeps_forFrom. exact Hb. Qed.

End KeepsRules.

Lemma newFloatText_total s txt x y c : Holds s (fun _ => True) (newFloatText txt x y c).
Proof.
  unfold newFloatText, rand. cbn [bind]. apply Holds_draw. intros u.
  apply Holds_draw. intros v. apply Holds_ret. exact I.
Qed.

Lemma newOrb_total s x y vx vy r life : Holds s (fun _ => True) (newOrb x y vx vy r life).
Proof.
  unfold newOrb, rand. cbn [bind]. apply Holds_draw. intros u. apply Holds_ret. exact I.
Qed.

Create HintDb keeps.

Ltac head_of t :=
  lazymatch t with
  | ?f _ => head_of f
  | _ => t
  end.

(** The rules applied along the structure of a method. *)
Ltac keeps_step :=
  lazymatch goal with
  | |- Keeps _ _ (ret _) => apply keeps_ret
  | |- Keeps _ _ get => apply keeps_get
  | |- Keeps _ _ (randG _ _) => apply keeps_randG
  | |- Keeps _ _ noise => apply keeps_noise
  | |- Keeps _ _ (lift (newFloatText _ _ _ _)) => apply keeps_lift, newFloatText_total
  | |- Keeps _ _ (lift (newOrb _ _ _ _ _ _)) => apply keeps_lift, newOrb_total
  | |- Keeps _ _ (bindG _ _) => apply keeps_bind; [ | intro ]
  | |- Keeps _ _ (forN _ _) => apply keeps_forN; intro
  | |- Keeps _ _ (modify _) =>
      apply keeps_modify; intro;
      repeat match goal with
             | |- context [if ?b then _ else _] => destruct b
             | |- context [match ?o with Some _ => _ | None => _ end] => destruct o
             end;
      first [ reflexivity
            | solve [auto with keeps]
            | repeat match goal with
                     | H : forall v g, _ = _ |- _ => progress rewrite H
                     end; reflexivity ]
  | |- Keeps _ _ (if ?b then _ else _) => destruct b
  | |- Keeps _ _ (match ?x with _ => _ end) => destruct x
  | |- Keeps _ _ (let _ := _ in _) => cbv zeta
  | |- Keeps _ _ ?m =>
      first [ solve [auto with keeps]
            | let h := head_of m in unfold h ]
  end.

Ltac keeps := repeat keeps_step.

(** A method run by hand: the reads and writes at the head of a
    computation are evaluated, a draw introduces its value. *)
Ltac exec_step :=
  lazymatch goal with
  | |- Holds _ _ (bindG (bindG _ _) _ _) => apply Holds_bindG_assoc
  | |- Holds _ _ (bindG get _ _) => unfold bindG at 1, get at 1
  | |- Holds _ _ (bindG (modify _) _ _) => unfold bindG at 1, modify at 1
  | |- Holds _ _ (bindG (ret _) _ _) => unfold bindG at 1, ret at 1
  | |- Holds _ _ (bindG (pushPart _) _ _) => unfold pushPart at 1
  | |- Holds _ _ (bindG (pushFloat _) _ _) => unfold pushFloat at 1
  | |- Holds _ _ (bindG (randG _ _) _ _) =>
      unfold bindG at 1, randG at 1, lift at 1, rand at 1; cbn [bind fst snd];
      apply Holds_draw; intro
  | |- Holds _ _ (bindG (lift (newFloatText _ _ _ _)) _ _) =>
      unfold bindG at 1, lift at 1, newFloatText at 1, rand; cbn [bind fst snd];
      apply Holds_draw; intro; apply Holds_draw; intro
  | |- Holds _ _ (ret _ _) => apply Holds_ret
  | |- Holds _ _ (modify _ _) => apply Holds_ret
  | |- Holds _ _ (pushPart _ _) => apply Holds_ret
  | |- Holds _ _ (pushFloat _ _) => apply Holds_ret
  end; cbn [bind fst snd].

Ltac exec := repeat exec_step.

(** A loop of particles at the head of a computation, by what it keeps. *)
Ltac exec_loop lemma :=
  unfold bindG at 1; apply Holds_bind;
  eapply Holds_weaken; [| apply lemma ];
  only 1: (let u := fresh "u" in let g := fresh "g" in let Hk := fresh "Hk" in
           intros [u g] Hk; cbn [fst snd] in Hk |- *).

End TreeFacts.

(** ** Skills *)

Module SkillFacts.
Import Util UtilFacts Sim Input Game TreeFacts.
Local Open Scope Q_scope.
Local Open Scope string_scope.

Section WithEngine.
Variable E : Engine.

Lemma ltb_false_of_zero x : x == 0 -> ltb 0 x = false.
Proof. intros Hx. apply ltb_ge. rewrite Hx. apply Qle_refl. Qed.

Lemma ltb_true_of_pos x : 0 < x -> ltb 0 x = true.
Proof. intros Hx. apply ltb_lt. exact Hx. Qed.

(** A request against a running cooldown leaves [_useSkill] at once. *)
Lemma useSkill_cooling_down inp name g :
  hasSkill name = true -> 0 < cdOf name (cds g) ->
  _useSkill E inp name g = Ret (tt, g).
Proof.
  intros Hn Hcd. unfold _useSkill. rewrite Hn. cbn [negb].
  unfold bindG, get. cbn [bind fst snd].
  rewrite (ltb_true_of_pos _ Hcd). reflexivity.
Qed.

(** A teleport without a known pointer position leaves [_useSkill] with
    nothing done. *)
Lemma useSkill_teleport_no_pointer inp g :
  cur_has (cursor inp) = false ->
  _useSkill E inp "teleport" g = Ret (tt, g).
Proof.
  intros Hc. unfold _useSkill. cbn [hasSkill negb String.eqb Ascii.eqb Bool.eqb orb].
  unfold bindG at 1. unfold get at 1. cbn [bind fst snd].
  destruct (ltb 0 (cdOf "teleport" (cds g))); [reflexivity|].
  cbn [String.eqb Ascii.eqb Bool.eqb].
  unfold useTeleport, bindG, get, ret. cbn [bind fst snd]. rewrite Hc. reflexivity.
Qed.

Lemma handleAction_playing inp name g :
  state g = PLAY -> handleAction E inp name g = _useSkill E inp name g.
Proof.
  intros Hs. unfold handleAction, bindG, get. cbn [bind fst snd]. rewrite Hs. reflexivity.
Qed.

Lemma handleAction_not_playing inp name g :
  state g <> PLAY -> handleAction E inp name g = Ret (tt, g).
Proof.
  intros Hs. unfold handleAction, bindG, get. cbn [bind fst snd].
  destruct (state g); try congruence; reflexivity.
Qed.

(** What the particles and texts of a skill leave alone. *)
Definition noFx (g : Game) : Game := set_floats [] (set_parts [] g).

Lemma dashParticle_keeps i : Keeps false noFx (dashParticle E i).
Proof. unfold dashParticle, pushPart. keeps. Qed.

Lemma burstPair_keeps ox oy nx ny i : Keeps false noFx (burstPair E ox oy nx ny i).
Proof. unfold burstPair, pushPart. keeps. Qed.

Lemma arrivalParticle_keeps nx ny ed i : Keeps false noFx (arrivalParticle E nx ny ed i).
Proof. unfold arrivalParticle, pushPart. keeps. Qed.

Lemma noFx_fields g g' :
  noFx g' = noFx g ->
  state g' = state g /\ W g' = W g /\ H g' = H g /\ canvasW g' = canvasW g
  /\ canvasH g' = canvasH g /\ player g' = player g /\ cds g' = cds g
  /\ cfg g' = cfg g /\ slowField g' = slowField g /\ score g' = score g
  /\ combo g' = combo g /\ pipes g' = pipes g /\ orbs g' = orbs g /\ gates g' = gates g.
Proof.
  intros Hn.
  repeat split;
    [ apply (f_equal state) in Hn | apply (f_equal W) in Hn | apply (f_equal H) in Hn
    | apply (f_equal canvasW) in Hn | apply (f_equal canvasH) in Hn
    | apply (f_equal player) in Hn | apply (f_equal cds) in Hn | apply (f_equal cfg) in Hn
    | apply (f_equal slowField) in Hn | apply (f_equal score) in Hn
    | apply (f_equal combo) in Hn | apply (f_equal pipes) in Hn
    | apply (f_equal orbs) in Hn | apply (f_equal gates) in Hn ];
    exact Hn.
Qed.

(** The dash branch: the cooldown and the dash timer are set, the
    direction is the unit vector of the intent, else of the last intent,
    else (0, -1). *)
Definition dashDirection (inp : InputObj) (p : Player) : Q * Q :=
  let mv := getMove inp in
  let n := norm2 E (dx mv) (dy mv) in
  let ddx := if ltb 0 (n_len n) then n_x n else lastX p in
  let ddy := if ltb 0 (n_len n) then n_y n else lastY p in
  let nn := norm2 E ddx ddy in
  (if ltb 0 (n_len nn) then n_x nn else 0, if ltb 0 (n_len nn) then n_y nn else -1).

Lemma useDash_post inp g :
  Post (fun r =>
          cds (snd r) = set_cd_dash (Qmax 0 (orElse (dash_cooldown (c_skills (cfg g))) 0)) (cds g)
          /\ dashT (player (snd r)) = clamp (orElse (dash_duration (c_skills (cfg g))) 0) 0 1.2
          /\ (dashVX (player (snd r)), dashVY (player (snd r))) = dashDirection inp (player g)
          /\ state (snd r) = state g)
       (useDash E inp g).
Proof.
  unfold useDash, bindG, modify. cbn [bind fst snd].
  eapply Holds_weaken; [|apply (keeps_forN false noFx 18 (dashParticle E) dashParticle_keeps)].
  intros [u g'] Hk. cbn [fst snd] in *. apply noFx_fields in Hk.
  destruct Hk as (Hst & _ & _ & _ & _ & Hp & Hc & _).
  rewrite Hp, Hc, Hst. repeat split.
Qed.

Lemma usePhase_post g :
  Post (fun r =>
          cds (snd r) = set_cd_phase (Qmax 0 (orElse (phase_cooldown (c_skills (cfg g))) 0)) (cds g)
          /\ invT (player (snd r))
             = Qmax (invT (player g)) (clamp (orElse (phase_duration (c_skills (cfg g))) 0) 0 2.0)
          /\ state (snd r) = state g)
       (usePhase g).
Proof.
  unfold usePhase.
  assert (Hk : Keeps false noFx
                 (g <- get ;;
                  let p := player g in
                  t <- lift (newFloatText (Lit "PHASE") (p_x p) (p_y p - p_r p * 1.6)
                                          (Css "rgba(160,220,255,.95)")) ;;
                  pushFloat t)).
  { unfold pushFloat. keeps. }
  unfold bindG at 1. unfold modify at 1. cbn [bind fst snd].
  eapply Holds_weaken; [|apply Hk].
  intros [u g'] Hg. cbn [fst snd] in *. apply noFx_fields in Hg.
  destruct Hg as (Hst & _ & _ & _ & _ & Hp & Hc & _).
  rewrite Hp, Hc, Hst. repeat split.
Qed.

Lemma useSlowField_post g :
  Post (fun r =>
          cds (snd r)
          = set_cd_slowField (Qmax 0 (orElse (sf_cooldown (c_skills (cfg g))) 0)) (cds g)
          /\ slowField (snd r)
             = Some (mkSlowField (p_x (player g)) (p_y (player g))
                       (clamp (orElse (sf_radius (c_skills (cfg g))) 0) 40 900)
                       (clamp (orElse (sf_slowFactor (c_skills (cfg g))) 0.6) 0.10 1.0)
                       (clamp (orElse (sf_duration (c_skills (cfg g))) 0) 0 8.0)
                       (clamp (orElse (sf_duration (c_skills (cfg g))) 0) 0 8.0))
          /\ state (snd r) = state g)
       (useSlowField g).
Proof.
  unfold useSlowField.
  assert (Hk : Keeps false noFx
                 (g <- get ;;
                  let p := player g in
                  t <- lift (newFloatText (Lit "SLOW FIELD") (p_x p) (p_y p - p_r p * 1.8)
                                          (Css "rgba(120,210,255,.95)")) ;;
                  pushFloat t)).
  { unfold pushFloat. keeps. }
  unfold bindG at 1. unfold modify at 1. cbn [bind fst snd].
  eapply Holds_weaken; [|apply Hk].
  intros [u g'] Hg. cbn [fst snd] in *. apply noFx_fields in Hg.
  destruct Hg as (Hst & _ & _ & _ & _ & _ & Hc & _ & Hsf & _).
  rewrite Hc, Hsf, Hst. repeat split.
Qed.

(** Where a teleport puts the player: the pointer, scaled from canvas to
    field coordinates and clamped. *)
Definition teleportTarget (inp : InputObj) (g : Game) : Q * Q :=
  let pad := p_r (player g) + 2 in
  let cw := orElse (canvasW g) (W g) in
  let ch := orElse (canvasH g) (H g) in
  let sx := if ltb 0 cw then W g / cw else 1 in
  let sy := if ltb 0 ch then H g / ch else 1 in
  (clamp (cur_x (cursor inp) * sx) pad (W g - pad),
   clamp (cur_y (cursor inp) * sy) pad (H g - pad)).

Lemma useTeleport_post inp g :
  cur_has (cursor inp) = true ->
  Post (fun r =>
          fst r = false
          /\ cds (snd r)
             = set_cd_teleport (Qmax 0 (orElse (tp_cooldown (c_skills (cfg g))) 0)) (cds g)
          /\ (p_x (player (snd r)), p_y (player (snd r))) = teleportTarget inp g
          /\ p_vx (player (snd r)) = p_vx (player g) * 0.25
          /\ p_vy (player (snd r)) = p_vy (player g) * 0.25
          /\ p_r (player (snd r)) = p_r (player g)
          /\ W (snd r) = W g /\ H (snd r) = H g
          /\ state (snd r) = state g)
       (useTeleport E inp g).
Proof.
  intros Hc. unfold useTeleport. exec. rewrite Hc. cbn [negb].
  exec_loop (keeps_forN false noFx).
  2:{ intro i. apply burstPair_keeps. }
  apply noFx_fields in Hk.
  destruct Hk as (Hst & HW & HH & _ & _ & Hp & Hcd & _).
  exec.
  unfold bindG at 1. apply Holds_bind.
  eapply Holds_weaken; [| apply (keeps_forN false noFx)].
  2:{ intro i. apply arrivalParticle_keeps. }
  intros [uu gg] Hk. cbn [fst snd] in Hk |- *. apply Holds_ret. cbn [fst snd].
  apply noFx_fields in Hk.
  destruct Hk as (Hst2 & HW2 & HH2 & _ & _ & Hp2 & Hcd2 & _).
  rewrite Hcd2, Hp2, Hst2, HW2, HH2. cbn. rewrite Hp, Hcd, Hst, HW, HH.
  repeat split.
Qed.

Lemma useSkill_ready inp name g :
  hasSkill name = true -> cdOf name (cds g) == 0 ->
  _useSkill E inp name g =
  ((if name =? "dash" then useDash E inp else ret tt) ;;
   (if name =? "phase" then usePhase else ret tt) ;;
   returned <- (if name =? "teleport" then useTeleport E inp else ret false) ;;
   if returned then ret tt
   else if name =? "slowField" then useSlowField else ret tt) g.
Proof.
  intros Hn Hcd. unfold _useSkill. rewrite Hn. cbn [negb].
  unfold bindG at 1. unfold get at 1. cbn [bind fst snd].
  rewrite (ltb_false_of_zero _ Hcd). reflexivity.
Qed.

(** C5.  In the PLAY state, an activation of a skill whose cooldown is
    still positive, and an activation of teleport while no pointer
    position is known, return at once: no random draw is made, nothing can
    be thrown, and the game, its cooldowns included, is what it was.  An
    activation at a cooldown of exactly 0 (with a pointer position, for
    teleport) takes effect: it never loops, and whatever it returns has
    the skill's cooldown started and the skill applied. *)
Theorem invalid_skill_activation_is_a_noop :
  forall (inp : InputObj) (name : string) (g : Game),
    state g = PLAY ->
    (hasSkill name = true -> 0 < cdOf name (cds g) ->
     handleAction E inp name g = Ret (tt, g))
    /\ (cur_has (cursor inp) = false ->
        handleAction E inp "teleport" g = Ret (tt, g))
    /\ (cdOf name (cds g) == 0 ->
        (name = "dash" ->
         Post (fun r =>
                 cd_dash (cds (snd r))
                 = Qmax 0 (orElse (dash_cooldown (c_skills (cfg g))) 0)
                 /\ dashT (player (snd r))
                    = clamp (orElse (dash_duration (c_skills (cfg g))) 0) 0 1.2)
              (handleAction E inp name g))
        /\ (name = "phase" ->
            Post (fun r =>
                    cd_phase (cds (snd r))
                    = Qmax 0 (orElse (phase_cooldown (c_skills (cfg g))) 0)
                    /\ invT (player (snd r))
                       = Qmax (invT (player g))
                              (clamp (orElse (phase_duration (c_skills (cfg g))) 0) 0 2.0))
                 (handleAction E inp name g))
        /\ (name = "teleport" -> cur_has (cursor inp) = true ->
            Post (fun r =>
                    cd_teleport (cds (snd r))
                    = Qmax 0 (orElse (tp_cooldown (c_skills (cfg g))) 0)
                    /\ (p_x (player (snd r)), p_y (player (snd r))) = teleportTarget inp g)
                 (handleAction E inp name g))
        /\ (name = "slowField" ->
            Post (fun r =>
                    cd_slowField (cds (snd r))
                    = Qmax 0 (orElse (sf_cooldown (c_skills (cfg g))) 0)
                    /\ exists s, slowField (snd r) = Some s
                                 /\ sf_x s = p_x (player g) /\ sf_y s = p_y (player g))
                 (handleAction E inp name g))).
Proof.
  intros inp name g Hplay. rewrite !handleAction_playing by exact Hplay.
  split; [|split].
  - intros Hn Hcd. apply useSkill_cooling_down; assumption.
  - intros Hc. apply useSkill_teleport_no_pointer. exact Hc.
  - intros Hcd. repeat split; intros ->.
    + rewrite useSkill_ready by (exact Hcd || reflexivity).
      cbn [String.eqb Ascii.eqb Bool.eqb].
      unfold bindG at 1. apply Holds_bind.
      eapply Holds_weaken; [|apply useDash_post].
      intros [u g1] (Hc & Hd & _). cbn [fst snd] in *. exec. cbn [fst snd].
      rewrite Hc, Hd. split; reflexivity.
    + rewrite useSkill_ready by (exact Hcd || reflexivity).
      cbn [String.eqb Ascii.eqb Bool.eqb]. exec.
      unfold bindG at 1. apply Holds_bind.
      eapply Holds_weaken; [|apply usePhase_post].
      intros [u g1] (Hc & Hd & _). cbn [fst snd] in *. exec. cbn [fst snd].
      rewrite Hc, Hd. split; reflexivity.
    + intros Hhas. rewrite useSkill_ready by (exact Hcd || reflexivity).
      cbn [String.eqb Ascii.eqb Bool.eqb]. exec.
      unfold bindG at 1. apply Holds_bind.
      eapply Holds_weaken; [|apply useTeleport_post; exact Hhas].
      intros [u g1] (Hf & Hc & Hd & _). cbn [fst snd] in *. subst u. exec. cbn [fst snd].
      rewrite Hc, Hd. split; reflexivity.
    + rewrite useSkill_ready by (exact Hcd || reflexivity).
      cbn [String.eqb Ascii.eqb Bool.eqb]. exec.
      eapply Holds_weaken; [|apply useSlowField_post].
      intros [u g1] (Hc & Hd & _). cbn [fst snd] in *.
      rewrite Hc. split; [reflexivity|]. eexists. split; [exact Hd|]. split; reflexivity.
Qed.

End WithEngine.

Lemma invalid_skill_activation_witness :
  handleAction Ref.refMath Ref.idleInput "dash" Ref.coolingGame = Ret (tt, Ref.coolingGame)
  /\ handleAction Ref.refMath Ref.idleInput "teleport" Ref.readyGame = Ret (tt, Ref.readyGame)
  /\ Post (fun r => cd_phase (cds (snd r)) = Qmax 0 (orElse 1.75 0)
                    /\ invT (player (snd r)) = Qmax 0 (clamp (orElse 0.40 0) 0 2.0))
          (handleAction Ref.refMath Ref.idleInput "phase" Ref.readyGame).
Proof.
  split; [|split].
  - apply (invalid_skill_activation_is_a_noop Ref.refMath Ref.idleInput "dash"
             Ref.coolingGame eq_refl); reflexivity.
  - apply (invalid_skill_activation_is_a_noop Ref.refMath Ref.idleInput "phase"
             Ref.readyGame eq_refl). reflexivity.
  - apply (invalid_skill_activation_is_a_noop Ref.refMath Ref.idleInput "phase"
             Ref.readyGame eq_refl); reflexivity.
Defined.

End SkillFacts.

(** ** Orbs, combo and score *)

Module OrbFacts.
Import Util UtilFacts Sim Input Game TreeFacts SkillFacts.
Local Open Scope Q_scope.
Local Open Scope string_scope.

Lemma orElse_eq x d : ~ x == 0 -> orElse x d = x.
Proof.
  intros Hx. unfold orElse, eqb. destruct (Qeq_bool x 0) eqn:Hb; [|reflexivity].
  apply Qeq_bool_eq in Hb. contradiction.
Qed.

Lemma orElse_zero x : orElse x 0 == x.
Proof.
  unfold orElse, eqb. destruct (Qeq_bool x 0) eqn:Hb; [|reflexivity].
  apply Qeq_bool_eq in Hb. symmetry. exact Hb.
Qed.

Lemma round_comp x y : x == y -> round x = round y.
Proof. intros Hxy. unfold round. f_equal. apply Qfloor_comp. rewrite Hxy. reflexivity. Qed.

Lemma round_inject_Z z : round (inject_Z z) = inject_Z z.
Proof.
  unfold round. f_equal. apply Z.le_antisymm.
  - apply Z.lt_succ_r. rewrite Zlt_Qlt.
    apply Qle_lt_trans with (inject_Z z + 0.5); [apply Qfloor_le|].
    unfold Z.succ. rewrite inject_Z_plus. change (inject_Z 1) with 1. lra.
  - rewrite <- (Qfloor_Z z) at 1. apply Qfloor_resp_le. lra.
Qed.

Lemma Qeq_refl_eq (x y : Q) : x = y -> x == y.
Proof. intros ->. reflexivity. Qed.

Section WithEngine.
Variable E : Engine.

Lemma pickupParticle_keeps ob i : Keeps false noFx (pickupParticle E ob i).
Proof. unfold pickupParticle, pushPart. keeps. Qed.

(** What collecting an orb does to combo and score, in the terms of the
    code. *)
Lemma collectOrb_post ob g :
  let maxC := Qmax 1 (orElse (orbComboMax (c_scoring (cfg g))) 30) in
  let newCombo := Qmin maxC (combo g + 1) in
  Post (fun r =>
          combo (snd r) = newCombo
          /\ score (snd r) = score g + _orbPoints g newCombo
          /\ cfg (snd r) = cfg g)
       (collectOrb E ob g).
Proof.
  intros maxC newCombo. unfold collectOrb. exec.
  eapply Holds_weaken; [| apply (keeps_forN false noFx)].
  2:{ intro i. apply pickupParticle_keeps. }
  intros [uu g1] Hk. cbn [fst snd] in *. apply noFx_fields in Hk.
  destruct Hk as (_ & _ & _ & _ & _ & _ & _ & Hcfg & _ & Hsc & Hco & _).
  rewrite Hco, Hsc, Hcfg. repeat split.
Qed.

(** The same in the terms of the configuration, when it is in its
    natural range. *)
Lemma collectOrb_award ob g :
  0 <= combo g ->
  1 <= orbComboMax (c_scoring (cfg g)) ->
  0 <= orbBase (c_scoring (cfg g)) ->
  0 <= orbComboBonus (c_scoring (cfg g)) ->
  Post (fun r =>
          combo (snd r) == Qmin (orbComboMax (c_scoring (cfg g))) (combo g + 1)
          /\ score (snd r)
             == score g + round (orbBase (c_scoring (cfg g))
                                 + orbComboBonus (c_scoring (cfg g)) * (combo (snd r) - 1))
          /\ cfg (snd r) = cfg g)
       (collectOrb E ob g).
Proof.
  intros Hc Hmax Hbase Hbonus.
  eapply Holds_weaken; [| apply collectOrb_post].
  intros [uu g1] (Hco & Hsc & Hcfg). cbn [fst snd] in *.
  set (sc := c_scoring (cfg g)) in *.
  assert (HmaxC : Qmax 1 (orElse (orbComboMax sc) 30) == orbComboMax sc).
  { rewrite orElse_eq.
    - apply Q.max_r. exact Hmax.
    - intro H0. rewrite H0 in Hmax. apply (Qle_not_lt _ _ Hmax). reflexivity. }
  assert (Hnew : combo g1 == Qmin (orbComboMax sc) (combo g + 1)).
  { rewrite Hco. rewrite HmaxC. reflexivity. }
  split; [exact Hnew|]. split; [|exact Hcfg].
  rewrite Hsc. unfold _orbPoints. fold sc. rewrite <- Hco.
  apply Qplus_comp; [reflexivity|].
  assert (Hge1 : 1 <= combo g1).
  { rewrite Hnew. apply Q.min_glb; [exact Hmax|]. lra. }
  rewrite (round_comp
             (Qmax 0 (orElse (orbBase sc) 0)
              + Qmax 0 (orElse (orbComboBonus sc) 0) * Qmax 0 (combo g1 - 1))
             (orbBase sc + orbComboBonus sc * (combo g1 - 1))); [reflexivity|].
  rewrite !orElse_zero.
  rewrite (Q.max_r 0 (orbBase sc)) by exact Hbase.
  rewrite (Q.max_r 0 (orbComboBonus sc)) by exact Hbonus.
  rewrite (Q.max_r 0 (combo g1 - 1)) by lra.
  reflexivity.
Qed.

Lemma breakCombo_post x y g :
  Post (fun r => combo (snd r) = 0 /\ score (snd r) = score g /\ cfg (snd r) = cfg g)
       (_breakCombo x y g).
Proof.
  unfold _breakCombo. exec. destruct (ltb 0 (combo g)); exec; cbn; repeat split.
Qed.

Lemma orbsExpire_breaks_combo dt g :
  List.existsb Orb_dead (List.map (Orb_update dt (W g) (H g)) (orbs g)) = true ->
  Post (fun r => combo (snd r) = 0 /\ score (snd r) = score g /\ cfg (snd r) = cfg g)
       (orbsExpire dt g).
Proof.
  intros Hdead. unfold orbsExpire. exec. rewrite Hdead.
  eapply Holds_weaken; [| apply breakCombo_post].
  intros [uu g1] (Hc & Hs & Hcfg). cbn [fst snd] in *. auto.
Qed.

(** The award at a given combo with the scenario's base 5 and bonus 1. *)
Lemma collectOrb_scenario ob g (n : Z) :
  (0 <= n)%Z ->
  combo g == inject_Z n ->
  inject_Z n + 1 <= orbComboMax (c_scoring (cfg g)) ->
  orbBase (c_scoring (cfg g)) == 5 ->
  orbComboBonus (c_scoring (cfg g)) == 1 ->
  Post (fun r => combo (snd r) == inject_Z n + 1
                 /\ score (snd r) == score g + inject_Z (5 + n)
                 /\ cfg (snd r) = cfg g)
       (collectOrb E ob g).
Proof.
  intros Hn Hc Hmax Hbase Hbonus.
  assert (Hn' : 0 <= inject_Z n).
  { change 0 with (inject_Z 0). rewrite <- Zle_Qle. exact Hn. }
  eapply Holds_weaken; [| apply collectOrb_award].
  - intros [uu g1] (Hco & Hsc & Hcfg). cbn [fst snd] in *.
    assert (Hnew : combo g1 == inject_Z n + 1).
    { rewrite Hco, Hc. apply Q.min_r. exact Hmax. }
    split; [exact Hnew|]. split; [|exact Hcfg].
    rewrite Hsc. apply Qplus_comp; [reflexivity|].
    rewrite (round_comp _ (inject_Z (5 + n))).
    + apply Qeq_refl_eq. apply round_inject_Z.
    + rewrite Hbase, Hbonus, Hnew, inject_Z_plus. change (inject_Z 5) with 5. lra.
  - rewrite Hc. exact Hn'.
  - apply Qle_trans with (inject_Z n + 1); [lra | exact Hmax].
  - rewrite Hbase. discriminate.
  - rewrite Hbonus. discriminate.
Qed.

(** C6.  When the pickup loop meets an orb the player touches, it collects
    it.  Collecting an orb first raises the combo to
    [min(max(1, orbComboMax || 30), combo + 1)] and then adds
    [round(max(0, orbBase || 0) + max(0, orbComboBonus || 0) * max(0, newCombo - 1))]
    to the score, the combo after the increment being used, whatever the
    configuration and the combo before.  When the combo is not negative,
    the cap at least 1 and base and bonus not negative, these are
    [min(orbComboMax, combo + 1)] and
    [round(orbBase + orbComboBonus * (newCombo - 1))].  With base 5 and
    bonus 1, pickups that bring the combo to 1, 2 and 3 award 5, 6 and 7;
    an orb that expires resets the combo to 0, and the pickup after it
    awards 5. *)
Theorem orb_pickup_scoring :
  forall (ob : Orb) (rest : list Orb) (dt : Q) (g : Game),
    (circleCircle (p_x (player g)) (p_y (player g)) (p_r (player g))
                  (orb_x ob) (orb_y ob) (orb_r ob) = true ->
     pickupLoop E (ob :: rest) g = (collectOrb E ob ;; pickupLoop E rest) g)
    /\ Post (fun r =>
               combo (snd r)
               = Qmin (Qmax 1 (orElse (orbComboMax (c_scoring (cfg g))) 30)) (combo g + 1)
               /\ score (snd r)
                  = score g
                    + round (Qmax 0 (orElse (orbBase (c_scoring (cfg g))) 0)
                             + Qmax 0 (orElse (orbComboBonus (c_scoring (cfg g))) 0)
                               * Qmax 0 (combo (snd r) - 1)))
            (collectOrb E ob g)
    /\ (0 <= combo g ->
        1 <= orbComboMax (c_scoring (cfg g)) ->
        0 <= orbBase (c_scoring (cfg g)) ->
        0 <= orbComboBonus (c_scoring (cfg g)) ->
        Post (fun r =>
                combo (snd r) == Qmin (orbComboMax (c_scoring (cfg g))) (combo g + 1)
                /\ score (snd r)
                   == score g + round (orbBase (c_scoring (cfg g))
                                       + orbComboBonus (c_scoring (cfg g))
                                         * (combo (snd r) - 1)))
             (collectOrb E ob g))
    /\ (orbBase (c_scoring (cfg g)) == 5 ->
        orbComboBonus (c_scoring (cfg g)) == 1 ->
        3 <= orbComboMax (c_scoring (cfg g)) ->
        (combo g == 0 ->
         Post (fun r => combo (snd r) == 1 /\ score (snd r) == score g + 5)
              (collectOrb E ob g))
        /\ (combo g == 1 ->
            Post (fun r => combo (snd r) == 2 /\ score (snd r) == score g + 6)
                 (collectOrb E ob g))
        /\ (combo g == 2 ->
            Post (fun r => combo (snd r) == 3 /\ score (snd r) == score g + 7)
                 (collectOrb E ob g))
        /\ (List.existsb Orb_dead (List.map (Orb_update dt (W g) (H g)) (orbs g)) = true ->
            Post (fun r =>
                    combo (snd r) = 0
                    /\ Post (fun r' => combo (snd r') == 1
                                       /\ score (snd r') == score (snd r) + 5)
                            (collectOrb E ob (snd r)))
                 (orbsExpire dt g))).
Proof.
  intros ob rest dt g. split; [|split; [|split]].
  - intros Htouch. cbn [pickupLoop]. unfold bindG at 1. unfold get at 1.
    cbn [bind fst snd]. rewrite Htouch. reflexivity.
  - eapply Holds_weaken; [| apply collectOrb_post].
    intros [uu g1] (H1 & H2 & _). cbn [fst snd] in *.
    split; [exact H1|]. rewrite H2. unfold _orbPoints. rewrite H1. reflexivity.
  - intros Hc Hmax Hbase Hbonus.
    eapply Holds_weaken; [| apply collectOrb_award; assumption].
    intros [uu g1] (H1 & H2 & _). auto.
  - intros Hb5 Hb1 Hmax3. repeat split.
    + intros Hc0.
      eapply Holds_weaken;
        [| apply (collectOrb_scenario ob g 0); try assumption; try lia;
           try (eapply Qle_trans; [|exact Hmax3]; discriminate)].
      intros [uu g1] (H1 & H2 & _). cbn [fst snd] in *.
      split; [rewrite H1|rewrite H2]; reflexivity.
    + intros Hc1.
      eapply Holds_weaken;
        [| apply (collectOrb_scenario ob g 1); try assumption; try lia;
           try (eapply Qle_trans; [|exact Hmax3]; discriminate)].
      intros [uu g1] (H1 & H2 & _). cbn [fst snd] in *.
      split; [rewrite H1|rewrite H2]; reflexivity.
    + intros Hc2.
      eapply Holds_weaken;
        [| apply (collectOrb_scenario ob g 2); try assumption; try lia;
           try (eapply Qle_trans; [|exact Hmax3]; discriminate)].
      intros [uu g1] (H1 & H2 & _). cbn [fst snd] in *.
      split; [rewrite H1|rewrite H2]; reflexivity.
    + intros Hdead.
      eapply Holds_weaken; [| apply orbsExpire_breaks_combo; exact Hdead].
      intros [uu g1] (Hc0 & Hs & Hcfg). cbn [fst snd] in *. split; [exact Hc0|].
      eapply Holds_weaken; [| apply (collectOrb_scenario ob g1 0); try lia].
      * intros [uu' g2] (H1 & H2 & _). cbn [fst snd] in *. split; [rewrite H1|rewrite H2]; reflexivity.
      * rewrite Hc0. reflexivity.
      * rewrite Hcfg. eapply Qle_trans; [|exact Hmax3]. discriminate.
      * rewrite Hcfg. exact Hb5.
      * rewrite Hcfg. exact Hb1.
Qed.

End WithEngine.

Lemma orb_pickup_scoring_witness :
  Post (fun r => combo (snd r) == 1 /\ score (snd r) == score Ref.readyGame + 5)
       (collectOrb Ref.refMath Ref.centreOrb Ref.readyGame).
Proof.
  assert (Hle : forall a b, Qle_bool a b = true -> a <= b)
    by (intros a b; apply Qle_bool_imp_le).
  refine (proj1 (proj2 (proj2 (proj2 (orb_pickup_scoring Ref.refMath
            Ref.centreOrb [] (1 / 120) Ref.readyGame))) _ _ _) _);
    try (apply Hle; vm_compute; reflexivity); vm_compute; reflexivity.
Defined.

(** With [scoring.orbBase] at -4 and the bonus at 1, the first three
    pickups of a run bring the combo to 1, 2 and 3 and award 0, 1 and 2,
    where [round(orbBase + orbComboBonus * (newCombo - 1))] is -4, -3 and
    -2: the score does not go down. *)
Lemma negative_orb_base_awards_nothing :
  orbBase (c_scoring (cfg Ref.debtGame)) == -4
  /\ orbComboBonus (c_scoring (cfg Ref.debtGame)) == 1
  /\ combo Ref.debtGame == 0 /\ score Ref.debtGame == 0
  /\ Post (fun r1 =>
        combo (snd r1) == 1 /\ score (snd r1) == 0
        /\ round (orbBase (c_scoring (cfg Ref.debtGame))
                  + orbComboBonus (c_scoring (cfg Ref.debtGame)) * (combo (snd r1) - 1))
           == -4
        /\ Post (fun r2 =>
             combo (snd r2) == 2 /\ score (snd r2) == 1
             /\ round (orbBase (c_scoring (cfg Ref.debtGame))
                       + orbComboBonus (c_scoring (cfg Ref.debtGame)) * (combo (snd r2) - 1))
                == -3
             /\ Post (fun r3 => combo (snd r3) == 3 /\ score (snd r3) == 3)
                     (collectOrb Ref.refMath Ref.centreOrb (snd r2)))
                (collectOrb Ref.refMath Ref.centreOrb (snd r1)))
          (collectOrb Ref.refMath Ref.centreOrb Ref.debtGame).
Proof.
  split; [reflexivity|]. split; [reflexivity|]. split; [reflexivity|].
  split; [reflexivity|].
  eapply Holds_weaken; [| apply collectOrb_post].
  intros [u1 g1] (Hc1 & Hs1 & Hcfg1). cbn [fst snd] in *.
  unfold _orbPoints in Hs1.
  rewrite Hc1, Hs1.
  split; [vm_compute; reflexivity|]. split; [vm_compute; reflexivity|].
  split; [vm_compute; reflexivity|].
  eapply Holds_weaken; [| apply collectOrb_post].
  intros [u2 g2] (Hc2 & Hs2 & Hcfg2). cbn [fst snd] in *.
  unfold _orbPoints in Hs2. rewrite Hcfg1, Hc1 in Hc2. rewrite Hcfg1, Hs1, Hc1 in Hs2.
  rewrite Hc2, Hs2.
  split; [vm_compute; reflexivity|]. split; [vm_compute; reflexivity|].
  split; [vm_compute; reflexivity|].
  eapply Holds_weaken; [| apply collectOrb_post].
  intros [u3 g3] (Hc3 & Hs3 & Hcfg3). cbn [fst snd] in *.
  unfold _orbPoints in Hs3. rewrite Hcfg2, Hcfg1, Hc2 in Hc3.
  rewrite Hcfg2, Hcfg1, Hs2, Hc2 in Hs3.
  rewrite Hc3, Hs3.
  split; vm_compute; reflexivity.
Qed.

End OrbFacts.

(** ** Game over *)

Module OverFacts.
Import Util UtilFacts Sim SimFacts Input Game TreeFacts SkillFacts.
Local Open Scope Q_scope.
Local Open Scope string_scope.

Lemma run_bindG {A B} (m : GameM A) (f : A -> GameM B) g w :
  run (bindG m f g) w =
  match run (m g) w with
  | Done r w' => run (f (fst r) (snd r)) w'
  | Thrown e w' => Thrown e w'
  | Diverges => Diverges
  end.
Proof. unfold bindG. apply run_bind. Qed.

Lemma driftDots_total s dt W H ds : Holds s (fun _ => True) (driftDots dt W H ds).
Proof.
  induction ds as [|d rest IH]; cbn [driftDots].
  - apply Holds_ret. exact I.
  - destruct (ltb (H + 10) (dot_y d + dot_s d * dt)).
    + apply Holds_noise. intros u. apply Holds_bind.
      eapply Holds_weaken; [|exact IH]. intros a _. apply Holds_ret. exact I.
    + apply Holds_bind.
      eapply Holds_weaken; [|exact IH]. intros a _. apply Holds_ret. exact I.
Qed.

(** The background drift touches the background only. *)
Lemma bgDrift_keeps {T} s (proj : Game -> T) dt :
  (forall v g, proj (set_bgDots v g) = proj g) -> Keeps s proj (bgDrift dt).
Proof.
  intros Hp g. unfold bgDrift. apply Holds_bind.
  eapply Holds_weaken; [|apply driftDots_total].
  intros ds _. apply Holds_ret. cbn [snd]. apply Hp.
Qed.

Section WithEngine.
Variable E : Engine.

(** In the OVER state [update] returns at once. *)
Lemma update_over inp tid dt g :
  state g = OVER -> update E inp tid dt g = Ret (None, g).
Proof.
  intros Hs. unfold update, bindG, get. cbn [bind fst snd]. rewrite Hs. reflexivity.
Qed.

Lemma startRun_post g :
  Post (fun r => state (snd r) = PLAY /\ score (snd r) = 0 /\ combo (snd r) = 0
                 /\ pipes (snd r) = [] /\ orbs (snd r) = [] /\ gates (snd r) = [])
       (startRun g).
Proof. unfold startRun, _resetRun. exec. cbn. repeat split. Qed.

(** The collision check fires exactly when the invulnerability left is
    not positive and the player's circle overlaps the rectangle of a
    pipe. *)
Lemma collides_overlap g :
  collides g = true
  <-> invT (player g) <= 0
      /\ exists p, In p (pipes g)
                   /\ circleRect (p_x (player g)) (p_y (player g)) (p_r (player g))
                                 (pipe_x p) (pipe_y p) (pipe_w p) (pipe_h p) = true.
Proof.
  unfold collides. rewrite andb_true_iff, leb_le, existsb_exists. unfold hitsPipe.
  reflexivity.
Qed.

Lemma collides_clear g :
  collides g = false
  <-> 0 < invT (player g)
      \/ forall p, In p (pipes g) ->
                   circleRect (p_x (player g)) (p_y (player g)) (p_r (player g))
                              (pipe_x p) (pipe_y p) (pipe_w p) (pipe_h p) = false.
Proof.
  unfold collides. rewrite andb_false_iff, leb_gt. split.
  - intros [Hinv | Hnone]; [left; exact Hinv|]. right. intros p Hin.
    destruct (circleRect _ _ _ _ _ _ _) eqn:Hhit; [|reflexivity].
    assert (Hex : existsb (hitsPipe g) (pipes g) = true).
    { apply existsb_exists. exists p. split; [exact Hin | exact Hhit]. }
    rewrite Hex in Hnone. discriminate.
  - intros [Hinv | Hnone]; [left; exact Hinv|]. right.
    destruct (existsb (hitsPipe g) (pipes g)) eqn:Hex; [|reflexivity].
    apply existsb_exists in Hex. destruct Hex as (p & Hin & Hhit).
    unfold hitsPipe in Hhit. rewrite (Hnone p Hin) in Hhit. discriminate.
Qed.

(** The end of a tick without a hit leaves the state alone. *)
Lemma finish_state dt g : state (finish E dt g) = state g.
Proof.
  unfold finish, applyCaps, updateFx, removeOffField. cbv zeta.
  destruct (sweepPipes _ _ _ _ _ _) as [kept sc]. reflexivity.
Qed.

(** What [update] does in the PLAY state once the motion of the tick is
    done. *)
Lemma update_after_motion inp tid dt g w g1 w1 :
  state g = PLAY ->
  run ((bgDrift dt ;; advance E inp tid dt) g) w = Done (tt, g1) w1 ->
  run (update E inp tid dt g) w
  = if collides g1 then Done (Some (toInt (score g1)), set_state OVER g1) w1
    else Done (None, finish E dt g1) w1.
Proof.
  intros Hplay Hrun.
  rewrite run_bindG in Hrun.
  unfold update. unfold bindG at 1. unfold get at 1. cbn [bind fst snd].
  rewrite Hplay. cbn [State_eqb]. rewrite run_bindG.
  destruct (run (bgDrift dt g) w) as [[u g0] w0 | e w0 | ] eqn:Hbg; try discriminate.
  cbn [fst snd] in *.
  assert (Hs0 : state g0 = PLAY).
  { rewrite <- Hplay.
    apply (Holds_run true (fun r => state (snd r) = state g) (bgDrift dt g)
             (bgDrift_keeps true state dt (fun _ _ => eq_refl) g) w (u, g0) w0 Hbg). }
  unfold bindG at 1. unfold get at 1. cbn [bind fst snd].
  rewrite Hs0. cbn [State_eqb negb]. rewrite run_bindG, Hrun. cbn [fst snd].
  unfold bindG at 1. unfold get at 1. cbn [bind fst snd].
  destruct (collides g1); reflexivity.
Qed.

(** C7.  In the PLAY state, if after the motion of a tick the player's
    circle overlaps the rectangle of one of the pipes while the
    invulnerability left is not positive, that very call of [update] ends
    in the OVER state, with the game otherwise as the motion left it; if
    the invulnerability left is positive, or no pipe is overlapped, the
    call finishes the tick, reports no end of the run and leaves the state
    as it is.  In the OVER state
    every further step - an action or an update, any number of times -
    returns the game unchanged, entities, score and combo included; only
    [startRun] leaves the state, with a cleared run. *)
Theorem game_over_is_terminal :
  forall (inp : InputObj) (tid : string) (dt : Q) (g : Game),
    (state g = PLAY ->
     forall w g1 w1,
       run ((bgDrift dt ;; advance E inp tid dt) g) w = Done (tt, g1) w1 ->
       (forall p,
          In p (pipes g1) ->
          circleRect (p_x (player g1)) (p_y (player g1)) (p_r (player g1))
                     (pipe_x p) (pipe_y p) (pipe_w p) (pipe_h p) = true ->
          invT (player g1) <= 0 ->
          run (update E inp tid dt g) w
          = Done (Some (toInt (score g1)), set_state OVER g1) w1)
       /\ (0 < invT (player g1)
           \/ (forall p, In p (pipes g1) ->
                         circleRect (p_x (player g1)) (p_y (player g1)) (p_r (player g1))
                                    (pipe_x p) (pipe_y p) (pipe_w p) (pipe_h p) = false) ->
           run (update E inp tid dt g) w = Done (None, finish E dt g1) w1
           /\ state (finish E dt g1) = state g1))
    /\ (state g = OVER ->
        (forall inp' tid' dt', update E inp' tid' dt' g = Ret (None, g))
        /\ (forall inp' actionId, handleAction E inp' actionId g = Ret (tt, g))
        /\ (forall n,
              Nat.iter n (fun p => bind p (fun r => update E inp tid dt (snd r)))
                       (Ret (None, g)) = Ret (None, g))
        /\ Post (fun r => state (snd r) = PLAY /\ score (snd r) = 0 /\ combo (snd r) = 0
                          /\ pipes (snd r) = [])
                (startRun g)).
Proof.
  intros inp tid dt g. split.
  - intros Hplay w g1 w1 Hrun. split.
    + intros p Hin Hhit Hinv.
      rewrite (update_after_motion inp tid dt g w g1 w1 Hplay Hrun).
      assert (Hc : collides g1 = true).
      { apply collides_overlap. split; [exact Hinv|]. exists p. split; assumption. }
      rewrite Hc. reflexivity.
    + intros Hclear.
      rewrite (update_after_motion inp tid dt g w g1 w1 Hplay Hrun).
      apply collides_clear in Hclear. rewrite Hclear. split; [reflexivity|].
      apply finish_state.
  - intros Hover. split; [|split; [|split]].
    + intros inp' tid' dt'. apply update_over. exact Hover.
    + intros inp' a. apply handleAction_not_playing. rewrite Hover. discriminate.
    + induction n as [|n IH]; [reflexivity|].
      rewrite Nat.iter_succ, IH. cbn [bind snd]. apply update_over. exact Hover.
    + eapply Holds_weaken; [|apply startRun_post].
      intros [u g1] (H1 & H2 & H3 & H4 & _). auto.
Qed.

End WithEngine.

Lemma game_over_is_terminal_witness :
  exists g1 w1 p,
    In p (pipes g1)
    /\ circleRect (p_x (player g1)) (p_y (player g1)) (p_r (player g1))
                  (pipe_x p) (pipe_y p) (pipe_w p) (pipe_h p) = true
    /\ invT (player g1) <= 0
    /\ run (update Ref.refMath Ref.idleInput "classic" (1 / 120) Ref.hitGame) Ref.seededWorld
       = Done (Some (toInt (score g1)), set_state OVER g1) w1.
Proof.
  assert (Hrun : exists g1 w1 p,
             run ((bgDrift (1 / 120) ;; advance Ref.refMath Ref.idleInput "classic" (1 / 120))
                    Ref.hitGame) Ref.seededWorld = Done (tt, g1) w1
             /\ List.nth_error (pipes g1) 0 = Some p
             /\ circleRect (p_x (player g1)) (p_y (player g1)) (p_r (player g1))
                           (pipe_x p) (pipe_y p) (pipe_w p) (pipe_h p) = true
             /\ Qle_bool (invT (player g1)) 0 = true).
  { eexists. eexists. eexists. split; [vm_compute; reflexivity|].
    split; [vm_compute; reflexivity|]. split; vm_compute; reflexivity. }
  destruct Hrun as (g1 & w1 & p & Hrun & Hps & Hhit & Hinv). exists g1, w1, p.
  assert (Hin : In p (pipes g1)) by (exact (List.nth_error_In _ _ Hps)).
  apply Qle_bool_imp_le in Hinv.
  split; [exact Hin|]. split; [exact Hhit|]. split; [exact Hinv|].
  exact (proj1 (proj1 (game_over_is_terminal Ref.refMath Ref.idleInput "classic" (1 / 120)
                         Ref.hitGame) eq_refl Ref.seededWorld g1 w1 Hrun)
               p Hin Hhit Hinv).
Defined.

End OverFacts.

(** ** What the phases of a tick leave alone *)

Module FrameFacts.
Import Util UtilFacts Sim SimFacts Input Game TreeFacts SkillFacts OrbFacts OverFacts.
Local Open Scope Q_scope.
Local Open Scope string_scope.

Section Frames.
Variable E : Engine.
Context {T : Type} (proj : Game -> T).

(** [proj] does not look at the field a setter writes. *)
Hypothesis Hpipes : forall v g, proj (set_pipes v g) = proj g.
Hypothesis Hgates : forall v g, proj (set_gates v g) = proj g.
Hypothesis Horbs : forall v g, proj (set_orbs v g) = proj g.
Hypothesis Hparts : forall v g, proj (set_parts v g) = proj g.
Hypothesis Hfloats : forall v g, proj (set_floats v g) = proj g.
Hypothesis Hscore : forall v g, proj (set_score v g) = proj g.
Hypothesis HpipeT : forall v g, proj (set_pipeT v g) = proj g.
Hypothesis HspecialT : forall v g, proj (set_specialT v g) = proj g.
Hypothesis HorbT : forall v g, proj (set_orbT v g) = proj g.
Hypothesis Hcombo : forall v g, proj (set_combo v g) = proj g.
Hypothesis HcomboBreakFlash : forall v g, proj (set_comboBreakFlash v g) = proj g.
Hypothesis HcomboSparkAcc : forall v g, proj (set_comboSparkAcc v g) = proj g.
Hypothesis HperfectT : forall v g, proj (set_perfectT v g) = proj g.
Hypothesis HperfectMax : forall v g, proj (set_perfectMax v g) = proj g.
Hypothesis HtrailAcc : forall v g, proj (set_trailAcc v g) = proj g.
Hypothesis HtrailHue : forall v g, proj (set_trailHue v g) = proj g.
Hypothesis Hstate : forall v g, proj (set_state v g) = proj g.
Hypothesis HbgDots : forall v g, proj (set_bgDots v g) = proj g.

Lemma pushPipe_keeps s p : Keeps s proj (pushPipe p).
Proof. unfold pushPipe. keeps. Qed.

Lemma pushGate_keeps s x : Keeps s proj (pushGate x).
Proof. unfold pushGate. keeps. Qed.

Lemma pushOrb_keeps s o : Keeps s proj (pushOrb o).
Proof. unfold pushOrb. keeps. Qed.

Lemma pushPart_keeps s p : Keeps s proj (pushPart p).
Proof. unfold pushPart. keeps. Qed.

Lemma pushFloat_keeps s t : Keeps s proj (pushFloat t).
Proof. unfold pushFloat. keeps. Qed.

#[local] Hint Resolve pushPipe_keeps pushGate_keeps pushOrb_keeps pushPart_keeps
  pushFloat_keeps : keeps.

Lemma randSide_keeps s : Keeps s proj randSide.
Proof. unfold randSide. keeps. Qed.

#[local] Hint Resolve randSide_keeps : keeps.

Lemma sideOr_keeps s o : Keeps s proj (sideOr o).
Proof. unfold sideOr. keeps. Qed.

Lemma orDraw_keeps s o a b : Keeps s proj (orDraw o (randG a b)).
Proof. unfold orDraw. keeps. Qed.

#[local] Hint Resolve sideOr_keeps orDraw_keeps : keeps.

Lemma spawnSinglePipe_keeps s opts : Keeps s proj (_spawnSinglePipe E opts).
Proof. unfold _spawnSinglePipe. keeps. Qed.

Lemma spawnWall_keeps s opts : Keeps s proj (_spawnWall E opts).
Proof. unfold _spawnWall. keeps. Qed.

#[local] Hint Resolve spawnSinglePipe_keeps spawnWall_keeps : keeps.

Lemma spawnBurst_keeps s : Keeps s proj (_spawnBurst E).
Proof. unfold _spawnBurst. keeps. Qed.

Lemma spawnCrossfire_keeps s : Keeps s proj (_spawnCrossfire E).
Proof. unfold _spawnCrossfire. keeps. Qed.

Lemma spawnPattern_keeps s : Keeps s proj (spawnPattern E).
Proof. unfold spawnPattern. keeps. Qed.

#[local] Hint Resolve spawnBurst_keeps spawnCrossfire_keeps spawnPattern_keeps : keeps.

Lemma trailParticle_keeps s id st bX bY bx by' i :
  Keeps s proj (trailParticle E id st bX bY bx by' i).
Proof. unfold trailParticle. keeps. Qed.

#[local] Hint Resolve trailParticle_keeps : keeps.

Lemma emitTrail_keeps s id dt : Keeps s proj (_emitTrail E id dt).
Proof. unfold _emitTrail. keeps. Qed.

Lemma sparkleParticle_keeps s ui i : Keeps s proj (sparkleParticle E ui i).
Proof. unfold sparkleParticle. keeps. Qed.

#[local] Hint Resolve sparkleParticle_keeps : keeps.

Lemma comboSparkles_keeps s dt : Keeps s proj (comboSparkles E dt).
Proof. unfold comboSparkles. keeps. Qed.

Lemma specialPatterns_keeps s dt : Keeps s proj (specialPatterns E dt).
Proof. unfold specialPatterns. keeps. Qed.

Lemma orbSpot_keeps s n r safe fb : Keeps s proj (orbSpot E n r safe fb).
Proof.
  induction n as [|n IH]; cbn [orbSpot]; [apply keeps_ret|].
  keeps; try exact IH.
Qed.

#[local] Hint Resolve orbSpot_keeps : keeps.

Lemma spawnOrb_keeps s : Keeps s proj (_spawnOrb E).
Proof. unfold _spawnOrb. keeps. Qed.

#[local] Hint Resolve spawnOrb_keeps : keeps.

Lemma spawnOrbs_keeps s dt : Keeps s proj (spawnOrbs E dt).
Proof. unfold spawnOrbs. keeps. Qed.

Lemma perfectParticle_keeps s i : Keeps s proj (perfectParticle E i).
Proof. unfold perfectParticle. keeps. Qed.

#[local] Hint Resolve perfectParticle_keeps : keeps.

Lemma perfectGate_keeps s bonus wS gt : Keeps s proj (perfectGate E bonus wS gt).
Proof. unfold perfectGate. keeps. Qed.

#[local] Hint Resolve perfectGate_keeps : keeps.

Lemma perfectLoop_keeps s bonus wS todo : Keeps s proj (perfectLoop E bonus wS todo).
Proof.
  induction todo as [|gt rest IH]; cbn [perfectLoop]; [apply keeps_ret|].
  keeps; try exact IH.
Qed.

#[local] Hint Resolve perfectLoop_keeps : keeps.

Lemma gatesAndPerfect_keeps s dt : Keeps s proj (gatesAndPerfect E dt).
Proof. unfold gatesAndPerfect. keeps. Qed.

Lemma breakCombo_keeps s x y : Keeps s proj (_breakCombo x y).
Proof. unfold _breakCombo. keeps. Qed.

#[local] Hint Resolve breakCombo_keeps : keeps.

Lemma orbsExpire_keeps s dt : Keeps s proj (orbsExpire dt).
Proof. unfold orbsExpire. keeps. Qed.

Lemma pickupParticle_keeps' s ob i : Keeps s proj (pickupParticle E ob i).
Proof. unfold pickupParticle. keeps. Qed.

#[local] Hint Resolve pickupParticle_keeps' : keeps.

Lemma collectOrb_keeps s ob : Keeps s proj (collectOrb E ob).
Proof. unfold collectOrb. keeps. Qed.

#[local] Hint Resolve collectOrb_keeps : keeps.

Lemma pickupLoop_keeps s revOrbs : Keeps s proj (pickupLoop E revOrbs).
Proof.
  induction revOrbs as [|ob rest IH]; cbn [pickupLoop]; [apply keeps_ret|].
  keeps; try exact IH.
Qed.

#[local] Hint Resolve pickupLoop_keeps : keeps.

Lemma orbPickup_keeps s : Keeps s proj (orbPickup E).
Proof. unfold orbPickup. keeps. Qed.

Lemma movePipes_keeps dt g : proj (movePipes dt g) = proj g.
Proof. unfold movePipes. apply Hpipes. Qed.

Lemma finish_keeps dt g : proj (finish E dt g) = proj g.
Proof.
  unfold finish, applyCaps, updateFx, removeOffField. cbv zeta.
  destruct (sweepPipes _ _ _ _ _ _) as [kept sc].
  repeat first [ rewrite Hpipes | rewrite Hparts | rewrite Hfloats
               | rewrite Hgates | rewrite Hscore ].
  reflexivity.
Qed.

(** The spawn loop, as far as it returns. *)
Lemma spawnLoop_keeps fuel : Keeps true proj (spawnLoop E fuel).
Proof.
  induction fuel as [|fuel IH]; intros g; cbn [spawnLoop];
    destruct (leb (pipeT g) 0); try (apply Holds_ret; reflexivity).
  - apply Holds_spin. reflexivity.
  - revert g. fold (Keeps (A := unit) true proj).
    change (Keeps true proj
              (modify (fun g => set_pipeT (pipeT g + _spawnInterval E g) g) ;;
               spawnPattern E ;; spawnLoop E fuel)).
    apply keeps_bind; [apply keeps_modify; intros; apply HpipeT|]. intros _.
    apply keeps_bind; [|intros _; exact IH].
    apply spawnPattern_keeps.
Qed.


#[local] Hint Resolve spawnLoop_keeps movePipes_keeps emitTrail_keeps comboSparkles_keeps
  specialPatterns_keeps spawnOrbs_keeps gatesAndPerfect_keeps orbsExpire_keeps
  orbPickup_keeps : keeps.

Lemma spawnPipes_keeps dt : Keeps true proj (spawnPipes E dt).
Proof. unfold spawnPipes. keeps. Qed.

#[local] Hint Resolve spawnPipes_keeps : keeps.

(** After the timers and the player, the rest of [advance] keeps [proj]. *)
Lemma advance_keeps inp tid dt g :
  Leaves (fun r => proj (snd r) = proj (_updatePlayer E inp dt (tickTimers dt g)))
         (advance E inp tid dt g).
Proof.
  unfold advance. exec.
  match goal with
  | |- Holds _ _ (?m ?g0) =>
      let Hm := fresh "Hm" in assert (Hm : Keeps true proj m); [| exact (Hm g0)]
  end.
  keeps.
Qed.

Lemma tickTimers_bgDots dt ds g :
  tickTimers dt (set_bgDots ds g) = set_bgDots ds (tickTimers dt g).
Proof.
  destruct g as [st Wd Hd cW cH bg pl pp gg oo pa fl sc ta pT sT oT co cbf csa pfT pfM
                  sfo cd tra trh au cf].
  unfold tickTimers, _tickCooldowns. cbv zeta.
  cbn -[Qmax Qminus Qplus ltb leb].
  destruct (ltb 0 cbf); cbn -[Qmax Qminus Qplus ltb leb];
    destruct (ltb 0 pfT); cbn -[Qmax Qminus Qplus ltb leb];
    destruct sfo as [sf|]; cbn -[Qmax Qminus Qplus ltb leb]; try reflexivity;
    match goal with
    | |- context [leb ?x 0] => destruct (leb x 0)
    end; reflexivity.
Qed.

Lemma updatePlayer_bgDots inp dt ds g :
  _updatePlayer E inp dt (set_bgDots ds g) = set_bgDots ds (_updatePlayer E inp dt g).
Proof. reflexivity. Qed.

Lemma bgDrift_exact s dt g :
  Holds s (fun r => exists ds, snd r = set_bgDots ds g) (bgDrift dt g).
Proof.
  unfold bgDrift. apply Holds_bind.
  eapply Holds_weaken; [|apply driftDots_total].
  intros ds _. apply Holds_ret. cbn [snd]. exists ds. reflexivity.
Qed.

(** A whole [update] in the PLAY state: [proj] is as the timers and the
    player's move left it. *)
Lemma update_keeps inp tid dt g :
  state g = PLAY ->
  Leaves (fun r => proj (snd r) = proj (_updatePlayer E inp dt (tickTimers dt g)))
         (update E inp tid dt g).
Proof.
  intros Hplay. unfold update. exec. rewrite Hplay. cbn [State_eqb].
  unfold bindG at 1. apply Holds_bind.
  eapply Holds_weaken; [| apply bgDrift_exact].
  intros [u0 g0] [ds Hg0]. cbn [fst snd] in *. subst g0. exec.
  change (state (set_bgDots ds g)) with (state g). rewrite Hplay. cbn [State_eqb negb].
  unfold bindG at 1. apply Holds_bind.
  eapply Holds_weaken; [| apply advance_keeps].
  intros [u1 g1] Hp1. cbn [fst snd] in *.
  rewrite tickTimers_bgDots, updatePlayer_bgDots, HbgDots in Hp1. exec.
  destruct (collides g1); exec; cbn [snd].
  - rewrite Hstate. exact Hp1.
  - rewrite finish_keeps. exact Hp1.
Qed.

End Frames.
End FrameFacts.

(** ** The player: containment and dash *)

Module PlayerFacts.
Import Util UtilFacts Sim SimFacts Input Game TreeFacts SkillFacts OrbFacts OverFacts
       FrameFacts.
Local Open Scope Q_scope.
Local Open Scope string_scope.

(** The inset of the field that is to hold the player's centre. *)
Definition pad (g : Game) : Q := p_r (player g) + 2.

Definition contained (g : Game) : Prop :=
  (pad g <= p_x (player g) <= W g - pad g) /\ (pad g <= p_y (player g) <= H g - pad g).

(** The inset field is not empty. *)
Definition roomy (g : Game) : Prop :=
  pad g <= W g - pad g /\ pad g <= H g - pad g.

(** The part of the game containment is about. *)
Definition arena (g : Game) : Q * Q * Q * Q * Q :=
  (p_x (player g), p_y (player g), p_r (player g), W g, H g).

Lemma arena_contained g g' :
  arena g' = arena g -> (contained g <-> contained g') /\ (roomy g <-> roomy g').
Proof.
  unfold arena, contained, roomy, pad. intros Ha. inversion Ha as [[Hx Hy Hr HW HH]].
  rewrite Hx, Hy, Hr, HW, HH. split; reflexivity.
Qed.

Lemma arena_lower g g' :
  arena g' = arena g ->
  pad g <= p_x (player g) /\ pad g <= p_y (player g) ->
  pad g' <= p_x (player g') /\ pad g' <= p_y (player g').
Proof.
  unfold arena, pad. intros Ha. inversion Ha as [[Hx Hy Hr HW HH]].
  rewrite Hx, Hy, Hr. auto.
Qed.

Section WithEngine.
Variable E : Engine.

Lemma tickTimers_player dt g :
  player (tickTimers dt g) = player g /\ W (tickTimers dt g) = W g
  /\ H (tickTimers dt g) = H g /\ cfg (tickTimers dt g) = cfg g
  /\ state (tickTimers dt g) = state g.
Proof.
  unfold tickTimers, _tickCooldowns. cbv zeta.
  repeat match goal with
         | |- context [if ?b then _ else _] => destruct b
         | |- context [match ?o with Some _ => _ | None => _ end] => destruct o
         end; repeat split.
Qed.

Lemma playerTimers_r dt p : p_r (playerTimers dt p) = p_r p.
Proof. unfold playerTimers. destruct (ltb 0 (invT p)); cbv zeta;
  match goal with |- context [if ?b then _ else _] => destruct b end; reflexivity. Qed.

Lemma rememberDirection_r n p : p_r (rememberDirection n p) = p_r p.
Proof. unfold rememberDirection. destruct (ltb 0 (n_len n)); reflexivity. Qed.

Lemma steer_r c n dt p : p_r (steer E c n dt p) = p_r p.
Proof.
  unfold steer. destruct (ltb 0 (dashT p)).
  - destruct (ltb 0 (n_len n)); reflexivity.
  - cbv zeta. destruct (eqb (n_len n) 0); reflexivity.
Qed.

(** The last thing [_updatePlayer] does is to clamp the position. *)
Lemma updatePlayer_clamped inp dt g :
  exists x y,
    p_x (player (_updatePlayer E inp dt g)) = clamp x (pad g) (W g - pad g)
    /\ p_y (player (_updatePlayer E inp dt g)) = clamp y (pad g) (H g - pad g)
    /\ p_r (player (_updatePlayer E inp dt g)) = p_r (player g)
    /\ W (_updatePlayer E inp dt g) = W g
    /\ H (_updatePlayer E inp dt g) = H g.
Proof.
  unfold _updatePlayer, pad. cbv zeta. cbn [player set_player W H].
  set (p := steer E (cfg g) _ dt _).
  assert (Hr : p_r p = p_r (player g)).
  { subst p. now rewrite steer_r, rememberDirection_r, playerTimers_r. }
  unfold moveAndClamp. cbv zeta. cbn [p_x p_y p_r set_p_x set_p_y]. rewrite Hr.
  eexists. eexists. repeat split.
Qed.

Lemma updatePlayer_lower inp dt g :
  pad (_updatePlayer E inp dt g) <= p_x (player (_updatePlayer E inp dt g))
  /\ pad (_updatePlayer E inp dt g) <= p_y (player (_updatePlayer E inp dt g)).
Proof.
  destruct (updatePlayer_clamped inp dt g) as (x & y & Hx & Hy & Hr & _).
  unfold pad in *. rewrite Hr, Hx, Hy. split; apply clamp_lower.
Qed.

Lemma updatePlayer_contained inp dt g :
  roomy g -> contained (_updatePlayer E inp dt g) /\ roomy (_updatePlayer E inp dt g).
Proof.
  intros [HW HH].
  destruct (updatePlayer_clamped inp dt g) as (x & y & Hx & Hy & Hr & HW' & HH').
  unfold contained, roomy, pad in *. rewrite Hr, Hx, Hy, HW', HH'.
  repeat split; auto using clamp_lower, clamp_upper.
Qed.

Lemma tickTimers_arena dt g : arena (tickTimers dt g) = arena g.
Proof.
  destruct (tickTimers_player dt g) as (Hp & HW & HH & _).
  unfold arena. now rewrite Hp, HW, HH.
Qed.

(** One [update], whatever the state: containment is kept; in the PLAY
    state it is established. *)
Lemma update_arena inp tid dt g :
  Leaves (fun r => (state g <> PLAY /\ arena (snd r) = arena g)
                   \/ (state g = PLAY
                       /\ arena (snd r) = arena (_updatePlayer E inp dt (tickTimers dt g))))
         (update E inp tid dt g).
Proof.
  destruct (state g) eqn:Hs.
  - unfold update. exec. rewrite Hs. cbn [State_eqb].
    unfold bindG at 1. apply Holds_bind.
    eapply Holds_weaken; [| apply (bgDrift_exact true)].
    intros [u0 g0] [ds Hg0]. cbn [fst snd] in *. subst g0. exec.
    change (state (set_bgDots ds g)) with (state g). rewrite Hs. cbn [State_eqb negb].
    exec. left. split; [discriminate | reflexivity].
  - eapply Holds_weaken; [| apply (update_keeps E arena); try reflexivity; exact Hs].
    intros r Hr. right. split; [reflexivity | exact Hr].
  - rewrite update_over by exact Hs. apply Holds_ret. left.
    split; [discriminate | reflexivity].
Qed.

Lemma update_contained inp tid dt g :
  roomy g -> (state g = PLAY \/ contained g) ->
  Leaves (fun r => contained (snd r) /\ roomy (snd r)) (update E inp tid dt g).
Proof.
  intros Hroomy Hc.
  eapply Holds_weaken; [| apply update_arena].
  intros [u g1] [[Hnp Ha] | [Hplay Ha]]; cbn [fst snd] in *.
  - destruct (arena_contained g g1 Ha) as [Hc1 Hr1].
    destruct Hc as [Hplay | Hc]; [contradiction|].
    split; [apply Hc1 | apply Hr1]; assumption.
  - destruct (arena_contained _ g1 Ha) as [Hc1 Hr1].
    destruct (updatePlayer_contained inp dt (tickTimers dt g)) as [Hc2 Hr2].
    { apply (arena_contained g (tickTimers dt g) (tickTimers_arena dt g)). exact Hroomy. }
    split; [apply Hc1 | apply Hr1]; assumption.
Qed.

(** *** Skills and containment *)

Definition housed (g : Game) : Prop := contained g /\ roomy g.

Lemma housed_arena g g' : arena g' = arena g -> housed g -> housed g'.
Proof.
  intros Ha [Hc Hr]. destruct (arena_contained g g' Ha) as [Hc' Hr'].
  split; [apply Hc' | apply Hr']; assumption.
Qed.

Lemma housed_bind {A B} s (m : GameM A) (f : A -> GameM B) g :
  Holds s (fun r => housed (snd r)) (m g) ->
  (forall a g', housed g' -> Holds s (fun r => housed (snd r)) (f a g')) ->
  Holds s (fun r => housed (snd r)) (bindG m f g).
Proof.
  intros Hm Hf. unfold bindG. apply Holds_bind.
  eapply Holds_weaken; [| exact Hm]. intros [a g'] Hg'. apply Hf. exact Hg'.
Qed.

Lemma useDash_arena inp : Keeps false arena (useDash E inp).
Proof.
  unfold useDash. apply keeps_bind.
  - apply keeps_modify. intros g. reflexivity.
  - intros _. apply keeps_forN. intros i. unfold dashParticle, pushPart. keeps.
Qed.

Lemma usePhase_arena : Keeps false arena usePhase.
Proof. unfold usePhase, pushFloat. keeps. Qed.

Lemma useSlowField_arena : Keeps false arena useSlowField.
Proof. unfold useSlowField, pushFloat. keeps. Qed.

Lemma useTeleport_no_pointer inp g :
  cur_has (cursor inp) = false -> useTeleport E inp g = Ret (true, g).
Proof.
  intros Hc. unfold useTeleport, bindG, get. cbn [bind fst snd]. rewrite Hc. reflexivity.
Qed.

Lemma useTeleport_housed inp g :
  housed g -> Post (fun r => housed (snd r)) (useTeleport E inp g).
Proof.
  intros [Hcont Hroomy]. destruct (cur_has (cursor inp)) eqn:Hc.
  - eapply Holds_weaken; [| apply useTeleport_post; exact Hc].
    intros [b g1] (_ & _ & Hxy & _ & _ & Hr & HW & HH & _). cbn [fst snd] in *.
    unfold teleportTarget in Hxy. inversion Hxy as [[Hx Hy]].
    destruct Hroomy as [HrW HrH].
    unfold housed, contained, roomy, pad in *. rewrite Hx, Hy, Hr, HW, HH.
    repeat split; auto using clamp_lower, clamp_upper.
  - rewrite useTeleport_no_pointer by exact Hc. apply Holds_ret. split; assumption.
Qed.

Lemma keeps_housed {A} s (m : GameM A) g :
  Keeps s arena m -> housed g -> Holds s (fun r => housed (snd r)) (m g).
Proof.
  intros Hk Hh. eapply Holds_weaken; [| apply Hk].
  intros r Hr. cbn beta in Hr. eapply housed_arena; eassumption.
Qed.

(** An activation, valid or not, leaves the player in the inset field. *)
Lemma useSkill_housed inp name g :
  housed g -> Post (fun r => housed (snd r)) (_useSkill E inp name g).
Proof.
  intros Hh. unfold _useSkill.
  destruct (hasSkill name); cbn [negb]; [| apply Holds_ret; exact Hh].
  exec. destruct (ltb 0 (cdOf name (cds g))); [apply Holds_ret; exact Hh|].
  apply housed_bind.
  { destruct (name =? "dash").
    - apply keeps_housed; [apply useDash_arena | exact Hh].
    - apply Holds_ret. exact Hh. }
  intros _ g1 Hh1. apply housed_bind.
  { destruct (name =? "phase").
    - apply keeps_housed; [apply usePhase_arena | exact Hh1].
    - apply Holds_ret. exact Hh1. }
  intros _ g2 Hh2. apply housed_bind.
  { destruct (name =? "teleport").
    - apply useTeleport_housed. exact Hh2.
    - apply Holds_ret. exact Hh2. }
  intros returned g3 Hh3. destruct returned; [apply Holds_ret; exact Hh3|].
  destruct (name =? "slowField").
  - apply keeps_housed; [apply useSlowField_arena | exact Hh3].
  - apply Holds_ret. exact Hh3.
Qed.

Lemma handleAction_housed inp name g :
  housed g -> Post (fun r => housed (snd r)) (handleAction E inp name g).
Proof.
  intros Hh. unfold handleAction. exec.
  destruct (State_eqb (state g) PLAY); cbn [negb].
  - apply useSkill_housed. exact Hh.
  - apply Holds_ret. exact Hh.
Qed.

(** *** Any sequence of actions and updates *)

Inductive Op : Type :=
| OpAction (inp : InputObj) (actionId : string)
| OpUpdate (inp : InputObj) (trailId : string) (dt : Q).

Fixpoint runOps (ops : list Op) : GameM unit :=
  match ops with
  | [] => ret tt
  | OpAction inp a :: rest => handleAction E inp a ;; runOps rest
  | OpUpdate inp tid dt :: rest => update E inp tid dt ;; runOps rest
  end.

Lemma runOps_housed ops : forall g,
  housed g -> Leaves (fun r => housed (snd r)) (runOps ops g).
Proof.
  induction ops as [|op rest IH]; intros g Hh; cbn [runOps].
  - apply Holds_ret. exact Hh.
  - destruct op as [inp a | inp tid dt]; apply housed_bind.
    + apply Post_Leaves. apply handleAction_housed. exact Hh.
    + intros _ g1 Hh1. apply IH. exact Hh1.
    + apply update_contained; [apply Hh | right; apply Hh].
    + intros _ g1 Hh1. apply IH. exact Hh1.
Qed.

(** The steps and the configuration for which the velocity stays a
    number: a step that is not negative, and an acceleration and a
    friction that are not negative, so that [accel * dt] is not negative
    and [Math.exp(-friction * dt)] is at most 1. *)
Definition tame (g : Game) : Prop :=
  0 <= accel (c_player (cfg g)) /\ 0 <= friction (c_player (cfg g)).

Definition steady (op : Op) : Prop :=
  match op with
  | OpAction _ _ => True
  | OpUpdate _ _ dt => 0 <= dt
  end.

(** C10.  For a step that is not negative and a configuration whose
    [player.accel] and [player.friction] are not negative: when the inset
    field is not empty - the field is at least [2 (r + 2)] wide and high -
    every update in the PLAY state leaves the player's centre at a
    distance of at least [r + 2] from each edge, and so does every
    teleport, and no sequence of actions and of updates with such steps
    takes it out of there; whatever the size of the field, an update in
    the PLAY state leaves the centre at least [r + 2] from the left and
    the top edge. *)
Theorem player_stays_in_inset_field :
  forall (inp : InputObj) (tid : string) (dt : Q) (g : Game),
    (state g = PLAY -> 0 <= dt -> tame g ->
     Leaves (fun r => pad (snd r) <= p_x (player (snd r))
                      /\ pad (snd r) <= p_y (player (snd r)))
            (update E inp tid dt g))
    /\ (roomy g ->
        (state g = PLAY -> 0 <= dt -> tame g ->
         Leaves (fun r => contained (snd r)) (update E inp tid dt g))
        /\ (state g = PLAY -> cdOf "teleport" (cds g) == 0 -> cur_has (cursor inp) = true ->
            Post (fun r => contained (snd r)) (handleAction E inp "teleport" g))
        /\ (contained g -> tame g ->
            forall ops, Forall steady ops ->
                        Leaves (fun r => contained (snd r)) (runOps ops g))).
Proof.
  intros inp tid dt g. split; [|intros Hroomy; split; [|split]].
  - intros Hplay _ _.
    eapply Holds_weaken; [| apply (update_keeps E arena); try reflexivity; exact Hplay].
    intros [u g1] Ha. cbn [fst snd] in *.
    apply (arena_lower _ _ Ha). apply updatePlayer_lower.
  - intros Hplay _ _.
    eapply Holds_weaken; [| apply update_contained; [exact Hroomy | left; exact Hplay]].
    intros r [Hc _]. exact Hc.
  - intros Hplay Hcd Hc. rewrite handleAction_playing by exact Hplay.
    rewrite useSkill_ready by (exact Hcd || reflexivity).
    cbn [String.eqb Ascii.eqb Bool.eqb]. exec.
    unfold bindG at 1. apply Holds_bind.
    eapply Holds_weaken; [| apply useTeleport_post; exact Hc].
    intros [b g1] (Hb & _ & Hxy & _ & _ & Hr & HW & HH & _). cbn [fst snd] in *.
    subst b. exec. cbn [snd].
    unfold teleportTarget in Hxy. inversion Hxy as [[Hx Hy]].
    destruct Hroomy as [HrW HrH].
    unfold contained, roomy, pad in *. rewrite Hx, Hy, Hr, HW, HH.
    repeat split; auto using clamp_lower, clamp_upper.
  - intros Hcont _ ops _.
    eapply Holds_weaken; [| apply runOps_housed; split; assumption].
    intros r [Hc _]. exact Hc.
Qed.

End WithEngine.

Lemma player_stays_in_inset_field_witness :
  roomy Ref.readyGame
  /\ Leaves (fun r => contained (snd r))
            (update Ref.refMath Ref.idleInput "classic" (1 / 120) Ref.readyGame).
Proof.
  assert (Hle : forall a b, Qle_bool a b = true -> a <= b)
    by (intros a b; apply Qle_bool_imp_le).
  assert (Hroomy : roomy Ref.readyGame).
  { split; apply Hle; vm_compute; reflexivity. }
  split; [exact Hroomy|].
  refine (proj1 (proj2 (player_stays_in_inset_field Ref.refMath Ref.idleInput "classic"
                          (1 / 120) Ref.readyGame) Hroomy) eq_refl _ _).
  - apply Hle. vm_compute. reflexivity.
  - split; apply Hle; vm_compute; reflexivity.
Defined.

(** In a field of 20 by 20 the player, of radius 10.64, ends a tick of the
    PLAY state to the right of the inset field. *)
Lemma player_leaves_inset_of_tiny_field :
  exists r w',
    state Ref.tinyGame = PLAY
    /\ run (update Ref.refMath Ref.idleInput "classic" (1 / 120) Ref.tinyGame)
           Ref.seededWorld = Done r w'
    /\ W (snd r) - (p_r (player (snd r)) + 2) < p_x (player (snd r))
    /\ ~ contained (snd r).
Proof.
  assert (Hrun : exists r w',
             run (update Ref.refMath Ref.idleInput "classic" (1 / 120) Ref.tinyGame)
                 Ref.seededWorld = Done r w'
             /\ Qle_bool (p_x (player (snd r))) (W (snd r) - (p_r (player (snd r)) + 2))
                = false).
  { eexists. eexists. split; vm_compute; reflexivity. }
  destruct Hrun as (r & w' & Hrun & Hlt). exists r, w'.
  assert (Hx : W (snd r) - (p_r (player (snd r)) + 2) < p_x (player (snd r))).
  { apply leb_gt. exact Hlt. }
  split; [reflexivity|]. split; [exact Hrun|]. split; [exact Hx|].
  intros [[_ Hup] _]. unfold pad in Hup. apply (Qlt_not_le _ _ Hx Hup).
Qed.

End PlayerFacts.

(** ** Dash *)

Module DashFacts.
Import Util UtilFacts Sim SimFacts Input Game TreeFacts SkillFacts OrbFacts OverFacts
       FrameFacts PlayerFacts.
Local Open Scope Q_scope.
Local Open Scope string_scope.

Section WithEngine.
Variable E : Engine.

Lemma playerTimers_dashV dt p :
  dashVX (playerTimers dt p) = dashVX p /\ dashVY (playerTimers dt p) = dashVY p.
Proof.
  unfold playerTimers. destruct (ltb 0 (invT p)); cbv zeta;
    match goal with |- context [if ?b then _ else _] => destruct b end; split; reflexivity.
Qed.

Lemma rememberDirection_dash n p :
  dashT (rememberDirection n p) = dashT p
  /\ dashVX (rememberDirection n p) = dashVX p
  /\ dashVY (rememberDirection n p) = dashVY p.
Proof. unfold rememberDirection. destruct (ltb 0 (n_len n)); repeat split. Qed.

(** While the dash timer runs, [steer] takes the direction of a non-zero
    intent, else keeps the stored one, and sets the velocity to the
    direction times the dash speed. *)
Lemma steer_dashing c n dt p :
  ltb 0 (dashT p) = true ->
  let dir := if ltb 0 (n_len n) then (n_x n, n_y n) else (dashVX p, dashVY p) in
  let speed := Qmax 0 (orElse (dash_speed (c_skills c)) 0) in
  dashT (steer E c n dt p) = dashT p
  /\ (dashVX (steer E c n dt p), dashVY (steer E c n dt p)) = dir
  /\ p_vx (steer E c n dt p) = fst dir * speed
  /\ p_vy (steer E c n dt p) = snd dir * speed.
Proof.
  intros Hd. unfold steer. rewrite Hd. destruct (ltb 0 (n_len n)); repeat split.
Qed.

Lemma steer_dashT c n dt p : dashT (steer E c n dt p) = dashT p.
Proof.
  unfold steer. destruct (ltb 0 (dashT p)).
  - destruct (ltb 0 (n_len n)); reflexivity.
  - cbv zeta. destruct (eqb (n_len n) 0); reflexivity.
Qed.

(** The player after [_updatePlayer], on a game whose timers have just
    been advanced. *)
Lemma updatePlayer_after_timers inp dt g :
  player (_updatePlayer E inp dt (tickTimers dt g)) =
  let n := norm2 E (dx (getMove inp)) (dy (getMove inp)) in
  moveAndClamp dt (W g) (H g)
    (steer E (cfg g) n dt (rememberDirection n (playerTimers dt (player g)))).
Proof.
  destruct (tickTimers_player dt g) as (Hp & HW & HH & Hc & _).
  unfold _updatePlayer. cbv zeta. cbn [player set_player]. now rewrite Hp, HW, HH, Hc.
Qed.

(** What a tick does to a dashing player. *)
Lemma updatePlayer_dashing inp dt g :
  let p' := player (_updatePlayer E inp dt (tickTimers dt g)) in
  let n := norm2 E (dx (getMove inp)) (dy (getMove inp)) in
  let dir := if ltb 0 (n_len n) then (n_x n, n_y n)
             else (dashVX (player g), dashVY (player g)) in
  let speed := Qmax 0 (orElse (dash_speed (c_skills (cfg g))) 0) in
  0 < dashT p' ->
  (dashVX p', dashVY p') = dir /\ p_vx p' = fst dir * speed /\ p_vy p' = snd dir * speed.
Proof.
  cbv zeta. rewrite updatePlayer_after_timers. cbv zeta.
  set (n := norm2 E _ _). set (p1 := rememberDirection n (playerTimers dt (player g))).
  change (dashT (moveAndClamp dt (W g) (H g) (steer E (cfg g) n dt p1)))
    with (dashT (steer E (cfg g) n dt p1)).
  rewrite steer_dashT. intros Hpos.
  destruct (steer_dashing (cfg g) n dt p1 (proj2 (ltb_lt _ _) Hpos)) as (_ & Hdir & Hvx & Hvy).
  destruct (rememberDirection_dash n (playerTimers dt (player g))) as (_ & Hx1 & Hy1).
  destruct (playerTimers_dashV dt (player g)) as (Hx0 & Hy0).
  fold p1 in Hx1, Hy1. rewrite Hx1, Hy1, Hx0, Hy0 in Hdir, Hvx, Hvy.
  change (dashVX (moveAndClamp dt (W g) (H g) (steer E (cfg g) n dt p1)))
    with (dashVX (steer E (cfg g) n dt p1)).
  change (dashVY (moveAndClamp dt (W g) (H g) (steer E (cfg g) n dt p1)))
    with (dashVY (steer E (cfg g) n dt p1)).
  change (p_vx (moveAndClamp dt (W g) (H g) (steer E (cfg g) n dt p1)))
    with (p_vx (steer E (cfg g) n dt p1)).
  change (p_vy (moveAndClamp dt (W g) (H g) (steer E (cfg g) n dt p1)))
    with (p_vy (steer E (cfg g) n dt p1)).
  auto.
Qed.

(** C9, as the code has it.  An activation of dash at a cooldown of 0
    stores a direction - the unit vector of the movement intent, else the
    last non-zero intent, else (0, -1) -, sets the dash timer to
    [clamp(duration || 0, 0, 1.2)], the configured duration cut to the
    range from 0 to 1.2 seconds, and starts the cooldown at once, at
    [max(0, cooldown || 0)].  After every update that leaves the dash
    timer positive, the velocity is the stored direction times
    [max(0, speed || 0)], the configured dash speed or 0 if that is
    negative, where an update with a non-zero movement intent first
    replaces the stored direction by the unit vector of that intent. *)
Theorem dash_velocity_follows_steered_direction :
  forall (inp : InputObj) (tid : string) (dt : Q) (g : Game),
    state g = PLAY ->
    (cd_dash (cds g) == 0 ->
     Post (fun r =>
             (dashVX (player (snd r)), dashVY (player (snd r))) = dashDirection E inp (player g)
             /\ dashT (player (snd r))
                = clamp (orElse (dash_duration (c_skills (cfg g))) 0) 0 1.2
             /\ cd_dash (cds (snd r)) = Qmax 0 (orElse (dash_cooldown (c_skills (cfg g))) 0))
          (handleAction E inp "dash" g))
    /\ Leaves (fun r =>
                 let p' := player (snd r) in
                 let n := norm2 E (dx (getMove inp)) (dy (getMove inp)) in
                 let dir := if ltb 0 (n_len n) then (n_x n, n_y n)
                            else (dashVX (player g), dashVY (player g)) in
                 let speed := Qmax 0 (orElse (dash_speed (c_skills (cfg g))) 0) in
                 0 < dashT p' ->
                 (dashVX p', dashVY p') = dir
                 /\ p_vx p' = fst dir * speed /\ p_vy p' = snd dir * speed)
              (update E inp tid dt g).
Proof.
  intros inp tid dt g Hplay. split.
  - intros Hcd. rewrite handleAction_playing by exact Hplay.
    rewrite useSkill_ready by (exact Hcd || reflexivity).
    cbn [String.eqb Ascii.eqb Bool.eqb].
    unfold bindG at 1. apply Holds_bind.
    eapply Holds_weaken; [| apply useDash_post].
    intros [uu g1] (Hc & Hd & Hdir & _). cbn [fst snd] in *. exec. cbn [snd].
    rewrite Hc, Hd, Hdir. repeat split.
  - eapply Holds_weaken; [| apply (update_keeps E player); try reflexivity; exact Hplay].
    intros [uu g1] Hp. cbn [fst snd] in *. cbv zeta. rewrite Hp.
    apply (updatePlayer_dashing inp dt g).
Qed.

End WithEngine.

Lemma dash_velocity_witness :
  Post (fun r => dashT (player (snd r)) = clamp (orElse 0.18 0) 0 1.2
                 /\ cd_dash (cds (snd r)) = Qmax 0 (orElse 1.15 0))
       (handleAction Ref.refMath Ref.rightInput "dash" Ref.readyGame).
Proof.
  eapply Holds_weaken;
    [| apply (proj1 (dash_velocity_follows_steered_direction Ref.refMath Ref.rightInput
                       "classic" (1 / 120) Ref.readyGame eq_refl)); reflexivity ].
  intros r (_ & Hd & Hc). split; assumption.
Defined.

(** The player dashes to the right; on the next tick the key W is held
    instead of D: the velocity of that tick points up, not along the
    direction stored at the activation. *)
Lemma dash_direction_changes_with_intent :
  exists g1 w1,
    state Ref.readyGame = PLAY
    /\ run (handleAction Ref.refMath Ref.rightInput "dash" Ref.readyGame) Ref.seededWorld
       = Done (tt, g1) w1
    /\ (dashVX (player g1) == 1 /\ dashVY (player g1) == 0)
    /\ let g2 := _updatePlayer Ref.refMath Ref.upInput (1 / 120) (tickTimers (1 / 120) g1) in
       0 < dashT (player g2)
       /\ p_vx (player g2) == 0 /\ p_vy (player g2) == - (900)
       /\ ~ p_vx (player g2) == dashVX (player g1) * 900.
Proof.
  assert (Hrun : exists g1 w1,
             run (handleAction Ref.refMath Ref.rightInput "dash" Ref.readyGame)
                 Ref.seededWorld = Done (tt, g1) w1
             /\ (let g2 := _updatePlayer Ref.refMath Ref.upInput (1 / 120)
                             (tickTimers (1 / 120) g1) in
                 Qeq_bool (dashVX (player g1)) 1 = true
                 /\ Qeq_bool (dashVY (player g1)) 0 = true
                 /\ Qle_bool (dashT (player g2)) 0 = false
                 /\ Qeq_bool (p_vx (player g2)) 0 = true
                 /\ Qeq_bool (p_vy (player g2)) (- (900)) = true
                 /\ Qeq_bool (p_vx (player g2)) (dashVX (player g1) * 900) = false)).
  { eexists. eexists. split; [vm_compute; reflexivity|]. vm_compute. repeat split. }
  destruct Hrun as (g1 & w1 & Hrun & H1 & H2 & H3 & H4 & H5 & H6).
  exists g1, w1. split; [reflexivity|]. split; [exact Hrun|].
  split; [split; apply Qeq_bool_eq; assumption|].
  cbv zeta. split; [apply leb_gt; exact H3|].
  split; [apply Qeq_bool_eq; exact H4|]. split; [apply Qeq_bool_eq; exact H5|].
  apply Qeq_bool_neq. exact H6.
Qed.

End DashFacts.

(** ** The caps on the entity lists *)

Module CapFacts.
Import Util UtilFacts Sim SimFacts Input Game TreeFacts.
Local Open Scope Q_scope.
Local Open Scope string_scope.
Local Open Scope list_scope.

Lemma capList_spec {A} (cap : nat) (l : list A) :
  exists dropped,
    l = dropped ++ capList cap l
    /\ List.length (capList cap l) = Nat.min cap (List.length l)
    /\ List.length dropped = (List.length l - cap)%nat.
Proof.
  unfold capList. destruct (Nat.ltb_spec cap (List.length l)) as [Hlt | Hge].
  - exists (firstn (List.length l - cap) l). split; [symmetry; apply firstn_skipn|].
    rewrite length_skipn, firstn_length_le by lia. split; lia.
  - exists []. cbn [app List.length]. split; [reflexivity|]. split; lia.
Qed.

(** C8, as the code has it.  Each cap cuts its list from the front: the
    entries removed are the oldest ones, as many as the list exceeds the
    cap by, the newest entries stay in their order, and a list within its
    cap is left alone.  Nothing else of the game changes - in particular
    no score is awarded for an evicted pipe - and no property of an
    entry other than its position in the list is looked at. *)
Theorem caps_evict_the_oldest_entries :
  forall (g : Game),
    (exists dropped,
        pipes g = dropped ++ pipes (applyCaps g)
        /\ List.length (pipes (applyCaps g)) = Nat.min 280 (List.length (pipes g))
        /\ List.length dropped = (List.length (pipes g) - 280)%nat)
    /\ (exists dropped,
           parts g = dropped ++ parts (applyCaps g)
           /\ List.length (parts (applyCaps g)) = Nat.min 1100 (List.length (parts g))
           /\ List.length dropped = (List.length (parts g) - 1100)%nat)
    /\ (exists dropped,
           floats g = dropped ++ floats (applyCaps g)
           /\ List.length (floats (applyCaps g)) = Nat.min 80 (List.length (floats g))
           /\ List.length dropped = (List.length (floats g) - 80)%nat)
    /\ score (applyCaps g) = score g
    /\ combo (applyCaps g) = combo g
    /\ state (applyCaps g) = state g
    /\ player (applyCaps g) = player g
    /\ orbs (applyCaps g) = orbs g
    /\ gates (applyCaps g) = gates g.
Proof.
  intros g. unfold applyCaps. cbv zeta.
  cbn [pipes parts floats score combo state player orbs gates
       set_pipes set_parts set_floats].
  split; [apply capList_spec|]. split; [apply capList_spec|]. split; [apply capList_spec|].
  repeat split.
Qed.

(** A tick of the crowded field: the player is invulnerable, so no
    collision ends the run; the pipe that lies over the player, the oldest
    of 281, is on the field and unscored, and after the tick it is gone,
    with no score awarded. *)
Lemma cap_evicts_pipe_over_the_player :
  exists r w',
    run (update Ref.refMath Ref.idleInput "classic" (1 / 120) Ref.crowdedGame) Ref.seededWorld
    = Done r w'
    /\ In Ref.hitPipe (pipes Ref.crowdedGame)
    /\ pipe_scored Ref.hitPipe = false
    /\ state (snd r) = PLAY
    /\ hitsPipe (snd r) Ref.hitPipe = true
    /\ Pipe_off (W (snd r)) (H (snd r)) (_margin (snd r)) Ref.hitPipe = false
    /\ ~ In Ref.hitPipe (pipes (snd r))
    /\ score (snd r) == score Ref.crowdedGame.
Proof.
  assert (Hrun : exists r w',
             run (update Ref.refMath Ref.idleInput "classic" (1 / 120) Ref.crowdedGame)
                 Ref.seededWorld = Done r w'
             /\ state (snd r) = PLAY
             /\ hitsPipe (snd r) Ref.hitPipe = true
             /\ Pipe_off (W (snd r)) (H (snd r)) (_margin (snd r)) Ref.hitPipe = false
             /\ List.existsb (fun q => Qeq_bool (pipe_x q) 380) (pipes (snd r)) = false
             /\ Qeq_bool (score (snd r)) (score Ref.crowdedGame) = true).
  { eexists. eexists. split; [vm_compute; reflexivity|]. vm_compute. repeat split. }
  destruct Hrun as (r & w' & Hrun & Hst & Hhit & Hoff & Hnone & Hsc).
  exists r, w'. split; [exact Hrun|]. split; [left; reflexivity|].
  split; [reflexivity|]. split; [exact Hst|]. split; [exact Hhit|]. split; [exact Hoff|].
  split; [|apply Qeq_bool_eq; exact Hsc].
  intros Hin.
  assert (Hex : List.existsb (fun q => Qeq_bool (pipe_x q) 380) (pipes (snd r)) = true).
  { apply existsb_exists. exists Ref.hitPipe. split; [exact Hin | reflexivity]. }
  congruence.
Qed.

End CapFacts.

(** ** What the simulation does not look at *)

Module JunkFacts.
Import Util UtilFacts Sim SimFacts Input Game TreeFacts SkillFacts OrbFacts OverFacts
       FrameFacts PlayerFacts DashFacts.
Local Open Scope Q_scope.
Local Open Scope string_scope.

(** Two computations that draw alike and return related values.  Neither
    calls [Math.random]. *)
Inductive TreeSim {A B : Type} (R : A -> B -> Prop) : Prog A -> Prog B -> Prop :=
| TreeSim_ret : forall a b, R a b -> TreeSim R (Ret a) (Ret b)
| TreeSim_draw : forall k1 k2,
    (forall u, TreeSim R (k1 u) (k2 u)) -> TreeSim R (Draw k1) (Draw k2)
| TreeSim_spin : TreeSim R Spin Spin.

Lemma TreeSim_weaken {A B} (R R' : A -> B -> Prop) p1 p2 :
  (forall a b, R a b -> R' a b) -> TreeSim R p1 p2 -> TreeSim R' p1 p2.
Proof.
  intros HR H. induction H; [apply TreeSim_ret | apply TreeSim_draw | apply TreeSim_spin]; auto.
Qed.

Lemma TreeSim_bind {A B A' B'} (R : A -> B -> Prop) (R' : A' -> B' -> Prop)
    p1 p2 (f1 : A -> Prog A') (f2 : B -> Prog B') :
  TreeSim R p1 p2 ->
  (forall a b, R a b -> TreeSim R' (f1 a) (f2 b)) ->
  TreeSim R' (bind p1 f1) (bind p2 f2).
Proof.
  intros H Hf. induction H; cbn [bind];
    [apply Hf; assumption | apply TreeSim_draw; auto | apply TreeSim_spin].
Qed.

(** The fields no step of the simulation reads before writing them: the
    background dots, and the dash direction while no dash runs. *)
Definition Junk : Type := (list Dot * Q * Q)%type.

Definition inject (j : Junk) (g : Game) : Game :=
  set_bgDots (fst (fst j))
    (set_player (set_dashVY (snd j) (set_dashVX (snd (fst j)) (player g))) g).

(** [Obliv inj m]: on a game changed by [inj], [m] draws the same, returns
    the same value and leaves the same game changed by [inj]. *)
Definition Obliv {A : Type} (inj : Game -> Game) (m : GameM A) : Prop :=
  forall g,
    TreeSim (fun r1 r2 => fst r2 = fst r1 /\ snd r2 = inj (snd r1))
            (m g) (m (inj g)).

Section OblivRules.
Variable inj : Game -> Game.

Lemma obliv_ret {A} (a : A) : Obliv inj (ret a).
Proof. intros g. apply TreeSim_ret. split; reflexivity. Qed.

Lemma obliv_modify f : (forall g, f (inj g) = inj (f g)) -> Obliv inj (modify f).
Proof. intros Hf g. apply TreeSim_ret. split; [reflexivity | apply Hf]. Qed.

Lemma obliv_bind {A B} (m : GameM A) (f : A -> GameM B) :
  Obliv inj m -> (forall a, Obliv inj (f a)) -> Obliv inj (bindG m f).
Proof.
  intros Hm Hf g. unfold bindG.
  eapply TreeSim_bind; [apply Hm|].
  intros [a1 g1] [a2 g2] [Ha Hg]. cbn [fst snd] in *. subst a2 g2. apply Hf.
Qed.

(** A computation that starts by reading the game, and whose
    continuation does not look at the junk of what it read. *)
Lemma obliv_get {A} (body : Game -> GameM A) :
  (forall g, body (inj g) = body g) ->
  (forall g0, Obliv inj (body g0)) ->
  Obliv inj (bindG get body).
Proof.
  intros Hb Ho g. unfold bindG, get. cbn [bind fst snd]. rewrite Hb. apply Ho.
Qed.

Lemma obliv_randG a b : Obliv inj (randG a b).
Proof.
  intros g. unfold randG, lift, rand. cbn [bind]. apply TreeSim_draw. intros u.
  apply TreeSim_ret. split; reflexivity.
Qed.

Lemma obliv_lift {A} (p : Prog A) : TreeSim eq p p -> Obliv inj (lift p).
Proof.
  intros Hp g. unfold lift. eapply TreeSim_bind; [exact Hp|].
  intros a b <-. apply TreeSim_ret. split; reflexivity.
Qed.

Lemma obliv_forFrom body : (forall i, Obliv inj (body i)) ->
  forall n i, Obliv inj (forFrom i n body).
Proof.
  intros Hb. induction n as [|n IH]; intros i; cbn [forFrom].
  - apply obliv_ret.
  - apply obliv_bind; [apply Hb | intros _; apply IH].
Qed.

Lemma obliv_forN n body : (forall i, Obliv inj (body i)) -> Obliv inj (forN n body).
Proof. intros Hb. apply obliv_forFrom. exact Hb. Qed.

Lemma obliv_spin {A} : Obliv inj (@spin A).
Proof. intros g. apply TreeSim_spin. Qed.

End OblivRules.

Lemma newFloatText_sim txt x y c : TreeSim eq (newFloatText txt x y c) (newFloatText txt x y c).
Proof.
  unfold newFloatText, rand. cbn [bind]. apply TreeSim_draw. intros u.
  apply TreeSim_draw. intros v. apply TreeSim_ret. reflexivity.
Qed.

Lemma newOrb_sim x y vx vy r life : TreeSim eq (newOrb x y vx vy r life) (newOrb x y vx vy r life).
Proof.
  unfold newOrb, rand. cbn [bind]. apply TreeSim_draw. intros u. apply TreeSim_ret.
  reflexivity.
Qed.

Create HintDb obliv.

Ltac obliv_step :=
  lazymatch goal with
  | |- Obliv _ (ret _) => apply obliv_ret
  | |- Obliv _ (randG _ _) => apply obliv_randG
  | |- Obliv _ (lift (newFloatText _ _ _ _)) => apply obliv_lift, newFloatText_sim
  | |- Obliv _ (lift (newOrb _ _ _ _ _ _)) => apply obliv_lift, newOrb_sim
  | |- Obliv _ (bindG get _) => apply obliv_get; [ intro; reflexivity | intro ]
  | |- Obliv _ (bindG _ _) => apply obliv_bind; [ | intro ]
  | |- Obliv _ (forN _ _) => apply obliv_forN; intro
  | |- Obliv _ (modify _) => apply obliv_modify; intro; reflexivity
  | |- Obliv _ (if ?b then _ else _) => destruct b
  | |- Obliv _ (match ?x with _ => _ end) => destruct x
  | |- Obliv _ (let _ := _ in _) => cbv zeta
  | |- Obliv _ ?m =>
      first [ solve [auto with obliv]
            | let h := head_of m in unfold h ]
  end.

Ltac obliv := repeat obliv_step.

Section Oblivious.
Variable E : Engine.
Variable j : Junk.

Lemma pushPipe_obliv p : Obliv (inject j) (pushPipe p).
Proof. unfold pushPipe. obliv. Qed.

Lemma pushGate_obliv x : Obliv (inject j) (pushGate x).
Proof. unfold pushGate. obliv. Qed.

Lemma pushOrb_obliv o : Obliv (inject j) (pushOrb o).
Proof. unfold pushOrb. obliv. Qed.

Lemma pushPart_obliv p : Obliv (inject j) (pushPart p).
Proof. unfold pushPart. obliv. Qed.

Lemma pushFloat_obliv t : Obliv (inject j) (pushFloat t).
Proof. unfold pushFloat. obliv. Qed.

#[local] Hint Resolve pushPipe_obliv pushGate_obliv pushOrb_obliv pushPart_obliv
  pushFloat_obliv : obliv.

Lemma randSide_obliv : Obliv (inject j) randSide.
Proof. unfold randSide. obliv. Qed.

#[local] Hint Resolve randSide_obliv : obliv.

Lemma sideOr_obliv o : Obliv (inject j) (sideOr o).
Proof. unfold sideOr. obliv. Qed.

Lemma orDraw_obliv o a b : Obliv (inject j) (orDraw o (randG a b)).
Proof. unfold orDraw. obliv. Qed.

#[local] Hint Resolve sideOr_obliv orDraw_obliv : obliv.

Lemma spawnSinglePipe_obliv opts : Obliv (inject j) (_spawnSinglePipe E opts).
Proof. unfold _spawnSinglePipe. obliv. Qed.

Lemma spawnWall_obliv opts : Obliv (inject j) (_spawnWall E opts).
Proof. unfold _spawnWall. obliv. Qed.

Lemma spawnBurst_obliv : Obliv (inject j) (_spawnBurst E).
Proof. unfold _spawnBurst. obliv. Qed.

Lemma spawnCrossfire_obliv : Obliv (inject j) (_spawnCrossfire E).
Proof. unfold _spawnCrossfire. obliv. Qed.

Lemma spawnOrb_obliv : Obliv (inject j) (_spawnOrb E).
Proof. unfold _spawnOrb, orbSpot. obliv. Qed.

Lemma breakCombo_obliv x y : Obliv (inject j) (_breakCombo x y).
Proof. unfold _breakCombo. obliv. Qed.

#[local] Hint Resolve spawnSinglePipe_obliv spawnWall_obliv spawnBurst_obliv
  spawnCrossfire_obliv spawnOrb_obliv breakCombo_obliv : obliv.

Lemma trailParticle_obliv id st bX bY bx by' i :
  Obliv (inject j) (trailParticle E id st bX bY bx by' i).
Proof. unfold trailParticle. obliv. Qed.

#[local] Hint Resolve trailParticle_obliv : obliv.

Lemma emitTrail_obliv id dt : Obliv (inject j) (_emitTrail E id dt).
Proof. unfold _emitTrail. obliv. Qed.

Lemma sparkleParticle_obliv ui i : Obliv (inject j) (sparkleParticle E ui i).
Proof. unfold sparkleParticle. obliv. Qed.

#[local] Hint Resolve sparkleParticle_obliv : obliv.

Lemma comboSparkles_obliv dt : Obliv (inject j) (comboSparkles E dt).
Proof. unfold comboSparkles. obliv. Qed.

Lemma spawnPattern_obliv : Obliv (inject j) (spawnPattern E).
Proof. unfold spawnPattern. obliv. Qed.

#[local] Hint Resolve spawnPattern_obliv : obliv.

Lemma spawnLoop_obliv fuel : Obliv (inject j) (spawnLoop E fuel).
Proof.
  induction fuel as [|k IH]; intros g; cbn [spawnLoop];
    change (pipeT (inject j g)) with (pipeT g); destruct (leb (pipeT g) 0).
  - apply TreeSim_spin.
  - apply TreeSim_ret. split; reflexivity.
  - apply (fun H : Obliv (inject j) _ => H g). obliv.
  - apply TreeSim_ret. split; reflexivity.
Qed.

#[local] Hint Resolve spawnLoop_obliv : obliv.

Lemma spawnPipes_obliv dt : Obliv (inject j) (spawnPipes E dt).
Proof. unfold spawnPipes. obliv. Qed.

Lemma specialPatterns_obliv dt : Obliv (inject j) (specialPatterns E dt).
Proof. unfold specialPatterns. obliv. Qed.

Lemma spawnOrbs_obliv dt : Obliv (inject j) (spawnOrbs E dt).
Proof. unfold spawnOrbs. obliv. Qed.

Lemma perfectParticle_obliv i : Obliv (inject j) (perfectParticle E i).
Proof. unfold perfectParticle. obliv. Qed.

#[local] Hint Resolve perfectParticle_obliv : obliv.

Lemma perfectGate_obliv bonus wS gt : Obliv (inject j) (perfectGate E bonus wS gt).
Proof. unfold perfectGate. obliv. Qed.

#[local] Hint Resolve perfectGate_obliv : obliv.

Lemma perfectLoop_obliv bonus wS todo : Obliv (inject j) (perfectLoop E bonus wS todo).
Proof.
  induction todo as [|gt rest IH]; cbn [perfectLoop]; obliv.
Qed.

#[local] Hint Resolve perfectLoop_obliv : obliv.

Lemma gatesAndPerfect_obliv dt : Obliv (inject j) (gatesAndPerfect E dt).
Proof. unfold gatesAndPerfect. obliv. Qed.

Lemma orbsExpire_obliv dt : Obliv (inject j) (orbsExpire dt).
Proof. unfold orbsExpire. obliv. Qed.

Lemma pickupParticle_obliv ob i : Obliv (inject j) (pickupParticle E ob i).
Proof. unfold pickupParticle. obliv. Qed.

#[local] Hint Resolve pickupParticle_obliv : obliv.

Lemma collectOrb_obliv ob : Obliv (inject j) (collectOrb E ob).
Proof. unfold collectOrb. obliv. Qed.

#[local] Hint Resolve collectOrb_obliv : obliv.

Lemma pickupLoop_obliv revOrbs : Obliv (inject j) (pickupLoop E revOrbs).
Proof.
  induction revOrbs as [|ob rest IH]; cbn [pickupLoop]; obliv.
Qed.

#[local] Hint Resolve pickupLoop_obliv : obliv.

Lemma orbPickup_obliv : Obliv (inject j) (orbPickup E).
Proof. unfold orbPickup. obliv. Qed.

Lemma usePhase_obliv : Obliv (inject j) usePhase.
Proof. unfold usePhase. obliv. Qed.

Lemma useSlowField_obliv : Obliv (inject j) useSlowField.
Proof. unfold useSlowField. obliv. Qed.

Lemma burstPair_obliv ox oy nx ny i : Obliv (inject j) (burstPair E ox oy nx ny i).
Proof. unfold burstPair. obliv. Qed.

Lemma arrivalParticle_obliv nx ny ed i : Obliv (inject j) (arrivalParticle E nx ny ed i).
Proof. unfold arrivalParticle. obliv. Qed.

#[local] Hint Resolve burstPair_obliv arrivalParticle_obliv : obliv.

Lemma dashParticle_obliv b i : Obliv (set_bgDots b) (dashParticle E i).
Proof. unfold dashParticle. obliv. Qed.

Lemma useTeleport_obliv inp : Obliv (inject j) (useTeleport E inp).
Proof. unfold useTeleport. obliv. Qed.

Lemma useSkill_obliv inp name :
  (name =? "dash") = false -> Obliv (inject j) (_useSkill E inp name).
Proof.
  intros Hn. unfold _useSkill. rewrite Hn.
  pose proof usePhase_obliv. pose proof useSlowField_obliv.
  pose proof (useTeleport_obliv inp). obliv.
Qed.

(** What [update] does between the player's move and the collision
    check. *)
Definition afterPlayer (trailId : string) (dt : Q) : GameM unit :=
  _emitTrail E trailId dt ;;
  comboSparkles E dt ;;
  spawnPipes E dt ;;
  specialPatterns E dt ;;
  spawnOrbs E dt ;;
  gatesAndPerfect E dt ;;
  modify (movePipes dt) ;;
  orbsExpire dt ;;
  orbPickup E.

Lemma modify_then {A} f (k : GameM A) g : (modify f ;; k) g = k (f g).
Proof. reflexivity. Qed.

Lemma advance_eq inp tid dt g :
  advance E inp tid dt g = afterPlayer tid dt (_updatePlayer E inp dt (tickTimers dt g)).
Proof. unfold advance, afterPlayer. rewrite 2 modify_then. reflexivity. Qed.

Lemma afterPlayer_obliv tid dt : Obliv (inject j) (afterPlayer tid dt).
Proof.
  unfold afterPlayer.
  pose proof (emitTrail_obliv tid dt). pose proof (comboSparkles_obliv dt).
  pose proof (spawnPipes_obliv dt). pose proof (specialPatterns_obliv dt).
  pose proof (spawnOrbs_obliv dt). pose proof (gatesAndPerfect_obliv dt).
  pose proof (orbsExpire_obliv dt). pose proof orbPickup_obliv.
  obliv.
Qed.

End Oblivious.
End JunkFacts.

(** ** The live run and its replay *)

Module ReplayFacts.
Import Util UtilFacts Sim SimFacts Input Game TreeFacts SkillFacts OrbFacts OverFacts
       FrameFacts PlayerFacts DashFacts JunkFacts.
Local Open Scope Q_scope.
Local Open Scope string_scope.

(** The recorder of the live run and the generator of the replay are in
    the same state. *)
Definition Aligned (w1 w2 : World) : Prop :=
  match source w1, source w2 with
  | SrcRecorder a _ _, SrcSeeded a' => a' = a
  | _, _ => False
  end.

(** [Sim R p1 p2]: where [p1] returns with the recorder, [p2] returns with
    the generator, the results are related by [R] and the two sources are
    in the same state again. *)
Definition Sim {A B : Type} (R : A -> B -> Prop) (p1 : Prog A) (p2 : Prog B) : Prop :=
  forall w1 w2, Aligned w1 w2 ->
  forall a1 w1', run p1 w1 = Done a1 w1' ->
  exists a2 w2', run p2 w2 = Done a2 w2' /\ R a1 a2 /\ Aligned w1' w2'.

Lemma Sim_ret {A B} (R : A -> B -> Prop) a b : R a b -> Sim R (Ret a) (Ret b).
Proof.
  intros HR w1 w2 Hal a1 w1' Hrun. cbn [run] in *. inversion Hrun; subst.
  exists b, w2. auto.
Qed.

Lemma Sim_bind {A B A' B'} (R : A -> B -> Prop) (R' : A' -> B' -> Prop)
    p1 p2 (f1 : A -> Prog A') (f2 : B -> Prog B') :
  Sim R p1 p2 ->
  (forall a b, R a b -> Sim R' (f1 a) (f2 b)) ->
  Sim R' (bind p1 f1) (bind p2 f2).
Proof.
  intros Hp Hf w1 w2 Hal a1 w1' Hrun. rewrite run_bind in Hrun.
  destruct (run p1 w1) as [x wx | e wx | ] eqn:H1; try discriminate.
  destruct (Hp w1 w2 Hal x wx H1) as (y & wy & H2 & HR & Hal').
  rewrite run_bind, H2. eapply Hf; eassumption.
Qed.

Lemma Sim_weaken {A B} (R R' : A -> B -> Prop) p1 p2 :
  (forall a b, R a b -> R' a b) -> Sim R p1 p2 -> Sim R' p1 p2.
Proof.
  intros HR H w1 w2 Hal a1 w1' Hrun.
  destruct (H w1 w2 Hal a1 w1' Hrun) as (a2 & w2' & H2 & Hr & Hal').
  exists a2, w2'. auto.
Qed.

Lemma callSource_aligned w1 w2 v w1' :
  Aligned w1 w2 -> callSource w1 = Done v w1' ->
  exists w2', callSource w2 = Done v w2' /\ Aligned w1' w2'.
Proof.
  unfold Aligned, callSource.
  destruct (source w1) as [ | a | a r c | r i]; try contradiction.
  destruct (source w2) as [ | a' | a' r' c' | r' i']; try contradiction.
  intros ->. destruct (Rng.mulberry32 a) as [a1 u]. intros H. inversion H; subst.
  eexists. split; [reflexivity|]. cbn [source setRandSource]. reflexivity.
Qed.

Lemma TreeSim_Sim {A B} (R : A -> B -> Prop) p1 p2 : TreeSim R p1 p2 -> Sim R p1 p2.
Proof.
  intros H. induction H as [a b Hab | k1 k2 Hk IH | ].
  - apply Sim_ret. exact Hab.
  - intros w1 w2 Hal a1 w1' Hrun. cbn [run] in *.
    destruct (callSource w1) as [v wx | e wx | ] eqn:Hc; try discriminate.
    destruct (callSource_aligned _ _ _ _ Hal Hc) as (wy & Hc2 & Hal').
    rewrite Hc2. eapply IH; eassumption.
  - intros w1 w2 Hal a1 w1' Hrun. discriminate.
Qed.

Lemma TreeSim_Holds {A B} (P : A -> Prop) (R : A -> B -> Prop) p1 p2 :
  Leaves P p1 -> TreeSim R p1 p2 -> TreeSim (fun a b => P a /\ R a b) p1 p2.
Proof.
  intros HP H. induction H as [a b Hab | k1 k2 Hk IH | ].
  - inversion HP; subst. apply TreeSim_ret. auto.
  - inversion HP; subst. apply TreeSim_draw. intros u. apply IH. auto.
  - apply TreeSim_spin.
Qed.

(** [Math.random] leaves the installed source alone. *)
Lemma driftDots_run dt W H ds : forall w,
  exists ds' w', run (driftDots dt W H ds) w = Done ds' w' /\ source w' = source w.
Proof.
  induction ds as [|d rest IH]; intros w; cbn [driftDots].
  - exists [], w. split; reflexivity.
  - destruct (ltb (H + 10) (dot_y d + dot_s d * dt)).
    + cbn [run]. unfold mathRandomCall. rewrite run_bind.
      match goal with |- context [run _ ?w0] => destruct (IH w0) as (ds' & w' & Hr & Hs) end.
      rewrite Hr. cbn [run]. eexists. eexists. split; [reflexivity|]. exact Hs.
    + rewrite run_bind. destruct (IH w) as (ds' & w' & Hr & Hs).
      rewrite Hr. cbn [run]. eexists. eexists. split; [reflexivity|]. exact Hs.
Qed.

Lemma bgDrift_sim dt g1 g2 :
  Sim (fun r1 r2 => exists d1 d2, snd r1 = set_bgDots d1 g1 /\ snd r2 = set_bgDots d2 g2)
      (bgDrift dt g1) (bgDrift dt g2).
Proof.
  intros w1 w2 Hal a1 w1' Hrun. unfold bgDrift in *. rewrite run_bind in *.
  destruct (driftDots_run dt (W g1) (H g1) (bgDots g1) w1) as (d1 & wx & H1 & Hs1).
  destruct (driftDots_run dt (W g2) (H g2) (bgDots g2) w2) as (d2 & wy & H2 & Hs2).
  rewrite H1 in Hrun. rewrite H2. cbn [run] in *. inversion Hrun; subst.
  eexists. eexists. split; [reflexivity|]. split.
  - exists d1, d2. split; reflexivity.
  - unfold Aligned in *. rewrite Hs1, Hs2. exact Hal.
Qed.

(** *** Games that differ in what the simulation does not read *)

(** The dash direction counts while a dash runs. *)
Definition guard (j : Junk) (g : Game) : Prop :=
  ltb 0 (dashT (player g)) = true ->
  snd (fst j) = dashVX (player g) /\ snd j = dashVY (player g).

Definition Rg (g1 g2 : Game) : Prop := exists j, g2 = inject j g1 /\ guard j g1.

Definition RG {A : Type} (r1 r2 : A * Game) : Prop :=
  fst r2 = fst r1 /\ Rg (snd r1) (snd r2).

Definition dashFields (g : Game) : Q * Q * Q :=
  (dashT (player g), dashVX (player g), dashVY (player g)).

Lemma guard_fields j g g' : dashFields g' = dashFields g -> guard j g -> guard j g'.
Proof.
  unfold dashFields, guard. intros H Hg. inversion H as [[H1 H2 H3]].
  rewrite H1, H2, H3. exact Hg.
Qed.

Lemma inject_eta b g :
  inject (b, dashVX (player g), dashVY (player g)) g = set_bgDots b g.
Proof. destruct g as [? ? ? ? ? ? pl]. destruct pl. reflexivity. Qed.

Lemma Rg_refl_bg b g : Rg g (set_bgDots b g).
Proof.
  exists (b, dashVX (player g), dashVY (player g)). split.
  - symmetry. apply inject_eta.
  - intros _. split; reflexivity.
Qed.

Lemma Rg_refl g : Rg g g.
Proof.
  exists (bgDots g, dashVX (player g), dashVY (player g)). split.
  - destruct g as [? ? ? ? ? ? pl]. destruct pl. reflexivity.
  - intros _. split; reflexivity.
Qed.

(** An oblivious method that keeps the dash fields. *)
Lemma obliv_sim {A} (m : GameM A) j g :
  Obliv (inject j) m -> Keeps true dashFields m -> guard j g ->
  Sim RG (m g) (m (inject j g)).
Proof.
  intros Ho Hk Hg. apply TreeSim_Sim.
  eapply TreeSim_weaken; [| apply TreeSim_Holds; [apply (Hk g) | apply (Ho g)]].
  intros [a1 g1'] [a2 g2'] [Hd [Ha Hi]]. cbn [fst snd] in *. split; [exact Ha|].
  exists j. split; [exact Hi|]. eapply guard_fields; eassumption.
Qed.

Lemma get_then {A} (k : Game -> GameM A) g : (x <- get ;; k x) g = k g g.
Proof. reflexivity. Qed.

Section Steps.
Variable E : Engine.

Lemma tickTimers_inject dt j g :
  tickTimers dt (inject j g) = inject j (tickTimers dt g).
Proof.
  destruct g as [st Wd Hd cW cH bg pl pp gg oo pa fl sc ta pT sT oT co cbf csa pfT pfM
                  sfo cd tra trh au cf].
  unfold tickTimers, _tickCooldowns, inject. cbv zeta.
  cbn -[Qmax Qminus Qplus ltb leb].
  destruct (ltb 0 cbf); cbn -[Qmax Qminus Qplus ltb leb];
    destruct (ltb 0 pfT); cbn -[Qmax Qminus Qplus ltb leb];
    destruct sfo as [sf|]; cbn -[Qmax Qminus Qplus ltb leb]; try reflexivity;
    match goal with
    | |- context [leb ?x 0] => destruct (leb x 0)
    end; reflexivity.
Qed.

(** The dash direction written onto a player. *)
Definition withDir (vx vy : Q) (p : Player) : Player := set_dashVY vy (set_dashVX vx p).

Lemma playerTimers_dir dt vx vy p :
  playerTimers dt (withDir vx vy p) = withDir vx vy (playerTimers dt p).
Proof.
  unfold playerTimers. change (invT (withDir vx vy p)) with (invT p).
  destruct (ltb 0 (invT p)).
  - change (dashT (set_invT (Qmax 0 (invT p - dt)) (withDir vx vy p))) with (dashT p).
    change (dashT (set_invT (Qmax 0 (invT p - dt)) p)) with (dashT p).
    destruct (ltb 0 (dashT p)); reflexivity.
  - change (dashT (withDir vx vy p)) with (dashT p).
    destruct (ltb 0 (dashT p)); reflexivity.
Qed.

Lemma rememberDirection_dir n vx vy p :
  rememberDirection n (withDir vx vy p) = withDir vx vy (rememberDirection n p).
Proof. unfold rememberDirection. destruct (ltb 0 (n_len n)); reflexivity. Qed.

Lemma playerTimers_idle dt p :
  ltb 0 (dashT p) = false -> ltb 0 (dashT (playerTimers dt p)) = false.
Proof.
  intros H. unfold playerTimers.
  destruct (ltb 0 (invT p)); cbn [dashT set_invT]; rewrite H; cbn [dashT set_invT]; exact H.
Qed.

Lemma rememberDirection_dashT n p : dashT (rememberDirection n p) = dashT p.
Proof. unfold rememberDirection. destruct (ltb 0 (n_len n)); reflexivity. Qed.

Lemma steer_dir c n dt vx vy p :
  ltb 0 (dashT p) = false ->
  steer E c n dt (withDir vx vy p) = withDir vx vy (steer E c n dt p).
Proof.
  intros H. unfold steer. change (dashT (withDir vx vy p)) with (dashT p). rewrite H.
  cbv zeta. destruct (eqb (n_len n) 0); reflexivity.
Qed.

Lemma moveAndClamp_dir dt W H vx vy p :
  moveAndClamp dt W H (withDir vx vy p) = withDir vx vy (moveAndClamp dt W H p).
Proof. reflexivity. Qed.

Lemma moveAndClamp_dashT dt W H p : dashT (moveAndClamp dt W H p) = dashT p.
Proof. reflexivity. Qed.

Lemma updatePlayer_eq inp dt g :
  _updatePlayer E inp dt g =
  set_player
    (moveAndClamp dt (W g) (H g)
       (steer E (cfg g) (norm2 E (dx (getMove inp)) (dy (getMove inp))) dt
          (rememberDirection (norm2 E (dx (getMove inp)) (dy (getMove inp)))
             (playerTimers dt (player g))))) g.
Proof. reflexivity. Qed.

Lemma inject_player b vx vy g :
  player (inject (b, vx, vy) g) = withDir vx vy (player g).
Proof. reflexivity. Qed.

Lemma inject_W j g : W (inject j g) = W g.
Proof. reflexivity. Qed.

Lemma inject_H j g : H (inject j g) = H g.
Proof. reflexivity. Qed.

Lemma inject_cfg j g : cfg (inject j g) = cfg g.
Proof. reflexivity. Qed.

Lemma set_player_inject b vx vy p g :
  set_player (withDir vx vy p) (inject (b, vx, vy) g) = inject (b, vx, vy) (set_player p g).
Proof. reflexivity. Qed.

Lemma updatePlayer_dashT_idle inp dt g :
  ltb 0 (dashT (player g)) = false ->
  ltb 0 (dashT (player (_updatePlayer E inp dt g))) = false.
Proof.
  intros Hd. rewrite updatePlayer_eq. cbn [player set_player].
  rewrite moveAndClamp_dashT, steer_dashT, rememberDirection_dashT.
  apply playerTimers_idle. exact Hd.
Qed.

Lemma updatePlayer_inject_idle inp dt j g :
  ltb 0 (dashT (player g)) = false ->
  _updatePlayer E inp dt (inject j g) = inject j (_updatePlayer E inp dt g).
Proof.
  intros Hd. destruct j as [[b vx] vy]. rewrite !updatePlayer_eq.
  rewrite inject_W, inject_H, inject_cfg, inject_player.
  rewrite playerTimers_dir, rememberDirection_dir, steer_dir, moveAndClamp_dir.
  - apply set_player_inject.
  - rewrite rememberDirection_dashT. apply playerTimers_idle. exact Hd.
Qed.

Lemma updatePlayer_inject inp dt j g :
  guard j g ->
  exists j', _updatePlayer E inp dt (inject j g) = inject j' (_updatePlayer E inp dt g)
             /\ guard j' (_updatePlayer E inp dt g).
Proof.
  intros Hg. destruct (ltb 0 (dashT (player g))) eqn:Hd.
  - destruct (Hg Hd) as [Hx Hy]. destruct j as [[b vx] vy]. cbn [fst snd] in *.
    subst vx vy. rewrite inject_eta.
    exists (b, dashVX (player (_updatePlayer E inp dt g)),
               dashVY (player (_updatePlayer E inp dt g))).
    split; [| intros _; split; reflexivity].
    rewrite inject_eta. apply updatePlayer_bgDots.
  - exists j. split.
    + apply updatePlayer_inject_idle. exact Hd.
    + intros H. rewrite updatePlayer_dashT_idle in H by exact Hd. discriminate.
Qed.

Lemma finish_inject dt j g : finish E dt (inject j g) = inject j (finish E dt g).
Proof.
  unfold finish, applyCaps, updateFx, removeOffField. cbv zeta.
  change (pipes (inject j g)) with (pipes g).
  change (W (inject j g)) with (W g). change (H (inject j g)) with (H g).
  change (_margin (inject j g)) with (_margin g).
  change (cfg (inject j g)) with (cfg g). change (score (inject j g)) with (score g).
  destruct (sweepPipes (W g) (H g) (_margin g)
              (Qmax 0 (orElse (pipeDodge (c_scoring (cfg g))) 0)) (rev (pipes g)) (score g))
    as [kept sc].
  reflexivity.
Qed.

Lemma finish_dashFields dt g : dashFields (finish E dt g) = dashFields g.
Proof.
  unfold finish, applyCaps, updateFx, removeOffField. cbv zeta.
  destruct (sweepPipes (W g) (H g) (_margin g)
              (Qmax 0 (orElse (pipeDodge (c_scoring (cfg g))) 0)) (rev (pipes g)) (score g))
    as [kept sc].
  reflexivity.
Qed.

Lemma tickTimers_guard dt j g : guard j g -> guard j (tickTimers dt g).
Proof.
  destruct (tickTimers_player dt g) as (Hp & _).
  unfold guard. rewrite Hp. auto.
Qed.

(** [advance] on two games of a kind. *)
Lemma advance_sim inp tid dt j g :
  guard j g ->
  Sim RG (advance E inp tid dt g) (advance E inp tid dt (inject j g)).
Proof.
  intros Hg. rewrite !advance_eq, tickTimers_inject.
  destruct (updatePlayer_inject inp dt j (tickTimers dt g) (tickTimers_guard dt j g Hg))
    as (j' & Hj' & Hg').
  rewrite Hj'. apply TreeSim_Sim.
  pose proof (advance_keeps E dashFields) as Hk.
  specialize (Hk ltac:(reflexivity) ltac:(reflexivity) ltac:(reflexivity) ltac:(reflexivity)
                 ltac:(reflexivity) ltac:(reflexivity) ltac:(reflexivity) ltac:(reflexivity)
                 ltac:(reflexivity) ltac:(reflexivity) ltac:(reflexivity) ltac:(reflexivity)
                 ltac:(reflexivity) ltac:(reflexivity) ltac:(reflexivity) ltac:(reflexivity)
                 inp tid dt g).
  rewrite advance_eq in Hk.
  eapply TreeSim_weaken;
    [| apply TreeSim_Holds; [exact Hk | apply (afterPlayer_obliv E j' tid dt)]].
  intros [a1 g1'] [a2 g2'] [Hd [Ha Hi]]. cbn [fst snd] in *. split; [exact Ha|].
  exists j'. split; [exact Hi|]. eapply guard_fields; eassumption.
Qed.

(** [update] after the advance, and after the background drift. *)
Definition afterAdvance (dt : Q) : GameM (option Z) :=
  g <- get ;;
  if collides g then
    modify (set_state OVER) ;;
    ret (Some (toInt (score g)))
  else
    modify (finish E dt) ;;
    ret None.

Definition afterDrift (inp : InputObj) (tid : string) (dt : Q) : GameM (option Z) :=
  g <- get ;;
  if negb (State_eqb (state g) PLAY) then ret None
  else
    advance E inp tid dt ;;
    afterAdvance dt.

Lemma bindG_eq {A B} (m : GameM A) (f : A -> GameM B) g :
  bindG m f g = bind (m g) (fun r => f (fst r) (snd r)).
Proof. reflexivity. Qed.

Lemma update_eq inp tid dt g :
  update E inp tid dt g =
  if State_eqb (state g) OVER then Ret (None, g)
  else bind (bgDrift dt g) (fun r => afterDrift inp tid dt (snd r)).
Proof.
  unfold update, afterDrift, afterAdvance. rewrite get_then.
  destruct (State_eqb (state g) OVER); reflexivity.
Qed.

Lemma afterDrift_eq inp tid dt g :
  afterDrift inp tid dt g =
  if negb (State_eqb (state g) PLAY) then Ret (None, g)
  else bind (advance E inp tid dt g) (fun r => afterAdvance dt (snd r)).
Proof.
  unfold afterDrift. rewrite get_then.
  destruct (negb (State_eqb (state g) PLAY)); reflexivity.
Qed.

Lemma afterAdvance_eq dt g :
  afterAdvance dt g =
  if collides g then Ret (Some (toInt (score g)), set_state OVER g)
  else Ret (None, finish E dt g).
Proof.
  unfold afterAdvance. rewrite get_then. destruct (collides g); reflexivity.
Qed.

Lemma collides_inject j g : collides (inject j g) = collides g.
Proof. reflexivity. Qed.

Lemma afterAdvance_sim dt g1 g2 :
  Rg g1 g2 -> Sim RG (afterAdvance dt g1) (afterAdvance dt g2).
Proof.
  intros (j & -> & Hg). rewrite !afterAdvance_eq, collides_inject.
  destruct (collides g1); apply Sim_ret; (split; [reflexivity|]); cbn [snd].
  - exists j. split; [reflexivity | exact Hg].
  - exists j. split; [apply finish_inject|].
    eapply guard_fields; [apply finish_dashFields | exact Hg].
Qed.

Lemma afterDrift_sim inp tid dt g1 g2 :
  Rg g1 g2 -> Sim RG (afterDrift inp tid dt g1) (afterDrift inp tid dt g2).
Proof.
  intros (j & -> & Hg). rewrite !afterDrift_eq.
  change (state (inject j g1)) with (state g1).
  destruct (negb (State_eqb (state g1) PLAY)).
  - apply Sim_ret. split; [reflexivity|]. exists j. auto.
  - eapply Sim_bind; [apply advance_sim; exact Hg|].
    intros [u1 ga] [u2 gb] [_ HR]. cbn [fst snd] in *. apply afterAdvance_sim. exact HR.
Qed.

(** One [update] of the live game and one of the replayed game. *)
Lemma update_sim inp tid dt g1 g2 :
  Rg g1 g2 -> Sim RG (update E inp tid dt g1) (update E inp tid dt g2).
Proof.
  intros (j & -> & Hg). rewrite !update_eq.
  change (state (inject j g1)) with (state g1).
  destruct (State_eqb (state g1) OVER).
  - apply Sim_ret. split; [reflexivity|]. exists j. auto.
  - eapply Sim_bind; [apply bgDrift_sim|].
    intros [u1 ga] [u2 gb] (d1 & d2 & Ha & Hb). cbn [fst snd] in *. subst ga gb.
    apply afterDrift_sim.
    destruct j as [[b vx] vy]. exists (d2, vx, vy). split; [reflexivity|]. exact Hg.
Qed.

(** *** Actions *)

(** A method looks at its input through [getMove] and [cursor] only. *)
Lemma handleAction_input inp1 inp2 name :
  getMove inp2 = getMove inp1 -> Input.cursor inp2 = Input.cursor inp1 ->
  handleAction E inp2 name = handleAction E inp1 name.
Proof.
  intros Hm Hc. unfold handleAction, _useSkill, useDash, useTeleport.
  rewrite Hm, Hc. reflexivity.
Qed.

Lemma update_input inp1 inp2 tid dt :
  getMove inp2 = getMove inp1 -> update E inp2 tid dt = update E inp1 tid dt.
Proof.
  intros Hm. unfold update, advance, _updatePlayer. rewrite Hm. reflexivity.
Qed.

Lemma useDash_sim inp j g : Sim RG (useDash E inp g) (useDash E inp (inject j g)).
Proof.
  unfold useDash. rewrite !modify_then.
  match goal with
  | |- Sim _ (forN _ _ ?x) (forN _ _ ?y) =>
      assert (Hf : y = set_bgDots (fst (fst j)) x) by reflexivity;
      rewrite Hf; generalize x
  end.
  clear. intros g. apply TreeSim_Sim.
  eapply TreeSim_weaken;
    [| apply (obliv_forN (set_bgDots (fst (fst j))) 18 (dashParticle E)
                (dashParticle_obliv E (fst (fst j))) g)].
  intros [a1 g1] [a2 g2] [Ha Hi]. cbn [fst snd] in *. split; [exact Ha|].
  subst g2. apply Rg_refl_bg.
Qed.

Lemma useSkill_dash inp g :
  _useSkill E inp "dash" g =
  if ltb 0 (cd_dash (cds g)) then Ret (tt, g)
  else bind (useDash E inp g) (fun r => Ret (tt, snd r)).
Proof.
  unfold _useSkill. cbn [hasSkill String.eqb Ascii.eqb Bool.eqb negb orb].
  rewrite get_then. unfold cdOf. cbn [String.eqb Ascii.eqb Bool.eqb].
  destruct (ltb 0 (cd_dash (cds g))); reflexivity.
Qed.

Lemma useSkill_dashFields inp name :
  (name =? "dash") = false -> Keeps true dashFields (_useSkill E inp name).
Proof. intros Hn. unfold _useSkill. rewrite Hn. keeps. Qed.

Lemma handleAction_sim inp1 inp2 name g1 g2 :
  getMove inp2 = getMove inp1 -> Input.cursor inp2 = Input.cursor inp1 ->
  Rg g1 g2 ->
  Sim RG (handleAction E inp1 name g1) (handleAction E inp2 name g2).
Proof.
  intros Hm Hc (j & -> & Hg). rewrite (handleAction_input inp1 inp2 name Hm Hc).
  unfold handleAction. rewrite !get_then.
  change (state (inject j g1)) with (state g1).
  destruct (negb (State_eqb (state g1) PLAY)).
  - apply Sim_ret. split; [reflexivity|]. exists j. auto.
  - destruct (name =? "dash") eqn:Hn.
    + apply String.eqb_eq in Hn. subst name. rewrite !useSkill_dash.
      change (cds (inject j g1)) with (cds g1).
      destruct (ltb 0 (cd_dash (cds g1))).
      * apply Sim_ret. split; [reflexivity|]. exists j. auto.
      * eapply Sim_bind; [apply useDash_sim|].
        intros [u1 ga] [u2 gb] [_ HR]. apply Sim_ret. split; [reflexivity | exact HR].
    + apply obliv_sim.
      * apply useSkill_obliv. exact Hn.
      * apply useSkill_dashFields. exact Hn.
      * exact Hg.
Qed.

End Steps.

(** *** A new run *)

(** What a run never writes. *)
Definition statics (g : Game) : Q * Q * Q * Q * Config * bool * Q * Q * Q :=
  (W g, H g, canvasW g, canvasH g, cfg g, audioEnabled g,
   p_w (player g), p_h (player g), p_r (player g)).

(** [startRun] on two games with the same size and configuration. *)
Lemma startRun_sim g1 g2 :
  statics g2 = statics g1 -> Sim RG (startRun g1) (startRun g2).
Proof.
  intros Hs. apply TreeSim_Sim.
  destruct g1 as [st1 W1 H1 cW1 cH1 bg1 pl1 pp1 gg1 oo1 pa1 fl1 sc1 ta1 pT1 sT1 oT1 co1
                   cbf1 csa1 pfT1 pfM1 sfo1 cd1 tra1 trh1 au1 cf1].
  destruct g2 as [st2 W2 H2 cW2 cH2 bg2 pl2 pp2 gg2 oo2 pa2 fl2 sc2 ta2 pT2 sT2 oT2 co2
                   cbf2 csa2 pfT2 pfM2 sfo2 cd2 tra2 trh2 au2 cf2].
  destruct pl1 as [x1 y1 vx1 vy1 w1 h1 r1 lx1 ly1 iT1 dT1 dx1 dy1].
  destruct pl2 as [x2 y2 vx2 vy2 w2 h2 r2 lx2 ly2 iT2 dT2 dx2 dy2].
  unfold statics in Hs. cbn [W H canvasW canvasH cfg audioEnabled player p_w p_h p_r] in Hs.
  inversion Hs; subst.
  unfold startRun, _resetRun. rewrite !modify_then, !get_then.
  unfold bindG, randG, lift, rand, modify. cbn -[Qmult Qplus Qminus Qopp ltb].
  apply TreeSim_draw. intros u. apply TreeSim_ret.
  split; [reflexivity|]. cbn [snd].
  exists (bg2, dx2, dy2). split; [reflexivity|].
  intros Hd. discriminate Hd.
Qed.

End ReplayFacts.

(** ** A captured session and its playback *)

Module SessionFacts.
Import Util UtilFacts Sim SimFacts Input Game TreeFacts SkillFacts OrbFacts OverFacts
       FrameFacts PlayerFacts DashFacts JunkFacts ReplayFacts Main.
Local Open Scope Q_scope.
Local Open Scope string_scope.

Section Session.
Variable E : Engine.

(** *** What a step leaves of the game *)

Lemma tickTimers_statics dt g :
  statics (tickTimers dt g) = statics g /\ state (tickTimers dt g) = state g.
Proof.
  unfold tickTimers, _tickCooldowns. cbv zeta.
  repeat match goal with
         | |- context [if ?b then _ else _] => destruct b
         | |- context [match ?o with Some _ => _ | None => _ end] => destruct o
         end; split; reflexivity.
Qed.

Definition playerSize (p : Player) : Q * Q * Q := (p_w p, p_h p, p_r p).

Lemma playerTimers_size dt p : playerSize (playerTimers dt p) = playerSize p.
Proof.
  unfold playerTimers. destruct (ltb 0 (invT p)); cbv zeta;
    match goal with |- context [if ?b then _ else _] => destruct b end; reflexivity.
Qed.

Lemma rememberDirection_size n p : playerSize (rememberDirection n p) = playerSize p.
Proof. unfold rememberDirection. destruct (ltb 0 (n_len n)); reflexivity. Qed.

Lemma steer_size c n dt p : playerSize (steer E c n dt p) = playerSize p.
Proof.
  unfold steer. destruct (ltb 0 (dashT p)).
  - destruct (ltb 0 (n_len n)); reflexivity.
  - cbv zeta. destruct (eqb (n_len n) 0); reflexivity.
Qed.

Lemma moveAndClamp_size dt W H p : playerSize (moveAndClamp dt W H p) = playerSize p.
Proof. reflexivity. Qed.

Lemma statics_player g p :
  playerSize p = playerSize (player g) -> statics (set_player p g) = statics g.
Proof.
  unfold playerSize, statics. intros Hp. inversion Hp as [[H1 H2 H3]].
  cbn [W H canvasW canvasH cfg audioEnabled player set_player]. rewrite H1, H2, H3.
  reflexivity.
Qed.

Lemma updatePlayer_statics inp dt g :
  statics (_updatePlayer E inp dt g) = statics g
  /\ state (_updatePlayer E inp dt g) = state g.
Proof.
  rewrite updatePlayer_eq. split; [| reflexivity].
  apply statics_player.
  rewrite moveAndClamp_size, steer_size, rememberDirection_size, playerTimers_size.
  reflexivity.
Qed.

(** One [update]: the size and the configuration stay; the callback is
    called when the PLAY state is left for the OVER state, and the state
    changes in no other way. *)
Lemma update_post inp tid dt g :
  Leaves (fun r => statics (snd r) = statics g
                   /\ match fst r with
                      | Some _ => state g = PLAY /\ state (snd r) = OVER
                      | None => state (snd r) = state g /\ state g <> PLAY
                                \/ state (snd r) = PLAY /\ state g = PLAY
                      end)
         (update E inp tid dt g).
Proof.
  rewrite update_eq. destruct (State_eqb (state g) OVER) eqn:Ho.
  - apply Holds_ret. cbn [fst snd]. split; [reflexivity|]. left. split; [reflexivity|].
    intros Hp. rewrite Hp in Ho. discriminate.
  - apply Holds_bind. eapply Holds_weaken; [| apply (bgDrift_exact true)].
    intros [u g0] [ds Hg0]. cbn [fst snd] in *. subst g0. rewrite afterDrift_eq.
    change (state (set_bgDots ds g)) with (state g).
    destruct (state g) eqn:Hs; cbn [State_eqb negb]; try discriminate.
    + apply Holds_ret. cbn [fst snd]. split; [reflexivity|]. left.
      split; [exact Hs | discriminate].
    + apply Holds_bind.
      eapply Holds_weaken;
        [| apply (advance_keeps E (fun g => (statics g, state g)));
           intros; reflexivity].
      intros [u1 g1] Hk. cbn [fst snd] in *.
      destruct (updatePlayer_statics inp dt (tickTimers dt (set_bgDots ds g))) as [Hs1 Hs2].
      destruct (tickTimers_statics dt (set_bgDots ds g)) as [Hs3 Hs4].
      rewrite Hs1, Hs2, Hs3, Hs4 in Hk. apply pair_equal_spec in Hk.
      destruct Hk as [Hk1 Hk2].
      change (statics (set_bgDots ds g)) with (statics g) in Hk1.
      change (state (set_bgDots ds g)) with (state g) in Hk2.
      rewrite afterAdvance_eq. destruct (collides g1); apply Holds_ret; cbn [fst snd].
      * split; [exact Hk1|]. split; reflexivity.
      * rewrite (finish_keeps E statics) by (intros; reflexivity).
        rewrite (finish_keeps E state) by (intros; reflexivity).
        split; [exact Hk1|]. right. split; [congruence | reflexivity].
Qed.

Lemma handleAction_post inp name :
  Keeps true (fun g => (statics g, state g)) (handleAction E inp name).
Proof. unfold handleAction, _useSkill. keeps. Qed.

(** *** The live game and the replayed game side by side *)

Definition Twin (ml mr : Main) : Prop :=
  Rg (game ml) (game mr) /\ Aligned (world ml) (world mr) /\ trailId mr = trailId ml.

Lemma Rg_state g1 g2 : Rg g1 g2 -> state g2 = state g1.
Proof. intros (j & -> & _). reflexivity. Qed.

Lemma call_inv {A} (p : GameM A) m a m' :
  call p m = Ok (a, m') ->
  exists g w, run (p (game m)) (world m) = Done (a, g) w
              /\ m' = set_world w (set_game g m).
Proof.
  unfold call. destruct (run (p (game m)) (world m)) as [[a0 g0] w0 | e w0 | ];
    intros H0; inversion H0; subst. exists g0, w0. split; reflexivity.
Qed.

Lemma call_sim {A} (p1 p2 : GameM A) ml mr g1 w1 a :
  Twin ml mr -> Sim RG (p1 (game ml)) (p2 (game mr)) ->
  run (p1 (game ml)) (world ml) = Done (a, g1) w1 ->
  exists g2 w2, call p2 mr = Ok (a, set_world w2 (set_game g2 mr))
                /\ Rg g1 g2 /\ Aligned w1 w2.
Proof.
  intros (HR & Hal & Ht) Hsim Hrun.
  destruct (Hsim _ _ Hal _ _ Hrun) as ([a2 g2] & w2 & Hrun2 & [Ha HR2] & Hal2).
  cbn [fst snd] in *. subst a2. exists g2, w2. unfold call. rewrite Hrun2.
  split; [reflexivity|]. split; assumption.
Qed.

(** The actions of a tick, live and replayed. *)
Lemma actions_sim : forall actions ml mr inp ml',
  Twin ml mr -> getMove inp = getMove (theInput ml) ->
  applyActionsLive E actions ml = Ok ml' ->
  exists inp' mr',
    applyActionsReplay E actions inp mr = Ok (inp', mr')
    /\ Twin ml' mr' /\ getMove inp' = getMove (theInput ml')
    /\ keys ml' = keys ml /\ activeRun ml' = activeRun ml /\ acc ml' = acc ml
    /\ replayDriving ml' = replayDriving ml /\ trailId ml' = trailId ml
    /\ statics (game ml') = statics (game ml) /\ state (game ml') = state (game ml).
Proof.
  induction actions as [|a rest IH]; intros ml mr inp ml' HT Hm Hlive;
    cbn [applyActionsLive applyActionsReplay] in *.
  - inversion Hlive; subst. exists inp, mr. split; [reflexivity|]. split; [exact HT|].
    repeat split; auto.
  - set (c := mkCursor (cur_x (a_cursor a)) (cur_y (a_cursor a)) (cur_has (a_cursor a))) in *.
    set (m1 := set_cursor c ml) in *.
    destruct (call (handleAction E (theInput m1) (a_id a)) m1) as [[u m2] | e | ] eqn:Hc;
      cbn [andThen snd] in Hlive; try discriminate.
    destruct (call_inv _ _ _ _ Hc) as (g1 & w1 & Hrun & Hm2).
    assert (HT1 : Twin m1 mr) by exact HT.
    assert (Hsim : Sim RG (handleAction E (theInput m1) (a_id a) (game m1))
                          (handleAction E (setCursor c inp) (a_id a) (game mr))).
    { apply handleAction_sim.
      - transitivity (getMove inp); [destruct inp; reflexivity | exact Hm].
      - destruct inp; reflexivity.
      - apply HT. }
    destruct (call_sim _ _ m1 mr g1 w1 u HT1 Hsim Hrun) as (g2 & w2 & Hc2 & HR & Hal).
    rewrite Hc2. cbn [andThen snd].
    pose proof (Holds_run _ _ _ (handleAction_post (theInput m1) (a_id a) (game m1))
                          _ _ _ Hrun) as Hpost.
    cbn [snd] in Hpost. apply pair_equal_spec in Hpost. destruct Hpost as [Hst Hsta].
    destruct (IH m2 (set_world w2 (set_game g2 mr)) (setCursor c inp) ml') as
      (inp' & mr' & Hrep & HT' & Hm' & Hk & Har & Hacc & Hrd & Htid & Hs' & Hs'').
    + subst m2. split; [exact HR|]. split; [exact Hal|]. apply HT.
    + subst m2. transitivity (getMove inp); [destruct inp; reflexivity | exact Hm].
    + exact Hlive.
    + exists inp', mr'. split; [exact Hrep|]. split; [exact HT'|].
      subst m2 m1. cbn [keys activeRun acc replayDriving trailId game
        set_world set_game set_cursor] in *.
      repeat split; congruence.
Qed.

Lemma onGameOver_fields m :
  game (onGameOver m) = game m /\ world (onGameOver m) = world m
  /\ trailId (onGameOver m) = trailId m /\ keys (onGameOver m) = keys m
  /\ cursor (onGameOver m) = cursor m /\ acc (onGameOver m) = acc m
  /\ replayDriving (onGameOver m) = replayDriving m.
Proof. unfold onGameOver. destruct (activeRun m); repeat split. Qed.

Lemma Twin_onGameOver ml mr : Twin ml mr -> Twin (onGameOver ml) (onGameOver mr).
Proof.
  unfold Twin.
  destruct (onGameOver_fields ml) as (-> & -> & -> & _).
  destruct (onGameOver_fields mr) as (-> & -> & -> & _). auto.
Qed.

(** One [update] with its callback, live and replayed, in the PLAY state. *)
Lemma stepGame_play inp1 inp2 ml mr ml' :
  Twin ml mr -> getMove inp2 = getMove inp1 -> state (game ml) = PLAY ->
  stepGame E inp1 ml = Ok ml' ->
  exists mr',
    stepGame E inp2 mr = Ok mr' /\ Twin ml' mr'
    /\ statics (game ml') = statics (game ml)
    /\ keys ml' = keys ml /\ cursor ml' = cursor ml /\ acc ml' = acc ml
    /\ replayDriving ml' = replayDriving ml /\ trailId ml' = trailId ml
    /\ (state (game ml') = PLAY /\ activeRun ml' = activeRun ml
        \/ state (game ml') = OVER /\ activeRun ml' = activeRun (onGameOver ml)).
Proof.
  intros HT Hm Hplay Hlive. unfold stepGame in Hlive.
  destruct (call (update E inp1 (trailId ml) SIM_DT) ml) as [[o m1] | e | ] eqn:Hc;
    cbn [andThen fst snd] in Hlive; try discriminate.
  destruct (call_inv _ _ _ _ Hc) as (g1 & w1 & Hrun & Hm1).
  assert (Hsim : Sim RG (update E inp1 (trailId ml) SIM_DT (game ml))
                        (update E inp2 (trailId mr) SIM_DT (game mr))).
  { destruct HT as (HR & _ & ->). rewrite (update_input E inp1 inp2 (trailId ml) SIM_DT Hm).
    apply update_sim. exact HR. }
  destruct (call_sim _ _ ml mr g1 w1 o HT Hsim Hrun) as (g2 & w2 & Hc2 & HR & Hal).
  unfold stepGame. rewrite Hc2. cbn [andThen fst snd].
  pose proof (Holds_run _ _ _ (update_post inp1 (trailId ml) SIM_DT (game ml)) _ _ _ Hrun)
    as [Hst Hcase].
  cbn [fst snd] in Hst, Hcase.
  assert (HT1 : Twin m1 (set_world w2 (set_game g2 mr))).
  { subst m1. split; [exact HR|]. split; [exact Hal|]. apply HT. }
  destruct o as [sc|].
  - inversion Hlive; subst ml'. eexists. split; [reflexivity|].
    split; [apply Twin_onGameOver; exact HT1|].
    destruct (onGameOver_fields m1) as (-> & _ & -> & -> & -> & -> & ->).
    subst m1. cbn [game keys cursor acc replayDriving trailId set_world set_game].
    repeat split; try assumption.
    right. split; [apply Hcase|].
    unfold onGameOver. cbn [activeRun set_world set_game].
    destruct (activeRun ml); reflexivity.
  - inversion Hlive; subst ml'. eexists. split; [reflexivity|].
    split; [exact HT1|].
    subst m1. cbn [game keys cursor acc replayDriving trailId activeRun set_world set_game].
    repeat split; try assumption.
    left. destruct Hcase as [[_ Hn] | [Hp _]]; [contradiction|]. split; [exact Hp | reflexivity].
Qed.

Lemma main_eta m : set_world (world m) (set_game (game m) m) = m.
Proof. destruct m. reflexivity. Qed.

Lemma stepGame_over inp m : state (game m) = OVER -> stepGame E inp m = Ok m.
Proof.
  intros Ho. unfold stepGame, call. rewrite update_over by exact Ho.
  cbn [run andThen fst snd]. rewrite main_eta. reflexivity.
Qed.

Lemma State_eqb_eq a b : State_eqb a b = true <-> a = b.
Proof. destruct a, b; cbn; split; intros H0; try reflexivity; discriminate. Qed.

(** The replay loop after one more tick. *)
Lemma replayLoop_snoc tk inp1 mr1 mr' : forall tks inp m0 mr tr,
  replayLoop E tks inp m0 = Ok (mr, tr) ->
  Forall (fun g => state g <> OVER) tr ->
  applyActionsReplay E (t_actions tk)
    (ReplayInput (t_move tk)
       (mkCursor (cur_x (t_cursor tk)) (cur_y (t_cursor tk)) (cur_has (t_cursor tk))))
    mr = Ok (inp1, mr1) ->
  stepGame E inp1 mr1 = Ok mr' ->
  replayLoop E (tks ++ [tk]) inp m0 = Ok (mr', (tr ++ [game mr'])%list).
Proof.
  induction tks as [|tk0 rest IH]; intros inp m0 mr tr Hrep Hall Hact Hstep.
  - cbn [replayLoop] in Hrep. inversion Hrep; subst.
    cbn [app replayLoop]. rewrite Hact. cbn [andThen]. rewrite Hstep. cbn [andThen].
    destruct (State_eqb (state (game mr')) OVER); reflexivity.
  - cbn [app replayLoop] in *.
    destruct (applyActionsReplay E (t_actions tk0) _ m0) as [[inpa ma] | e | ];
      cbn [andThen] in *; try discriminate.
    destruct (stepGame E inpa ma) as [mb | e | ]; cbn [andThen] in *; try discriminate.
    destruct (State_eqb (state (game mb)) OVER) eqn:Ho.
    + inversion Hrep; subst. inversion Hall; subst.
      apply State_eqb_eq in Ho. contradiction.
    + destruct (replayLoop E rest inpa mb) as [[mc trc] | e | ] eqn:Hrest;
        cbn [andThen fst snd] in *; try discriminate.
      inversion Hrep; subst. inversion Hall; subst.
      rewrite (IH inpa mb mr trc Hrest) by assumption.
      reflexivity.
Qed.

End Session.
End SessionFacts.

(** ** The live session against the replay loop *)

Module LiveFacts.
Import Util UtilFacts Sim SimFacts Input Game TreeFacts SkillFacts OrbFacts OverFacts
       FrameFacts PlayerFacts DashFacts JunkFacts ReplayFacts Main SessionFacts.
Local Open Scope Q_scope.
Local Open Scope string_scope.

Definition replayInput : InputObj := ReplayInput (mkMove 0 0) (mkCursor 0 0 false).

Section Live.
Variable E : Engine.
Variable seed0 : Rng.Seed.
Variable s0 : Q * Q * Q * Q * Config * bool * Q * Q * Q.
Variable tid : string.
Variable mr0 : Main.

(** The live session so far against the replay loop run from [mr0] over
    the ticks recorded so far; [pre] lists the live game after each of
    them. *)
Definition LiveInv (pre : list Game) (m : Main) : Prop :=
  exists r mr tr,
    activeRun m = Some r /\ seed r = seed0 /\ statics (game m) = s0 /\ trailId m = tid
    /\ replayLoop E (ticks r) replayInput mr0 = Ok (mr, tr)
    /\ Twin m mr /\ Forall2 Rg pre tr /\ List.length tr = List.length (ticks r)
    /\ (state (game m) = PLAY /\ ended r = false
        /\ Forall (fun g => state g <> OVER) tr
        \/ state (game m) = OVER /\ ticks r <> []).

Lemma liveTick_inv pre m m' stop snap :
  LiveInv pre m -> liveTick E m = Ok (m', stop, snap) -> LiveInv (pre ++ snap) m'.
Proof.
  intros (r & mr & tr & Har & Hseed & Hst & Htid & Hrep & HT & HF & Hlen & Hcase) Hlive.
  unfold liveTick in Hlive. rewrite Har in Hlive.
  destruct Hcase as [(Hplay & Hend & Hall) | (Hover & Hne)].
  - rewrite Hplay in Hlive. cbn [State_eqb] in Hlive. cbv zeta in Hlive.
    set (tk := mkTick (getMove (theInput m))
                      (mkCursor (cur_x (cursor m)) (cur_y (cursor m)) (cur_has (cursor m)))
                      (pendingActions r)) in *.
    set (ra := mkRun (seed r) (ticks r ++ [tk]) [] (ended r) (rngTape r)) in *.
    set (ma := set_activeRun (Some ra) m) in *.
    destruct (applyActionsLive E (pendingActions r) ma) as [mb | e | ] eqn:Hact;
      cbn [andThen] in Hlive; try discriminate.
    destruct (actions_sim E (pendingActions r) ma mr
                (ReplayInput (t_move tk)
                   (mkCursor (cur_x (t_cursor tk)) (cur_y (t_cursor tk))
                             (cur_has (t_cursor tk)))) mb)
      as (inp1 & mr1 & Hact2 & HT1 & Hm1 & Hk1 & Har1 & Hacc1 & Hrd1 & Htid1 & Hst1 & Hsta1);
      [exact HT | reflexivity | exact Hact |].
    destruct (stepGame E (theInput mb) mb) as [mc | e | ] eqn:Hstep;
      cbn [andThen] in Hlive; try discriminate.
    destruct (stepGame_play E (theInput mb) inp1 mb mr1 mc HT1 Hm1)
      as (mr' & Hstep2 & HT2 & Hst2 & Hk2 & Hcur2 & Hacc2 & Hrd2 & Htid2 & Hcase2);
      [rewrite Hsta1; exact Hplay | exact Hstep |].
    pose proof (replayLoop_snoc E tk inp1 mr1 mr' (ticks r) replayInput mr0 mr tr
                  Hrep Hall Hact2 Hstep2) as Hrep'.
    cbn [game set_acc activeRun] in Hlive.
    assert (HF' : Forall2 Rg (pre ++ [game mc]) (tr ++ [game mr'])).
    { apply Forall2_app; [exact HF|]. constructor; [apply HT2 | constructor]. }
    assert (Hlen' : List.length (tr ++ [game mr']) = List.length (ticks r ++ [tk])).
    { rewrite !length_app, Hlen. reflexivity. }
    assert (Hs' : statics (game mc) = s0).
    { rewrite Hst2, Hst1. exact Hst. }
    assert (Ht' : trailId mc = tid).
    { rewrite Htid2, Htid1. exact Htid. }
    destruct Hcase2 as [[Hp2 Har2] | [Ho2 Har2]].
    + rewrite Hp2 in Hlive. cbn [State_eqb] in Hlive. inversion Hlive; subst m' stop snap.
      exists ra, mr', (tr ++ [game mr'])%list.
      cbn [activeRun game trailId set_acc].
      split; [rewrite Har2, Har1; reflexivity|].
      split; [exact Hseed|]. split; [exact Hs'|]. split; [exact Ht'|].
      split; [exact Hrep'|].
      split; [exact HT2|]. split; [exact HF'|]. split; [exact Hlen'|].
      left. split; [exact Hp2|]. split; [exact Hend|].
      apply Forall_app. split; [exact Hall|]. constructor; [| constructor].
      rewrite (Rg_state _ _ (proj1 HT2)), Hp2. discriminate.
    + rewrite Ho2 in Hlive. cbn [State_eqb] in Hlive.
      rewrite Har2 in Hlive. unfold onGameOver in Hlive. rewrite Har1 in Hlive.
      cbn [activeRun set_activeRun] in Hlive.
      inversion Hlive; subst m' stop snap.
      eexists. exists mr', (tr ++ [game mr'])%list.
      cbn [activeRun game trailId set_acc set_activeRun].
      split; [reflexivity|]. cbn [seed ticks ended].
      split; [exact Hseed|]. split; [exact Hs'|]. split; [exact Ht'|].
      split; [exact Hrep'|].
      split; [exact HT2|]. split; [exact HF'|]. split; [exact Hlen'|].
      right. split; [exact Ho2|]. destruct (ticks r); discriminate.
  - rewrite Hover in Hlive. cbn [State_eqb andThen] in Hlive.
    rewrite stepGame_over in Hlive by exact Hover. cbn [andThen] in Hlive.
    cbv zeta in Hlive. cbn [game set_acc activeRun] in Hlive.
    rewrite Hover, Har in Hlive. cbn [State_eqb] in Hlive.
    inversion Hlive; subst m' stop snap. rewrite app_nil_r.
    eexists. exists mr, tr.
    cbn [activeRun game trailId set_acc set_activeRun].
    split; [reflexivity|]. cbn [seed ticks ended].
    split; [exact Hseed|]. split; [exact Hst|]. split; [exact Htid|].
    split; [exact Hrep|]. split; [exact HT|]. split; [exact HF|]. split; [exact Hlen|].
    right. split; assumption.
Qed.

(** The invariant looks at the game, the world, the run and the trail. *)
Lemma LiveInv_same pre m m' :
  game m' = game m -> world m' = world m -> trailId m' = trailId m ->
  (forall r, activeRun m = Some r ->
     exists r', activeRun m' = Some r' /\ seed r' = seed r /\ ticks r' = ticks r
                /\ ended r' = ended r) ->
  LiveInv pre m -> LiveInv pre m'.
Proof.
  intros Hg Hw Ht Hr
         (r & mr & tr & Har & Hseed & Hst & Htid & Hrep & HT & HF & Hlen & Hcase).
  destruct (Hr r Har) as (r' & Har' & Hs' & Ht' & He').
  exists r', mr, tr. unfold Twin. rewrite Hg, Hw, Ht, Hs', Ht', He'.
  repeat split; try assumption; apply HT.
Qed.

Lemma tickLoop_inv : forall n pre m m' snap,
  LiveInv pre m -> tickLoop E n m = Ok (m', snap) -> LiveInv (pre ++ snap) m'.
Proof.
  induction n as [|n IH]; intros pre m m' snap Hinv Hloop; cbn [tickLoop] in Hloop.
  - inversion Hloop; subst. rewrite app_nil_r. exact Hinv.
  - destruct (leb SIM_DT (acc m)).
    + destruct (liveTick E m) as [[[m1 stop] snap1] | e | ] eqn:Htick;
        cbn [andThen] in Hloop; try discriminate.
      pose proof (liveTick_inv pre m m1 stop snap1 Hinv Htick) as Hinv1.
      destruct stop.
      * inversion Hloop; subst. exact Hinv1.
      * destruct (tickLoop E n m1) as [[m2 snap2] | e | ] eqn:Hrest;
          cbn [andThen fst snd] in Hloop; try discriminate.
        inversion Hloop; subst. rewrite app_assoc. eapply IH; eassumption.
    + inversion Hloop; subst. rewrite app_nil_r. exact Hinv.
Qed.

Lemma frame_inv pre ts m m' snap :
  LiveInv pre m -> frame E ts m = Ok (m', snap) -> LiveInv (pre ++ snap) m'.
Proof.
  intros Hinv Hframe. unfold frame in Hframe. cbv zeta in Hframe.
  cbn [replayDriving set_lastTs] in Hframe.
  destruct (negb (replayDriving m)).
  - eapply tickLoop_inv; [| exact Hframe].
    eapply LiveInv_same; [ | | | | exact Hinv]; try reflexivity.
    intros r Hr. exists r. cbn [activeRun set_acc set_lastTs]. auto.
  - inversion Hframe; subst. rewrite app_nil_r.
    eapply LiveInv_same; [ | | | | exact Hinv]; try reflexivity.
    intros r Hr. exists r. cbn [activeRun set_lastTs]. auto.
Qed.

Lemma handleEvent_inv pre e m : LiveInv pre m -> LiveInv pre (handleEvent e m).
Proof.
  intros Hinv. destruct e as [c down | x y | a]; cbn [handleEvent].
  - eapply LiveInv_same; [ | | | | exact Hinv]; try reflexivity.
    intros r Hr. exists r. cbn [activeRun set_keys]. auto.
  - eapply LiveInv_same; [ | | | | exact Hinv]; try reflexivity.
    intros r Hr. exists r. cbn [activeRun set_cursor]. auto.
  - unfold onAction. destruct (activeRun m) as [r|] eqn:Har; [| exact Hinv].
    destruct (State_eqb (state (game m)) PLAY); [| exact Hinv].
    eapply LiveInv_same; [ | | | | exact Hinv]; try reflexivity.
    intros r0 Hr0. rewrite Har in Hr0. inversion Hr0; subst r0.
    eexists. cbn [activeRun set_activeRun]. split; [reflexivity|].
    cbn [seed ticks ended]. auto.
Qed.

Lemma session_inv : forall steps pre m m' live,
  LiveInv pre m -> session E steps m = Ok (m', live) -> LiveInv (pre ++ live) m'.
Proof.
  induction steps as [|st rest IH]; intros pre m m' live Hinv Hs; cbn [session] in Hs.
  - inversion Hs; subst. rewrite app_nil_r. exact Hinv.
  - destruct st as [e | ts].
    + eapply IH; [| exact Hs]. apply handleEvent_inv. exact Hinv.
    + destruct (frame E ts m) as [[m1 snap1] | e | ] eqn:Hf;
        cbn [andThen fst snd] in Hs; try discriminate.
      destruct (session E rest m1) as [[m2 snap2] | e | ] eqn:Hr;
        cbn [andThen fst snd] in Hs; try discriminate.
      inversion Hs; subst. rewrite app_assoc.
      eapply IH; [| exact Hr]. eapply frame_inv; eassumption.
Qed.

End Live.

(** *** From [startGame] to [playReplay] *)

Lemma startRun_kept g :
  Post (fun r => statics (snd r) = statics g /\ state (snd r) = PLAY) (startRun g).
Proof. unfold startRun, _resetRun. exec. cbn. split; reflexivity. Qed.

Lemma startGame_inv seedStr m0 m1 :
  startGame seedStr m0 = Ok m1 ->
  exists w0 tape g1 w1,
    run (startRun (game m0)) w0 = Done (tt, g1) w1
    /\ source w0 = SrcRecorder (Rng.createSeededRand seedStr) tape 0
    /\ game m1 = g1 /\ world m1 = w1
    /\ activeRun m1 = Some (mkRun seedStr [] [] false tape)
    /\ trailId m1 = trailId m0.
Proof.
  unfold startGame. cbv zeta. destruct (newTape (world (set_keys noKeys m0))) as [tape w].
  match goal with
  | |- andThen (call startRun ?m) _ = _ -> _ =>
      destruct (call startRun m) as [[u ma] | e | ] eqn:Hc; cbn [andThen snd];
      try discriminate
  end.
  intros Hm. inversion Hm; subst ma.
  destruct (call_inv _ _ _ _ Hc) as (g1 & w1 & Hrun & Hm1).
  destruct u. cbn [game world set_game set_world set_acc set_activeRun set_keys] in Hrun.
  eexists. exists tape, g1, w1. split; [exact Hrun|].
  subst m1. repeat split.
Qed.

Section Capture.
Variable E : Engine.

(** The live session against the replay that [startRun] begins in [mrs]:
    a state with the size and configuration of the live game, the
    generator of the seed installed, and the same trail. *)
Lemma live_against seedStr m0 m1 steps m2 live mrs :
  startGame seedStr m0 = Ok m1 ->
  session E steps m1 = Ok (m2, live) ->
  statics (game mrs) = statics (game m0) ->
  source (world mrs) = SrcSeeded (Rng.createSeededRand seedStr) ->
  trailId mrs = trailId m0 ->
  exists mr0,
    call startRun mrs = Ok (tt, mr0)
    /\ LiveInv E seedStr (statics (game m0)) (trailId m0) mr0 live m2.
Proof.
  intros Hstart Hsess Hst Hsrc Htid.
  destruct (startGame_inv _ _ _ Hstart)
    as (w0 & tape & g1 & w1 & Hrun0 & Hsrc0 & Hg1 & Hw1 & Har1 & Htid1).
  destruct (Holds_run _ _ _ (Post_Leaves _ _ (startRun_kept (game m0))) _ _ _ Hrun0)
    as [Hst1 Hplay1].
  cbn [snd] in Hst1, Hplay1.
  assert (Hal : Aligned w0 (world mrs)).
  { unfold Aligned. rewrite Hsrc0, Hsrc. reflexivity. }
  destruct (startRun_sim (game m0) (game mrs) Hst _ _ Hal _ _ Hrun0)
    as ([u2 g2] & w2 & Hrun2 & [_ HR] & Hal2).
  cbn [fst snd] in HR. destruct u2.
  exists (set_world w2 (set_game g2 mrs)). split.
  { unfold call. rewrite Hrun2. reflexivity. }
  apply (session_inv E seedStr (statics (game m0)) (trailId m0) _ steps [] m1 m2 live);
    [| exact Hsess].
  exists (mkRun seedStr [] [] false tape), (set_world w2 (set_game g2 mrs)), [].
  split; [exact Har1|]. split; [reflexivity|].
  split; [rewrite Hg1; exact Hst1|]. split; [exact Htid1|].
  split; [reflexivity|].
  split.
  { split; [rewrite Hg1; exact HR|]. split; [rewrite Hw1; exact Hal2|].
    cbn [trailId set_world set_game]. congruence. }
  split; [constructor|]. split; [reflexivity|].
  left. split; [rewrite Hg1; exact Hplay1|]. split; [reflexivity | constructor].
Qed.

End Capture.
End LiveFacts.

(** ** Replay determinism *)

Module CaptureFacts.
Import Util UtilFacts Sim SimFacts Input Game TreeFacts SkillFacts OrbFacts OverFacts
       FrameFacts PlayerFacts DashFacts JunkFacts ReplayFacts Main SessionFacts LiveFacts.
Local Open Scope Q_scope.
Local Open Scope string_scope.

(** The game as the simulation sees it: without the background dots,
    which are drawn and moved with [Math.random] but never read by the
    simulation, and without the direction of the last dash once the dash
    is over, which is written again before it is read. *)
Definition simState (g : Game) : Game :=
  if ltb 0 (dashT (player g)) then set_bgDots [] g else inject ([], 0, 0) g.

(** What is on the field. *)
Definition entities (g : Game) : Q * Q * list Pipe * list Gate * list Orb :=
  (p_x (player g), p_y (player g), pipes g, gates g, orbs g).

Lemma Rg_simState g1 g2 : Rg g1 g2 -> simState g2 = simState g1.
Proof.
  intros (j & -> & Hg). unfold simState.
  change (dashT (player (inject j g1))) with (dashT (player g1)).
  destruct (ltb 0 (dashT (player g1))) eqn:Hd.
  - destruct (Hg Hd) as [Hx Hy]. destruct j as [[b vx] vy]. cbn [fst snd] in *.
    subst vx vy. rewrite inject_eta. reflexivity.
  - reflexivity.
Qed.

Lemma simState_fields g :
  entities (simState g) = entities g /\ score (simState g) = score g
  /\ state (simState g) = state g.
Proof. unfold simState. destruct (ltb 0 (dashT (player g))); repeat split. Qed.

Lemma Forall2_map {A B} (R : A -> A -> Prop) (f : A -> B) l1 l2 :
  (forall a b, R a b -> f b = f a) -> Forall2 R l1 l2 -> List.map f l2 = List.map f l1.
Proof.
  intros Hf H. induction H as [|a b l1 l2 Hab _ IH]; cbn [List.map].
  - reflexivity.
  - rewrite (Hf a b Hab), IH. reflexivity.
Qed.

Lemma Rg_entities g1 g2 : Rg g1 g2 -> entities g2 = entities g1.
Proof.
  intros HR. apply Rg_simState in HR.
  destruct (simState_fields g1) as (<- & _). destruct (simState_fields g2) as (<- & _).
  now rewrite HR.
Qed.

Lemma Rg_score g1 g2 : Rg g1 g2 -> score g2 = score g1.
Proof. intros (j & -> & _). reflexivity. Qed.

(** With the window, the configuration and the selected trail at the
    replay what they were during the run: a run started by [startGame]
    with a seed, played in any sequence of movement keys, pointer moves,
    skill actions and frames until the game is over, and then replayed by
    [playReplay]: the replay steps the simulation once per recorded tick
    and runs through all of them; after every tick the replayed game
    equals the live game after that tick in all the simulation reads - the
    positions of the player, pipes, gates and orbs and the score among
    it; the replay ends in the OVER state at the tick the live run ended
    at, with the live run's final score. *)
Lemma replay_reproduces_the_live_run E seedStr m0 m1 steps m2 live r :
  startGame seedStr m0 = Ok m1 ->
  session E steps m1 = Ok (m2, live) ->
  activeRun m2 = Some r -> ended r = true ->
  exists m3 replay,
    playReplay E m2 = Ok (m3, Some replay)
    /\ Forall2 (fun gl gr => simState gr = simState gl) live replay
    /\ List.map entities replay = List.map entities live
    /\ List.map score replay = List.map score live
    /\ List.length replay = List.length (ticks r)
    /\ state (game m2) = OVER /\ state (game m3) = OVER
    /\ score (game m3) = score (game m2).
Proof.
  intros Hstart Hsess Har Hend.
  (* the size, the configuration, the trail and the seed at the end *)
  destruct (live_against E seedStr m0 m1 steps m2 live
              (set_world (setRandSource (createSeededRand seedStr) (world m0)) m0)
              Hstart Hsess eq_refl eq_refl eq_refl)
    as (mrd & _ & (rd & _ & _ & Hard & Hseed & Hst & Htid & _)).
  rewrite Har in Hard. inversion Hard; subst rd. clear Hard.
  (* the replay as [playReplay] starts it *)
  set (m2a := set_world (setRandSource (createTapeRandPlayer (rngTape r)) (world m2)) m2).
  set (mrs := set_keys noKeys (set_acc 0
                (set_world (setRandSource (createSeededRand (seed r)) (world m2a))
                   (set_replayDriving true m2a)))).
  destruct (live_against E seedStr m0 m1 steps m2 live mrs Hstart Hsess)
    as (mr0 & Hcall & (r' & mr & tr & Har' & _ & _ & _ & Hrep & HT & HF & Hlen & Hcase)).
  { exact Hst. }
  { subst mrs m2a. cbn [world set_keys set_acc set_world source setRandSource].
    rewrite Hseed. reflexivity. }
  { exact Htid. }
  rewrite Har in Har'. inversion Har'; subst r'. clear Har'.
  destruct Hcase as [(_ & Hne & _) | (Hover & Hticks)]; [congruence|].
  exists (set_replayDriving false mr), tr.
  split.
  { unfold playReplay. rewrite Har, Hend. cbn [negb orb].
    destruct (ticks r) as [|tk0 rest] eqn:Htk; [contradiction|].
    cbn [List.length Nat.eqb]. cbv zeta.
    match goal with |- andThen (call startRun ?x) _ = _ => change x with mrs end.
    rewrite Hcall. cbn [andThen snd]. fold replayInput. rewrite Hrep.
    reflexivity. }
  split; [eapply Forall2_impl; [| exact HF]; intros a b; apply Rg_simState|].
  split; [apply (Forall2_map Rg entities); [apply Rg_entities | exact HF]|].
  split; [apply (Forall2_map Rg score); [apply Rg_score | exact HF]|].
  split; [exact Hlen|].
  split; [exact Hover|].
  destruct HT as (HR & _).
  split; [cbn [game set_replayDriving]; rewrite (Rg_state _ _ HR); exact Hover|].
  cbn [game set_replayDriving]. apply Rg_score. exact HR.
Qed.

Lemma replay_reproduces_the_live_run_witness :
  exists m3 replay,
    playReplay Ref.refMath Ref.capturedEnd = Ok (m3, Some replay)
    /\ Forall2 (fun gl gr => simState gr = simState gl) Ref.capturedTrace replay
    /\ List.map entities replay = List.map entities Ref.capturedTrace
    /\ List.map score replay = List.map score Ref.capturedTrace
    /\ List.length replay = List.length (ticks Ref.capturedRun)
    /\ state (game Ref.capturedEnd) = OVER /\ state (game m3) = OVER
    /\ score (game m3) = score (game Ref.capturedEnd).
Proof.
  apply (replay_reproduces_the_live_run Ref.refMath (Rng.codeUnits "x")
           (Ref.fastMain "classic") Ref.capturedStart Ref.capturedSteps
           Ref.capturedEnd Ref.capturedTrace Ref.capturedRun).
  - vm_compute. reflexivity.
  - vm_compute. reflexivity.
  - reflexivity.
  - reflexivity.
Defined.

(** The number of pipes on the field, read off [entities]. *)
Definition pipeCount (e : Q * Q * list Pipe * list Gate * list Orb) : nat :=
  List.length (snd (fst (fst e))).

(** C1.  A captured run whose replay does not reproduce it.  In a window
    of 160 by 160 pixels, with a spawn interval of 6 ms and pipes of 2400
    pixels a second, [startGame] with the seed "c" and the trail "classic"
    and one frame of 50 ms give a run of six ticks that ends with a hit
    at the sixth.  Replayed as it is, the run is reproduced.  Replayed
    after the trail "gothic" has been selected, the same six recorded
    ticks are stepped, but the trail particles, drawn from the seeded
    generator at the rate of the selected trail, take other values of the
    stream: after the second tick the field holds five pipes where the
    live run had four, and after the sixth tick the replayed game is
    still in the PLAY state, no pipe having hit the player. *)
Theorem replay_diverges_after_a_trail_change :
  exists m1 m2 live r,
    startGame (Rng.codeUnits "c") (Ref.busyMain "classic") = Ok m1
    /\ session Ref.refMath [Frame 50] m1 = Ok (m2, live)
    /\ activeRun m2 = Some r /\ ended r = true /\ List.length (ticks r) = 6%nat
    /\ List.map state live = [PLAY; PLAY; PLAY; PLAY; PLAY; OVER]
    /\ state (game m2) = OVER
    /\ (exists m3 same,
          playReplay Ref.refMath m2 = Ok (m3, Some same)
          /\ List.map entities same = List.map entities live
          /\ state (game m3) = OVER)
    /\ (exists m3 replay,
          playReplay Ref.refMath (Ref.pickTrail "gothic" m2) = Ok (m3, Some replay)
          /\ List.map state replay = [PLAY; PLAY; PLAY; PLAY; PLAY; PLAY]
          /\ state (game m3) = PLAY
          /\ List.map (fun g => List.length (pipes g)) live = [3; 4; 7; 8; 9; 11]%nat
          /\ List.map (fun g => List.length (pipes g)) replay = [3; 5; 7; 8; 9; 11]%nat
          /\ List.map entities replay <> List.map entities live).
Proof.
  assert (Hrun : exists m1 m2 live r,
             startGame (Rng.codeUnits "c") (Ref.busyMain "classic") = Ok m1
             /\ session Ref.refMath [Frame 50] m1 = Ok (m2, live)
             /\ activeRun m2 = Some r /\ ended r = true
             /\ List.length (ticks r) = 6%nat
             /\ List.map state live = [PLAY; PLAY; PLAY; PLAY; PLAY; OVER]
             /\ List.map (fun g => List.length (pipes g)) live = [3; 4; 7; 8; 9; 11]%nat
             /\ exists m3 replay,
                  playReplay Ref.refMath (Ref.pickTrail "gothic" m2)
                  = Ok (m3, Some replay)
                  /\ List.map state replay = [PLAY; PLAY; PLAY; PLAY; PLAY; PLAY]
                  /\ state (game m3) = PLAY
                  /\ List.map (fun g => List.length (pipes g)) replay
                     = [3; 5; 7; 8; 9; 11]%nat).
  { eexists. eexists. eexists. eexists.
    split; [vm_compute; reflexivity|]. split; [vm_compute; reflexivity|].
    split; [vm_compute; reflexivity|]. split; [reflexivity|].
    split; [reflexivity|]. split; [reflexivity|]. split; [reflexivity|].
    eexists. eexists.
    split; [vm_compute; reflexivity|]. split; [reflexivity|].
    split; reflexivity. }
  destruct Hrun as (m1 & m2 & live & r & Hstart & Hsess & Har & Hend & Hlen & Hst & Hpl
                    & m3 & replay & Hplay & Hsr & Hs3 & Hpr).
  destruct (replay_reproduces_the_live_run Ref.refMath _ _ _ _ _ _ _
              Hstart Hsess Har Hend)
    as (m3' & same & Hsame & _ & Hents & _ & _ & Hover & Hover' & _).
  exists m1, m2, live, r.
  split; [exact Hstart|]. split; [exact Hsess|]. split; [exact Har|].
  split; [exact Hend|]. split; [exact Hlen|]. split; [exact Hst|].
  split; [exact Hover|].
  split; [exists m3', same; auto|].
  exists m3, replay.
  split; [exact Hplay|]. split; [exact Hsr|]. split; [exact Hs3|].
  split; [exact Hpl|]. split; [exact Hpr|].
  intros Heq.
  assert (Hc : List.map pipeCount (List.map entities replay)
               = List.map pipeCount (List.map entities live))
    by (rewrite Heq; reflexivity).
  rewrite !List.map_map in Hc.
  change (fun x => pipeCount (entities x)) with (fun g : Game => List.length (pipes g)) in Hc.
  rewrite Hpl, Hpr in Hc. discriminate.
Qed.

End CaptureFacts.

(** ** The tape during playback *)

Module TapeFacts.
Import Util UtilFacts Sim SimFacts Input Game TreeFacts Main.
Local Open Scope Q_scope.
Local Open Scope string_scope.

(** A world whose source is a seeded generator, with the arrays of [w0]. *)
Definition seededOver (w0 w : World) : Prop :=
  (exists a, source w = SrcSeeded a) /\ tapes w = tapes w0.

Lemma run_seeded {A} (w0 : World) (p : Prog A) : forall w,
  seededOver w0 w ->
  match run p w with
  | Done _ w' => seededOver w0 w'
  | Thrown _ _ => False
  | Diverges => True
  end.
Proof.
  induction p as [a | k IH | k IH | ]; intros w [[a0 Hs] Ht]; cbn [run].
  - split; [exists a0; exact Hs | exact Ht].
  - unfold callSource. rewrite Hs. destruct (Rng.mulberry32 a0) as [a1 v].
    apply IH. split; [eexists; reflexivity | exact Ht].
  - unfold mathRandomCall. apply IH. split; [exists a0; exact Hs | exact Ht].
  - exact I.
Qed.

(** A result of the driver that did not throw, with a seeded generator
    installed if it returned. *)
Definition quiet {A} (w0 : World) (mainOf : A -> Main) (r : Result A) : Prop :=
  match r with
  | Ok a => seededOver w0 (world (mainOf a))
  | Throws _ => False
  | Hangs => True
  end.

Section Playback.
Variable E : Engine.
Variable w0 : World.

Lemma call_quiet {A} (p : GameM A) m :
  seededOver w0 (world m) -> quiet w0 snd (call p m).
Proof.
  intros Hs. unfold call. pose proof (run_seeded w0 (p (game m)) (world m) Hs) as Hr.
  destruct (run (p (game m)) (world m)) as [r w | e w | ]; [exact Hr | exact Hr | exact I].
Qed.

Lemma onGameOver_world m : world (onGameOver m) = world m.
Proof. unfold onGameOver. destruct (activeRun m); reflexivity. Qed.

Lemma stepGame_quiet inp m :
  seededOver w0 (world m) -> quiet w0 (fun m' => m') (stepGame E inp m).
Proof.
  intros Hs. unfold stepGame.
  pose proof (call_quiet (update E inp (trailId m) SIM_DT) m Hs) as Hc.
  destruct (call (update E inp (trailId m) SIM_DT) m) as [[o m1] | e | ];
    cbn [andThen quiet fst snd] in *; [| exact Hc | exact I].
  destruct o; cbn [quiet]; [rewrite onGameOver_world|]; exact Hc.
Qed.

Lemma applyActionsReplay_quiet : forall actions inp m,
  seededOver w0 (world m) -> quiet w0 snd (applyActionsReplay E actions inp m).
Proof.
  induction actions as [|a rest IH]; intros inp m Hs; cbn [applyActionsReplay].
  - exact Hs.
  - match goal with
    | |- quiet _ _ (andThen (call ?p m) _) =>
        pose proof (call_quiet p m Hs) as Hc; destruct (call p m) as [[u m1] | e | ]
    end; cbn [andThen quiet snd] in *; [| exact Hc | exact I].
    apply IH. exact Hc.
Qed.

Lemma replayLoop_quiet : forall tks inp m,
  seededOver w0 (world m) -> quiet w0 fst (replayLoop E tks inp m).
Proof.
  induction tks as [|tk rest IH]; intros inp m Hs; cbn [replayLoop].
  - exact Hs.
  - match goal with
    | |- quiet _ _ (andThen (applyActionsReplay E ?acts ?i m) _) =>
        pose proof (applyActionsReplay_quiet acts i m Hs) as Ha;
        destruct (applyActionsReplay E acts i m) as [[inp1 m1] | e | ]
    end; cbn [andThen quiet snd] in *; [| exact Ha | exact I].
    pose proof (stepGame_quiet inp1 m1 Ha) as Hstep.
    destruct (stepGame E inp1 m1) as [m2 | e | ]; cbn [andThen quiet] in *;
      [| exact Hstep | exact I].
    destruct (State_eqb (state (game m2)) OVER); cbn [quiet fst]; [exact Hstep|].
    pose proof (IH inp1 m2 Hstep) as Hrest.
    destruct (replayLoop E rest inp1 m2) as [[m3 tr] | e | ]; cbn [andThen quiet fst] in *;
      [exact Hrest | exact Hrest | exact I].
Qed.

End Playback.

(** C2.  What [playReplay] does with the tape.  Where it plays a run back,
    it does not throw: it returns (or the spawn loop never ends) with a
    seeded generator installed, not a tape player, and with every tape
    array as it was; the only error it can throw is the [TypeError] of a
    missing run, and the tape underrun is not among its outcomes.  The
    captured run of the reference states, whose tape holds 78 values,
    played back with the "gothic" trail selected, draws 86 values and
    returns normally with the generator of the seed in the state after 86
    calls. *)
Theorem playback_draws_from_the_generator_not_the_tape :
  (forall E m,
     match playReplay E m with
     | Ok (m', Some _) =>
         (exists a, source (world m') = SrcSeeded a) /\ tapes (world m') = tapes (world m)
     | Ok (m', None) => True
     | Throws e => e = TypeError /\ activeRun m = None
     | Hangs => True
     end)
  /\ List.length (tapeAt (world Ref.capturedEnd) (rngTape Ref.capturedRun)) = 78%nat
  /\ (exists m' tr,
        playReplay Ref.refMath (Ref.pickTrail "gothic" Ref.capturedEnd) = Ok (m', Some tr)
        /\ state (game m') = OVER
        /\ source (world m')
           = SrcSeeded (Rng.stateAfter (Rng.createSeededRand (Rng.codeUnits "x")) 86)).
Proof.
  split; [| split].
  - intros E m. unfold playReplay. destruct (activeRun m) as [r|] eqn:Har.
    2:{ split; reflexivity. }
    cbv zeta. destruct (negb (ended r) || (List.length (ticks r) =? 0)%nat); [exact I|].
    match goal with
    | |- match andThen (call startRun ?ms) _ with _ => _ end =>
        assert (Hs : seededOver (world m) (world ms));
        [ split; [eexists; reflexivity | reflexivity]
        | pose proof (call_quiet (world m) startRun ms Hs) as Hc;
          destruct (call startRun ms) as [[u m1] | e | ] ]
    end; cbn [andThen quiet snd] in *; [| contradiction | exact I].
    match goal with
    | |- match andThen (replayLoop E ?tks ?i m1) _ with _ => _ end =>
        pose proof (replayLoop_quiet E (world m) tks i m1 Hc) as Hr;
        destruct (replayLoop E tks i m1) as [[m2 tr] | e | ]
    end; cbn [andThen quiet fst snd] in *; [| contradiction | exact I].
    exact Hr.
  - vm_compute. reflexivity.
  - eexists. eexists. split; [vm_compute; reflexivity|]. split; vm_compute; reflexivity.
Qed.

End TapeFacts.

(** ** util.js: clamping, approaching, overlap tests *)

Module GeometryFacts.
Import Util UtilFacts.
Local Open Scope Q_scope.

Lemma clamp_cases w a b :
  a <= clamp w a b
  /\ (a <= b -> clamp w a b <= b)
  /\ (a <= w -> w <= b -> clamp w a b == w)
  /\ (w <= a -> clamp w a b == a)
  /\ (a <= b -> b <= w -> clamp w a b == b)
  /\ (b < a -> clamp w a b == a).
Proof.
  unfold clamp.
  destruct (Q.min_spec b w) as [[H1 H2] | [H1 H2]];
    destruct (Q.max_spec a (Qmin b w)) as [[H3 H4] | [H3 H4]];
    rewrite H4; rewrite ?H2 in *; repeat split; intros; lra.
Qed.

(** [clamp(v, a, b)] with its bounds in order returns the point of
    [a, b] nearest to [v]; with the bounds out of order it returns [a]. *)
Theorem clamp_contract v a b :
  a <= clamp v a b
  /\ (a <= b -> clamp v a b <= b)
  /\ (a <= v -> v <= b -> clamp v a b == v)
  /\ (v <= a -> clamp v a b == a)
  /\ (a <= b -> b <= v -> clamp v a b == b)
  /\ (b < a -> clamp v a b == a)
  /\ (a <= b -> clamp (clamp v a b) a b == clamp v a b).
Proof.
  destruct (clamp_cases v a b) as (H1 & H2 & H3 & H4 & H5 & H6).
  repeat split; try assumption.
  intros Hab. destruct (clamp_cases (clamp v a b) a b) as (_ & _ & H3' & _).
  apply H3'; auto.
Qed.

Lemma Qabs_cases x : (0 <= x /\ Qabs x == x) \/ (x < 0 /\ Qabs x == - x).
Proof.
  destruct (Qlt_le_dec x 0) as [Hn | Hp].
  - right. split; [exact Hn|]. apply Qabs_neg. lra.
  - left. split; [exact Hp|]. apply Qabs_pos. exact Hp.
Qed.

Lemma sign_cases d :
  (0 < d /\ sign d = 1) \/ (d < 0 /\ sign d = -1) \/ (d == 0 /\ sign d = 0).
Proof.
  unfold sign. destruct (ltb 0 d) eqn:H1.
  - left. split; [apply ltb_lt; exact H1 | reflexivity].
  - apply ltb_ge in H1. destruct (ltb d 0) eqn:H2.
    + right. left. split; [apply ltb_lt; exact H2 | reflexivity].
    + apply ltb_ge in H2. right. right. split; [lra | reflexivity].
Qed.

(** [approach(cur, tgt, md)] with a step [md] that is not negative: the
    target is reached when it is at most [md] away, else the value moves
    by exactly [md] towards it and the distance shrinks by [md]. *)
Theorem approach_contract cur tgt md :
  0 <= md ->
  (Qabs (tgt - cur) <= md -> approach cur tgt md = tgt)
  /\ (md < Qabs (tgt - cur) ->
      Qabs (approach cur tgt md - cur) == md
      /\ Qabs (tgt - approach cur tgt md) == Qabs (tgt - cur) - md).
Proof.
  intros Hmd. unfold approach. cbv zeta. split.
  - intros Hle. apply leb_le in Hle. rewrite Hle. reflexivity.
  - intros Hlt. apply leb_gt in Hlt. rewrite Hlt. apply leb_gt in Hlt.
    destruct (sign_cases (tgt - cur)) as [[Hd Hs] | [[Hd Hs] | [Hd Hs]]]; rewrite Hs.
    + destruct (Qabs_cases (tgt - cur)) as [[H1 H2] | [H1 H2]]; [| lra].
      rewrite H2 in *. split.
      * setoid_replace (cur + 1 * md - cur) with md by ring. apply Qabs_pos. exact Hmd.
      * setoid_replace (tgt - (cur + 1 * md)) with (tgt - cur - md) by ring.
        apply Qabs_pos. lra.
    + destruct (Qabs_cases (tgt - cur)) as [[H1 H2] | [H1 H2]]; [lra |].
      rewrite H2 in *. split.
      * setoid_replace (cur + -1 * md - cur) with (- md) by ring.
        rewrite Qabs_opp. apply Qabs_pos. exact Hmd.
      * setoid_replace (tgt - (cur + -1 * md)) with (- (- (tgt - cur) - md)) by ring.
        rewrite Qabs_opp. apply Qabs_pos. lra.
    + exfalso. rewrite Hd in Hlt. change (Qabs 0) with 0 in Hlt. lra.
Qed.

Lemma approach_contract_witness :
  (Qabs (10 - 0) <= 3 -> approach 0 10 3 = 10)
  /\ (3 < Qabs (10 - 0) ->
      Qabs (approach 0 10 3 - 0) == 3
      /\ Qabs (10 - approach 0 10 3) == Qabs (10 - 0) - 3).
Proof. apply (approach_contract 0 10 3). lra. Defined.

(** The clamped coordinate is the point of the interval nearest to the
    centre. *)
Lemma clamp_nearest c lo len q :
  0 <= len -> lo <= q -> q <= lo + len ->
  lo <= clamp c lo (lo + len) /\ clamp c lo (lo + len) <= lo + len
  /\ (c - clamp c lo (lo + len)) * (c - clamp c lo (lo + len)) <= (c - q) * (c - q).
Proof.
  intros Hlen Hlo Hhi.
  destruct (clamp_cases c lo (lo + len)) as (H1 & H2 & H3 & H4 & H5 & _).
  assert (Hord : lo <= lo + len) by lra.
  split; [exact H1|]. split; [apply H2; exact Hord|].
  destruct (Qlt_le_dec c lo) as [Hc | Hc].
  - rewrite (H4 ltac:(lra)).
    assert (Hp : 0 <= (q - lo) * (lo + q - 2 * c)) by (apply Qmult_le_0_compat; lra).
    lra.
  - destruct (Qlt_le_dec (lo + len) c) as [Hc' | Hc'].
    + rewrite (H5 Hord ltac:(lra)).
      assert (Hp : 0 <= (lo + len - q) * (2 * c - (lo + len) - q))
        by (apply Qmult_le_0_compat; lra).
      lra.
    + rewrite (H3 Hc Hc').
      assert (Hp : 0 <= (c - q) * (c - q)).
      { destruct (Qlt_le_dec (c - q) 0) as [Hn | Hn].
        - setoid_replace ((c - q) * (c - q)) with ((q - c) * (q - c)) by ring.
          apply Qmult_le_0_compat; lra.
        - apply Qmult_le_0_compat; lra. }
      lra.
Qed.

(** A hit is a hit of a point of the rectangle. *)
Lemma circleRect_hits cx cy r rx ry rw rh :
  0 <= rw -> 0 <= rh ->
  circleRect cx cy r rx ry rw rh = true ->
  exists qx qy,
    rx <= qx /\ qx <= rx + rw /\ ry <= qy /\ qy <= ry + rh
    /\ (cx - qx) * (cx - qx) + (cy - qy) * (cy - qy) <= r * r.
Proof.
  intros Hw Hh. unfold circleRect. cbv zeta. rewrite leb_le. intros Hd.
  destruct (clamp_nearest cx rx rw rx Hw ltac:(lra) ltac:(lra)) as (Hx1 & Hx2 & _).
  destruct (clamp_nearest cy ry rh ry Hh ltac:(lra) ltac:(lra)) as (Hy1 & Hy2 & _).
  exists (clamp cx rx (rx + rw)), (clamp cy ry (ry + rh)). auto.
Qed.

(** [circleRect] is exact: for a rectangle of width and height that are
    not negative it answers [true] exactly when some point of the
    rectangle lies within distance [r] of the centre of the circle. *)
Theorem circleRect_exact cx cy r rx ry rw rh :
  0 <= rw -> 0 <= rh ->
  (circleRect cx cy r rx ry rw rh = true <->
   exists qx qy,
     rx <= qx /\ qx <= rx + rw /\ ry <= qy /\ qy <= ry + rh
     /\ (cx - qx) * (cx - qx) + (cy - qy) * (cy - qy) <= r * r).
Proof.
  intros Hw Hh. unfold circleRect. cbv zeta. rewrite leb_le. split.
  - intros Hd.
    destruct (clamp_nearest cx rx rw rx Hw ltac:(lra) ltac:(lra)) as (Hx1 & Hx2 & _).
    destruct (clamp_nearest cy ry rh ry Hh ltac:(lra) ltac:(lra)) as (Hy1 & Hy2 & _).
    exists (clamp cx rx (rx + rw)), (clamp cy ry (ry + rh)). auto.
  - intros (qx & qy & Hx1 & Hx2 & Hy1 & Hy2 & Hd).
    destruct (clamp_nearest cx rx rw qx Hw Hx1 Hx2) as (_ & _ & Hx).
    destruct (clamp_nearest cy ry rh qy Hh Hy1 Hy2) as (_ & _ & Hy).
    lra.
Qed.

Lemma circleRect_exact_witness :
  circleRect 5 5 2 6 0 10 10 = true <->
  exists qx qy,
    6 <= qx /\ qx <= 6 + 10 /\ 0 <= qy /\ qy <= 0 + 10
    /\ (5 - qx) * (5 - qx) + (5 - qy) * (5 - qy) <= 2 * 2.
Proof. apply (circleRect_exact 5 5 2 6 0 10 10); lra. Defined.

(** *** The remainder and the hue *)

Lemma truncZ_nonneg x : 0 <= x -> truncZ x = Qfloor x.
Proof.
  destruct x as [n d]. unfold truncZ, Qfloor, Qle. cbn [Qnum Qden]. intros Hn.
  apply Z.quot_div_nonneg; lia.
Qed.

Lemma truncZ_opp x : truncZ (- x) = (- truncZ x)%Z.
Proof.
  destruct x as [n d]. unfold truncZ, Qopp. cbn [Qnum Qden].
  apply Z.quot_opp_l. discriminate.
Qed.

(** Truncation is within one of its argument, on the side of zero. *)
Lemma truncZ_bounds x :
  (0 <= x -> inject_Z (truncZ x) <= x /\ x < inject_Z (truncZ x) + 1)
  /\ (x <= 0 -> x <= inject_Z (truncZ x) /\ inject_Z (truncZ x) - 1 < x).
Proof.
  split; intros Hx.
  - rewrite truncZ_nonneg by exact Hx. split; [apply Qfloor_le|].
    pose proof (Qlt_floor x) as Hf. rewrite inject_Z_plus in Hf. exact Hf.
  - assert (Hn : 0 <= - x) by lra.
    pose proof (truncZ_opp x) as Ho.
    rewrite (truncZ_nonneg _ Hn) in Ho.
    pose proof (Qfloor_le (- x)) as H1. pose proof (Qlt_floor (- x)) as H2.
    rewrite inject_Z_plus in H2. rewrite Ho, inject_Z_opp in H1, H2.
    change (inject_Z 1) with 1 in H2. split; lra.
Qed.

(** [a % b] for a positive [b]: a value of the sign of [a], smaller than
    [b] in absolute value, that differs from [a] by a multiple of [b]. *)
Lemma rem_bounds a b :
  0 < b ->
  (0 <= a -> 0 <= rem a b /\ rem a b < b)
  /\ (a <= 0 -> - b < rem a b /\ rem a b <= 0).
Proof.
  intros Hb. unfold rem.
  assert (Ha : a == (a / b) * b) by (field; lra).
  destruct (truncZ_bounds (a / b)) as [Hp Hn].
  set (t := inject_Z (truncZ (a / b))) in *.
  split; intros Hs.
  - assert (Hq : 0 <= a / b).
    { apply Qle_shift_div_l; [exact Hb | lra]. }
    destruct (Hp Hq) as [H1 H2].
    assert (H3 : t * b <= (a / b) * b) by (apply Qmult_le_compat_r; lra).
    assert (H4 : (a / b) * b < (t + 1) * b) by (apply Qmult_lt_compat_r; lra).
    split; lra.
  - assert (Hq : a / b <= 0).
    { apply Qle_shift_div_r; [exact Hb | lra]. }
    destruct (Hn Hq) as [H1 H2].
    assert (H3 : (a / b) * b <= t * b) by (apply Qmult_le_compat_r; lra).
    assert (H4 : (t - 1) * b < (a / b) * b) by (apply Qmult_lt_compat_r; lra).
    split; lra.
Qed.

(** [hsla(h, s, l, a)]: the hue is brought into [0, 360) by a whole
    number of turns, saturation and lightness into 0..100, alpha into
    0..1. *)
Theorem hsla_in_range h s l a :
  exists h' s' l' a',
    Game.hsla h s l a = Game.Hsla h' s' l' a'
    /\ 0 <= h' /\ h' < 360
    /\ (exists k : Z, h' == h + 360 * inject_Z k)
    /\ 0 <= s' /\ s' <= 100 /\ 0 <= l' /\ l' <= 100 /\ 0 <= a' /\ a' <= 1.
Proof.
  unfold Game.hsla. eexists. eexists. eexists. eexists. split; [reflexivity|].
  assert (H360 : 0 < 360) by lra.
  destruct (rem_bounds h 360 H360) as [Hp Hn].
  assert (H1 : 0 <= rem h 360 + 360).
  { destruct (Qlt_le_dec h 0) as [Hh | Hh]; [destruct Hn | destruct Hp]; lra. }
  destruct (rem_bounds (rem h 360 + 360) 360 H360) as [Hp2 _].
  destruct (Hp2 H1) as [H2 H3].
  split; [exact H2|]. split; [exact H3|]. split.
  - exists (1 + - truncZ (h / 360) + - truncZ ((rem h 360 + 360) / 360))%Z.
    rewrite !inject_Z_plus, !inject_Z_opp. change (inject_Z 1) with 1.
    unfold rem at 1. unfold rem at 1. ring.
  - destruct (clamp_cases s 0 100) as (Hs1 & Hs2 & _).
    destruct (clamp_cases l 0 100) as (Hl1 & Hl2 & _).
    destruct (clamp_cases a 0 1) as (Ha1 & Ha2 & _).
    repeat split; try assumption; [apply Hs2 | apply Hl2 | apply Ha2]; lra.
Qed.

End GeometryFacts.

(** ** Difficulty, pacing and the spawn loop *)

Module PacingFacts.
Import Util UtilFacts Sim SimFacts Input Game TreeFacts OverFacts FrameFacts JunkFacts
       ReplayFacts GeometryFacts.
Local Open Scope Q_scope.
Local Open Scope string_scope.

Lemma lerp_between a b t :
  0 <= t -> t <= 1 -> Qmin a b <= lerp a b t /\ lerp a b t <= Qmax a b.
Proof.
  intros H0 H1. unfold lerp.
  destruct (Q.min_spec a b) as [[Hm1 Hm2] | [Hm1 Hm2]];
    destruct (Q.max_spec a b) as [[HM1 HM2] | [HM1 HM2]]; rewrite Hm2, HM2.
  - assert (Hp : 0 <= (b - a) * t) by (apply Qmult_le_0_compat; lra).
    assert (Hq : 0 <= (b - a) * (1 - t)) by (apply Qmult_le_0_compat; lra).
    split; lra.
  - lra.
  - lra.
  - assert (Hp : 0 <= (a - b) * t) by (apply Qmult_le_0_compat; lra).
    assert (Hq : 0 <= (a - b) * (1 - t)) by (apply Qmult_le_0_compat; lra).
    split; lra.
Qed.

Section WithEngine.
Variable E : Engine.

Lemma spawnInterval_min g : si_min (c_pipes (cfg g)) <= _spawnInterval E g.
Proof. unfold _spawnInterval. cbv zeta. apply clamp_lower. Qed.

(** Whatever [Math.exp] returns, the difficulty is a number from 0 to 1;
    so the pipe speed lies between the two configured speeds, and the
    spawn interval, the pipe thickness and the gap are at least their
    configured minimum and, where the minimum is not above the maximum,
    at most the maximum. *)
Theorem pacing_within_config g :
  0 <= _difficulty01 E g /\ _difficulty01 E g <= 1
  /\ Qmin (speed_start (c_pipes (cfg g))) (speed_end (c_pipes (cfg g))) <= _pipeSpeed E g
  /\ _pipeSpeed E g <= Qmax (speed_start (c_pipes (cfg g))) (speed_end (c_pipes (cfg g)))
  /\ si_min (c_pipes (cfg g)) <= _spawnInterval E g
  /\ (si_min (c_pipes (cfg g)) <= si_max (c_pipes (cfg g)) ->
      _spawnInterval E g <= si_max (c_pipes (cfg g)))
  /\ th_min (c_pipes (cfg g)) <= _thickness g
  /\ (th_min (c_pipes (cfg g)) <= th_max (c_pipes (cfg g)) ->
      _thickness g <= th_max (c_pipes (cfg g)))
  /\ gap_min (c_pipes (cfg g)) <= _gapSize E g
  /\ (gap_min (c_pipes (cfg g)) <= gap_max (c_pipes (cfg g)) ->
      _gapSize E g <= gap_max (c_pipes (cfg g))).
Proof.
  assert (Hd : 0 <= _difficulty01 E g /\ _difficulty01 E g <= 1).
  { unfold _difficulty01. cbv zeta. split; [apply clamp_lower | apply clamp_upper; lra]. }
  destruct Hd as [Hd0 Hd1].
  destruct (lerp_between (speed_start (c_pipes (cfg g))) (speed_end (c_pipes (cfg g)))
              (_difficulty01 E g) Hd0 Hd1) as [Hs1 Hs2].
  split; [exact Hd0|]. split; [exact Hd1|].
  split; [exact Hs1|]. split; [exact Hs2|].
  unfold _spawnInterval, _thickness, _gapSize. cbv zeta.
  repeat split; first [apply clamp_lower | apply clamp_upper].
Qed.

(** *** The spawn loop *)

(** What the spawn interval is computed from, and the spawn timer. *)
Definition pace (g : Game) : Q * Q * Config * Q :=
  (timeAlive g, score g, cfg g, pipeT g).

Lemma pace_interval g g' :
  pace g' = pace g -> _spawnInterval E g' = _spawnInterval E g /\ pipeT g' = pipeT g.
Proof.
  unfold pace. intros Hp. inversion Hp as [[H1 H2 H3 H4]].
  unfold _spawnInterval, _difficulty01. rewrite H1, H2, H3. split; reflexivity.
Qed.

(** With a positive interval, enough iterations bring the timer above
    zero: the loop ends, and it ends with a positive timer. *)
Lemma spawnLoop_ends : forall fuel g,
  0 < _spawnInterval E g ->
  0 < pipeT g + inject_Z (Z.of_nat fuel) * _spawnInterval E g ->
  Post (fun r => 0 < pipeT (snd r)) (spawnLoop E fuel g).
Proof.
  induction fuel as [|k IH]; intros g Hc Hfuel; cbn [spawnLoop];
    destruct (leb (pipeT g) 0) eqn:Hle.
  - apply leb_le in Hle. exfalso. change (inject_Z (Z.of_nat 0)) with 0 in Hfuel. lra.
  - apply Holds_ret. cbn [snd]. apply leb_gt. exact Hle.
  - rewrite modify_then. unfold bindG. apply Holds_bind.
    eapply Holds_weaken;
      [| apply (spawnPattern_keeps E pace ltac:(reflexivity) ltac:(reflexivity) false)].
    intros [u g1] Hk. cbn [fst snd] in *.
    apply pace_interval in Hk. destruct Hk as [Hk1 Hk2].
    change (_spawnInterval E (set_pipeT (pipeT g + _spawnInterval E g) g))
      with (_spawnInterval E g) in Hk1.
    change (pipeT (set_pipeT (pipeT g + _spawnInterval E g) g))
      with (pipeT g + _spawnInterval E g) in Hk2.
    apply IH.
    + rewrite Hk1. exact Hc.
    + rewrite Hk1, Hk2. rewrite Nat2Z.inj_succ, <- Z.add_1_r, inject_Z_plus in Hfuel.
      change (inject_Z 1) with 1 in Hfuel. lra.
  - apply Holds_ret. cbn [snd]. apply leb_gt. exact Hle.
Qed.

Lemma spawnFuel_enough g :
  0 < _spawnInterval E g ->
  0 < pipeT g + inject_Z (Z.of_nat (spawnFuel E g)) * _spawnInterval E g
  \/ 0 < pipeT g.
Proof.
  intros Hc. destruct (Qlt_le_dec 0 (pipeT g)) as [Hp | Hp]; [right; exact Hp | left].
  unfold spawnFuel. cbv zeta. apply ltb_lt in Hc. rewrite Hc. apply ltb_lt in Hc.
  set (c := _spawnInterval E g) in *.
  assert (Hx : 0 <= - pipeT g / c) by (apply Qle_shift_div_l; lra).
  assert (Hf : (0 <= Qfloor (- pipeT g / c))%Z).
  { change 0%Z with (Qfloor 0). apply Qfloor_resp_le. exact Hx. }
  rewrite Z2Nat.id by lia.
  pose proof (Qlt_floor (- pipeT g / c)) as Hlt.
  assert (Hm : - pipeT g / c * c < inject_Z (Qfloor (- pipeT g / c) + 1) * c)
    by (apply Qmult_lt_compat_r; assumption).
  assert (He : - pipeT g / c * c == - pipeT g) by (field; lra).
  lra.
Qed.

Lemma spawnPipes_ends dt g :
  0 < si_min (c_pipes (cfg g)) ->
  Post (fun r => 0 < pipeT (snd r)) (spawnPipes E dt g).
Proof.
  intros Hmin. unfold spawnPipes. rewrite modify_then, get_then.
  set (g1 := set_pipeT (pipeT g - dt) g).
  assert (Hc : 0 < _spawnInterval E g1).
  { pose proof (spawnInterval_min g1) as Hsi.
    change (cfg g1) with (cfg g) in Hsi. lra. }
  destruct (spawnFuel_enough g1 Hc) as [Hf | Hp].
  - apply spawnLoop_ends; assumption.
  - destruct (spawnFuel E g1); cbn [spawnLoop];
      apply leb_gt in Hp; rewrite Hp; apply Holds_ret; apply leb_gt; exact Hp.
Qed.

(** The [while (this.pipeT <= 0)] loop of [update].  With a configuration
    as [loadConfig] leaves it - start and end of the spawn interval between
    its minimum and its maximum -, a minimum of at least a millisecond, a
    run whose time and score are not negative and a spawn timer that is
    not more than 1000 seconds behind, the loop ends, with a positive
    timer.  Where the interval is not positive and the timer has run out,
    the loop does not end. *)
Theorem spawn_loop_ends_iff_interval_positive dt g :
  (1 / 1000 <= si_min (c_pipes (cfg g)) ->
   si_min (c_pipes (cfg g)) <= si_start (c_pipes (cfg g)) <= si_max (c_pipes (cfg g)) ->
   si_min (c_pipes (cfg g)) <= si_end (c_pipes (cfg g)) <= si_max (c_pipes (cfg g)) ->
   0 <= timeAlive g -> 0 <= score g ->
   - (1000) <= pipeT g - dt ->
   Post (fun r => 0 < pipeT (snd r)) (spawnPipes E dt g))
  /\ (_spawnInterval E g <= 0 -> pipeT g <= dt -> spawnPipes E dt g = Spin).
Proof.
  split.
  { intros Hmin _ _ _ _ _. apply spawnPipes_ends.
    eapply Qlt_le_trans; [| exact Hmin]. reflexivity. }
  intros Hc Hp. unfold spawnPipes. rewrite modify_then, get_then.
  set (g1 := set_pipeT (pipeT g - dt) g).
  assert (Hf : spawnFuel E g1 = O).
  { unfold spawnFuel. cbv zeta.
    change (_spawnInterval E g1) with (_spawnInterval E g).
    apply ltb_ge in Hc. rewrite Hc. reflexivity. }
  rewrite Hf. cbn [spawnLoop].
  assert (Hle : leb (pipeT g1) 0 = true) by (apply leb_le; cbn; lra).
  rewrite Hle. reflexivity.
Qed.

End WithEngine.

End PacingFacts.

(** ** Pipes, gates, orbs and particles *)

Module EntityFacts.
Import Util UtilFacts Sim SimFacts Input Game TreeFacts FrameFacts PlayerFacts
       GeometryFacts.
Local Open Scope Q_scope.
Local Open Scope string_scope.
Local Open Scope list_scope.

Lemma get_then_local {A} (k : Game -> GameM A) g : (x <- get ;; k x) g = k g g.
Proof. reflexivity. Qed.

Lemma modify_then_local {A} f (k : GameM A) g : (modify f ;; k) g = k (f g).
Proof. reflexivity. Qed.

Lemma Qabs_idem x : Qabs (Qabs x) == Qabs x.
Proof. apply Qabs_pos. apply Qabs_nonneg. Qed.

(** [Orb.update]: the orb ends at most [W - r - 4] to the right and
    [H - r - 4] down; in a field that has room for it, it ends inside the
    field inset by [r + 4]; a bounce keeps the speed along each axis; the
    life shrinks by the step and the radius stays. *)
Theorem orb_bounces_inside dt W H o :
  let pad := orb_r o + 4 in
  let o' := Orb_update dt W H o in
  orb_x o' <= W - pad /\ orb_y o' <= H - pad
  /\ (pad <= W - pad -> pad <= orb_x o')
  /\ (pad <= H - pad -> pad <= orb_y o')
  /\ Qabs (orb_vx o') == Qabs (orb_vx o) /\ Qabs (orb_vy o') == Qabs (orb_vy o)
  /\ orb_life o' = orb_life o - dt /\ orb_r o' = orb_r o.
Proof.
  cbv zeta. unfold Orb_update. cbv zeta.
  destruct (ltb (orb_x o + orb_vx o * dt) (orb_r o + 4)) eqn:Hx1;
    [apply ltb_lt in Hx1 | apply ltb_ge in Hx1];
    (match goal with
     | |- context [let '(_, _) := if ltb (W - _) ?x then _ else _ in _] =>
         destruct (ltb (W - (orb_r o + 4)) x) eqn:Hx2;
         [apply ltb_lt in Hx2 | apply ltb_ge in Hx2]
     end);
    (destruct (ltb (orb_y o + orb_vy o * dt) (orb_r o + 4)) eqn:Hy1;
     [apply ltb_lt in Hy1 | apply ltb_ge in Hy1]);
    (match goal with
     | |- context [let '(_, _) := if ltb (H - _) ?y then _ else _ in _] =>
         destruct (ltb (H - (orb_r o + 4)) y) eqn:Hy2;
         [apply ltb_lt in Hy2 | apply ltb_ge in Hy2]
     end);
    cbn [orb_x orb_y orb_vx orb_vy orb_life orb_r];
    rewrite ?Qabs_opp; rewrite ?Qabs_idem;
    repeat split; intros; try reflexivity; lra.
Qed.

Lemma sq_nonneg x : 0 <= x * x.
Proof.
  destruct (Qlt_le_dec x 0) as [Hn | Hp].
  - setoid_replace (x * x) with ((- x) * (- x)) by ring. apply Qmult_le_0_compat; lra.
  - apply Qmult_le_0_compat; lra.
Qed.

(** Two numbers further apart than [r + 2] have a squared distance above
    the square of [r]. *)
Lemma far_apart c q r : 0 <= r -> r + 2 < q - c \/ r + 2 < c - q -> r * r < (c - q) * (c - q).
Proof.
  intros Hr [Hd | Hd].
  - assert (Hp : 0 <= (q - c - r) * (q - c + r)) by (apply Qmult_le_0_compat; lra).
    assert (Hq : 0 < q - c - r) by lra.
    assert (Hs : 0 < (q - c - r) * (q - c + r)) by (apply Qmult_lt_0_compat; lra).
    lra.
  - assert (Hs : 0 < (c - q - r) * (c - q + r)) by (apply Qmult_lt_0_compat; lra).
    lra.
Qed.

(** A pipe that [off] reports as gone does not touch a player whose centre
    is in the inset field: the removal of pipes that left the field never
    removes a pipe the collision check would find. *)
Theorem off_field_pipe_misses_player g p :
  contained g -> 0 <= p_r (player g) -> 0 <= pipe_w p -> 0 <= pipe_h p ->
  Pipe_off (W g) (H g) (_margin g) p = true ->
  hitsPipe g p = false.
Proof.
  intros [[Hx1 Hx2] [Hy1 Hy2]] Hr Hw Hh Hoff. unfold pad in *.
  assert (Hm : 110 <= _margin g) by (unfold _margin; apply clamp_lower).
  destruct (hitsPipe g p) eqn:Hhit; [exfalso | reflexivity].
  unfold hitsPipe in Hhit.
  apply (circleRect_hits _ _ _ _ _ _ _ Hw Hh) in Hhit.
  destruct Hhit as (qx & qy & Hq1 & Hq2 & Hq3 & Hq4 & Hd).
  pose proof (sq_nonneg (p_x (player g) - qx)) as Hsx.
  pose proof (sq_nonneg (p_y (player g) - qy)) as Hsy.
  unfold Pipe_off in Hoff. rewrite !orb_true_iff, !ltb_lt in Hoff.
  destruct Hoff as [[[Ho | Ho] | Ho] | Ho].
  - pose proof (far_apart (p_x (player g)) qx (p_r (player g)) Hr ltac:(left; lra)). lra.
  - pose proof (far_apart (p_x (player g)) qx (p_r (player g)) Hr ltac:(right; lra)). lra.
  - pose proof (far_apart (p_y (player g)) qy (p_r (player g)) Hr ltac:(left; lra)). lra.
  - pose proof (far_apart (p_y (player g)) qy (p_r (player g)) Hr ltac:(right; lra)). lra.
Qed.

Lemma off_field_pipe_misses_player_witness :
  hitsPipe Ref.readyGame (mkPipe 1200 0 40 600 0 0 true false) = false.
Proof.
  apply (off_field_pipe_misses_player Ref.readyGame (mkPipe 1200 0 40 600 0 0 true false)).
  - vm_compute. repeat split; discriminate.
  - vm_compute. discriminate.
  - vm_compute. discriminate.
  - vm_compute. discriminate.
  - reflexivity.
Defined.

(** *** Pipes that leave the field *)

(** The pipes that are beyond the margin and were not scored before. *)
Fixpoint dodged (W H m : Q) (ps : list Pipe) : nat :=
  match ps with
  | [] => O
  | p :: rest =>
      ((if Pipe_off W H m p && negb (pipe_scored p) then 1 else 0) + dodged W H m rest)%nat
  end.

Lemma sweepPipes_spec W H m dodge : forall ps sc,
  fst (sweepPipes W H m dodge ps sc) = List.filter (fun p => negb (Pipe_off W H m p)) ps
  /\ snd (sweepPipes W H m dodge ps sc) == sc + inject_Z (Z.of_nat (dodged W H m ps)) * dodge.
Proof.
  induction ps as [|p rest IH]; intros sc; cbn [sweepPipes List.filter dodged].
  - cbn [fst snd]. split; [reflexivity|]. change (inject_Z (Z.of_nat 0)) with 0. ring.
  - destruct (Pipe_off W H m p) eqn:Hoff; cbn [negb andb].
    + destruct (pipe_scored p); cbn [negb].
      * destruct (IH sc) as [H1 H2]. split; [exact H1|]. rewrite H2. cbn [Nat.add]. reflexivity.
      * destruct (IH (sc + dodge)) as [H1 H2]. split; [exact H1|]. rewrite H2.
        rewrite Nat2Z.inj_add, inject_Z_plus. change (inject_Z (Z.of_nat 1)) with 1. ring.
    + destruct (IH sc) as [H1 H2].
      destruct (sweepPipes W H m dodge rest sc) as [kept sc'] eqn:Hs. cbn [fst snd] in *.
      split; [rewrite H1; reflexivity|]. rewrite H2. cbn [Nat.add]. reflexivity.
Qed.

Lemma dodged_rev W H m : forall ps, dodged W H m (rev ps) = dodged W H m ps.
Proof.
  assert (Happ : forall a b, dodged W H m (a ++ b) = (dodged W H m a + dodged W H m b)%nat).
  { induction a as [|p a IH]; intros b; cbn [app dodged]; [reflexivity|].
    rewrite IH. lia. }
  induction ps as [|p rest IH]; [reflexivity|].
  cbn [rev]. rewrite Happ, IH. cbn [dodged]. lia.
Qed.

Lemma filter_rev {A} (f : A -> bool) : forall l, filter f (rev l) = rev (filter f l).
Proof.
  induction l as [|a l IH]; [reflexivity|].
  cbn [rev filter]. rewrite filter_app, IH. cbn [filter].
  destruct (f a); cbn [rev app]; [reflexivity | apply app_nil_r].
Qed.

(** The removal step of [update]: exactly the pipes and gates beyond the
    margin go, the others stay in their order; the score grows by the
    sanitised [pipeDodge] once for every pipe that goes and was not
    scored before; nothing else changes. *)
Theorem pipes_leaving_the_field_score_once g :
  let m := _margin g in
  let dodge := Qmax 0 (orElse (pipeDodge (c_scoring (cfg g))) 0) in
  let g' := removeOffField g in
  pipes g' = List.filter (fun p => negb (Pipe_off (W g) (H g) m p)) (pipes g)
  /\ gates g' = List.filter (fun x => negb (Gate_off (W g) (H g) m x)) (gates g)
  /\ score g' == score g + inject_Z (Z.of_nat (dodged (W g) (H g) m (pipes g))) * dodge
  /\ player g' = player g /\ orbs g' = orbs g /\ combo g' = combo g
  /\ state g' = state g.
Proof.
  cbv zeta. unfold removeOffField. cbv zeta.
  destruct (sweepPipes_spec (W g) (H g) (_margin g)
              (Qmax 0 (orElse (pipeDodge (c_scoring (cfg g))) 0))
              (rev (pipes g)) (score g)) as [H1 H2].
  destruct (sweepPipes (W g) (H g) (_margin g)
              (Qmax 0 (orElse (pipeDodge (c_scoring (cfg g))) 0))
              (rev (pipes g)) (score g)) as [kept sc].
  cbn [fst snd] in H1, H2.
  cbn [pipes gates score player orbs combo state set_score set_pipes set_gates W H].
  split.
  { rewrite H1, filter_rev, rev_involutive. reflexivity. }
  split; [reflexivity|]. split.
  { rewrite H2, dodged_rev. reflexivity. }
  repeat split.
Qed.

(** *** Cooldowns *)

Section WithEngine.
Variable E : Engine.

Lemma tickTimers_cds dt g : cds (tickTimers dt g) = cds (_tickCooldowns dt g).
Proof.
  unfold tickTimers. cbv zeta.
  repeat match goal with
         | |- context [if ?b then _ else _] => destruct b
         | |- context [match ?o with Some _ => _ | None => _ end] => destruct o
         end; reflexivity.
Qed.

(** One [update] in the PLAY state lowers each of the four cooldowns by
    the step, not below zero; nothing else in [update] writes them. *)
Theorem update_runs_cooldowns_down inp tid dt g :
  state g = PLAY ->
  Leaves (fun r =>
            cd_dash (cds (snd r)) = Qmax 0 (cd_dash (cds g) - dt)
            /\ cd_phase (cds (snd r)) = Qmax 0 (cd_phase (cds g) - dt)
            /\ cd_teleport (cds (snd r)) = Qmax 0 (cd_teleport (cds g) - dt)
            /\ cd_slowField (cds (snd r)) = Qmax 0 (cd_slowField (cds g) - dt))
         (update E inp tid dt g).
Proof.
  intros Hplay.
  eapply Holds_weaken; [| apply (update_keeps E cds); try (intros; reflexivity); exact Hplay].
  intros r Hr. change (cds (_updatePlayer E inp dt (tickTimers dt g)))
    with (cds (tickTimers dt g)) in Hr.
  rewrite Hr, tickTimers_cds. repeat split.
Qed.

(** *** The PERFECT bonus *)

(** The fields the PERFECT bonus does not touch. *)
Definition besidesScore (g : Game) : list Pipe * list Orb * Player * Q * State :=
  (pipes g, orbs g, player g, combo g, state g).

(** The PERFECT check of one gate: the gate comes back cleared exactly
    when it was cleared before or has just been crossed; the score grows
    by the bonus or stays, and it grows only for a gate that was not
    cleared and comes back cleared - and [Gate.update] never resets the
    flag, so a gate pays the bonus at most once. *)
Theorem perfect_bonus_at_most_once bonus wS gt g :
  Post (fun r =>
          let pAxis := match gate_axis gt with
                       | AxisX => p_x (player g) | AxisY => p_y (player g) end in
          gate_cleared (fst r) = gate_cleared gt || Gate_crossed pAxis gt
          /\ (score (snd r) = score g
              \/ score (snd r) = score g + bonus
                 /\ gate_cleared gt = false /\ gate_cleared (fst r) = true)
          /\ besidesScore (snd r) = besidesScore g)
       (perfectGate E bonus wS gt g)
  /\ (forall dt W H, gate_cleared (Gate_update dt W H gt) = gate_cleared gt)
  /\ (forall a, gate_cleared gt = true -> Gate_crossed a gt = false).
Proof.
  split; [| split; [reflexivity | intros a Hc; unfold Gate_crossed; rewrite Hc; reflexivity]].
  unfold perfectGate. destruct (gate_cleared gt) eqn:Hc.
  { apply Holds_ret. cbn [fst snd orb]. rewrite Hc. repeat split. left. reflexivity. }
  rewrite get_then_local.
  destruct (Gate_crossed _ gt) eqn:Hx; cbn [orb].
  2:{ apply Holds_ret. cbn [fst snd]. rewrite Hc. repeat split. left. reflexivity. }
  match goal with
  | |- Holds _ _ (bindG (if ?c then _ else _) _ g) => destruct c
  end.
  - unfold bindG at 1. apply Holds_bind.
    rewrite modify_then_local.
    match goal with
    | |- Holds _ _ (?m ?g0) =>
        assert (Hk : Keeps false (fun x => (score x, besidesScore x)) m)
    end.
    { apply keeps_bind; [apply keeps_lift, newFloatText_total|]. intros t.
      apply keeps_bind; [apply pushFloat_keeps; reflexivity|]. intros _.
      apply keeps_forN. intros i. apply perfectParticle_keeps. reflexivity. }
    eapply Holds_weaken; [| apply Hk].
    intros [u g1] Hg1. cbn [fst snd] in *. apply Holds_ret. cbn [fst snd].
    apply pair_equal_spec in Hg1. destruct Hg1 as [Hs Hb].
    split; [reflexivity|]. split; [| exact Hb].
    right. split; [exact Hs|]. split; reflexivity.
  - apply Holds_ret. cbn [fst snd]. repeat split. left. reflexivity.
Qed.

End WithEngine.

Lemma update_runs_cooldowns_down_witness :
  Leaves (fun r =>
            cd_dash (cds (snd r)) = Qmax 0 (cd_dash (cds Ref.coolingGame) - (1 / 120))
            /\ cd_phase (cds (snd r)) = Qmax 0 (cd_phase (cds Ref.coolingGame) - (1 / 120))
            /\ cd_teleport (cds (snd r))
               = Qmax 0 (cd_teleport (cds Ref.coolingGame) - (1 / 120))
            /\ cd_slowField (cds (snd r))
               = Qmax 0 (cd_slowField (cds Ref.coolingGame) - (1 / 120)))
         (update Ref.refMath Ref.idleInput "classic" (1 / 120) Ref.coolingGame).
Proof.
  apply (update_runs_cooldowns_down Ref.refMath Ref.idleInput "classic" (1 / 120) Ref.coolingGame).
  reflexivity.
Defined.

End EntityFacts.

(** ** Spawning *)

Module SpawnFacts.
Import Util UtilFacts Sim SimFacts Input Game TreeFacts FrameFacts PlayerFacts
       GeometryFacts EntityFacts.
Local Open Scope Q_scope.
Local Open Scope string_scope.
Local Open Scope list_scope.



Section WithEngine.
Variable E : Engine.







(** *** Orbs *)



End WithEngine.
End SpawnFacts.

(** ** States, skills and the background *)

Module StateFacts.
Import Util UtilFacts Sim SimFacts Input Game TreeFacts SkillFacts OverFacts FrameFacts
       PlayerFacts JunkFacts ReplayFacts Main SessionFacts.
Local Open Scope Q_scope.
Local Open Scope string_scope.

(** [Math.random] touches neither the installed source nor the tapes. *)
Lemma driftDots_tapes dt W H ds : forall w,
  exists ds' w', run (driftDots dt W H ds) w = Done ds' w'
                 /\ source w' = source w /\ tapes w' = tapes w.
Proof.
  induction ds as [|d rest IH]; intros w; cbn [driftDots].
  - exists [], w. repeat split.
  - destruct (ltb (H + 10) (dot_y d + dot_s d * dt)).
    + cbn [run]. unfold mathRandomCall. rewrite run_bind.
      match goal with |- context [run _ ?w0] => destruct (IH w0) as (ds' & w' & Hr & Hs & Ht) end.
      rewrite Hr. cbn [run]. eexists. eexists. split; [reflexivity|]. split; assumption.
    + rewrite run_bind. destruct (IH w) as (ds' & w' & Hr & Hs & Ht).
      rewrite Hr. cbn [run]. eexists. eexists. split; [reflexivity|]. split; assumption.
Qed.

Section WithEngine.
Variable E : Engine.

(** [update] and the game-over callback: the callback is called exactly
    when the call takes the game from the PLAY state to the OVER state,
    and its argument is the score cut to an integer; a call that does not
    end the run leaves the state as it was; no call changes the size of
    the field, the configuration or the size of the player. *)
Theorem callback_marks_the_end_of_the_run inp tid dt g :
  Leaves (fun r =>
            statics (snd r) = statics g
            /\ match fst r with
               | Some sc =>
                   state g = PLAY /\ state (snd r) = OVER /\ sc = toInt (score (snd r))
               | None => state (snd r) = state g
               end)
         (update E inp tid dt g).
Proof.
  rewrite update_eq. destruct (State_eqb (state g) OVER) eqn:Ho.
  - apply Holds_ret. cbn [fst snd]. split; reflexivity.
  - apply Holds_bind. eapply Holds_weaken; [| apply (bgDrift_exact true)].
    intros [u g0] [ds Hg0]. cbn [fst snd] in *. subst g0. rewrite afterDrift_eq.
    change (state (set_bgDots ds g)) with (state g).
    destruct (state g) eqn:Hs; cbn [State_eqb negb]; try discriminate.
    + apply Holds_ret. cbn [fst snd]. split; [reflexivity | exact Hs].
    + apply Holds_bind.
      eapply Holds_weaken;
        [| apply (advance_keeps E (fun g => (statics g, state g)));
           intros; reflexivity].
      intros [u1 g1] Hk. cbn [fst snd] in *.
      destruct (updatePlayer_statics E inp dt (tickTimers dt (set_bgDots ds g)))
        as [Hs1 Hs2].
      destruct (tickTimers_statics dt (set_bgDots ds g)) as [Hs3 Hs4].
      rewrite Hs1, Hs2, Hs3, Hs4 in Hk. apply pair_equal_spec in Hk.
      destruct Hk as [Hk1 Hk2].
      change (statics (set_bgDots ds g)) with (statics g) in Hk1.
      change (state (set_bgDots ds g)) with (state g) in Hk2.
      rewrite afterAdvance_eq. destruct (collides g1); apply Holds_ret; cbn [fst snd].
      * split; [exact Hk1|]. repeat split.
      * rewrite (finish_keeps E statics) by (intros; reflexivity).
        rewrite (finish_keeps E state) by (intros; reflexivity).
        split; [exact Hk1 | congruence].
Qed.

(** Outside the PLAY state [update] moves the background at most: it
    returns without calling the callback, the game is what it was but for
    the background dots (and in the OVER state all of it), and the
    installed random source and the tapes are not touched. *)
Theorem update_outside_play_only_drifts inp tid dt g w :
  state g <> PLAY ->
  exists ds w',
    run (update E inp tid dt g) w = Done (None, set_bgDots ds g) w'
    /\ (state g = OVER -> ds = bgDots g)
    /\ source w' = source w /\ tapes w' = tapes w.
Proof.
  intros Hs. rewrite update_eq. destruct (state g) eqn:Hst; [| contradiction |];
    cbn [State_eqb].
  - unfold bgDrift. rewrite !run_bind.
    destruct (driftDots_tapes dt (W g) (H g) (bgDots g) w) as (ds & w' & Hrun & Hsrc & Htp).
    rewrite Hrun. cbn [run snd]. rewrite afterDrift_eq.
    change (state (set_bgDots ds g)) with (state g). rewrite Hst. cbn [State_eqb negb run].
    exists ds, w'. split; [reflexivity|]. split; [discriminate|]. split; assumption.
  - exists (bgDots g), w. cbn [run]. split.
    + f_equal. f_equal. destruct g; reflexivity.
    + repeat split.
Qed.

(** What no skill touches. *)
Definition field (g : Game)
    : list Pipe * list Gate * list Orb * Q * Q * State * Q * Q * Config :=
  (pipes g, gates g, orbs g, score g, combo g, state g, W g, H g, cfg g).

(** An action, whatever its name, the state and the cooldowns: it never
    loops, and it leaves the pipes, gates and orbs, the score, the combo,
    the state, the size of the field and the configuration as they
    were - a skill acts on the player, the cooldowns, the slow field and
    the effects only. *)
Theorem skills_leave_the_field_alone inp name :
  Keeps false field (handleAction E inp name).
Proof. unfold handleAction, _useSkill. keeps. Qed.

End WithEngine.

Lemma update_outside_play_only_drifts_witness :
  exists ds w',
    run (update Ref.refMath Ref.idleInput "classic" (1 / 120) (Ref.newGame 800 600))
        Ref.seededWorld
      = Done (None, set_bgDots ds (Ref.newGame 800 600)) w'
    /\ (state (Ref.newGame 800 600) = OVER -> ds = bgDots (Ref.newGame 800 600))
    /\ source w' = source Ref.seededWorld /\ tapes w' = tapes Ref.seededWorld.
Proof.
  apply (update_outside_play_only_drifts Ref.refMath Ref.idleInput "classic" (1 / 120)
           (Ref.newGame 800 600) Ref.seededWorld).
  discriminate.
Defined.

End StateFacts.

(** ** main.js: the frame loop and the run *)

Module LoopFacts.
Import Util UtilFacts Sim SimFacts Input Game TreeFacts OverFacts JunkFacts ReplayFacts
       Main SessionFacts GeometryFacts.
Local Open Scope Q_scope.
Local Open Scope string_scope.
Local Open Scope list_scope.

Section WithEngine.
Variable E : Engine.

(** What a tick leaves of the module state besides game and world. *)
Lemma applyActionsLive_acc : forall actions m m',
  applyActionsLive E actions m = Ok m' ->
  acc m' = acc m /\ activeRun m' = activeRun m.
Proof.
  induction actions as [|a rest IH]; intros m m' Hlive; cbn [applyActionsLive] in Hlive.
  - inversion Hlive; subst. split; reflexivity.
  - match type of Hlive with
    | andThen (call ?p ?m1) _ = _ =>
        destruct (call p m1) as [[u m2] | e | ] eqn:Hc; cbn [andThen snd] in Hlive;
        try discriminate;
        destruct (call_inv _ _ _ _ Hc) as (g1 & w1 & _ & Hm2)
    end.
    destruct (IH _ _ Hlive) as [H1 H2]. rewrite H1, H2. subst m2. split; reflexivity.
Qed.

Lemma stepGame_acc inp m m' : stepGame E inp m = Ok m' -> acc m' = acc m.
Proof.
  unfold stepGame. intros Hs.
  destruct (call (update E inp (trailId m) SIM_DT) m) as [[o m1] | e | ] eqn:Hc;
    cbn [andThen fst snd] in Hs; try discriminate.
  destruct (call_inv _ _ _ _ Hc) as (g1 & w1 & _ & Hm1).
  destruct o; inversion Hs; subst m'; subst m1.
  - destruct (onGameOver_fields (set_world w1 (set_game g1 m))) as (_ & _ & _ & _ & _ & Ha & _).
    rewrite Ha. reflexivity.
  - reflexivity.
Qed.

(** The loop body after the actions: the step, the accumulator, the
    break. *)
Definition tickTail (recorded : bool) (m : Main) : Result (Main * bool * list Game) :=
  andThen (stepGame E (theInput m) m) (fun m =>
  let m := set_acc (acc m - SIM_DT) m in
  let snap := if recorded then [game m] else [] in
  if State_eqb (state (game m)) OVER then
    let m := match activeRun m with
             | Some r => set_activeRun
                           (Some (mkRun (seed r) (ticks r) [] (ended r) (rngTape r))) m
             | None => m
             end in
    Ok (m, true, snap)
  else Ok (m, false, snap)).

Lemma tickTail_acc recorded m m' stop snap :
  tickTail recorded m = Ok (m', stop, snap) ->
  acc m' = acc m - SIM_DT /\ (List.length snap <= 1)%nat
  /\ (stop = true <-> state (game m') = OVER).
Proof.
  unfold tickTail. intros Hl.
  destruct (stepGame E (theInput m) m) as [mc | e | ] eqn:Hstep;
    cbn [andThen] in Hl; try discriminate.
  apply stepGame_acc in Hstep. cbv zeta in Hl. cbn [game set_acc] in Hl.
  destruct (State_eqb (state (game mc)) OVER) eqn:Ho.
  - apply State_eqb_eq in Ho.
    cbn [activeRun set_acc] in Hl. inversion Hl; subst m' stop snap.
    destruct (activeRun mc);
      cbn [acc game set_acc set_activeRun]; rewrite Hstep;
      (split; [reflexivity|]); (split; [destruct recorded; cbn [List.length]; lia|]);
      split; auto.
  - inversion Hl; subst m' stop snap. cbn [acc set_acc game].
    rewrite Hstep. split; [reflexivity|].
    split; [destruct recorded; cbn [List.length]; lia|].
    split; [discriminate|]. intros Hov. apply State_eqb_eq in Hov. congruence.
Qed.

(** One pass of the loop body takes one step of time off the
    accumulator, and lists at most one game. *)
Lemma liveTick_acc m m' stop snap :
  liveTick E m = Ok (m', stop, snap) ->
  acc m' = acc m - SIM_DT /\ (List.length snap <= 1)%nat
  /\ (stop = true <-> state (game m') = OVER).
Proof.
  unfold liveTick. cbv zeta. intros Hl.
  destruct (activeRun m) as [r|] eqn:Har;
    destruct (State_eqb (state (game m)) PLAY) eqn:Hp; cbn [andThen] in Hl.
  - match type of Hl with
    | andThen (applyActionsLive E ?acts ?ma) _ = _ =>
        destruct (applyActionsLive E acts ma) as [mb | e | ] eqn:Hact;
        cbn [andThen] in Hl; try discriminate;
        apply applyActionsLive_acc in Hact; destruct Hact as [Hact _]
    end.
    apply (tickTail_acc true) in Hl. cbn [acc set_activeRun] in Hact.
    rewrite Hact in Hl. exact Hl.
  - apply (tickTail_acc false) in Hl. exact Hl.
  - apply (tickTail_acc false) in Hl. exact Hl.
  - apply (tickTail_acc false) in Hl. exact Hl.
Qed.

Lemma tickLoop_drains : forall n m m' snaps,
  0 <= acc m -> acc m < inject_Z (Z.of_nat (S n)) * SIM_DT ->
  tickLoop E n m = Ok (m', snaps) ->
  exists k, (k <= n)%nat
    /\ acc m' == acc m - inject_Z (Z.of_nat k) * SIM_DT
    /\ 0 <= acc m'
    /\ (acc m' < SIM_DT \/ state (game m') = OVER)
    /\ (List.length snaps <= k)%nat.
Proof.
  induction n as [|n IH]; intros m m' snaps H0 Hlt Hl; cbn [tickLoop] in Hl.
  - inversion Hl; subst m' snaps. exists 0%nat.
    split; [lia|]. split; [cbn; ring|]. split; [exact H0|].
    split; [left; change (inject_Z (Z.of_nat 1)) with 1 in Hlt; lra | cbn; lia].
  - destruct (leb SIM_DT (acc m)) eqn:Hle.
    + apply leb_le in Hle.
      destruct (liveTick E m) as [[[m1 stop] snap] | e | ] eqn:Htick;
        cbn [andThen] in Hl; try discriminate.
      destruct (liveTick_acc _ _ _ _ Htick) as (Hacc & Hsn & Hstop).
      destruct stop.
      * inversion Hl; subst m' snaps. exists 1%nat.
        split; [lia|]. rewrite Hacc.
        split; [cbn; ring|]. split; [lra|].
        split; [right; apply Hstop; reflexivity | exact Hsn].
      * destruct (tickLoop E n m1) as [[m2 rest] | e | ] eqn:Hrest;
          cbn [andThen fst snd] in Hl; try discriminate.
        inversion Hl; subst m' snaps.
        assert (Hnext : inject_Z (Z.of_nat (S (S n)))
                        == inject_Z (Z.of_nat (S n)) + 1).
        { rewrite (Nat2Z.inj_succ (S n)). unfold Z.succ. rewrite inject_Z_plus. reflexivity. }
        destruct (IH m1 m2 rest) as (k & Hk & Hk2 & Hk0 & Hkend & Hklen);
          [rewrite Hacc; lra | rewrite Hacc; rewrite Hnext in Hlt; lra | exact Hrest |].
        exists (S k). split; [lia|].
        split.
        { rewrite Hk2, Hacc, (Nat2Z.inj_succ k). unfold Z.succ.
          rewrite inject_Z_plus. change (inject_Z 1) with 1. ring. }
        split; [exact Hk0|]. split; [exact Hkend|].
        rewrite length_app. lia.
    + apply leb_gt in Hle. inversion Hl; subst m' snaps. exists 0%nat.
      split; [lia|]. split; [cbn; ring|]. split; [exact H0|].
      split; [left; exact Hle | cbn; lia].
Qed.

Lemma ticksDue_enough m :
  0 <= acc m -> acc m < inject_Z (Z.of_nat (S (ticksDue m))) * SIM_DT.
Proof.
  intros H0. unfold ticksDue.
  assert (Hq : 0 <= acc m / SIM_DT).
  { unfold SIM_DT. setoid_replace (acc m / (1 / 120)) with (acc m * 120) by field. lra. }
  assert (Hf : (0 <= Qfloor (acc m / SIM_DT))%Z).
  { change 0%Z with (Qfloor 0). apply Qfloor_resp_le. exact Hq. }
  rewrite Nat2Z.inj_succ, Z2Nat.id by exact Hf. unfold Z.succ.
  pose proof (Qlt_floor (acc m / SIM_DT)) as Hup. rewrite inject_Z_plus in *.
  change (inject_Z 1) with 1 in *.
  set (f := inject_Z (Qfloor (acc m / SIM_DT))) in *.
  assert (Hd : acc m == acc m / SIM_DT * SIM_DT) by (unfold SIM_DT; field).
  rewrite Hd at 1. unfold SIM_DT at 2 3.
  assert (Hm : acc m / SIM_DT * (1 / 120) < (f + 1) * (1 / 120)).
  { apply Qmult_lt_compat_r; [reflexivity | exact Hup]. }
  exact Hm.
Qed.

(** A frame steps the simulation at most seven times: the time since the
    last frame is cut to a twentieth of a second, and each step takes a
    hundred-and-twentieth off the accumulator, which was below one step.
    With the exact constants of this model the steps are six at most; the
    bound stated is the one that also holds for the constants as doubles,
    where a twentieth is a little more than six steps.  The accumulator
    is left below one step unless the run has ended. *)
Theorem frame_takes_at_most_seven_steps ts m m' snaps :
  0 <= acc m -> acc m < SIM_DT -> replayDriving m = false ->
  frame E ts m = Ok (m', snaps) ->
  exists k, (k <= 7)%nat
    /\ acc m' == acc m + clamp ((ts - lastTs m) / 1000) 0 MAX_FRAME
                 - inject_Z (Z.of_nat k) * SIM_DT
    /\ 0 <= acc m'
    /\ (acc m' < SIM_DT \/ state (game m') = OVER)
    /\ (List.length snaps <= k)%nat.
Proof.
  intros H0 Hlt Hrd Hf. unfold frame in Hf. cbv zeta in Hf.
  cbn [replayDriving set_lastTs lastTs acc] in Hf. rewrite Hrd in Hf. cbn [negb] in Hf.
  set (dt := clamp ((ts - lastTs m) / 1000) 0 MAX_FRAME) in *.
  assert (Hdt : 0 <= dt /\ dt <= MAX_FRAME).
  { split; [apply clamp_lower | apply clamp_upper; vm_compute; discriminate]. }
  set (ma := set_acc (acc m + dt) (set_lastTs ts m)) in *.
  assert (Ha : acc ma = acc m + dt) by reflexivity.
  destruct (tickLoop_drains (ticksDue ma) ma m' snaps)
    as (k & _ & Hk & Hk0 & Hend & Hlen);
    [rewrite Ha; lra | apply ticksDue_enough; rewrite Ha; lra | exact Hf |].
  exists k. rewrite Ha in Hk.
  split; [| split; [exact Hk|]; split; [exact Hk0|]; split; [exact Hend | exact Hlen]].
  assert (Hq : inject_Z (Z.of_nat k) < 8).
  { unfold SIM_DT, MAX_FRAME in *. clearbody dt.
    destruct Hdt as [Hd0 Hd1]. clear Hend Hf ma Ha.
    generalize dependent (inject_Z (Z.of_nat k)). intros K HK.
    change (1 / 120) with (1 # 120) in *. change (1 / 20) with (1 # 20) in *. lra. }
  change 8 with (inject_Z 8) in Hq. rewrite <- Zlt_Qlt in Hq. lia.
Qed.

(** *** After the end of a run *)

(** What a run has recorded. *)
Definition recorded (r : Run) : Rng.Seed * list Tick * nat :=
  (seed r, ticks r, rngTape r).

Definition sameRecord (m m' : Main) : Prop :=
  game m' = game m /\ world m' = world m
  /\ option_map recorded (activeRun m') = option_map recorded (activeRun m).

Lemma liveTick_over m :
  state (game m) = OVER ->
  exists m', liveTick E m = Ok (m', true, []) /\ sameRecord m m'.
Proof.
  intros Hover. unfold liveTick. cbv zeta. rewrite Hover. cbn [State_eqb].
  destruct (activeRun m) as [r|] eqn:Har; cbv beta iota; cbn [andThen];
    rewrite stepGame_over by exact Hover; cbn [andThen];
    cbn [game set_acc activeRun]; rewrite Hover, Har; cbn [State_eqb];
    (eexists; split; [reflexivity|]); unfold sameRecord;
    cbn [game world activeRun set_activeRun set_acc option_map]; rewrite ?Har;
    repeat split.
Qed.

Lemma tickLoop_over n m :
  state (game m) = OVER ->
  exists m', tickLoop E n m = Ok (m', []) /\ sameRecord m m'.
Proof.
  intros Hover. destruct n as [|n]; cbn [tickLoop].
  - exists m. split; [reflexivity|]. repeat split.
  - destruct (leb SIM_DT (acc m)).
    + destruct (liveTick_over m Hover) as (m' & Hl & Hs). rewrite Hl. cbn [andThen].
      exists m'. split; [reflexivity | exact Hs].
    + exists m. split; [reflexivity|]. repeat split.
Qed.

Lemma sameRecord_trans m1 m2 m3 : sameRecord m1 m2 -> sameRecord m2 m3 -> sameRecord m1 m3.
Proof.
  intros (A1 & A2 & A3) (B1 & B2 & B3). repeat split; congruence.
Qed.

Lemma handleEvent_over e m : state (game m) = OVER -> sameRecord m (handleEvent e m).
Proof.
  intros Hover. destruct e; cbn [handleEvent]; unfold sameRecord.
  - repeat split.
  - repeat split.
  - unfold onAction. destruct (activeRun m) eqn:Har;
      [rewrite Hover; cbn [State_eqb]|]; repeat split; rewrite Har; reflexivity.
Qed.

(** Once the game is over, nothing is simulated and nothing recorded:
    whatever movement keys, pointer moves, skill actions and frames
    follow - the events of [Event]; a key or button that starts a run or
    leads to the menu is not among them -, the game and the random source
    stay as they are and the recorded run keeps its seed, its ticks and
    its tape; no frame throws. *)
Theorem the_ended_run_is_left_alone : forall steps m,
  state (game m) = OVER ->
  exists m', session E steps m = Ok (m', []) /\ sameRecord m m'.
Proof.
  induction steps as [|[e | ts] rest IH]; intros m Hover; cbn [session].
  - exists m. split; [reflexivity|]. repeat split.
  - assert (Hs := handleEvent_over e m Hover).
    destruct (IH (handleEvent e m)) as (m' & Hr & Hs');
      [destruct Hs as (Hg & _); rewrite Hg; exact Hover|].
    exists m'. split; [exact Hr|]. eapply sameRecord_trans; eassumption.
  - assert (Hfr : exists m1, frame E ts m = Ok (m1, []) /\ sameRecord m m1).
    { unfold frame. cbv zeta. cbn [replayDriving set_lastTs].
      destruct (replayDriving m); cbn [negb].
      - eexists. split; [reflexivity|]. repeat split.
      - match goal with
        | |- context [tickLoop E ?n ?ma] =>
            destruct (tickLoop_over n ma Hover) as (m1 & Hl & Hs)
        end.
        exists m1. split; [exact Hl | exact Hs]. }
    destruct Hfr as (m1 & Hf & Hs1). rewrite Hf. cbn [andThen fst snd].
    destruct (IH m1) as (m' & Hr & Hs');
      [destruct Hs1 as (Hg & _); rewrite Hg; exact Hover|].
    rewrite Hr. cbn [andThen fst snd app].
    exists m'. split; [reflexivity|]. eapply sameRecord_trans; eassumption.
Qed.

(** *** A replay asked for before the run has ended *)

(** A tape player writes to no tape, and stays the installed source. *)
Lemma run_player {A} (p : Prog A) : forall w a w' r i,
  source w = SrcPlayer r i -> run p w = Done a w' ->
  tapes w' = tapes w /\ exists i', source w' = SrcPlayer r i'.
Proof.
  induction p as [a0 | k IH | k IH | ]; intros w a w' r i Hs Hrun; cbn [run] in Hrun.
  - inversion Hrun; subst. split; [reflexivity | exists i; exact Hs].
  - unfold callSource in Hrun. rewrite Hs in Hrun.
    destruct (List.length (tapeAt w r) <=? i)%nat; [discriminate|].
    apply (IH _ _ _ _ r (S i)) in Hrun; [exact Hrun | reflexivity].
  - unfold mathRandomCall in Hrun.
    apply (IH _ _ _ _ r i) in Hrun; [exact Hrun | exact Hs].
  - discriminate.
Qed.

(** The tapes are [T] and the source is a player of the tape [r]. *)
Definition Replaying (T : list (list Q)) (r : nat) (m : Main) : Prop :=
  tapes (world m) = T /\ exists i, source (world m) = SrcPlayer r i.

Lemma call_replaying {A} T r (p : GameM A) m a m' :
  Replaying T r m -> call p m = Ok (a, m') -> Replaying T r m'.
Proof.
  intros [HT [i Hs]] Hc. destruct (call_inv _ _ _ _ Hc) as (g1 & w1 & Hrun & Hm).
  destruct (run_player _ _ _ _ _ _ Hs Hrun) as [Ht Hs']. subst m'.
  split; [cbn [world set_world]; congruence | exact Hs'].
Qed.

Lemma stepGame_replaying T r inp m m' :
  Replaying T r m -> stepGame E inp m = Ok m' -> Replaying T r m'.
Proof.
  unfold stepGame. intros Hr Hs.
  destruct (call (update E inp (trailId m) SIM_DT) m) as [[o m1] | e | ] eqn:Hc;
    cbn [andThen fst snd] in Hs; try discriminate.
  pose proof (call_replaying _ _ _ _ _ _ Hr Hc) as Hr1.
  destruct o; inversion Hs; subst m'; [| exact Hr1].
  unfold onGameOver. destruct (activeRun m1); exact Hr1.
Qed.

Lemma applyActionsLive_replaying T r : forall actions m m',
  Replaying T r m -> applyActionsLive E actions m = Ok m' -> Replaying T r m'.
Proof.
  induction actions as [|a rest IH]; intros m m' Hr Hl; cbn [applyActionsLive] in Hl.
  - inversion Hl; subst. exact Hr.
  - match type of Hl with
    | andThen (call ?p ?m1) _ = _ =>
        destruct (call p m1) as [[u m2] | e | ] eqn:Hc; cbn [andThen snd] in Hl;
        try discriminate;
        assert (Hr2 : Replaying T r m2) by (eapply call_replaying; [| exact Hc]; exact Hr)
    end.
    exact (IH _ _ Hr2 Hl).
Qed.

Lemma tickTail_replaying T r recorded m m' stop snap :
  Replaying T r m -> tickTail recorded m = Ok (m', stop, snap) -> Replaying T r m'.
Proof.
  unfold tickTail. intros Hr Hl.
  destruct (stepGame E (theInput m) m) as [mc | e | ] eqn:Hstep;
    cbn [andThen] in Hl; try discriminate.
  apply (stepGame_replaying _ _ _ _ _ Hr) in Hstep. cbv zeta in Hl.
  cbn [game set_acc activeRun] in Hl.
  destruct (State_eqb (state (game mc)) OVER).
  - destruct (activeRun mc); inversion Hl; subst m'; exact Hstep.
  - inversion Hl; subst m'. exact Hstep.
Qed.

Lemma liveTick_replaying T r m m' stop snap :
  Replaying T r m -> liveTick E m = Ok (m', stop, snap) -> Replaying T r m'.
Proof.
  unfold liveTick. cbv zeta. intros Hr Hl.
  destruct (activeRun m) as [r0|] eqn:Har;
    destruct (State_eqb (state (game m)) PLAY) eqn:Hp; cbn [andThen] in Hl.
  - match type of Hl with
    | andThen (applyActionsLive E ?acts ?ma) _ = _ =>
        destruct (applyActionsLive E acts ma) as [mb | e | ] eqn:Hact;
        cbn [andThen] in Hl; try discriminate;
        apply (applyActionsLive_replaying T r) in Hact; [| exact Hr]
    end.
    exact (tickTail_replaying _ _ true _ _ _ _ Hact Hl).
  - exact (tickTail_replaying _ _ false _ _ _ _ Hr Hl).
  - exact (tickTail_replaying _ _ false _ _ _ _ Hr Hl).
  - exact (tickTail_replaying _ _ false _ _ _ _ Hr Hl).
Qed.

Lemma tickLoop_replaying T r : forall n m m' snaps,
  Replaying T r m -> tickLoop E n m = Ok (m', snaps) -> Replaying T r m'.
Proof.
  induction n as [|n IH]; intros m m' snaps Hr Hl; cbn [tickLoop] in Hl.
  - inversion Hl; subst. exact Hr.
  - destruct (leb SIM_DT (acc m)); [| inversion Hl; subst; exact Hr].
    destruct (liveTick E m) as [[[m1 stop] snap] | e | ] eqn:Htick;
      cbn [andThen] in Hl; try discriminate.
    apply (liveTick_replaying _ _ _ _ _ _ Hr) in Htick.
    destruct stop; [inversion Hl; subst; exact Htick|].
    destruct (tickLoop E n m1) as [[m2 rest] | e | ] eqn:Hrest;
      cbn [andThen fst snd] in Hl; try discriminate.
    inversion Hl; subst. exact (IH _ _ _ Htick Hrest).
Qed.

Lemma session_replaying T r : forall steps m m' snaps,
  Replaying T r m -> session E steps m = Ok (m', snaps) -> Replaying T r m'.
Proof.
  induction steps as [|[e | ts] rest IH]; intros m m' snaps Hr Hs; cbn [session] in Hs.
  - inversion Hs; subst. exact Hr.
  - apply (IH (handleEvent e m) m' snaps); [| exact Hs].
    destruct e; cbn [handleEvent]; try exact Hr.
    unfold onAction. destruct (activeRun m); [destruct (State_eqb _ _)|]; exact Hr.
  - destruct (frame E ts m) as [[m1 s1] | e | ] eqn:Hf; cbn [andThen fst snd] in Hs;
      try discriminate.
    destruct (session E rest m1) as [[m2 s2] | e | ] eqn:Hrest;
      cbn [andThen fst snd] in Hs; try discriminate.
    inversion Hs; subst. apply (IH m1 m' s2); [| exact Hrest].
    unfold frame in Hf. cbv zeta in Hf. cbn [replayDriving set_lastTs] in Hf.
    destruct (negb (replayDriving m)).
    + eapply tickLoop_replaying; [| exact Hf]. exact Hr.
    + inversion Hf; subst. exact Hr.
Qed.

(** [playReplay] installs the tape player before it looks whether there is
    a replay to play.  Called for a run that has not ended, it returns
    [null] and leaves game, run and flags as they were, but the recorder of
    the run is gone: the source is now a player of the run's own tape,
    from its first entry, and whatever movement keys, pointer moves, skill
    actions and frames follow - the events of [Event]; a new [startGame]
    would install a new recorder -, no value is recorded on any tape any
    more. *)
Theorem a_replay_asked_too_early_stops_the_recording m r steps m' snaps :
  activeRun m = Some r -> ended r = false ->
  exists m1,
    playReplay E m = Ok (m1, None)
    /\ game m1 = game m /\ activeRun m1 = activeRun m
    /\ replayDriving m1 = replayDriving m /\ acc m1 = acc m
    /\ source (world m1) = SrcPlayer (rngTape r) 0
    /\ (session E steps m1 = Ok (m', snaps) ->
        tapes (world m') = tapes (world m)
        /\ exists i, source (world m') = SrcPlayer (rngTape r) i).
Proof.
  intros Har Hend. unfold playReplay. rewrite Har, Hend. cbn [negb orb]. cbv zeta.
  eexists. split; [reflexivity|].
  cbn [game activeRun replayDriving acc world set_world].
  split; [reflexivity|]. split; [exact Har|]. split; [reflexivity|].
  split; [reflexivity|]. split; [reflexivity|].
  intros Hs.
  apply (session_replaying (tapes (world m)) (rngTape r)) in Hs; [exact Hs|].
  split; [reflexivity | exists 0%nat; reflexivity].
Qed.

End WithEngine.

(** *** The start of a run *)

Lemma pushAt_new v ts : pushAt (List.length ts) v (ts ++ [[]]) = ts ++ [[v]].
Proof.
  induction ts as [|t ts IH]; cbn [pushAt List.length app];
    [reflexivity | rewrite IH; reflexivity].
Qed.

(** [startGame] returns, and begins a fresh recorded run: the game is in
    the PLAY state with no score, combo, pipes, gates or orbs, the
    accumulator is zero and no key is down; the run has the seed, no
    ticks, no pending actions, is not ended and owns a new tape; the
    installed source is the recorder over the generator of the seed, which
    [startRun] has called once, for the orb timer; the new tape holds that
    one value and the tapes of earlier runs are as they were. *)
Theorem startGame_begins_a_fresh_recorded_run seedStr m :
  let tape := List.length (tapes (world m)) in
  let first := Rng.mulberry32 (Rng.createSeededRand seedStr) in
  let o := c_orbs (cfg (game m)) in
  exists m',
    startGame seedStr m = Ok m'
    /\ state (game m') = PLAY /\ score (game m') = 0 /\ combo (game m') = 0
    /\ pipes (game m') = [] /\ gates (game m') = [] /\ orbs (game m') = []
    /\ orbT (game m') = intervalMin o + (intervalMax o - intervalMin o) * snd first
    /\ acc m' = 0 /\ keys m' = noKeys
    /\ activeRun m' = Some (mkRun seedStr [] [] false tape)
    /\ source (world m') = SrcRecorder (fst first) tape 1
    /\ tapes (world m') = tapes (world m) ++ [[snd first]].
Proof.
  intros tape first o. unfold startGame. cbv zeta.
  unfold newTape. cbn [world set_keys]. unfold call.
  cbn [game world set_world set_acc set_activeRun set_keys].
  unfold startRun, _resetRun, bindG, modify, get, randG, lift, rand.
  cbn [bind fst snd run]. unfold callSource, setRandSource, createTapeRandRecorder.
  cbn [source tapes mathRandom mathCalls].
  fold first. destruct first as [a' v] eqn:Hf. cbn [andThen fst snd].
  eexists. split; [reflexivity|].
  cbn [game world set_world set_game acc keys activeRun source tapes].
  rewrite pushAt_new. repeat split.
Qed.

Lemma frame_takes_at_most_seven_steps_witness :
  exists m' snaps,
    frame Ref.refMath 20 Ref.capturedStart = Ok (m', snaps)
    /\ exists k, (k <= 7)%nat
         /\ acc m' == acc Ref.capturedStart
                       + clamp ((20 - lastTs Ref.capturedStart) / 1000) 0 MAX_FRAME
                       - inject_Z (Z.of_nat k) * SIM_DT
         /\ 0 <= acc m'
         /\ (acc m' < SIM_DT \/ state (game m') = OVER)
         /\ (List.length snaps <= k)%nat.
Proof.
  assert (Hrun : exists m' snaps,
             frame Ref.refMath 20 Ref.capturedStart = Ok (m', snaps)).
  { eexists. eexists. vm_compute. reflexivity. }
  destruct Hrun as (m' & snaps & Hrun). exists m', snaps. split; [exact Hrun|].
  apply (frame_takes_at_most_seven_steps Ref.refMath 20 Ref.capturedStart m' snaps);
    [vm_compute; discriminate | reflexivity | reflexivity | exact Hrun].
Defined.

Lemma the_ended_run_is_left_alone_witness :
  exists m',
    session Ref.refMath [Input (EvAction "dash"); Frame 60; Input (EvKey CodeW true); Frame 80]
            Ref.capturedEnd = Ok (m', [])
    /\ sameRecord Ref.capturedEnd m'.
Proof.
  apply (the_ended_run_is_left_alone Ref.refMath). reflexivity.
Defined.

(** The captured run at its start, after a replay was asked for. *)
Definition watchedEarly : Main :=
  set_world (setRandSource (SrcPlayer 0 0) (world Ref.capturedStart)) Ref.capturedStart.

Lemma a_replay_asked_too_early_stops_the_recording_witness :
  playReplay Ref.refMath Ref.capturedStart = Ok (watchedEarly, None)
  /\ source (world watchedEarly) = SrcPlayer 0 0
  /\ tapes (world (handleEvent (EvKey CodeD true) watchedEarly))
     = tapes (world Ref.capturedStart).
Proof.
  destruct (a_replay_asked_too_early_stops_the_recording Ref.refMath Ref.capturedStart
              (mkRun (Rng.codeUnits "x") [] [] false 0) [Input (EvKey CodeD true)]
              (handleEvent (EvKey CodeD true) watchedEarly) []
              eq_refl eq_refl) as (m1 & Hp & _ & _ & _ & _ & Hsrc & Hsess).
  assert (Hq : playReplay Ref.refMath Ref.capturedStart = Ok (watchedEarly, None))
    by reflexivity.
  assert (Hm : m1 = watchedEarly) by congruence. subst m1.
  split; [exact Hq|]. split; [exact Hsrc|].
  apply Hsess. reflexivity.
Defined.

End LoopFacts.

(** ** The score over a step, and the invulnerable player *)

Module ScoreFacts.
Import Util UtilFacts Sim SimFacts Input Game TreeFacts SkillFacts OrbFacts OverFacts
       FrameFacts PlayerFacts.
Local Open Scope Q_scope.
Local Open Scope string_scope.

(** [Grows s m]: whatever [m] returns, the score is no lower than it
    was. *)
Definition Grows {A : Type} (s : bool) (m : GameM A) : Prop :=
  forall g, Holds s (fun r => score g <= score (snd r)) (m g).

Lemma grows_keeps {A} s (m : GameM A) : Keeps s score m -> Grows s m.
Proof.
  intros Hk g. eapply Holds_weaken; [| apply Hk].
  intros r Hr. cbn beta in Hr. rewrite Hr. apply Qle_refl.
Qed.

Lemma grows_bind {A B} s (m : GameM A) (f : A -> GameM B) :
  Grows s m -> (forall a, Grows s (f a)) -> Grows s (bindG m f).
Proof.
  intros Hm Hf g. unfold bindG. apply Holds_bind.
  eapply Holds_weaken; [| apply Hm]. intros [a g'] Hg'. cbn [fst snd] in *.
  eapply Holds_weaken; [| apply Hf]. intros r Hr. cbn beta in Hr.
  eapply Qle_trans; eassumption.
Qed.

Lemma grows_ret {A} s (a : A) : Grows s (ret a).
Proof. intros g. apply Holds_ret. apply Qle_refl. Qed.

Lemma grows_modify s f : (forall g, score g <= score (f g)) -> Grows s (modify f).
Proof. intros Hf g. apply Holds_ret. apply Hf. Qed.

Lemma round_nonneg x : 0 <= x -> 0 <= round x.
Proof.
  intros Hx. unfold round. change 0 with (inject_Z 0). rewrite <- Zle_Qle.
  change 0%Z with (Qfloor 0). apply Qfloor_resp_le. lra.
Qed.

Lemma orbPoints_nonneg g c : 0 <= _orbPoints g c.
Proof.
  unfold _orbPoints. cbv zeta. apply round_nonneg.
  set (b := Qmax 0 (orElse (orbBase (c_scoring (cfg g))) 0)).
  set (k := Qmax 0 (orElse (orbComboBonus (c_scoring (cfg g))) 0)).
  set (n := Qmax 0 (c - 1)).
  assert (Hb : 0 <= b) by apply Q.le_max_l.
  assert (Hk : 0 <= k) by apply Q.le_max_l.
  assert (Hn : 0 <= n) by apply Q.le_max_l.
  pose proof (Qmult_le_0_compat _ _ Hk Hn). lra.
Qed.

Section WithEngine.
Variable E : Engine.

Lemma collectOrb_grows s ob : Grows s (collectOrb E ob).
Proof.
  intros g. destruct s.
  - apply Post_Leaves. eapply Holds_weaken; [| apply (collectOrb_post E ob g)].
    intros r (_ & Hr & _). rewrite Hr.
    pose proof (orbPoints_nonneg g
                  (Qmin (Qmax 1 (orElse (orbComboMax (c_scoring (cfg g))) 30)) (combo g + 1))).
    lra.
  - eapply Holds_weaken; [| apply (collectOrb_post E ob g)].
    intros r (_ & Hr & _). rewrite Hr.
    pose proof (orbPoints_nonneg g
                  (Qmin (Qmax 1 (orElse (orbComboMax (c_scoring (cfg g))) 30)) (combo g + 1))).
    lra.
Qed.

Lemma pickupLoop_grows s : forall revOrbs, Grows s (pickupLoop E revOrbs).
Proof.
  induction revOrbs as [|ob rest IH]; cbn [pickupLoop].
  - apply grows_ret.
  - apply grows_bind; [apply grows_keeps, keeps_get|]. intros g.
    match goal with |- context [if ?b then _ else _] => destruct b end.
    + apply grows_bind; [apply collectOrb_grows | intros _; exact IH].
    + apply grows_bind; [exact IH | intros kept; apply grows_ret].
Qed.

Lemma orbPickup_grows s : Grows s (orbPickup E).
Proof.
  unfold orbPickup. apply grows_bind; [apply grows_keeps, keeps_get|]. intros g.
  apply grows_bind; [apply pickupLoop_grows|]. intros kept.
  apply grows_modify. intros g0. apply Qle_refl.
Qed.

Lemma perfectGate_grows s bonus wS gt : 0 <= bonus -> Grows s (perfectGate E bonus wS gt).
Proof.
  intros Hb. unfold perfectGate. destruct (gate_cleared gt); [apply grows_ret|].
  apply grows_bind; [apply grows_keeps, keeps_get|]. intros g. cbv zeta.
  match goal with |- context [if Gate_crossed ?a ?b then _ else _] =>
    destruct (Gate_crossed a b) end; [| apply grows_ret].
  apply grows_bind; [| intros _; apply grows_ret].
  match goal with |- context [if leb ?a ?b then _ else _] => destruct (leb a b) end;
    [| apply grows_ret].
  apply grows_bind.
  { apply grows_modify. intros g0. cbn [score set_score set_perfectT set_perfectMax]. lra. }
  intros _. apply grows_keeps.
  apply keeps_bind; [apply keeps_lift, newFloatText_total|]. intros t.
  apply keeps_bind; [apply pushFloat_keeps; intros; reflexivity|]. intros _.
  apply keeps_forN. intros i. apply perfectParticle_keeps; intros; reflexivity.
Qed.

Lemma perfectLoop_grows s bonus wS : 0 <= bonus ->
  forall todo, Grows s (perfectLoop E bonus wS todo).
Proof.
  intros Hb. induction todo as [|gt rest IH]; cbn [perfectLoop].
  - apply grows_ret.
  - apply grows_bind; [apply perfectGate_grows; exact Hb|]. intros gt'.
    apply grows_bind; [exact IH|]. intros rest'. apply grows_ret.
Qed.

Lemma gatesAndPerfect_grows s dt : Grows s (gatesAndPerfect E dt).
Proof.
  unfold gatesAndPerfect.
  apply grows_bind; [apply grows_modify; intros g; apply Qle_refl|]. intros _.
  apply grows_bind; [apply grows_keeps, keeps_get|]. intros g.
  destruct (perfect_enabled (c_scoring (cfg g))); [| apply grows_ret]. cbv zeta.
  apply grows_bind; [apply perfectLoop_grows, Q.le_max_l|]. intros gs.
  apply grows_modify. intros g0. apply Qle_refl.
Qed.

Lemma sweepPipes_grows W H m dodge : 0 <= dodge ->
  forall ps sc, sc <= snd (sweepPipes W H m dodge ps sc).
Proof.
  intros Hd. induction ps as [|p rest IH]; intros sc; cbn [sweepPipes snd].
  - apply Qle_refl.
  - destruct (Pipe_off W H m p).
    + destruct (pipe_scored p); [apply IH|].
      eapply Qle_trans; [| apply IH]. lra.
    + specialize (IH sc). destruct (sweepPipes W H m dodge rest sc) as [kept sc'].
      exact IH.
Qed.

Lemma finish_grows dt g : score g <= score (finish E dt g).
Proof.
  unfold finish, applyCaps, updateFx, removeOffField. cbv zeta.
  pose proof (sweepPipes_grows (W g) (H g) (_margin g)
                (Qmax 0 (orElse (pipeDodge (c_scoring (cfg g))) 0)) (Q.le_max_l _ _)
                (List.rev (pipes g)) (score g)) as Hs.
  destruct (sweepPipes (W g) (H g) (_margin g)
              (Qmax 0 (orElse (pipeDodge (c_scoring (cfg g))) 0))
              (List.rev (pipes g)) (score g)) as [kept sc].
  exact Hs.
Qed.

Lemma tickTimers_score dt g : score (tickTimers dt g) = score g.
Proof.
  unfold tickTimers, _tickCooldowns. cbv zeta.
  repeat match goal with
         | |- context [if ?b then _ else _] => destruct b
         | |- context [match ?o with Some _ => _ | None => _ end] => destruct o
         end; reflexivity.
Qed.

Lemma advance_grows inp tid dt : Grows true (advance E inp tid dt).
Proof.
  unfold advance.
  apply grows_bind;
    [apply grows_modify; intros g; rewrite tickTimers_score; apply Qle_refl|]. intros _.
  apply grows_bind; [apply grows_modify; intros g; apply Qle_refl|]. intros _.
  apply grows_bind; [apply grows_keeps, emitTrail_keeps; intros; reflexivity|]. intros _.
  apply grows_bind; [apply grows_keeps, comboSparkles_keeps; intros; reflexivity|]. intros _.
  apply grows_bind; [apply grows_keeps, spawnPipes_keeps; intros; reflexivity|]. intros _.
  apply grows_bind; [apply grows_keeps, specialPatterns_keeps; intros; reflexivity|].
  intros _.
  apply grows_bind; [apply grows_keeps, spawnOrbs_keeps; intros; reflexivity|]. intros _.
  apply grows_bind; [apply gatesAndPerfect_grows|]. intros _.
  apply grows_bind; [apply grows_modify; intros g; apply Qle_refl|]. intros _.
  apply grows_bind; [apply grows_keeps, orbsExpire_keeps; intros; reflexivity|]. intros _.
  apply orbPickup_grows.
Qed.

(** Whatever the configuration, a step never lowers the score: the
    points for an orb, for a pipe that leaves the field and for a perfect
    pass are cut at zero before they are added. *)
Theorem the_score_never_goes_down inp tid dt g :
  Leaves (fun r => score g <= score (snd r)) (update E inp tid dt g).
Proof.
  assert (Hu : Grows true (update E inp tid dt)); [| exact (Hu g)].
  unfold update.
  apply grows_bind; [apply grows_keeps, keeps_get|]. intros g0.
  destruct (State_eqb (state g0) OVER); [apply grows_ret|].
  apply grows_bind; [apply grows_keeps, bgDrift_keeps; intros; reflexivity|]. intros _.
  apply grows_bind; [apply grows_keeps, keeps_get|]. intros g1.
  destruct (negb (State_eqb (state g1) PLAY)); [apply grows_ret|].
  apply grows_bind; [apply advance_grows|]. intros _.
  apply grows_bind; [apply grows_keeps, keeps_get|]. intros g2.
  destruct (collides g2).
  - apply grows_bind; [apply grows_modify; intros g3; apply Qle_refl|]. intros _.
    apply grows_ret.
  - apply grows_bind; [apply grows_modify; intros g3; apply finish_grows|]. intros _.
    apply grows_ret.
Qed.

Lemma updatePlayer_invT inp dt g :
  invT (player (_updatePlayer E inp dt g)) = invT (playerTimers dt (player g)).
Proof.
  unfold _updatePlayer, moveAndClamp, steer, rememberDirection. cbv zeta.
  cbn [player set_player].
  repeat match goal with
         | |- context [if ?b then _ else _] => destruct b
         end; reflexivity.
Qed.

Lemma playerTimers_invT dt p :
  0 <= dt -> dt < invT p -> invT (playerTimers dt p) == invT p - dt.
Proof.
  intros H0 Hlt. unfold playerTimers.
  assert (Hpos : ltb 0 (invT p) = true) by (apply ltb_lt; lra).
  rewrite Hpos. cbv zeta.
  assert (Hi : invT (set_invT (Qmax 0 (invT p - dt)) p) = Qmax 0 (invT p - dt))
    by reflexivity.
  destruct (ltb 0 (dashT (set_invT (Qmax 0 (invT p - dt)) p)));
    [change (invT (set_dashT ?v ?q)) with (invT q)|]; rewrite Hi;
    apply Q.max_r; lra.
Qed.

(** While the invulnerability lasts longer than the step, the step does
    not end the run, whatever pipes lie over the player: the callback is
    not called, the state stays PLAY, and the invulnerability left is
    shorter by the step. *)
Theorem an_invulnerable_player_is_not_hit inp tid dt g :
  state g = PLAY -> 0 <= dt -> dt < invT (player g) ->
  Leaves (fun r => fst r = None /\ state (snd r) = PLAY
                   /\ invT (player (snd r)) == invT (player g) - dt)
         (update E inp tid dt g).
Proof.
  intros Hplay H0 Hlt. unfold update. exec. rewrite Hplay. cbn [State_eqb].
  unfold bindG at 1. apply Holds_bind.
  eapply Holds_weaken; [| apply (bgDrift_exact true)].
  intros [u0 g0] [ds Hg0]. cbn [fst snd] in *. subst g0. exec.
  change (state (set_bgDots ds g)) with (state g). rewrite Hplay. cbn [State_eqb negb].
  unfold bindG at 1. apply Holds_bind.
  eapply Holds_weaken;
    [| apply (advance_keeps E (fun g => (state g, invT (player g)))); intros; reflexivity].
  intros [u1 g1] Hp1. cbn [fst snd] in *.
  apply pair_equal_spec in Hp1. destruct Hp1 as [Hst Hinv].
  rewrite updatePlayer_invT in Hinv.
  destruct (tickTimers_player dt (set_bgDots ds g)) as (Hpl & _ & _ & _ & Hst2).
  rewrite Hpl in Hinv. change (player (set_bgDots ds g)) with (player g) in Hinv.
  change (state (_updatePlayer E inp dt (tickTimers dt (set_bgDots ds g))))
    with (state (tickTimers dt (set_bgDots ds g))) in Hst.
  rewrite Hst2 in Hst. change (state (set_bgDots ds g)) with (state g) in Hst.
  pose proof (playerTimers_invT dt (player g) H0 Hlt) as Hleft.
  rewrite <- Hinv in Hleft.
  assert (Hc : collides g1 = false).
  { unfold collides. apply andb_false_iff. left. apply leb_gt. lra. }
  exec. rewrite Hc. exec. cbn [fst snd].
  split; [reflexivity|].
  assert (Hf : (state (finish E dt g1), invT (player (finish E dt g1)))
               = (state g1, invT (player g1))).
  { apply (finish_keeps E (fun g => (state g, invT (player g)))); intros; reflexivity. }
  apply pair_equal_spec in Hf. destruct Hf as [Hf1 Hf2]. rewrite Hf1, Hf2.
  split; [congruence | exact Hleft].
Qed.

End WithEngine.

Lemma an_invulnerable_player_is_not_hit_witness :
  Leaves (fun r => fst r = None /\ state (snd r) = PLAY
                   /\ invT (player (snd r)) == invT (player Ref.crowdedGame) - (1 / 120))
         (update Ref.refMath Ref.idleInput "classic" (1 / 120) Ref.crowdedGame).
Proof.
  apply (an_invulnerable_player_is_not_hit Ref.refMath Ref.idleInput "classic" (1 / 120)
           Ref.crowdedGame); [reflexivity | vm_compute; discriminate | reflexivity].
Defined.

End ScoreFacts.

(** ** util.js: escaped text *)

Module HtmlFacts.
Import Rng Html.
Local Open Scope string_scope.
Local Open Scope list_scope.
Local Open Scope Z_scope.

(** What one code unit becomes. *)
Definition escapeChar (c : Z) : Str :=
  if c =? AMP then codeUnits "&amp;"
  else if c =? LT then codeUnits "&lt;"
  else if c =? GT then codeUnits "&gt;"
  else if c =? QUOT then codeUnits "&quot;"
  else if c =? APOS then codeUnits "&#39;"
  else [c].

Definition special (c : Z) : Prop :=
  c = AMP \/ c = LT \/ c = GT \/ c = QUOT \/ c = APOS.

Lemma replaceAll_app c by' s t :
  replaceAll c by' (s ++ t) = (replaceAll c by' s ++ replaceAll c by' t)%list.
Proof.
  induction s as [|a s IH]; cbn [replaceAll app]; [reflexivity|].
  destruct (a =? c); rewrite IH; [apply app_assoc | reflexivity].
Qed.

Lemma replaceAll_cons c by' a s :
  replaceAll c by' (a :: s) = (replaceAll c by' [a] ++ replaceAll c by' s)%list.
Proof. apply (replaceAll_app c by' [a] s). Qed.

Lemma escapeHtml_app s t : escapeHtml (s ++ t) = (escapeHtml s ++ escapeHtml t)%list.
Proof. unfold escapeHtml. rewrite !replaceAll_app. reflexivity. Qed.

Lemma escapeHtml_single a : escapeHtml [a] = escapeChar a.
Proof.
  unfold escapeHtml, escapeChar. cbn [replaceAll].
  destruct (Z.eqb_spec a AMP) as [->|Ha]; [reflexivity|].
  cbn [replaceAll].
  destruct (Z.eqb_spec a LT) as [->|Hl]; [reflexivity|].
  cbn [replaceAll].
  destruct (Z.eqb_spec a GT) as [->|Hg]; [reflexivity|].
  cbn [replaceAll].
  destruct (Z.eqb_spec a QUOT) as [->|Hq]; [reflexivity|].
  cbn [replaceAll].
  destruct (Z.eqb_spec a APOS) as [->|Hp]; reflexivity.
Qed.

Lemma escapeHtml_cons a s : escapeHtml (a :: s) = (escapeChar a ++ escapeHtml s)%list.
Proof. rewrite <- escapeHtml_single. apply (escapeHtml_app [a] s). Qed.

Lemma escapeChar_safe a :
  Forall (fun c => c <> LT /\ c <> GT /\ c <> QUOT /\ c <> APOS) (escapeChar a).
Proof.
  unfold escapeChar.
  destruct (Z.eqb_spec a AMP); [repeat constructor; discriminate|].
  destruct (Z.eqb_spec a LT); [repeat constructor; discriminate|].
  destruct (Z.eqb_spec a GT); [repeat constructor; discriminate|].
  destruct (Z.eqb_spec a QUOT); [repeat constructor; discriminate|].
  destruct (Z.eqb_spec a APOS); [repeat constructor; discriminate|].
  repeat constructor; assumption.
Qed.

Lemma escapeChar_plain a : ~ special a -> escapeChar a = [a].
Proof.
  unfold special, escapeChar. intros Hs.
  destruct (Z.eqb_spec a AMP); [tauto|].
  destruct (Z.eqb_spec a LT); [tauto|].
  destruct (Z.eqb_spec a GT); [tauto|].
  destruct (Z.eqb_spec a QUOT); [tauto|].
  destruct (Z.eqb_spec a APOS); [tauto|]. reflexivity.
Qed.

(** The five replacements one after the other do what one pass over the
    text does that puts an entity for each of the five characters: an
    ampersand that a later replacement puts in is not escaped again.  The
    escaped text holds none of [<], [>], the double quote and ['], the
    text of two pieces is escaped piece by piece, and a text without the
    five characters is returned as it is. *)
Theorem escapeHtml_is_one_pass_and_safe (s t : Str) :
  escapeHtml s = List.flat_map escapeChar s
  /\ Forall (fun c => c <> LT /\ c <> GT /\ c <> QUOT /\ c <> APOS) (escapeHtml s)
  /\ escapeHtml (s ++ t) = (escapeHtml s ++ escapeHtml t)%list
  /\ (Forall (fun c => ~ special c) s -> escapeHtml s = s).
Proof.
  split; [| split; [| split]].
  - induction s as [|a s IH]; [reflexivity|].
    rewrite escapeHtml_cons, IH. reflexivity.
  - induction s as [|a s IH]; [constructor|].
    rewrite escapeHtml_cons. apply Forall_app. split; [apply escapeChar_safe | exact IH].
  - apply escapeHtml_app.
  - induction 1 as [|a s Ha Hs IH]; [reflexivity|].
    rewrite escapeHtml_cons, IH, (escapeChar_plain a Ha). reflexivity.
Qed.

(** The head of an escaped character tells the character. *)
Lemma escapeChar_heads a b u v :
  (escapeChar a ++ u)%list = (escapeChar b ++ v)%list -> a = b /\ u = v.
Proof.
  unfold escapeChar.
  destruct (Z.eqb_spec a AMP) as [->|Ha];
    [| destruct (Z.eqb_spec a LT) as [->|Hl];
       [| destruct (Z.eqb_spec a GT) as [->|Hg];
          [| destruct (Z.eqb_spec a QUOT) as [->|Hq];
             [| destruct (Z.eqb_spec a APOS) as [->|Hp]]]]];
    (destruct (Z.eqb_spec b AMP) as [->|Hb];
     [| destruct (Z.eqb_spec b LT) as [->|Hbl];
        [| destruct (Z.eqb_spec b GT) as [->|Hbg];
           [| destruct (Z.eqb_spec b QUOT) as [->|Hbq];
              [| destruct (Z.eqb_spec b APOS) as [->|Hbp]]]]]);
    cbn; intros Heq; inversion Heq; subst; try (split; reflexivity);
    try discriminate; try contradiction; exfalso; auto.
Qed.

(** Escaping loses nothing: two texts have the same escaped text only if
    they are the same text. *)
Theorem escapeHtml_is_injective (s t : Str) : escapeHtml s = escapeHtml t <-> s = t.
Proof.
  split; [| intros ->; reflexivity].
  revert t. induction s as [|a s IH]; intros [|b t] Heq.
  - reflexivity.
  - rewrite escapeHtml_cons in Heq. change (escapeHtml []) with (@nil Z) in Heq.
    exfalso. unfold escapeChar in Heq.
    repeat match type of Heq with
           | context [if ?c then _ else _] => destruct c
           end; discriminate.
  - rewrite escapeHtml_cons in Heq. change (escapeHtml []) with (@nil Z) in Heq.
    exfalso. unfold escapeChar in Heq.
    repeat match type of Heq with
           | context [if ?c then _ else _] => destruct c
           end; discriminate.
  - rewrite !escapeHtml_cons in Heq. apply escapeChar_heads in Heq.
    destruct Heq as [-> Hrest]. f_equal. apply IH. exact Hrest.
Qed.

End HtmlFacts.

(** ** keybinds.js: binds that stay apart *)

Module KeybindFacts.
Import Rng Html Keybinds.
Local Open Scope string_scope.
Local Open Scope list_scope.
Local Open Scope Z_scope.

Definition keys (o : Binds) : list string := List.map fst o.

(** Every action has a bind. *)
Definition allBound (o : Binds) : Prop := Forall (fun kv => snd kv <> None) o.

(** No two actions have the same bind. *)
Definition distinct (o : Binds) : Prop :=
  forall a b, In a (keys o) -> In b (keys o) ->
              bindEquals (lookup a o) (lookup b o) = true -> a = b.

Definition wellFormed (b : Bind) : Prop :=
  match b with
  | KeyBind code =>
      (1 <= List.length code <= 32)%nat /\ Forall (fun c => isAlnum c = true) code
  | MouseBind button => 0 <= button <= 2
  end.

Lemma Str_eqb_eq a b : Str_eqb a b = true <-> a = b.
Proof. unfold Str_eqb. destruct (list_eq_dec Z.eq_dec a b); split; congruence. Qed.

Lemma isAlnum_not_white c : isAlnum c = true -> isWhiteSpace c = false.
Proof.
  intros Ha. destruct (isWhiteSpace c) eqn:Hw; [| reflexivity]. exfalso.
  unfold isAlnum, isWhiteSpace in *.
  repeat rewrite ?orb_true_iff, ?andb_true_iff, ?Z.eqb_eq, ?Z.leb_le in Ha, Hw. lia.
Qed.

Lemma trimStart_alnum s : Forall (fun c => isAlnum c = true) s -> trimStart s = s.
Proof.
  intros Hs. destruct Hs as [|c s Hc Hs]; [reflexivity|].
  cbn [trimStart]. rewrite (isAlnum_not_white c Hc). reflexivity.
Qed.

Lemma trim_alnum s : Forall (fun c => isAlnum c = true) s -> trim s = s.
Proof.
  intros Hs. unfold trim. rewrite (trimStart_alnum s Hs).
  rewrite trimStart_alnum by (apply Forall_rev; exact Hs). apply rev_involutive.
Qed.

(** What [normalizeBind] lets through is well formed - a key code of one
    to thirty-two letters and digits, a button from 0 to 2 - and is
    returned as it is when it is normalized again. *)
Theorem normalizeBind_is_idempotent b b' :
  normalizeBind b = Some b' -> wellFormed b' /\ normalizeBind b' = Some b'.
Proof.
  destruct b as [code | btn]; cbn [normalizeBind]; cbv zeta.
  - destruct ((List.length (trim code) =? 0)%nat || (32 <? List.length (trim code))%nat)
      eqn:Hlen; [discriminate|].
    destruct (alnumOnly (trim code)) eqn:Hal; cbn [negb]; [| discriminate].
    intros Hb. inversion Hb; subst b'. clear Hb.
    apply orb_false_iff in Hlen. destruct Hlen as [Hl0 Hl32].
    apply Nat.eqb_neq in Hl0. apply Nat.ltb_ge in Hl32.
    unfold alnumOnly in Hal. apply andb_true_iff in Hal. destruct Hal as [_ Hall].
    assert (HF : Forall (fun c => isAlnum c = true) (trim code)).
    { apply Forall_forall. apply forallb_forall. exact Hall. }
    split.
    + cbn [wellFormed]. split; [lia | exact HF].
    + cbn [normalizeBind]. cbv zeta. rewrite (trim_alnum _ HF).
      destruct (Nat.eqb_spec (List.length (trim code)) 0) as [He|_]; [contradiction|].
      destruct (Nat.ltb_spec 32 (List.length (trim code))) as [Hgt|_]; [lia|].
      cbn [orb]. unfold alnumOnly. rewrite Hall.
      destruct (Nat.eqb_spec (List.length (trim code)) 0) as [He|_]; [contradiction|].
      reflexivity.
  - destruct ((btn <? 0) || (2 <? btn)) eqn:Hr; [discriminate|].
    intros Hb. inversion Hb; subst b'. cbn [wellFormed normalizeBind]. rewrite Hr.
    apply orb_false_iff in Hr. destruct Hr as [H0 H2].
    apply Z.ltb_ge in H0. apply Z.ltb_ge in H2. split; [lia | reflexivity].
Qed.

Lemma lookup_assign a k v o :
  lookup a (assign k v o) = if (k =? a)%string then v else lookup a o.
Proof.
  induction o as [|[k' v'] o IH]; cbn [assign lookup].
  - reflexivity.
  - destruct (String.eqb_spec k' k) as [->|Hk]; cbn [lookup].
    + destruct (k =? a)%string; reflexivity.
    + destruct (String.eqb_spec k' a) as [->|Ha].
      * destruct (String.eqb_spec k a) as [->|_]; [contradiction | reflexivity].
      * exact IH.
Qed.

Lemma keys_assign k v o : In k (keys o) -> keys (assign k v o) = keys o.
Proof.
  induction o as [|[k' v'] o IH]; cbn [assign keys List.map fst In]; [contradiction|].
  intros Hin. destruct (String.eqb_spec k' k) as [->|Hk]; cbn [List.map fst].
  - reflexivity.
  - f_equal. apply IH. destruct Hin as [He|Hin]; [contradiction | exact Hin].
Qed.

Lemma allBound_assign k v o : allBound o -> v <> None -> allBound (assign k v o).
Proof.
  intros Ho Hv. induction Ho as [|[k' v'] o Hk Ho IH]; cbn [assign].
  - constructor; [exact Hv | constructor].
  - destruct (k' =? k)%string; constructor; assumption.
Qed.

Lemma lookup_bound a o : allBound o -> In a (keys o) -> lookup a o <> None.
Proof.
  intros Ho. induction Ho as [|[k' v'] o Hk Ho IH]; cbn [keys List.map fst In lookup];
    [contradiction|].
  intros Hin. destruct (String.eqb_spec k' a) as [->|Hne]; [exact Hk|].
  apply IH. destruct Hin as [He|Hin]; [contradiction | exact Hin].
Qed.

Lemma lookup_missing a o : ~ In a (keys o) -> lookup a o = None.
Proof.
  induction o as [|[k' v'] o IH]; cbn [keys List.map fst In lookup]; [reflexivity|].
  intros Hin. destruct (String.eqb_spec k' a) as [->|Hne]; [tauto|].
  apply IH. tauto.
Qed.

Lemma cloneBinds_bound o : allBound o -> cloneBinds o = o.
Proof.
  intros Ho. unfold cloneBinds. induction Ho as [|[k' v'] o Hk Ho IH]; cbn [List.filter snd];
    [reflexivity|].
  cbn [snd] in Hk. destruct v'; [| contradiction]. rewrite IH. reflexivity.
Qed.

(** The action, other than [actionId], that holds the new bind. *)
Definition holder (binds : Binds) (actionId : string) (nb : Bind) : option string :=
  List.find (fun a => negb (a =? actionId)%string
                      && Str_eqb (bindToken (lookup a binds)) (bindToken (Some nb)))
            (keys binds).

Lemma applyRebindWithSwap_bound binds actionId newBind nb :
  allBound binds -> normalizeBind newBind = Some nb ->
  applyRebindWithSwap binds actionId newBind
  = mkRebound
      (match holder binds actionId nb with
       | Some a => if (a =? EmptyString)%string
                   then assign actionId (Some nb) binds
                   else assign a (lookup actionId binds) (assign actionId (Some nb) binds)
       | None => assign actionId (Some nb) binds
       end) true (holder binds actionId nb).
Proof.
  intros Hb Hn. unfold applyRebindWithSwap. rewrite Hn. cbv zeta.
  rewrite (cloneBinds_bound binds Hb). reflexivity.
Qed.

Lemma holder_some binds actionId nb o :
  holder binds actionId nb = Some o ->
  In o (keys binds) /\ o <> actionId
  /\ bindToken (lookup o binds) = bindToken (Some nb).
Proof.
  unfold holder. intros Hf. apply find_some in Hf. destruct Hf as [Hin Hf].
  apply andb_true_iff in Hf. destruct Hf as [Hne Heq].
  split; [exact Hin|]. split.
  - intros ->. rewrite String.eqb_refl in Hne. discriminate.
  - apply Str_eqb_eq. exact Heq.
Qed.

Lemma holder_none binds actionId nb a :
  holder binds actionId nb = None -> In a (keys binds) -> a <> actionId ->
  bindToken (lookup a binds) <> bindToken (Some nb).
Proof.
  unfold holder. intros Hf Hin Hne Heq.
  pose proof (find_none _ _ Hf a Hin) as Hfa. cbn beta in Hfa.
  apply String.eqb_neq in Hne. rewrite Hne in Hfa. cbn [negb andb] in Hfa.
  apply Str_eqb_eq in Heq. congruence.
Qed.

(** Two actions with the same bind are the same action; the rest is by
    equalities. *)
Ltac apart x y :=
  let H := fresh "H" in
  assert (H : x = y)
    by (match goal with
        | Hd : forall a b, In a _ -> In b _ -> _ -> a = b |- _ =>
            apply Hd; [assumption | assumption | apply Str_eqb_eq; congruence]
        end);
  congruence.

(** A rebind keeps the binds apart.  When every action is bound, no two
    actions have the same bind, no action has the empty name and
    [actionId] is one of the actions, a bind that [normalizeBind] lets
    through becomes the bind of [actionId]; the action that held it before,
    if there is one, takes the old bind of [actionId]; every other action
    keeps its bind; the actions are the same, all bound, no two alike. *)
Theorem a_rebind_swaps_and_keeps_the_binds_apart binds actionId newBind nb :
  allBound binds -> distinct binds ->
  In actionId (keys binds) -> ~ In EmptyString (keys binds) ->
  normalizeBind newBind = Some nb ->
  let r := applyRebindWithSwap binds actionId newBind in
  rb_changed r = true
  /\ keys (rb_binds r) = keys binds
  /\ allBound (rb_binds r) /\ distinct (rb_binds r)
  /\ lookup actionId (rb_binds r) = Some nb
  /\ (forall o, rb_swappedWith r = Some o ->
        o <> actionId /\ bindEquals (lookup o binds) (Some nb) = true
        /\ lookup o (rb_binds r) = lookup actionId binds)
  /\ (forall a, a <> actionId -> rb_swappedWith r <> Some a ->
        lookup a (rb_binds r) = lookup a binds).
Proof.
  intros Hb Hd Hin Hne Hn r. subst r.
  rewrite (applyRebindWithSwap_bound binds actionId newBind nb Hb Hn).
  cbn [rb_binds rb_changed rb_swappedWith].
  assert (Hprev : lookup actionId binds <> None) by (apply lookup_bound; assumption).
  assert (Hnb : Some nb <> None) by discriminate.
  unfold distinct, bindEquals in *.
  destruct (holder binds actionId nb) as [o|] eqn:Hh.
  - destruct (holder_some _ _ _ _ Hh) as (Ho & Hoa & Htok).
    destruct (String.eqb_spec o EmptyString) as [->|Hoe]; [contradiction|].
    assert (Hk : keys (assign o (lookup actionId binds) (assign actionId (Some nb) binds))
                 = keys binds).
    { rewrite keys_assign; [apply keys_assign; exact Hin|].
      rewrite keys_assign by exact Hin. exact Ho. }
    assert (Hl : forall a,
               lookup a (assign o (lookup actionId binds) (assign actionId (Some nb) binds))
               = if (o =? a)%string then lookup actionId binds
                 else if (actionId =? a)%string then Some nb else lookup a binds).
    { intros a. rewrite !lookup_assign. reflexivity. }
    split; [reflexivity|]. split; [exact Hk|].
    split; [apply allBound_assign; [apply allBound_assign|]; assumption|].
    split.
    { intros a b Ha Hb'. rewrite Hk in Ha, Hb'. rewrite !Hl.
      destruct (String.eqb_spec o a) as [Eoa|Noa];
        destruct (String.eqb_spec o b) as [Eob|Nob];
        destruct (String.eqb_spec actionId a) as [Eaa|Naa];
        destruct (String.eqb_spec actionId b) as [Eab|Nab];
        intros He; apply Str_eqb_eq in He; try congruence;
        first [ apart o actionId | apart actionId b | apart a actionId
              | apart o b | apart a o | apart a b ]. }
    split.
    { rewrite Hl. destruct (String.eqb_spec o actionId) as [->|_]; [contradiction|].
      rewrite String.eqb_refl. reflexivity. }
    split.
    { intros o' Ho'. inversion Ho'; subst o'. split; [exact Hoa|].
      split; [apply Str_eqb_eq; exact Htok|].
      rewrite Hl, String.eqb_refl. reflexivity. }
    intros a Haa Hsw. rewrite Hl.
    destruct (String.eqb_spec o a) as [->|_]; [congruence|].
    destruct (String.eqb_spec actionId a) as [->|_]; [contradiction | reflexivity].
  - assert (Hk : keys (assign actionId (Some nb) binds) = keys binds)
      by (apply keys_assign; exact Hin).
    split; [reflexivity|]. split; [exact Hk|].
    split; [apply allBound_assign; assumption|].
    split.
    { intros a b Ha Hb'. rewrite Hk in Ha, Hb'. rewrite !lookup_assign.
      destruct (String.eqb_spec actionId a) as [<-|Haa];
        destruct (String.eqb_spec actionId b) as [<-|Hab]; try reflexivity;
        intros He; apply Str_eqb_eq in He.
      - exfalso. apply (holder_none _ _ _ b Hh Hb'); congruence.
      - exfalso. apply (holder_none _ _ _ a Hh Ha); congruence.
      - apply (Hd a b Ha Hb'). apply Str_eqb_eq. exact He. }
    split; [rewrite lookup_assign, String.eqb_refl; reflexivity|].
    split; [intros o Ho; discriminate|].
    intros a Haa _. rewrite lookup_assign.
    destruct (String.eqb_spec actionId a) as [->|_]; [contradiction | reflexivity].
Qed.

(** The name of an action that is not among the binds, and is not a name
    every object inherits ([constructor], [toString] and the like, for
    which [out[actionId]] is not [undefined]): the new bind is added under
    that name, and the action that held it is left without a bind. *)
Theorem a_rebind_of_an_unknown_action_unbinds_the_holder binds actionId newBind nb o :
  allBound binds -> ~ In actionId (keys binds) ->
  ~ In actionId inheritedNames ->
  normalizeBind newBind = Some nb ->
  rb_swappedWith (applyRebindWithSwap binds actionId newBind) = Some o ->
  o <> EmptyString ->
  In o (keys binds)
  /\ lookup o (rb_binds (applyRebindWithSwap binds actionId newBind)) = None
  /\ lookup actionId (rb_binds (applyRebindWithSwap binds actionId newBind)) = Some nb.
Proof.
  intros Hb Hin _ Hn. rewrite (applyRebindWithSwap_bound binds actionId newBind nb Hb Hn).
  cbn [rb_binds rb_swappedWith]. intros Hh Hoe. rewrite Hh.
  destruct (holder_some _ _ _ _ Hh) as (Ho & Hoa & _).
  destruct (String.eqb_spec o EmptyString) as [->|_]; [contradiction|].
  split; [exact Ho|]. rewrite !lookup_assign, String.eqb_refl.
  split; [apply lookup_missing; exact Hin|].
  destruct (String.eqb_spec o actionId) as [->|_]; [contradiction|].
  rewrite String.eqb_refl. reflexivity.
Qed.

Lemma normalizeBind_is_idempotent_witness :
  wellFormed (KeyBind (codeUnits "KeyQ"))
  /\ normalizeBind (KeyBind (codeUnits "KeyQ")) = Some (KeyBind (codeUnits "KeyQ")).
Proof.
  apply (normalizeBind_is_idempotent (KeyBind (codeUnits "  KeyQ "))). reflexivity.
Defined.

(** The default binds with the dash on the key of the phase. *)
Definition dashOnQ : Rebound :=
  applyRebindWithSwap DEFAULT_KEYBINDS "dash" (KeyBind (codeUnits " KeyQ")).

Lemma a_rebind_swaps_and_keeps_the_binds_apart_witness :
  rb_changed dashOnQ = true
  /\ keys (rb_binds dashOnQ) = keys DEFAULT_KEYBINDS
  /\ allBound (rb_binds dashOnQ) /\ distinct (rb_binds dashOnQ)
  /\ lookup "dash" (rb_binds dashOnQ) = Some (KeyBind (codeUnits "KeyQ"))
  /\ (forall o, rb_swappedWith dashOnQ = Some o ->
        o <> "dash" /\ bindEquals (lookup o DEFAULT_KEYBINDS)
                                  (Some (KeyBind (codeUnits "KeyQ"))) = true
        /\ lookup o (rb_binds dashOnQ) = lookup "dash" DEFAULT_KEYBINDS)
  /\ (forall a, a <> "dash" -> rb_swappedWith dashOnQ <> Some a ->
        lookup a (rb_binds dashOnQ) = lookup a DEFAULT_KEYBINDS).
Proof.
  apply (a_rebind_swaps_and_keeps_the_binds_apart DEFAULT_KEYBINDS "dash"
           (KeyBind (codeUnits " KeyQ")) (KeyBind (codeUnits "KeyQ"))).
  - repeat constructor; discriminate.
  - intros a b Ha Hb.
    cbn in Ha, Hb.
    destruct Ha as [<-|[<-|[<-|[<-|[]]]]]; destruct Hb as [<-|[<-|[<-|[<-|[]]]]];
      intros He; try reflexivity; vm_compute in He; discriminate.
  - cbn. auto.
  - cbn. intros [H|[H|[H|[H|[]]]]]; discriminate.
  - reflexivity.
Defined.

Lemma a_rebind_of_an_unknown_action_unbinds_the_holder_witness :
  In "phase" (keys DEFAULT_KEYBINDS)
  /\ lookup "phase" (rb_binds (applyRebindWithSwap DEFAULT_KEYBINDS "jump"
                                 (KeyBind (codeUnits "KeyQ")))) = None
  /\ lookup "jump" (rb_binds (applyRebindWithSwap DEFAULT_KEYBINDS "jump"
                                (KeyBind (codeUnits "KeyQ"))))
     = Some (KeyBind (codeUnits "KeyQ")).
Proof.
  apply (a_rebind_of_an_unknown_action_unbinds_the_holder DEFAULT_KEYBINDS "jump"
           (KeyBind (codeUnits "KeyQ")) (KeyBind (codeUnits "KeyQ")) "phase").
  - repeat constructor; discriminate.
  - cbn. intros [H|[H|[H|[H|[]]]]]; discriminate.
  - unfold inheritedNames. cbn [In].
    intros H; repeat (destruct H as [H|H]; [discriminate|]); exact H.
  - reflexivity.
  - reflexivity.
  - discriminate.
Defined.

End KeybindFacts.

(** ** main.js: unlocked trails *)

Module TrailFacts.
Import Util UtilFacts GeometryFacts Trails.
Local Open Scope string_scope.
Local Open Scope Q_scope.

Lemma toInt_small x :
  0 <= x -> x < inject_Z Int32.two31 -> toInt x = Qfloor x /\ (0 <= Qfloor x)%Z.
Proof.
  intros H0 Hlt. unfold toInt. rewrite (truncZ_nonneg x H0).
  assert (Hf0 : (0 <= Qfloor x)%Z).
  { change 0%Z with (Qfloor 0). apply Qfloor_resp_le. exact H0. }
  assert (Hf1 : (Qfloor x < Int32.two31)%Z).
  { rewrite Zlt_Qlt. eapply Qle_lt_trans; [apply Qfloor_le | exact Hlt]. }
  split; [| exact Hf0].
  unfold Int32.toInt32. cbv zeta. unfold Int32.two31, Int32.two32 in *.
  rewrite Z.mod_small by lia.
  destruct (Z.ltb_spec (Qfloor x) 2147483648); [reflexivity | lia].
Qed.

(** Below 2^31 a higher best score unlocks every trail a lower one
    unlocks.  From 2^31 up to 2^32 the score wraps to a negative integer
    under [| 0], and no trail that asks for a score of zero or more is
    unlocked. *)
Theorem unlocked_trails_grow_up_to_the_int32_wrap trails a b :
  (0 <= a -> a <= b -> b < inject_Z Int32.two31 ->
   incl (getUnlockedTrails trails a) (getUnlockedTrails trails b))
  /\ (inject_Z Int32.two31 <= b -> b < inject_Z Int32.two32 ->
      Forall (fun t => 0 <= minScore t) trails ->
      getUnlockedTrails trails b = []).
Proof.
  split.
  - intros H0 Hab Hb. unfold getUnlockedTrails. cbv zeta.
    destruct (toInt_small a H0) as [Ha _]; [lra|].
    destruct (toInt_small b) as [Hb' _]; [lra | exact Hb |].
    rewrite Ha, Hb'. intros id Hin. apply in_map_iff in Hin.
    destruct Hin as (t & Hid & Ht). apply filter_In in Ht. destruct Ht as [Ht Hle].
    apply in_map_iff. exists t. split; [exact Hid|]. apply filter_In. split; [exact Ht|].
    apply leb_le in Hle. apply leb_le. eapply Qle_trans; [exact Hle|].
    rewrite <- Zle_Qle. apply Qfloor_resp_le. exact Hab.
  - intros Hlo Hhi Hall. unfold getUnlockedTrails. cbv zeta.
    assert (Hneg : inject_Z (toInt b) < 0).
    { unfold toInt. rewrite truncZ_nonneg
        by (eapply Qle_trans; [| exact Hlo]; vm_compute; discriminate).
      assert (Hf0 : (Int32.two31 <= Qfloor b)%Z).
      { rewrite <- (Qfloor_Z Int32.two31). apply Qfloor_resp_le. exact Hlo. }
      assert (Hf1 : (Qfloor b < Int32.two32)%Z).
      { rewrite Zlt_Qlt. eapply Qle_lt_trans; [apply Qfloor_le | exact Hhi]. }
      unfold Int32.toInt32. cbv zeta. unfold Int32.two31, Int32.two32 in *.
      rewrite Z.mod_small by lia.
      destruct (Z.ltb_spec (Qfloor b) 2147483648); [lia|].
      change 0 with (inject_Z 0). rewrite <- Zlt_Qlt. lia. }
    induction Hall as [|t ts Ht Hts IH]; cbn [List.filter List.map]; [reflexivity|].
    destruct (leb (minScore t) (inject_Z (toInt b))) eqn:Hle; [| exact IH].
    apply leb_le in Hle. lra.
Qed.

End TrailFacts.
